(* ===== verification/_CoqProject ===== *)
-Q . S2P
Prelude.v
Op.v
OpTypes.v
Queue.v
Engine.v
Uring.v
UringSpec.v
UringEngine.v
UringProcess.v
UringWork.v
UringSim.v
UringTheorems.v
Setup.v
Driver.v
DriverSpec.v
System.v
Wake.v
WakeRefine.v
Tasks.v
Interval.v
IoOps.v
Tracing.v
EndToEnd.v
File.v
Fs.v
Socket.v
Message.v
Blocking.v
ReadDir.v
Runtime.v
Start.v
MainMacro.v
