(* ===== verification/Prelude.v ===== *)
(** * xx-pulse: a verification of its runtime

    xx-pulse is an asynchronous runtime: tasks run as coroutines of one thread,
    start I/O operations on an engine and are resumed when the operations
    complete.  The paths below are relative to the repository's src/src/.

    ** The program and its model

    - engine/uring/op.rs encodes operations into the 64-byte entries io_uring
      reads.  Op.v has every constructor over the raw fields of an entry, and
      [decode], the specification of what the kernel reads out of an entry; OpTypes.v
      has the widths of its slots.
    - engine/uring/engine.rs owns the rings shared with the kernel and implements
      the engine on them.  Queue.v has [Rings], [SubmissionQueue],
      [CompletionQueue] and [Queue] with their 32-bit wrapping indices; Uring.v
      has [IoUring]: submission ([push], [enter], [flush]), waiting
      ([submit_and_wait] and its variant for kernels without a timeout argument),
      wakes ([uring_prepare_wake], [uring_wake], [process_wake]), the delivery of
      completions ([run_events]) and every operation of [EngineImpl].
      Setup.v has the creation of a ring and of the engine.
      UringSpec.v has the specification of the kernel and the invariant of the
      rings, UringEngine.v the operations, UringProcess.v their use by the rest of
      the process and other threads, UringWork.v the delivery of completions and the
      measure by which it ends, UringTheorems.v the theorems, and UringSim.v a kernel
      on which they are applied.
      Wake.v is the protocol by which other threads wake the engine, as a step
      relation whose steps are the critical sections and system calls; WakeRefine.v
      shows that the code of Uring.v is simulated by it.
    - engine/mod.rs is the trait [EngineImpl], the fallback that makes the system
      calls directly ([SyncEngine]) and the wrapper [Engine]: Engine.v.
    - driver.rs has the timers, the main loop and the shutdown.  It uses the
      engine through its trait only: Driver.v is written against the class
      [EngineImpl], DriverSpec.v has its theorems, against the classes
      [ProcessLaws] and [EngineLaws].  System.v is the whole process, the driver
      over the io_uring engine: there the engine's theorems are the instances of
      those classes.
    - ops/timers.rs, ops/branch.rs, ops/mod.rs, impls.rs and the environment and
      [block_on] of runtime.rs: Tasks.v.  interval.rs: Interval.v, on the driver of
      Tasks.v.  ops/io.rs, the asynchronous functions of the operations: IoOps.v, and
      Tracing.v for what they log.  ops/blocking.rs: Blocking.v.  EndToEnd.v puts
      an operation of IoOps.v, the driver and the io_uring engine together.
    - fs/file.rs: File.v; fs/mod.rs: Fs.v; fs/readdir.rs: ReadDir.v.
    - net/socket.rs: Socket.v, transfers and connections, and Message.v, messages,
      options and the types of sockets.
    - runtime.rs: Runtime.v, the list of workers and the shutdown of the runtime;
      Start.v, its creation.
    - macros/src/lib.rs, the attribute of the main function: MainMacro.v.

    A computation is a function of the state monad [M S] below, over the state of
    the whole process or the part of it that matters, into an [outcome]: a value
    and the new state, or a panic, the abort of the process, the violation of an
    unsafe function's precondition, or lack of fuel.  Rust's [Result] is a sum;
    integers are [Z], wrapped or checked where the code wraps or checks, with a
    flag for builds with overflow checks.  Memory that is only passed on is its
    address.  [wp fatal] below is the weakest precondition of a computation:
    it returns, and the result satisfies the postcondition.  A panic, an undefined
    call and lack of fuel are never accepted; the abort of the process is
    accepted only where the parameter [fatal] holds, the case that the kernel
    refused a submission for good.  The engine's theorems hold for [fatal] false
    with a kernel that never does.

    ** What the theorems show

    - Entries and rings: the kernel reads back the operation and arguments of each
      entry constructed, whose slots keep to their widths (it refuses but a socket with
      flags, which the engine never asks for); the rings are first-in first-out queues
      across the wrap-around of their indices; the mappings hold the arrays used.
    - The engine: starting an operation submits the one request it stands for,
      cancelling names that request, a flush submits everything although the
      kernel may take little at a time, and [uring_work] delivers each completion
      exactly once to its request although the callbacks use the engine
      meanwhile.  [inv] relates the counters, the rings and the kernel; it is kept
      by every sequence of operations, completions and wakes, makes
      [uring_has_work] exact, and keeps every field in its type and every index
      inside the rings.  [IoUring::new] establishes it, or gives back what it took.
    - Wakes: in every interleaving of threads no wake is lost, the event descriptor
      is never read empty or polled twice, and what remains to do ends.  The code of
      the engine refines that protocol in any run ([engine_refines_protocol]), so that
      the waker never aborts the process.
    - The driver: timers fire neither early nor late and exactly once, cancelling is
      exact, the shutdown ends and completes every timer.
    - The process: over the io_uring engine the shutdown ends with every request
      delivered exactly once and every wake resumed, and [block_while] returns; both on
      kernels that take the timeout of a wait as an argument ([has_ext_arg], Linux 5.11).
      On older ones [submit_and_wait_compat] is used, of which the source says that it may
      hang; the theorems on a single unit of work cover it, those on termination do not.
      An operation of a task returns the kernel's one answer to its one entry; while a task
      is interrupted or the driver exits only closing is started.
    - Tasks and the runtime: the driver calls a timer's request successfully only when it is
      due ([driver_calls_rightly]), so that a sleep is not early; [block_on] returns the
      output of its task when the completion has cleared its cell, blocking work runs once
      or not at all, a new runtime is ready for use or everything is given back, and dropping
      it waits for every worker.
    - Intervals, I/O functions, files and sockets: the ticks of an interval lie on its
      grid and none is early; reads are contiguous, also after a seek, and a load returns the
      whole file; a transfer is made once;
      connections, accepted ones and directories leak no descriptor; an iteration
      returns every entry once; datagrams are filtered by their sender.
    - The main attribute: the function it generates awaits nothing outside of its
      runtime and runs like the original, or panics when the runtime cannot be started.
    - Where the code goes wrong on unusual inputs a theorem says how: closing a
      descriptor twice (IoOps.v), reading after a seek beyond 2^63 - 1 (File.v), the
      2^32nd push of a build with overflow checks (Queue.v), receiving from a sender
      the kernel does not name or an empty datagram when interrupted (Message.v), the length of a file whose size was not
      asked for (Fs.v), a timeout beyond 2^64 - 1 (DriverSpec.v), the trace of flags
      with an unknown bit (Tracing.v).

    Theorems about a client are proved against what it is promised: [kernel_spec]
    for the engine, [ProcessLaws] and [EngineLaws] for the driver, hypotheses on the
    operations for files and sockets.  The modules [Sim] of UringSim.v, [SimProcess]
    of DriverSpec.v, [SimSystem] of System.v and the worlds at the ends of the other
    files are concrete instances; the theorems are applied to them.

    ** Fuel

    [enter_loop] gets one more round than there are entries, since each round
    submits at least one or ends; [run_events_loop] gets the number of entries in
    the ring.  The loops that run callbacks ([process_wake_loop], [run_timers_loop],
    [exit_timers], [exit_engine], [block_while], [interrupt_workers],
    [runtime_drop], [ReadDir_next]) end only if callbacks and signals do not feed
    them forever; their theorems assume a measure of what those may still do and
    prove that fuel of that size is enough, so that none of them can be satisfied by
    a loop that does not return.  For the engine that measure is [effort]: requests not
    yet delivered, wakes expected, the times the kernel may still return early, and
    the operations callbacks may still start.  A wait ends only if the kernel
    completes what it holds ([kernel_waits]) and every announced wake comes
    ([promised], [ready]); the code relies on both.

    ** Parameters

    Code that is not in the repository is a parameter: the kernel, the callbacks of
    requests, xx-core's coroutines ([block_on], [check_interrupt], the budget of a
    task, the interruption of a context, [spawn_task] and [join]), the loop of
    [ReadExt::read_to_end], its thread pool, its conversions of results, paths and
    addresses, and std's drop of a descriptor.

    ** Not modelled

    The log itself: of the tracing of operations and the Debug instances what they show
    is modelled, of the log of synchronous transfers (net/socket.rs) and of debug
    messages nothing.  How xx-core runs the branches of select_many! and join_many!.
    The methods of the wrapper [Engine] but for its creation and pinning, and the
    instances of Read, Write and Seek for [File], which call the function of the same
    name.  A closure of [run_blocking] that panics.  The module declarations of lib.rs.
    The shutdown of the runtime is proved over what [Driver::exit] promises its workers
    (Runtime.v), not over System.v: that takes a model of which event each coroutine
    waits for, which is xx-core's. *)

From stdpp Require Import base list numbers relations tactics.

#[global] Open Scope Z_scope.

(** ** Outcomes of a Rust computation

    [Ret] is a normal return.  [Panic] is an unwinding panic ([unwrap],
    [expect], an arithmetic overflow of a build with overflow checks).  [Abort]
    is the end of the process requested by [expect_nounwind] and
    [panic_nounwind].  [Undefined] marks a call of an [unsafe] function whose
    precondition does not hold.  [NoFuel] is the only outcome that has no
    counterpart in the code: the fuel of a loop ran out. *)

Inductive outcome (A : Type) : Type :=
| Ret (a : A)
| Panic
| Abort
| Undefined
| NoFuel.

Arguments Ret {A} a.
Arguments Panic {A}.
Arguments Abort {A}.
Arguments Undefined {A}.
Arguments NoFuel {A}.

#[export] Instance outcome_ret : MRet outcome := λ A a, Ret a.

#[export] Instance outcome_bind : MBind outcome := λ A B f o,
  match o with
  | Ret a => f a
  | Panic => Panic
  | Abort => Abort
  | Undefined => Undefined
  | NoFuel => NoFuel
  end.

(** Stateful code: explicit state passing over [outcome]. *)

Definition M (S A : Type) : Type := S → outcome (A * S).

#[export] Instance M_ret S : MRet (M S) := λ A a s, Ret (a, s).

#[export] Instance M_bind S : MBind (M S) := λ A B f m s,
  match m s with
  | Ret (a, s') => f a s'
  | Panic => Panic
  | Abort => Abort
  | Undefined => Undefined
  | NoFuel => NoFuel
  end.

Definition get {S} : M S S := λ s, Ret (s, s).
Definition gets {S A} (f : S → A) : M S A := λ s, Ret (f s, s).
Definition modify {S} (f : S → S) : M S unit := λ s, Ret (tt, f s).
Definition abort {S A} : M S A := λ _, Abort.
Definition panic {S A} : M S A := λ _, Panic.
Definition no_fuel {S A} : M S A := λ _, NoFuel.
Definition lift {S A} (o : outcome A) : M S A := λ s, a ← o; Ret (a, s).

(** ** Results

    The error type of the crate ([xx_core::error::Error]) carries an OS error
    number or an [ErrorKind]; the messages of [fmt_error!] are kept. *)

Inductive result (A E : Type) : Type :=
| Ok (a : A)
| Err (e : E).

Arguments Ok {A E} a.
Arguments Err {A E} e.

Definition result_map {A B E} (f : A → B) (r : result A E) : result B E :=
  match r with Ok a => Ok (f a) | Err e => Err e end.

Definition result_is_ok {A E} (r : result A E) : bool :=
  match r with Ok _ => true | Err _ => false end.

(** OS errors are the error numbers of the Linux ABI, the values
    [err as isize] yields. *)

Definition OsError : Type := Z.

Module Os.
Definition Intr : OsError := 4.
Definition Again : OsError := 11.
Definition WouldBlock : OsError := 11.
Definition NoMem : OsError := 12.
Definition Busy : OsError := 16.
Definition NotDir : OsError := 20.
Definition NoSys : OsError := 38.
Definition Time : OsError := 62.
End Os.

Inductive ErrorKind : Type :=
| OutOfMemory
| Shutdown
| NotFound
| Interrupted
| Unimplemented
| NoAddresses
| OtherKind.

Inductive Error : Type :=
| ErrOs (e : OsError)
| ErrKind (k : ErrorKind).

Abbreviation Result A := (result A Error).
Abbreviation OsResult A := (result A OsError).

#[export] Instance ErrorKind_eq_dec : EqDecision ErrorKind.
Proof. solve_decision. Defined.

#[export] Instance Error_eq_dec : EqDecision Error.
Proof. intros [e|k] [e'|k']; unfold Decision, OsError in *;
  [destruct (Z.eq_dec e e')|right; congruence|right; congruence|destruct (decide (k = k'))];
  (left; congruence) || (right; congruence).
Defined.

#[export] Instance result_eq_dec {A E} `{!EqDecision A, !EqDecision E} : EqDecision (result A E).
Proof. solve_decision. Defined.

(** The [?] operator of a function returning [Result]. *)

Definition bind_ok {S A B} (m : M S (Result A)) (f : A → M S (Result B)) :
    M S (Result B) :=
  r ← m; match r with Ok a => f a | Err e => mret (Err e) end.

Notation "x ←? m ; k" := (bind_ok m (λ x, k))
  (at level 20, m at level 100, k at level 200, only parsing) : stdpp_scope.

(** ** Machine integers

    A [w]-bit unsigned integer is a [Z] in [0, 2^w); [as_u w] is the [as] cast
    to it (wrap-around) and [as_i w] the cast to the signed type. *)

Definition as_u (w x : Z) : Z := x mod 2 ^ w.

Definition as_i (w x : Z) : Z :=
  let y := x mod 2 ^ w in
  if y <? 2 ^ (w - 1) then y else y - 2 ^ w.

Definition fits_u (w x : Z) : bool := (0 <=? x) && (x <? 2 ^ w).
Definition fits_i (w x : Z) : bool := (- 2 ^ (w - 1) <=? x) && (x <? 2 ^ (w - 1)).

Definition in_u (w x : Z) : Prop := 0 ≤ x < 2 ^ w.
Definition in_i (w x : Z) : Prop := - 2 ^ (w - 1) ≤ x < 2 ^ (w - 1).

(** [a op b] of the plain operators: an overflow panics when the build has
    overflow checks and wraps otherwise. *)

Definition arith_u (overflow_checks : bool) (w x : Z) : outcome Z :=
  if fits_u w x then Ret x
  else if overflow_checks then Panic else Ret (as_u w x).

Definition checked_u (w x : Z) : option Z :=
  if fits_u w x then Some x else None.

Definition saturating_sub (a b : Z) : Z := Z.max 0 (a - b).

(** [Option::unwrap], [Option::expect] and [Result::unwrap]. *)

Definition unwrap {A} (o : option A) : outcome A :=
  match o with Some a => Ret a | None => Panic end.

(** [Result::expect_nounwind]: ends the process on an error. *)

Definition expect_nounwind {A E} (r : result A E) : outcome A :=
  match r with Ok a => Ret a | Err _ => Abort end.

(** ** Bit flags ([enumflags2::BitFlags] over [u32])*)

Definition flags_contains (a b : Z) : bool := Z.land a b =? b.
Definition flags_intersects (a b : Z) : bool := negb (Z.land a b =? 0).
Definition flags_insert (a b : Z) : Z := Z.lor a b.
Definition flags_remove (a b : Z) : Z := Z.ldiff a b.

(** ** Weakest preconditions

    [wpo fatal o Q]: the outcome [o] is a return that satisfies [Q], or the
    process ended and [fatal] says that it may.  No panic, no violated [unsafe]
    precondition and no exhausted fuel is ever accepted, so with
    [fatal := False] it states that the computation returns. *)

Definition wpo {A} (fatal : Prop) (o : outcome A) (Q : A → Prop) : Prop :=
  match o with
  | Ret a => Q a
  | Abort => fatal
  | Panic | Undefined | NoFuel => False
  end.

Definition wp {S A} (fatal : Prop) (m : M S A) (s : S) (Q : A → S → Prop) : Prop :=
  wpo fatal (m s) (λ p, Q p.1 p.2).

Section Wp.
Context {S : Type} (fatal : Prop).

Lemma wpo_mono {A} (o : outcome A) (P Q : A → Prop) :
  wpo fatal o P → (∀ a, P a → Q a) → wpo fatal o Q.
Proof. destruct o; simpl; auto. Qed.

Lemma wpo_bind {A B} (o : outcome A) (f : A → outcome B) Q :
  wpo fatal o (λ a, wpo fatal (f a) Q) → wpo fatal (o ≫= f) Q.
Proof. destruct o; simpl; auto. Qed.

Lemma wp_mono {A} (m : M S A) s (P Q : A → S → Prop) :
  wp fatal m s P → (∀ a s', P a s' → Q a s') → wp fatal m s Q.
Proof. intros H HPQ. eapply wpo_mono; [exact H|]. intros [a s']; simpl. apply HPQ. Qed.

Lemma wp_ret {A} (a : A) s (Q : A → S → Prop) : Q a s → wp fatal (mret a) s Q.
Proof. done. Qed.

Lemma wp_bind {A B} (m : M S A) (f : A → M S B) s Q :
  wp fatal m s (λ a s', wp fatal (f a) s' Q) → wp fatal (m ≫= f) s Q.
Proof.
  unfold wp, mbind, M_bind. destruct (m s) as [[a s']| | | |]; simpl; auto.
Qed.

Lemma wp_gets {A} (f : S → A) s Q : Q (f s) s → wp fatal (gets f) s Q.
Proof. done. Qed.

Lemma wp_modify (f : S → S) s (Q : unit → S → Prop) :
  Q tt (f s) → wp fatal (modify f) s Q.
Proof. done. Qed.

Lemma wp_lift {A} (o : outcome A) s (Q : A → S → Prop) :
  wpo fatal o (λ a, Q a s) → wp fatal (lift o) s Q.
Proof. destruct o; simpl; auto. Qed.

Lemma wp_bind_ok {A B} (m : M S (Result A)) (f : A → M S (Result B)) s
    (Q : Result B → S → Prop) :
  wp fatal m s (λ r s', match r with Ok a => wp fatal (f a) s' Q | Err e => Q (Err e) s' end) →
  wp fatal (bind_ok m f) s Q.
Proof.
  intros H. unfold bind_ok. apply wp_bind. eapply wp_mono; [exact H|].
  intros [a|e] s'; simpl; [done|]. apply wp_ret.
Qed.

Lemma wp_conj {A} (m : M S A) s (P Q : A → S → Prop) :
  wp fatal m s P → wp fatal m s Q → wp fatal m s (λ a s', P a s' ∧ Q a s').
Proof. unfold wp. destruct (m s) as [[a s']| | | |]; simpl; auto. Qed.

(** The postcondition may use the run itself. *)
Lemma wp_eq {A} (m : M S A) s Q :
  wp fatal m s Q → wp fatal m s (λ a s', m s = Ret (a, s') ∧ Q a s').
Proof. unfold wp. destruct (m s) as [[a s']| | | |]; simpl; auto. Qed.

Lemma wp_returns {A} (m : M S A) s Q :
  ¬ fatal → wp fatal m s Q → ∃ a s', m s = Ret (a, s') ∧ Q a s'.
Proof. unfold wp. destruct (m s) as [[a s']| | | |]; simpl; naive_solver. Qed.

Lemma wp_Ret {A} (m : M S A) s a s' Q :
  m s = Ret (a, s') → wp fatal m s Q → Q a s'.
Proof. unfold wp. by intros ->. Qed.
End Wp.

(** One step of symbolic execution of a [wp] goal. *)

Ltac wp_step :=
  lazymatch goal with
  | |- wp _ (mbind _ _) _ _ => apply wp_bind
  | |- wp _ (bind_ok _ _) _ _ => apply wp_bind_ok
  | |- wp _ (mret _) _ _ => apply wp_ret
  | |- wp _ (gets _) _ _ => apply wp_gets
  | |- wp _ get _ _ => apply wp_gets
  | |- wp _ (modify _) _ _ => apply wp_modify
  | |- wp _ (lift _) _ _ => apply wp_lift
  end.

Ltac wp_steps := repeat (wp_step; cbn beta).

(** ** Machine integer lemmas *)

Create HintDb machine.

Lemma fits_u_spec w x : fits_u w x = true ↔ in_u w x.
Proof. unfold fits_u, in_u. rewrite andb_true_iff. lia. Qed.

Lemma fits_u_true w x : in_u w x → fits_u w x = true.
Proof. apply fits_u_spec. Qed.

Lemma fits_u_false w x : ¬ in_u w x → fits_u w x = false.
Proof. intros H. destruct (fits_u w x) eqn:E; [|done]. by apply fits_u_spec in E. Qed.

Lemma as_u_range w x : 0 ≤ w → in_u w (as_u w x).
Proof. intros. apply Z.mod_pos_bound. by apply Z.pow_pos_nonneg. Qed.

Lemma as_u_id w x : in_u w x → as_u w x = x.
Proof. apply Z.mod_small. Qed.

Lemma as_u_add_l w x y : as_u w (as_u w x + y) = as_u w (x + y).
Proof. apply Zplus_mod_idemp_l. Qed.

Lemma as_u_add_r w x y : as_u w (x + as_u w y) = as_u w (x + y).
Proof. apply Zplus_mod_idemp_r. Qed.

Lemma as_u_sub_l w x y : as_u w (as_u w x - y) = as_u w (x - y).
Proof. apply Zminus_mod_idemp_l. Qed.

Lemma as_u_sub_r w x y : as_u w (x - as_u w y) = as_u w (x - y).
Proof. apply Zminus_mod_idemp_r. Qed.

Lemma as_u_idemp w x : as_u w (as_u w x) = as_u w x.
Proof. apply Zmod_mod. Qed.

Lemma as_i_as_u w x : 0 < w → in_i w x → as_i w (as_u w x) = x.
Proof.
  intros Hw Hx. unfold as_i, as_u, in_i in *. rewrite Zmod_mod.
  assert (2 ^ w = 2 * 2 ^ (w - 1)) as Hp.
  { rewrite <- Z.pow_succ_r by lia. f_equal. lia. }
  destruct (Z_lt_dec x 0).
  - replace (x mod 2 ^ w) with (x + 2 ^ w).
    + destruct (Z.ltb_spec (x + 2 ^ w) (2 ^ (w - 1))); lia.
    + rewrite <- (Z_mod_plus_full x 1), Z.mul_1_l. symmetry. apply Z.mod_small. lia.
  - rewrite Z.mod_small by lia. destruct (Z.ltb_spec x (2 ^ (w - 1))); lia.
Qed.

(** A cast to a wider unsigned type and back to the narrow signed one. *)

Lemma as_i_as_u_wide w v x : 0 < w ≤ v → in_i w x → as_i w (as_u v x) = x.
Proof.
  intros [Hw Hv] Hx. rewrite <- (as_i_as_u w x) at 2 by done.
  unfold as_i, as_u. rewrite Zmod_mod.
  rewrite Z.mod_mod_divide; [done|].
  exists (2 ^ (v - w)). rewrite <- Z.pow_add_r by lia. f_equal. lia.
Qed.

Lemma as_u_as_i w x : in_u w x → as_u w (as_i w x) = x.
Proof.
  intros Hx. unfold as_i, as_u, in_u in *. rewrite (Z.mod_small x) by lia.
  destruct (x <? 2 ^ (w - 1)); [by apply Z.mod_small|].
  rewrite <- (Z_mod_plus_full _ 1), Z.mul_1_l, Z.sub_add. by apply Z.mod_small.
Qed.

Lemma in_u_mono w v x : 0 ≤ w ≤ v → in_u w x → in_u v x.
Proof. unfold in_u. intros.
  assert (2 ^ w ≤ 2 ^ v) by (apply Z.pow_le_mono_r; lia). lia. Qed.

Lemma arith_u_fits b w x : in_u w x → arith_u b w x = Ret x.
Proof. intros H. unfold arith_u. by rewrite fits_u_true. Qed.

Lemma arith_u_wraps w x : arith_u false w x = Ret (as_u w x).
Proof.
  unfold arith_u. destruct (fits_u w x) eqn:E; [|done].
  apply fits_u_spec in E. by rewrite as_u_id.
Qed.

#[export] Hint Resolve as_u_range in_u_mono : machine.
#[export] Hint Rewrite as_u_add_l as_u_add_r as_u_sub_l as_u_sub_r as_u_idemp : machine.
