(* ===== verification/Op.v ===== *)
(** * Submission entries (src/src/engine/uring/op.rs)

    The entry type is the one io_uring shares with the kernel.  The private
    functions of op.rs that fill an entry are the definitions before [Module Op],
    the constructors [Op::*] are those of [Module Op], each in the order of the
    source.  [decode] is the specification: what the kernel reads out of an
    entry for its operation code, including the fields that must be zero for
    the entry to be accepted.  The round-trip theorem says that every
    constructor produces an entry that the kernel reads back as the operation
    and the arguments it was given. *)

From stdpp Require Import base list numbers tactics.
From S2P Require Import Prelude.

(** The operation codes the source names. *)

Inductive OpCode : Type :=
| NoOp | OpenAt | OpenAt2 | Close | Read | Write | ReadVector | WriteVector
| ReadFixed | WriteFixed | FileSync | Timeout | SyncFileRange | FileAllocate
| FileAdvise | MemoryAdvise | RenameAt | UnlinkAt | MkdirAt | SymlinkAt | LinkAt
| FileGetXAttr | FileSetXAttr | GetXAttr | SetXAttr | Splice | Tee | Statx
| Socket | Connect | Accept | Recv | Send | RecvMsg | SendMsg | SendZeroCopy
| OpShutdown | PollAdd | PollRemove | EPollCtl | AsyncCancel | FilesUpdate
| ProvideBuffers | RemoveBuffers.

#[export] Instance OpCode_eq_dec : EqDecision OpCode.
Proof. solve_decision. Defined.

(** [SubmissionEntry]: one field per slot of the kernel's layout.  A union is
    its slot: [off] is [off.off]/[off.addr], [addr] is [addr.addr]/[addr.off],
    [file] is [file.file_index]/[file.splice_fd_in]/[file.addr_len], as the
    unsigned value of its bytes. *)

Record SubmissionEntry : Type := mkEntry {
  op : OpCode;
  fd : Z;
  off : Z;
  addr : Z;
  len : Z;
  rw_flags : Z;
  user_data : Z;
  buf : Z;
  file : Z;
  addr3 : Z;
  pad : Z
}.

(** Assignments to one slot. *)

Definition set_op (v : OpCode) (e : SubmissionEntry) : SubmissionEntry :=
  mkEntry v (fd e) (off e) (addr e) (len e) (rw_flags e) (user_data e) (buf e) (file e) (addr3 e) (pad e).
Definition set_fd (v : Z) (e : SubmissionEntry) : SubmissionEntry :=
  mkEntry (op e) v (off e) (addr e) (len e) (rw_flags e) (user_data e) (buf e) (file e) (addr3 e) (pad e).
Definition set_off (v : Z) (e : SubmissionEntry) : SubmissionEntry :=
  mkEntry (op e) (fd e) v (addr e) (len e) (rw_flags e) (user_data e) (buf e) (file e) (addr3 e) (pad e).
Definition set_addr (v : Z) (e : SubmissionEntry) : SubmissionEntry :=
  mkEntry (op e) (fd e) (off e) v (len e) (rw_flags e) (user_data e) (buf e) (file e) (addr3 e) (pad e).
Definition set_len (v : Z) (e : SubmissionEntry) : SubmissionEntry :=
  mkEntry (op e) (fd e) (off e) (addr e) v (rw_flags e) (user_data e) (buf e) (file e) (addr3 e) (pad e).
Definition set_rw_flags (v : Z) (e : SubmissionEntry) : SubmissionEntry :=
  mkEntry (op e) (fd e) (off e) (addr e) (len e) v (user_data e) (buf e) (file e) (addr3 e) (pad e).
Definition set_user_data (v : Z) (e : SubmissionEntry) : SubmissionEntry :=
  mkEntry (op e) (fd e) (off e) (addr e) (len e) (rw_flags e) v (buf e) (file e) (addr3 e) (pad e).
Definition set_buf (v : Z) (e : SubmissionEntry) : SubmissionEntry :=
  mkEntry (op e) (fd e) (off e) (addr e) (len e) (rw_flags e) (user_data e) v (file e) (addr3 e) (pad e).
Definition set_file (v : Z) (e : SubmissionEntry) : SubmissionEntry :=
  mkEntry (op e) (fd e) (off e) (addr e) (len e) (rw_flags e) (user_data e) (buf e) v (addr3 e) (pad e).
Definition set_addr3 (v : Z) (e : SubmissionEntry) : SubmissionEntry :=
  mkEntry (op e) (fd e) (off e) (addr e) (len e) (rw_flags e) (user_data e) (buf e) (file e) v (pad e).
Definition set_pad (v : Z) (e : SubmissionEntry) : SubmissionEntry :=
  mkEntry (op e) (fd e) (off e) (addr e) (len e) (rw_flags e) (user_data e) (buf e) (file e) (addr3 e) v.

(** [entry.file.splice_fd_in = v]: an [i32] stored in the slot. *)

Definition set_splice_fd_in (v : Z) (e : SubmissionEntry) : SubmissionEntry :=
  set_file (as_u 32 v) e.

Section Entries.
(** [SubmissionEntry::default()] is code of xx-core; the target's endianness
    selects [swap_poll_mask] and the layout of [addr_len]. *)
Context (default : SubmissionEntry) (big_endian : bool).

(** [entry.file.addr_len.len = v] and [entry.file.addr_len.pad = [v]]: the two
    halves of the slot in memory order. *)
Definition set_addr_len_len (v : Z) (e : SubmissionEntry) : SubmissionEntry :=
  set_file (if big_endian then file e mod 2 ^ 16 + v * 2 ^ 16
            else file e / 2 ^ 16 * 2 ^ 16 + v) e.

Definition set_addr_len_pad (v : Z) (e : SubmissionEntry) : SubmissionEntry :=
  set_file (if big_endian then file e / 2 ^ 16 * 2 ^ 16 + v
            else file e mod 2 ^ 16 + v * 2 ^ 16) e.

Definition new_op (op : OpCode) : SubmissionEntry :=
  let entry := default in
  set_op op entry.

Definition rw (entry : SubmissionEntry) (fd addr len off flags : Z) : SubmissionEntry :=
  let entry := set_fd fd entry in
  let entry := set_addr addr entry in
  let entry := set_len len entry in
  let entry := set_off off entry in
  set_rw_flags flags entry.

Definition rw_fixed (entry : SubmissionEntry) (fd addr len off flags buf_index : Z) :
    SubmissionEntry :=
  let entry := rw entry fd addr len off flags in
  set_buf buf_index entry.

Definition close_entry (entry : SubmissionEntry) (fd file_index : Z) : SubmissionEntry :=
  let entry := rw_fixed entry fd 0 0 0 0 0 in
  set_file file_index entry.

Definition sync (entry : SubmissionEntry) (fd len off flags : Z) : SubmissionEntry :=
  let entry := rw_fixed entry fd 0 len off flags 0 in
  set_splice_fd_in 0 entry.

Definition advise (entry : SubmissionEntry) (addr len off flags : Z) : SubmissionEntry :=
  let entry := set_addr addr entry in
  let entry := set_len len entry in
  let entry := set_off off entry in
  let entry := set_rw_flags flags entry in
  let entry := set_buf 0 entry in
  set_splice_fd_in 0 entry.

Definition fs (entry : SubmissionEntry) (fd0 ptr0 fd1 ptr1 flags : Z) : SubmissionEntry :=
  let entry := set_fd fd0 entry in
  let entry := set_addr ptr0 entry in
  let entry := set_len (as_u 32 fd1) entry in
  let entry := set_off ptr1 entry in
  let entry := set_rw_flags flags entry in
  let entry := set_buf 0 entry in
  set_splice_fd_in 0 entry.

Definition fxattr (entry : SubmissionEntry) (fd name value len flags : Z) : SubmissionEntry :=
  let entry := set_fd fd entry in
  let entry := set_addr name entry in
  let entry := set_len len entry in
  let entry := set_off value entry in
  set_rw_flags flags entry.

Definition xattr (entry : SubmissionEntry) (path name value len flags : Z) : SubmissionEntry :=
  let entry := set_addr3 path entry in
  let entry := set_addr name entry in
  let entry := set_len len entry in
  let entry := set_off value entry in
  set_rw_flags flags entry.

Definition splice_entry (entry : SubmissionEntry) (fd_in off_in fd_out off_out len flags : Z) :
    SubmissionEntry :=
  let entry := set_splice_fd_in fd_in entry in
  let entry := set_addr off_in entry in
  let entry := set_fd fd_out entry in
  let entry := set_off off_out entry in
  let entry := set_len len entry in
  set_rw_flags flags entry.

Definition socket_entry (entry : SubmissionEntry) (fd addr len off flags file_index : Z) :
    SubmissionEntry :=
  let entry := rw_fixed entry fd addr len off flags 0 in
  set_file file_index entry.

Definition socket_rw (entry : SubmissionEntry) (fd addr len flags : Z) : SubmissionEntry :=
  let entry := rw entry fd addr len 0 flags in
  set_file 0 entry.

Definition buffer (entry : SubmissionEntry) (addr len nr bgid bid : Z) : SubmissionEntry :=
  let entry := set_fd nr entry in
  let entry := set_addr addr entry in
  let entry := set_len len entry in
  let entry := set_off bid entry in
  let entry := set_buf bgid entry in
  set_rw_flags 0 entry.

Definition swap_poll_mask (mask : Z) : Z :=
  if big_endian then Z.lor (as_u 32 (Z.shiftl mask 16)) (Z.shiftr mask 16)
  else mask.
End Entries.

(** [AsyncCancelFlag] of the io_uring ABI. *)

Definition AsyncCancelFd : Z := 2.
Definition AsyncCancelAny : Z := 4.
Definition AsyncCancelFdFixed : Z := 8.

Module Op.
Section Op.
Context (default : SubmissionEntry) (big_endian : bool).
(** [size_of::<OpenHow>()]. *)
Context (size_of_OpenHow : Z).

Local Abbreviation new_op := (new_op default).

Definition nop : SubmissionEntry := new_op NoOp.

Definition openat (dfd path flags mode file_index : Z) : SubmissionEntry :=
  let entry := new_op OpenAt in
  let entry := set_fd dfd entry in
  let entry := set_addr path entry in
  let entry := set_len mode entry in
  let entry := set_rw_flags flags entry in
  let entry := set_buf 0 entry in
  set_file file_index entry.

Definition openat2 (dfd path how file_index : Z) : SubmissionEntry :=
  let entry := new_op OpenAt2 in
  let entry := set_fd dfd entry in
  let entry := set_addr path entry in
  let entry := set_len (as_u 32 size_of_OpenHow) entry in
  let entry := set_off how entry in
  let entry := set_buf 0 entry in
  set_file file_index entry.

Definition close (fd : Z) : SubmissionEntry := close_entry (new_op Close) fd 0.

Definition close_direct (file_index : Z) : SubmissionEntry :=
  close_entry (new_op Close) 0 file_index.

Definition read (fd addr len off flags : Z) : SubmissionEntry :=
  rw (new_op Read) fd addr len (as_u 64 off) flags.

Definition write (fd addr len off flags : Z) : SubmissionEntry :=
  rw (new_op Write) fd addr len (as_u 64 off) flags.

Definition readv (fd iovecs iovecs_len off flags : Z) : SubmissionEntry :=
  rw (new_op ReadVector) fd iovecs iovecs_len (as_u 64 off) flags.

Definition writev (fd iovecs iovecs_len off flags : Z) : SubmissionEntry :=
  rw (new_op WriteVector) fd iovecs iovecs_len (as_u 64 off) flags.

Definition read_fixed (fd addr len off buf_index flags : Z) : SubmissionEntry :=
  rw_fixed (new_op ReadFixed) fd addr len (as_u 64 off) flags buf_index.

Definition write_fixed (fd addr len off buf_index flags : Z) : SubmissionEntry :=
  rw_fixed (new_op WriteFixed) fd addr len (as_u 64 off) flags buf_index.

Definition fsync (fd flags : Z) : SubmissionEntry := sync (new_op FileSync) fd 0 0 flags.

Definition timeout (timespec count flags : Z) : SubmissionEntry :=
  rw (new_op Timeout) 0 timespec 1 count flags.

Definition sync_file_range (fd len off flags : Z) : SubmissionEntry :=
  sync (new_op SyncFileRange) fd len (as_u 64 off) flags.

Definition fallocate (fd mode off len : Z) : SubmissionEntry :=
  let entry := rw_fixed (new_op FileAllocate) fd (as_u 64 len) (as_u 32 mode)
                 (as_u 64 off) 0 0 in
  set_splice_fd_in 0 entry.

Definition fadvise (fd off len flags : Z) : SubmissionEntry :=
  let entry := advise (new_op FileAdvise) 0 len off flags in
  set_fd fd entry.

Definition madvise (addr len flags : Z) : SubmissionEntry :=
  advise (new_op MemoryAdvise) addr len 0 flags.

Definition renameat (old_dfd old_path new_dfd new_path flags : Z) : SubmissionEntry :=
  fs (new_op RenameAt) old_dfd old_path new_dfd new_path flags.

Definition unlinkat (dfd path flags : Z) : SubmissionEntry :=
  fs (new_op UnlinkAt) dfd path 0 0 flags.

Definition mkdirat (dfd path mode : Z) : SubmissionEntry :=
  fs (new_op MkdirAt) dfd path (as_i 32 mode) 0 0.

Definition symlinkat (target newdirfd linkpath : Z) : SubmissionEntry :=
  fs (new_op SymlinkAt) newdirfd target 0 linkpath 0.

Definition linkat (old_dfd old_path new_dfd new_path flags : Z) : SubmissionEntry :=
  fs (new_op LinkAt) old_dfd old_path new_dfd new_path flags.

Definition fgetxattr (fd name value len : Z) : SubmissionEntry :=
  fxattr (new_op FileGetXAttr) fd name value len 0.

Definition fsetxattr (fd name value len flags : Z) : SubmissionEntry :=
  fxattr (new_op FileSetXAttr) fd name value len flags.

Definition getxattr (path name value len : Z) : SubmissionEntry :=
  xattr (new_op GetXAttr) path name value len 0.

Definition setxattr (path name value len flags : Z) : SubmissionEntry :=
  xattr (new_op SetXAttr) path name value len flags.

Definition splice (fd_in off_in fd_out off_out len flags : Z) : SubmissionEntry :=
  splice_entry (new_op Splice) fd_in (as_u 64 off_in) fd_out (as_u 64 off_out) len flags.

Definition tee (fd_in fd_out len flags : Z) : SubmissionEntry :=
  splice_entry (new_op Tee) fd_in 0 fd_out 0 len flags.

Definition statx (fd path flags mask statx : Z) : SubmissionEntry :=
  rw_fixed (new_op Statx) fd path mask statx flags 0.

Definition socket (domain socket_type protocol flags file_index : Z) : SubmissionEntry :=
  socket_entry (new_op Socket) (as_i 32 domain) 0 protocol socket_type flags file_index.

Definition connect (fd addr addrlen : Z) : SubmissionEntry :=
  socket_entry (new_op Connect) fd addr 0 (as_u 64 addrlen) 0 0.

Definition accept (fd addr addrlen flags file_index : Z) : SubmissionEntry :=
  socket_entry (new_op Accept) fd addr 0 addrlen flags file_index.

Definition recv (fd buf len flags : Z) : SubmissionEntry :=
  socket_rw (new_op Recv) fd buf len flags.

Definition send (fd buf len flags : Z) : SubmissionEntry :=
  socket_rw (new_op Send) fd buf len flags.

Definition recvmsg (fd msg flags : Z) : SubmissionEntry :=
  socket_rw (new_op RecvMsg) fd msg 1 flags.

Definition sendmsg (fd msg flags : Z) : SubmissionEntry :=
  socket_rw (new_op SendMsg) fd msg 1 flags.

(** Panics when [addrlen] does not fit in a [u16]. *)
Definition sendto_zc (fd buf len flags addr addrlen buf_index : Z) : outcome SubmissionEntry :=
  let entry := new_op SendZeroCopy in
  let entry := set_fd fd entry in
  let entry := set_addr buf entry in
  let entry := set_len len entry in
  let entry := set_off addr entry in
  addrlen' ← unwrap (checked_u 16 addrlen);
  let entry := set_addr_len_len big_endian addrlen' entry in
  let entry := set_addr_len_pad big_endian 0 entry in
  let entry := set_rw_flags flags entry in
  let entry := set_addr3 0 entry in
  let entry := set_buf buf_index entry in
  Ret (set_pad 0 entry).

Definition send_zc (fd buf len flags buf_index : Z) : outcome SubmissionEntry :=
  sendto_zc fd buf len flags 0 0 buf_index.

Definition shutdown (fd how : Z) : SubmissionEntry :=
  socket_entry (new_op OpShutdown) fd 0 how 0 0 0.

Definition poll (fd mask : Z) : SubmissionEntry :=
  rw_fixed (new_op PollAdd) fd 0 0 0 (swap_poll_mask big_endian mask) 0.

Definition poll_update (mask flags : Z) : SubmissionEntry :=
  let entry := new_op PollRemove in
  let entry := set_len flags entry in
  let entry := set_off 0 entry in
  let entry := set_rw_flags (swap_poll_mask big_endian mask) entry in
  let entry := set_buf 0 entry in
  set_splice_fd_in 0 entry.

Definition epoll_ctl (ep op fd event : Z) : SubmissionEntry :=
  let entry := new_op EPollCtl in
  let entry := set_buf 0 entry in
  let entry := set_splice_fd_in 0 entry in
  let entry := set_fd ep entry in
  let entry := set_addr event entry in
  let entry := set_len op entry in
  set_off (as_u 64 fd) entry.

Definition poll_cancel : SubmissionEntry :=
  let entry := new_op PollRemove in
  let entry := set_len 0 entry in
  let entry := set_off 0 entry in
  let entry := set_rw_flags 0 entry in
  let entry := set_buf 0 entry in
  set_splice_fd_in 0 entry.

Definition cancel (flags : Z) : SubmissionEntry :=
  let entry := new_op AsyncCancel in
  let entry := set_len 0 entry in
  let entry := set_off 0 entry in
  let entry := set_rw_flags flags entry in
  set_splice_fd_in 0 entry.

Definition cancel_fd (fd flags : Z) : SubmissionEntry :=
  let entry := rw (new_op AsyncCancel) fd 0 0 0 (Z.lor flags AsyncCancelFd) in
  set_splice_fd_in 0 entry.

Definition cancel_fixed (file_index flags : Z) : SubmissionEntry :=
  cancel_fd (as_i 32 file_index) (Z.lor flags AsyncCancelFdFixed).

Definition cancel_all : SubmissionEntry :=
  let entry := rw (new_op AsyncCancel) 0 0 0 0 AsyncCancelAny in
  set_splice_fd_in 0 entry.

Definition files_update (fds len off : Z) : SubmissionEntry :=
  let entry := new_op FilesUpdate in
  let entry := set_addr fds entry in
  let entry := set_len len entry in
  let entry := set_off off entry in
  let entry := set_rw_flags 0 entry in
  set_splice_fd_in 0 entry.

Definition provide_buffers (addr len count bgid bid : Z) : SubmissionEntry :=
  buffer (new_op ProvideBuffers) addr len count bgid bid.

Definition remove_buffers (count bgid : Z) : SubmissionEntry :=
  buffer (new_op RemoveBuffers) 0 0 count bgid 0.
End Op.
End Op.

(** ** What the kernel reads out of an entry *)

Inductive KernelOp : Type :=
| KNop
| KOpenAt (dfd path flags mode file_slot : Z)
| KOpenAt2 (dfd path how size file_slot : Z)
| KClose (fd file_slot : Z)
| KRw (code : OpCode) (fd addr len pos flags buf_index : Z)
| KFsync (fd flags start stop : Z)
| KTimeout (timespec count flags : Z)
| KSyncRange (fd off len flags : Z)
| KFallocate (fd mode off len : Z)
| KFadvise (fd off len advice : Z)
| KMadvise (addr len advice : Z)
| KRename (code : OpCode) (old_dfd old_path new_dfd new_path flags : Z)
| KUnlink (dfd path flags : Z)
| KMkdir (dfd path mode : Z)
| KSymlink (target newdirfd linkpath : Z)
| KXattr (code : OpCode) (fd path name value len flags : Z)
| KSplice (fd_in off_in fd_out off_out len flags : Z)
| KTee (fd_in fd_out len flags : Z)
| KStatx (dfd path flags mask statx : Z)
| KSocket (domain socket_type protocol file_slot : Z)
| KConnect (fd addr addrlen : Z)
| KAccept (fd addr addrlen flags file_slot : Z)
| KSendRecv (code : OpCode) (fd addr len flags : Z)
| KSendZc (fd buf len flags addr addrlen buf_index : Z)
| KShutdown (fd how : Z)
| KPollAdd (fd events : Z)
| KPollRemove (old_user_data flags events : Z)
| KEpollCtl (ep op fd event : Z)
| KCancel (key fd flags : Z)
| KFilesUpdate (fds len off : Z)
| KProvide (addr len count bgid bid : Z)
| KRemove (count bgid : Z).

Definition zero (l : list Z) : bool := forallb (Z.eqb 0) l.

Definition accept_if {A} (b : bool) (a : A) : option A := if b then Some a else None.

Section Decode.
Context (big_endian : bool).

(** The half of the [file] slot that holds [addr_len.len]. *)
Definition addr_len (e : SubmissionEntry) : Z :=
  if big_endian then file e / 2 ^ 16 else file e mod 2 ^ 16.

(** The preparation of a request for each operation code: [None] is [EINVAL]. *)
Definition decode (e : SubmissionEntry) : option KernelOp :=
  match op e with
  | NoOp => Some KNop
  | OpenAt =>
      accept_if (zero [buf e]) (KOpenAt (fd e) (addr e) (rw_flags e) (len e) (file e))
  | OpenAt2 =>
      accept_if (zero [buf e]) (KOpenAt2 (fd e) (addr e) (off e) (len e) (file e))
  | Close =>
      accept_if (zero [off e; addr e; len e; rw_flags e; buf e]) (KClose (fd e) (file e))
  | Read | Write | ReadVector | WriteVector | ReadFixed | WriteFixed =>
      Some (KRw (op e) (fd e) (addr e) (len e) (as_i 64 (off e)) (rw_flags e) (buf e))
  | FileSync =>
      accept_if (zero [addr e; buf e; file e])
        (KFsync (fd e) (rw_flags e) (off e) (off e + len e))
  | Timeout =>
      accept_if (zero [buf e; len e - 1; file e]) (KTimeout (addr e) (off e) (rw_flags e))
  | SyncFileRange =>
      accept_if (zero [addr e; buf e; file e])
        (KSyncRange (fd e) (as_i 64 (off e)) (len e) (rw_flags e))
  | FileAllocate =>
      accept_if (zero [buf e; rw_flags e; file e])
        (KFallocate (fd e) (as_i 32 (len e)) (as_i 64 (off e)) (as_i 64 (addr e)))
  | FileAdvise =>
      accept_if (zero [buf e; file e; addr e]) (KFadvise (fd e) (off e) (len e) (rw_flags e))
  | MemoryAdvise =>
      accept_if (zero [buf e; file e; off e]) (KMadvise (addr e) (len e) (rw_flags e))
  | RenameAt | LinkAt =>
      accept_if (zero [buf e; file e])
        (KRename (op e) (fd e) (addr e) (as_i 32 (len e)) (off e) (rw_flags e))
  | UnlinkAt =>
      accept_if (zero [off e; len e; buf e; file e]) (KUnlink (fd e) (addr e) (rw_flags e))
  | MkdirAt =>
      accept_if (zero [off e; rw_flags e; buf e; file e]) (KMkdir (fd e) (addr e) (len e))
  | SymlinkAt =>
      accept_if (zero [len e; rw_flags e; buf e; file e]) (KSymlink (addr e) (fd e) (off e))
  | FileGetXAttr | GetXAttr =>
      accept_if (zero [rw_flags e])
        (KXattr (op e) (fd e) (addr3 e) (addr e) (off e) (len e) (rw_flags e))
  | FileSetXAttr | SetXAttr =>
      Some (KXattr (op e) (fd e) (addr3 e) (addr e) (off e) (len e) (rw_flags e))
  | Splice =>
      Some (KSplice (as_i 32 (file e)) (as_i 64 (addr e)) (fd e) (as_i 64 (off e))
              (len e) (rw_flags e))
  | Tee =>
      accept_if (zero [addr e; off e]) (KTee (as_i 32 (file e)) (fd e) (len e) (rw_flags e))
  | Statx =>
      accept_if (zero [buf e; file e])
        (KStatx (fd e) (addr e) (rw_flags e) (len e) (off e))
  | Socket =>
      accept_if (zero [addr e; rw_flags e; buf e])
        (KSocket (as_u 32 (fd e)) (off e) (len e) (file e))
  | Connect =>
      accept_if (zero [len e; buf e; rw_flags e; file e])
        (KConnect (fd e) (addr e) (as_i 32 (off e)))
  | Accept =>
      accept_if (zero [len e; buf e]) (KAccept (fd e) (addr e) (off e) (rw_flags e) (file e))
  | Recv | Send | RecvMsg | SendMsg =>
      accept_if (zero [off e; file e])
        (KSendRecv (op e) (fd e) (addr e) (len e) (rw_flags e))
  | SendZeroCopy =>
      accept_if (zero [addr3 e; pad e])
        (KSendZc (fd e) (addr e) (len e) (rw_flags e) (off e) (addr_len e) (buf e))
  | OpShutdown =>
      accept_if (zero [off e; addr e; rw_flags e; buf e; file e]) (KShutdown (fd e) (len e))
  | PollAdd =>
      accept_if (zero [off e; addr e; len e; buf e])
        (KPollAdd (fd e) (swap_poll_mask big_endian (rw_flags e)))
  | PollRemove =>
      accept_if (zero [buf e; file e; off e])
        (KPollRemove (addr e) (len e) (swap_poll_mask big_endian (rw_flags e)))
  | EPollCtl =>
      accept_if (zero [buf e; file e])
        (KEpollCtl (fd e) (len e) (as_i 32 (off e)) (addr e))
  | AsyncCancel =>
      accept_if (zero [off e; len e; file e]) (KCancel (addr e) (fd e) (rw_flags e))
  | FilesUpdate =>
      accept_if (zero [rw_flags e; file e]) (KFilesUpdate (addr e) (len e) (off e))
  | ProvideBuffers =>
      accept_if (zero [rw_flags e; file e])
        (KProvide (addr e) (len e) (fd e) (buf e) (off e))
  | RemoveBuffers =>
      accept_if (zero [rw_flags e; addr e; len e; off e; file e]) (KRemove (fd e) (buf e))
  end.
End Decode.

(** A call of a constructor of [Op], with its arguments. *)

Inductive OpCall : Type :=
| Cnop
| Copenat (dfd path flags mode file_index : Z)
| Copenat2 (dfd path how file_index : Z)
| Cclose (fd : Z)
| Cclose_direct (file_index : Z)
| Cread (fd addr len off flags : Z)
| Cwrite (fd addr len off flags : Z)
| Creadv (fd iovecs iovecs_len off flags : Z)
| Cwritev (fd iovecs iovecs_len off flags : Z)
| Cread_fixed (fd addr len off buf_index flags : Z)
| Cwrite_fixed (fd addr len off buf_index flags : Z)
| Cfsync (fd flags : Z)
| Ctimeout (timespec count flags : Z)
| Csync_file_range (fd len off flags : Z)
| Cfallocate (fd mode off len : Z)
| Cfadvise (fd off len flags : Z)
| Cmadvise (addr len flags : Z)
| Crenameat (old_dfd old_path new_dfd new_path flags : Z)
| Cunlinkat (dfd path flags : Z)
| Cmkdirat (dfd path mode : Z)
| Csymlinkat (target newdirfd linkpath : Z)
| Clinkat (old_dfd old_path new_dfd new_path flags : Z)
| Cfgetxattr (fd name value len : Z)
| Cfsetxattr (fd name value len flags : Z)
| Cgetxattr (path name value len : Z)
| Csetxattr (path name value len flags : Z)
| Csplice (fd_in off_in fd_out off_out len flags : Z)
| Ctee (fd_in fd_out len flags : Z)
| Cstatx (fd path flags mask statx : Z)
| Csocket (domain socket_type protocol flags file_index : Z)
| Cconnect (fd addr addrlen : Z)
| Caccept (fd addr addrlen flags file_index : Z)
| Crecv (fd buf len flags : Z)
| Csend (fd buf len flags : Z)
| Crecvmsg (fd msg flags : Z)
| Csendmsg (fd msg flags : Z)
| Csend_zc (fd buf len flags buf_index : Z)
| Csendto_zc (fd buf len flags addr addrlen buf_index : Z)
| Cshutdown (fd how : Z)
| Cpoll (fd mask : Z)
| Cpoll_update (mask flags : Z)
| Cepoll_ctl (ep op fd event : Z)
| Cpoll_cancel
| Ccancel (flags : Z)
| Ccancel_fd (fd flags : Z)
| Ccancel_fixed (file_index flags : Z)
| Ccancel_all
| Cfiles_update (fds len off : Z)
| Cprovide_buffers (addr len count bgid bid : Z)
| Cremove_buffers (count bgid : Z).

Section Calls.
Context (default : SubmissionEntry) (big_endian : bool) (size_of_OpenHow : Z).

Definition encode (c : OpCall) : outcome SubmissionEntry :=
  match c with
  | Cnop => Ret (Op.nop default)
  | Copenat a b c d e => Ret (Op.openat default a b c d e)
  | Copenat2 a b c d => Ret (Op.openat2 default size_of_OpenHow a b c d)
  | Cclose a => Ret (Op.close default a)
  | Cclose_direct a => Ret (Op.close_direct default a)
  | Cread a b c d e => Ret (Op.read default a b c d e)
  | Cwrite a b c d e => Ret (Op.write default a b c d e)
  | Creadv a b c d e => Ret (Op.readv default a b c d e)
  | Cwritev a b c d e => Ret (Op.writev default a b c d e)
  | Cread_fixed a b c d e f => Ret (Op.read_fixed default a b c d e f)
  | Cwrite_fixed a b c d e f => Ret (Op.write_fixed default a b c d e f)
  | Cfsync a b => Ret (Op.fsync default a b)
  | Ctimeout a b c => Ret (Op.timeout default a b c)
  | Csync_file_range a b c d => Ret (Op.sync_file_range default a b c d)
  | Cfallocate a b c d => Ret (Op.fallocate default a b c d)
  | Cfadvise a b c d => Ret (Op.fadvise default a b c d)
  | Cmadvise a b c => Ret (Op.madvise default a b c)
  | Crenameat a b c d e => Ret (Op.renameat default a b c d e)
  | Cunlinkat a b c => Ret (Op.unlinkat default a b c)
  | Cmkdirat a b c => Ret (Op.mkdirat default a b c)
  | Csymlinkat a b c => Ret (Op.symlinkat default a b c)
  | Clinkat a b c d e => Ret (Op.linkat default a b c d e)
  | Cfgetxattr a b c d => Ret (Op.fgetxattr default a b c d)
  | Cfsetxattr a b c d e => Ret (Op.fsetxattr default a b c d e)
  | Cgetxattr a b c d => Ret (Op.getxattr default a b c d)
  | Csetxattr a b c d e => Ret (Op.setxattr default a b c d e)
  | Csplice a b c d e f => Ret (Op.splice default a b c d e f)
  | Ctee a b c d => Ret (Op.tee default a b c d)
  | Cstatx a b c d e => Ret (Op.statx default a b c d e)
  | Csocket a b c d e => Ret (Op.socket default a b c d e)
  | Cconnect a b c => Ret (Op.connect default a b c)
  | Caccept a b c d e => Ret (Op.accept default a b c d e)
  | Crecv a b c d => Ret (Op.recv default a b c d)
  | Csend a b c d => Ret (Op.send default a b c d)
  | Crecvmsg a b c => Ret (Op.recvmsg default a b c)
  | Csendmsg a b c => Ret (Op.sendmsg default a b c)
  | Csend_zc a b c d e => Op.send_zc default big_endian a b c d e
  | Csendto_zc a b c d e f g => Op.sendto_zc default big_endian a b c d e f g
  | Cshutdown a b => Ret (Op.shutdown default a b)
  | Cpoll a b => Ret (Op.poll default big_endian a b)
  | Cpoll_update a b => Ret (Op.poll_update default big_endian a b)
  | Cepoll_ctl a b c d => Ret (Op.epoll_ctl default a b c d)
  | Cpoll_cancel => Ret (Op.poll_cancel default)
  | Ccancel a => Ret (Op.cancel default a)
  | Ccancel_fd a b => Ret (Op.cancel_fd default a b)
  | Ccancel_fixed a b => Ret (Op.cancel_fixed default a b)
  | Ccancel_all => Ret (Op.cancel_all default)
  | Cfiles_update a b c => Ret (Op.files_update default a b c)
  | Cprovide_buffers a b c d e => Ret (Op.provide_buffers default a b c d e)
  | Cremove_buffers a b => Ret (Op.remove_buffers default a b)
  end.

(** The request the call asks for. *)
Definition meaning (c : OpCall) : KernelOp :=
  match c with
  | Cnop => KNop
  | Copenat dfd path flags mode slot => KOpenAt dfd path flags mode slot
  | Copenat2 dfd path how slot => KOpenAt2 dfd path how size_of_OpenHow slot
  | Cclose fd => KClose fd 0
  | Cclose_direct slot => KClose 0 slot
  | Cread fd a n off fl => KRw Read fd a n off fl 0
  | Cwrite fd a n off fl => KRw Write fd a n off fl 0
  | Creadv fd a n off fl => KRw ReadVector fd a n off fl 0
  | Cwritev fd a n off fl => KRw WriteVector fd a n off fl 0
  | Cread_fixed fd a n off b fl => KRw ReadFixed fd a n off fl b
  | Cwrite_fixed fd a n off b fl => KRw WriteFixed fd a n off fl b
  | Cfsync fd fl => KFsync fd fl 0 0
  | Ctimeout ts n fl => KTimeout ts n fl
  | Csync_file_range fd n off fl => KSyncRange fd off n fl
  | Cfallocate fd mode off n => KFallocate fd mode off n
  | Cfadvise fd off n fl => KFadvise fd off n fl
  | Cmadvise a n fl => KMadvise a n fl
  | Crenameat a b c d fl => KRename RenameAt a b c d fl
  | Cunlinkat dfd path fl => KUnlink dfd path fl
  | Cmkdirat dfd path mode => KMkdir dfd path mode
  | Csymlinkat t d l => KSymlink t d l
  | Clinkat a b c d fl => KRename LinkAt a b c d fl
  | Cfgetxattr fd name v n => KXattr FileGetXAttr fd 0 name v n 0
  | Cfsetxattr fd name v n fl => KXattr FileSetXAttr fd 0 name v n fl
  | Cgetxattr path name v n => KXattr GetXAttr 0 path name v n 0
  | Csetxattr path name v n fl => KXattr SetXAttr 0 path name v n fl
  | Csplice a b c d n fl => KSplice a b c d n fl
  | Ctee a b n fl => KTee a b n fl
  | Cstatx fd path fl mask st => KStatx fd path fl mask st
  | Csocket d t p _ slot => KSocket d t p slot
  | Cconnect fd a n => KConnect fd a n
  | Caccept fd a n fl slot => KAccept fd a n fl slot
  | Crecv fd a n fl => KSendRecv Recv fd a n fl
  | Csend fd a n fl => KSendRecv Send fd a n fl
  | Crecvmsg fd m fl => KSendRecv RecvMsg fd m 1 fl
  | Csendmsg fd m fl => KSendRecv SendMsg fd m 1 fl
  | Csend_zc fd b n fl i => KSendZc fd b n fl 0 0 i
  | Csendto_zc fd b n fl a al i => KSendZc fd b n fl a al i
  | Cshutdown fd how => KShutdown fd how
  | Cpoll fd mask => KPollAdd fd mask
  | Cpoll_update mask fl => KPollRemove 0 fl mask
  | Cepoll_ctl ep o fd ev => KEpollCtl ep o fd ev
  | Cpoll_cancel => KPollRemove 0 0 0
  | Ccancel fl => KCancel 0 0 fl
  | Ccancel_fd fd fl => KCancel 0 fd (Z.lor fl AsyncCancelFd)
  | Ccancel_fixed i fl => KCancel 0 i (Z.lor (Z.lor fl AsyncCancelFdFixed) AsyncCancelFd)
  | Ccancel_all => KCancel 0 0 AsyncCancelAny
  | Cfiles_update a n o => KFilesUpdate a n o
  | Cprovide_buffers a n c g b => KProvide a n c g b
  | Cremove_buffers c g => KRemove c g
  end.

(** The kernel has no flags for a new socket and rejects an entry with any. *)
Definition kernel_takes (c : OpCall) : bool :=
  match c with Csocket _ _ _ flags _ => 0 =? flags | _ => true end.

(** The arguments have the values their Rust types allow, as far as a cast or
    a conversion depends on it; a fixed file index is below [i32::MAX]. *)
Definition args_ok (c : OpCall) : Prop :=
  match c with
  | Cread _ _ _ off _ | Cwrite _ _ _ off _ | Creadv _ _ _ off _ | Cwritev _ _ _ off _
  | Cread_fixed _ _ _ off _ _ | Cwrite_fixed _ _ _ off _ _
  | Csync_file_range _ _ off _ => in_i 64 off
  | Cfallocate _ mode off n => in_i 32 mode ∧ in_i 64 off ∧ in_i 64 n
  | Crenameat _ _ d _ _ | Clinkat _ _ d _ _ => in_i 32 d
  | Cmkdirat _ _ mode => in_u 32 mode
  | Csplice a off_in _ off_out _ _ => in_i 32 a ∧ in_i 64 off_in ∧ in_i 64 off_out
  | Ctee a _ _ _ => in_i 32 a
  | Csocket d _ _ _ _ => in_u 32 d
  | Cconnect _ _ n => in_i 32 n
  | Cepoll_ctl _ _ fd _ => in_i 32 fd
  | Ccancel_fixed i _ => 0 ≤ i < 2 ^ 31
  | Cpoll _ mask | Cpoll_update mask _ => in_u 32 mask
  | Copenat2 _ _ _ _ => in_u 32 size_of_OpenHow
  | _ => True
  end.
End Calls.

(** ** Lemmas *)

(** Every slot but the operation code is zero. *)

Definition zeroed (e : SubmissionEntry) : Prop :=
  fd e = 0 ∧ off e = 0 ∧ addr e = 0 ∧ len e = 0 ∧ rw_flags e = 0 ∧ user_data e = 0 ∧
  buf e = 0 ∧ file e = 0 ∧ addr3 e = 0 ∧ pad e = 0.

(** Swapping the halves of a poll mask twice is the identity: the kernel
    undoes what the library did. *)

Lemma swap_poll_mask_involutive be mask :
  in_u 32 mask → swap_poll_mask be (swap_poll_mask be mask) = mask.
Proof.
  intros Hm. unfold swap_poll_mask. destruct be; [|done].
  unfold as_u. rewrite <- !Z.land_ones by lia.
  apply Z.bits_inj'. intros n Hn.
  assert (∀ k, 32 ≤ k → Z.testbit mask k = false) as Hhi.
  { intros k Hk. unfold in_u in Hm. rewrite <- (Z.mod_small mask (2 ^ 32)) by lia.
    apply Z.mod_pow2_bits_high. lia. }
  rewrite Z.lor_spec, Z.land_spec, Z.shiftr_spec, Z.testbit_ones_nonneg by lia.
  rewrite Z.lor_spec, Z.land_spec, Z.shiftr_spec, Z.testbit_ones_nonneg by lia.
  destruct (Z.ltb_spec n 16).
  - rewrite (Z.shiftl_spec_low _ _ n), Z.shiftl_spec by lia.
    replace (n + 16 - 16) with n by lia.
    rewrite (Hhi (n + 16 + 16)) by lia.
    destruct (Z.ltb_spec (n + 16) 32); [|lia]. by rewrite andb_true_r, orb_false_r.
  - rewrite Z.shiftl_spec by lia.
    rewrite (Z.lor_spec _ _ (n - 16)), Z.land_spec, Z.shiftr_spec by lia.
    replace (n - 16 + 16) with n by lia.
    rewrite Z.testbit_ones_nonneg by lia.
    destruct (Z.ltb_spec n 32).
    + rewrite (Z.shiftl_spec_low _ _ (n - 16)) by lia.
      destruct (Z.ltb_spec (n + 16) 32); [lia|].
      rewrite (Hhi (n + 16 + 16)) by lia. by rewrite !andb_false_r, andb_true_r, orb_false_r.
    + destruct (Z.ltb_spec (n + 16) 32); [lia|].
      rewrite (Hhi n), (Hhi (n + 16 + 16)) by lia. by rewrite !andb_false_r.
Qed.

(** Storing both halves of [addr_len] leaves the length readable. *)

Lemma addr_len_stored be v e :
  in_u 16 v →
  addr_len be (set_addr_len_pad be 0 (set_addr_len_len be v e)) = v.
Proof.
  unfold in_u. intros Hv. unfold addr_len, set_addr_len_pad, set_addr_len_len.
  destruct be; cbn [set_file file].
  - rewrite !Z.add_0_r, Z.div_mul by lia.
    rewrite Z.div_add by lia. rewrite Z.div_small; [lia|]. apply Z.mod_pos_bound. lia.
  - rewrite Z.mul_0_l, Z.add_0_r, Zmod_mod.
    rewrite Z.add_comm, Z.mod_add by lia. by apply Z.mod_small.
Qed.

Lemma unwrap_checked_u w x o :
  unwrap (checked_u w x) = Ret o → o = x ∧ in_u w x.
Proof.
  unfold unwrap, checked_u. destruct (fits_u w x) eqn:E; [|done].
  intros [= <-]. split; [done|]. by apply fits_u_spec.
Qed.

(** The entry of a zero-copy send, when the address length fits. *)

Lemma sendto_zc_decode default be fd0 b n fl a al i :
  in_u 16 al →
  ∃ e, Op.sendto_zc default be fd0 b n fl a al i = Ret e ∧
       decode be e = Some (KSendZc fd0 b n fl a al i).
Proof.
  intros Hal. unfold Op.sendto_zc, checked_u. rewrite fits_u_true by done.
  eexists. split; [reflexivity|].
  rewrite <- (addr_len_stored be al
    (set_off a (set_len n (set_addr b (set_fd fd0 (new_op default SendZeroCopy)))))) at 2
    by done.
  reflexivity.
Qed.

Create HintDb op_entries.

#[export] Hint Unfold
  Op.nop Op.openat Op.openat2 Op.close Op.close_direct Op.read Op.write Op.readv Op.writev
  Op.read_fixed Op.write_fixed Op.fsync Op.timeout Op.sync_file_range Op.fallocate
  Op.fadvise Op.madvise Op.renameat Op.unlinkat Op.mkdirat Op.symlinkat Op.linkat
  Op.fgetxattr Op.fsetxattr Op.getxattr Op.setxattr Op.splice Op.tee Op.statx Op.socket
  Op.connect Op.accept Op.recv Op.send Op.recvmsg Op.sendmsg Op.shutdown Op.poll
  Op.poll_update Op.epoll_ctl Op.poll_cancel Op.cancel Op.cancel_fd Op.cancel_fixed
  Op.cancel_all Op.files_update Op.provide_buffers Op.remove_buffers
  rw rw_fixed close_entry sync advise fs fxattr xattr splice_entry socket_entry socket_rw
  buffer new_op set_splice_fd_in : op_entries.

(** Evaluates the slots of an entry built by assignments, and [decode] on it. *)

Ltac eval_slots :=
  autounfold with op_entries;
  cbn [op fd off addr len rw_flags user_data buf file addr3 pad
       set_op set_fd set_off set_addr set_len set_rw_flags set_user_data set_buf
       set_file set_addr3 set_pad].

Ltac decode_slots :=
  autounfold with op_entries;
  cbn [decode op fd off addr len rw_flags user_data buf file addr3 pad
       set_op set_fd set_off set_addr set_len set_rw_flags set_user_data set_buf
       set_file set_addr3 set_pad].

(** The casts that the arguments went through are undone by the kernel's. *)

Ltac undo_casts :=
  rewrite ?as_i_as_u by done; rewrite ?as_u_as_i by done;
  rewrite ?as_i_as_u_wide by done; rewrite ?swap_poll_mask_involutive by done.

Lemma as_i_small w x : 0 ≤ x < 2 ^ (w - 1) → 0 < w → as_i w x = x.
Proof.
  intros Hx Hw. unfold as_i.
  assert (2 ^ w = 2 * 2 ^ (w - 1)).
  { rewrite <- Z.pow_succ_r by lia. f_equal. lia. }
  rewrite Z.mod_small by lia. destruct (Z.ltb_spec x (2 ^ (w - 1))); lia.
Qed.

Definition zero_copy (c : OpCall) : bool :=
  match c with Csend_zc _ _ _ _ _ | Csendto_zc _ _ _ _ _ _ _ => true | _ => false end.

(** The constructors that only assign slots. *)

Lemma decode_encode_slots default be szhow c e :
  zeroed default → args_ok szhow c → zero_copy c = false →
  encode default be szhow c = Ret e →
  decode be e = accept_if (kernel_takes c) (meaning szhow c).
Proof.
  intros (H1 & H2 & H3 & H4 & H5 & H6 & H7 & H8 & H9 & H10) Hok Hzc He.
  destruct default as [dop dfd doff daddr dlen drw dud dbuf dfile daddr3 dpad].
  simpl in H1, H2, H3, H4, H5, H6, H7, H8, H9, H10. subst.
  destruct c; try discriminate Hzc; injection He as <-; cbn [args_ok] in Hok;
    destruct_and?; decode_slots; undo_casts;
    rewrite ?(as_i_small 32) by done; rewrite ?(as_u_id 32) by done; try reflexivity.
  - unfold zero. simpl. by rewrite andb_true_r.
  - by destruct be.
Qed.

(** The zero-copy sends, whose address length is converted to a [u16]. *)

Lemma decode_encode_zero_copy default be szhow c e :
  zero_copy c = true →
  encode default be szhow c = Ret e →
  decode be e = accept_if (kernel_takes c) (meaning szhow c).
Proof.
  intros Hzc He. destruct c; try discriminate Hzc; cbn [encode] in He; cbn [kernel_takes accept_if].
  - destruct (sendto_zc_decode default be fd0 buf0 len0 flags 0 0 buf_index) as (e' & He' & ?);
      [done|].
    unfold Op.send_zc in He. rewrite He' in He. by injection He as <-.
  - destruct (fits_u 16 addrlen) eqn:Hfit.
    + apply fits_u_spec in Hfit.
      destruct (sendto_zc_decode default be fd0 buf0 len0 flags addr0 addrlen buf_index)
        as (e' & He' & ?); [done|]. rewrite He' in He. by injection He as <-.
    + unfold Op.sendto_zc, checked_u in He. by rewrite Hfit in He.
Qed.

(** C10: every constructor of [Op] that returns builds an entry that the kernel
    accepts (all slots that must be zero are zero) and reads back as exactly
    the request and arguments of the call, signed offsets, descriptors, lengths
    and poll masks included, on both endiannesses.  The one exception is the entry of
    [Op::socket] with flags, for which the kernel has no meaning: it is refused. *)
Theorem entry_roundtrip default be szhow c e :
  zeroed default → args_ok szhow c → encode default be szhow c = Ret e →
  decode be e = if kernel_takes c then Some (meaning szhow c) else None.
Proof.
  intros. destruct (zero_copy c) eqn:?;
    eauto using decode_encode_slots, decode_encode_zero_copy.
Qed.

Definition zero_entry : SubmissionEntry := mkEntry NoOp 0 0 0 0 0 0 0 0 0 0.

Lemma entry_roundtrip_witness :
  decode true (Op.splice zero_entry 5 (-1) (-1) 7 4096 3) =
  Some (KSplice 5 (-1) (-1) 7 4096 3).
Proof.
  apply (entry_roundtrip zero_entry true 24 (Csplice 5 (-1) (-1) 7 4096 3));
    [by vm_compute|by vm_compute|reflexivity].
Defined.

(** The only constructor call that does not return is a zero-copy send with
    an address length above [u16::MAX], which panics. *)
Theorem encode_panics default be szhow c :
  (∃ e, encode default be szhow c = Ret e) ∨
  (encode default be szhow c = Panic ∧
   ∃ fd buf len flags addr addrlen i,
     c = Csendto_zc fd buf len flags addr addrlen i ∧ ¬ in_u 16 addrlen).
Proof.
  destruct c; try (left; eexists; reflexivity).
  cbn [encode]. destruct (fits_u 16 addrlen) eqn:Hfit.
  - left. apply fits_u_spec in Hfit.
    destruct (sendto_zc_decode default be fd0 buf0 len0 flags addr0 addrlen buf_index)
      as (e' & He' & ?); eauto.
  - right. unfold Op.sendto_zc, checked_u. rewrite Hfit. split; [done|].
    exists fd0, buf0, len0, flags, addr0, addrlen, buf_index. split; [done|].
    intros H%fits_u_true. congruence.
Qed.
