(* ===== verification/OpTypes.v ===== *)
(** * The widths of submission entries (src/src/engine/uring/op.rs)

    The slots of an entry have fixed widths.  Here the arguments of each constructor of
    [Op] range over the values of their Rust types, and the entry that is built has
    every slot within its width: no cast is missing, and the 64 bytes the kernel reads
    hold the values the model has. *)

From stdpp Require Import base list numbers tactics.
From S2P Require Import Prelude Op.

(** The widths of the slots. *)
Record entry_typed (e : SubmissionEntry) : Prop := {
  et_fd : in_i 32 (fd e);
  et_off : in_u 64 (off e);
  et_addr : in_u 64 (addr e);
  et_len : in_u 32 (len e);
  et_rw_flags : in_u 32 (rw_flags e);
  et_user_data : in_u 64 (user_data e);
  et_buf : in_u 16 (buf e);
  et_file : in_u 32 (file e);
  et_addr3 : in_u 64 (addr3 e);
  et_pad : in_u 64 (pad e)
}.

(** The types of the arguments: descriptors are [i32], addresses (and [usize]) 64 bits,
    offsets [i64] unless they are counters. *)
Definition args_typed (c : OpCall) : Prop :=
  match c with
  | Cnop | Cpoll_cancel | Ccancel_all => True
  | Copenat dfd path fl mode slot => in_i 32 dfd ∧ in_u 64 path ∧ Forall (in_u 32) [fl; mode; slot]
  | Copenat2 dfd path how slot => in_i 32 dfd ∧ Forall (in_u 64) [path; how] ∧ in_u 32 slot
  | Cclose fd => in_i 32 fd
  | Cclose_direct slot => in_u 32 slot
  | Cread fd a n off fl | Cwrite fd a n off fl | Creadv fd a n off fl | Cwritev fd a n off fl =>
      in_i 32 fd ∧ in_u 64 a ∧ in_i 64 off ∧ Forall (in_u 32) [n; fl]
  | Cread_fixed fd a n off b fl | Cwrite_fixed fd a n off b fl =>
      in_i 32 fd ∧ in_u 64 a ∧ in_i 64 off ∧ Forall (in_u 32) [n; fl] ∧ in_u 16 b
  | Cfsync fd fl => in_i 32 fd ∧ in_u 32 fl
  | Ctimeout ts n fl => in_u 64 ts ∧ Forall (in_u 32) [n; fl]
  | Csync_file_range fd n off fl => in_i 32 fd ∧ in_i 64 off ∧ Forall (in_u 32) [n; fl]
  | Cfallocate fd mode off n => Forall (in_i 32) [fd; mode] ∧ Forall (in_i 64) [off; n]
  | Cfadvise fd off n fl => in_i 32 fd ∧ in_u 64 off ∧ Forall (in_u 32) [n; fl]
  | Cmadvise a n fl => in_u 64 a ∧ Forall (in_u 32) [n; fl]
  | Crenameat d1 p1 d2 p2 fl | Clinkat d1 p1 d2 p2 fl =>
      Forall (in_i 32) [d1; d2] ∧ Forall (in_u 64) [p1; p2] ∧ in_u 32 fl
  | Cunlinkat dfd path x | Cmkdirat dfd path x => in_i 32 dfd ∧ in_u 64 path ∧ in_u 32 x
  | Csymlinkat t d l => in_i 32 d ∧ Forall (in_u 64) [t; l]
  | Cfgetxattr fd name v n => in_i 32 fd ∧ Forall (in_u 64) [name; v] ∧ in_u 32 n
  | Cfsetxattr fd name v n fl => in_i 32 fd ∧ Forall (in_u 64) [name; v] ∧ Forall (in_u 32) [n; fl]
  | Cgetxattr path name v n => Forall (in_u 64) [path; name; v] ∧ in_u 32 n
  | Csetxattr path name v n fl => Forall (in_u 64) [path; name; v] ∧ Forall (in_u 32) [n; fl]
  | Csplice d1 o1 d2 o2 n fl =>
      Forall (in_i 32) [d1; d2] ∧ Forall (in_i 64) [o1; o2] ∧ Forall (in_u 32) [n; fl]
  | Ctee d1 d2 n fl => Forall (in_i 32) [d1; d2] ∧ Forall (in_u 32) [n; fl]
  | Cstatx fd path fl mask st =>
      in_i 32 fd ∧ Forall (in_u 64) [path; st] ∧ Forall (in_u 32) [fl; mask]
  | Csocket d t p fl slot => Forall (in_u 32) [d; t; p; fl; slot]
  | Cconnect fd a n => Forall (in_i 32) [fd; n] ∧ in_u 64 a
  | Caccept fd a n fl slot => in_i 32 fd ∧ Forall (in_u 64) [a; n] ∧ Forall (in_u 32) [fl; slot]
  | Crecv fd a n fl | Csend fd a n fl => in_i 32 fd ∧ in_u 64 a ∧ Forall (in_u 32) [n; fl]
  | Crecvmsg fd m fl | Csendmsg fd m fl => in_i 32 fd ∧ in_u 64 m ∧ in_u 32 fl
  | Csend_zc fd b n fl i => in_i 32 fd ∧ in_u 64 b ∧ Forall (in_u 32) [n; fl] ∧ in_u 16 i
  | Csendto_zc fd b n fl a al i =>
      in_i 32 fd ∧ Forall (in_u 64) [b; a] ∧ Forall (in_u 32) [n; fl; al] ∧ in_u 16 i
  | Cshutdown fd how => in_i 32 fd ∧ in_u 32 how
  | Cpoll fd mask => in_i 32 fd ∧ in_u 32 mask
  | Cpoll_update mask fl => Forall (in_u 32) [mask; fl]
  | Cepoll_ctl ep o fd ev => Forall (in_i 32) [ep; fd] ∧ in_u 32 o ∧ in_u 64 ev
  | Ccancel fl => in_u 32 fl
  | Ccancel_fd fd fl => in_i 32 fd ∧ in_u 32 fl
  | Ccancel_fixed i fl => Forall (in_u 32) [i; fl]
  | Cfiles_update a n o => in_u 64 a ∧ Forall (in_u 32) [n; o]
  | Cprovide_buffers a n c g b => in_u 64 a ∧ in_u 32 n ∧ Forall (in_u 16) [c; g; b]
  | Cremove_buffers c g => Forall (in_u 16) [c; g]
  end.

(** ** Ranges *)

Lemma as_i_range w x : 0 < w → in_i w (as_i w x).
Proof.
  intros Hw. unfold in_i, as_i. pose proof (Z.mod_pos_bound x (2 ^ w) ltac:(lia)).
  assert (2 ^ w = 2 * 2 ^ (w - 1)) by (rewrite <- Z.pow_succ_r by lia; f_equal; lia).
  destruct (Z.ltb_spec (x mod 2 ^ w) (2 ^ (w - 1))); lia.
Qed.

Lemma in_u_lor w x y : 0 ≤ w → in_u w x → in_u w y → in_u w (Z.lor x y).
Proof.
  intros Hw Hx Hy. assert (Z.lor x y = as_u w (Z.lor x y)) as ->; [|by apply as_u_range].
  unfold as_u. rewrite <- Z.land_ones, Z.land_lor_distr_l, !Z.land_ones by done.
  by rewrite !Z.mod_small.
Qed.

Lemma swap_poll_mask_range be mask : in_u 32 mask → in_u 32 (swap_poll_mask be mask).
Proof.
  intros Hm. unfold swap_poll_mask. destruct be; [|done].
  apply in_u_lor; [lia|by apply as_u_range|]. unfold in_u in *. rewrite Z.shiftr_div_pow2 by lia.
  split; [apply Z.div_pos; lia|]. apply Z.div_lt_upper_bound; lia.
Qed.

Lemma addr_len_range be v e :
  in_u 16 v → in_u 32 (file e) →
  in_u 32 (file (set_addr_len_pad be 0 (set_addr_len_len be v e))).
Proof.
  unfold in_u. intros Hv Hf. pose proof (Z.mod_pos_bound (file e) (2 ^ 16) ltac:(lia)).
  assert (0 ≤ file e / 2 ^ 16 < 2 ^ 16) as Hd
    by (split; [apply Z.div_pos; lia|apply Z.div_lt_upper_bound; lia]).
  unfold set_addr_len_pad, set_addr_len_len. destruct be; cbn [set_file file].
  - rewrite Z.div_add, (Z.div_small (file e mod 2 ^ 16)) by lia. lia.
  - pose proof (Z.mod_pos_bound (file e / 2 ^ 16 * 2 ^ 16 + v) (2 ^ 16) ltac:(lia)). lia.
Qed.

Create HintDb ranges.
#[export] Hint Resolve as_u_range as_i_range in_u_lor swap_poll_mask_range : ranges.
#[export] Hint Extern 5 (in_u _ _) => (unfold in_u in *; lia) : ranges.
#[export] Hint Extern 5 (in_i _ _) => (unfold in_u, in_i in *; lia) : ranges.
#[export] Hint Extern 5 (_ ≤ _) => lia : ranges.
#[export] Hint Extern 5 (_ < _) => lia : ranges.

Lemma Forall_cons_and {A} (P : A → Prop) x l : Forall P (x :: l) → P x ∧ Forall P l.
Proof. by inversion 1. Qed.

(** Splits the types of the arguments. *)
Ltac split_types :=
  repeat match goal with
  | H : _ ∧ _ |- _ => destruct H
  | H : Forall _ (_ :: _) |- _ => apply Forall_cons_and in H
  end.

Lemma slots_typed default be szhow c e :
  zeroed default → args_typed c → zero_copy c = false →
  encode default be szhow c = Ret e → entry_typed e.
Proof.
  intros (H1 & H2 & H3 & H4 & H5 & H6 & H7 & H8 & H9 & H10) Ht Hzc He.
  destruct default as [dop dfd doff daddr dlen drw dud dbuf dfile daddr3 dpad].
  simpl in H1, H2, H3, H4, H5, H6, H7, H8, H9, H10. subst.
  destruct c; try discriminate Hzc; injection He as <-; cbn [args_typed] in Ht; split_types;
    constructor; eval_slots; auto with ranges.
  all: repeat (apply in_u_lor; [done| |]); done.
Qed.

Lemma zero_copy_typed default be fd0 b n fl a al i e :
  zeroed default → in_i 32 fd0 → in_u 64 b → in_u 32 n → in_u 32 fl → in_u 64 a → in_u 16 i →
  Op.sendto_zc default be fd0 b n fl a al i = Ret e → entry_typed e.
Proof.
  intros (H1 & H2 & H3 & H4 & H5 & H6 & H7 & H8 & H9 & H10) Hfd Hb Hn Hfl Ha Hi He.
  unfold Op.sendto_zc, checked_u in He. destruct (fits_u 16 al) eqn:Hfit; [|done].
  apply fits_u_spec in Hfit. injection He as <-.
  set (e0 := set_off a (set_len n (set_addr b (set_fd fd0 (new_op default SendZeroCopy))))).
  assert (in_u 32 (file (set_addr_len_pad be 0 (set_addr_len_len be al e0)))) as Hfile.
  { apply addr_len_range; [done|]. subst e0. eval_slots. rewrite H8. done. }
  destruct default as [dop dfd doff daddr dlen drw dud dbuf dfile daddr3 dpad].
  simpl in H1, H2, H3, H4, H5, H6, H7, H8, H9, H10. subst. constructor; try done.
Qed.

(** C11: every constructor of [Op] that returns builds an entry whose slots hold values of
    their widths, for any arguments of their Rust types, on both endiannesses: signed
    values are cast before they are stored in unsigned slots and an address length is
    checked, so that nothing is cut off in the memory the kernel reads. *)
Theorem entries_fit default be szhow c e :
  zeroed default → args_typed c → encode default be szhow c = Ret e → entry_typed e.
Proof.
  intros Hz Ht He. destruct (zero_copy c) eqn:Hzc; [|by eapply slots_typed].
  destruct c; try discriminate Hzc; cbn [args_typed encode] in *; split_types;
    (eapply zero_copy_typed; [exact Hz|..|exact He]); auto with ranges.
Qed.

Lemma entries_fit_witness : entry_typed (Op.splice zero_entry 5 (-1) (-1) 7 4096 3).
Proof.
  apply (entries_fit zero_entry true 24 (Csplice 5 (-1) (-1) 7 4096 3)).
  - repeat split.
  - repeat constructor; discriminate || reflexivity.
  - reflexivity.
Defined.
