(* ===== verification/Queue.v ===== *)
(** * The rings shared with the kernel (src/src/engine/uring/engine.rs)

    [Rings] (the memory mapped for the two rings and the entries),
    [SubmissionQueue], [CompletionQueue] and [Queue].  A queue is its record:
    the words shared with the kernel, the cached words and the contents of the
    mapped arrays as lists.  The abstraction of a ring is the list of entries
    between its head and its tail ([sq_view], [cq_view]); the lemmas say that
    the ring operations are queue operations on it, across the wrap-around of
    the 32-bit indices. *)

From stdpp Require Import base list numbers tactics.
From S2P Require Import Prelude Op.

(** ** Flags of the rings (io_uring ABI) *)

Definition NeedWakeup : Z := 1.
Definition CqOverflow : Z := 2.
Definition TaskRun : Z := 4.

(** All flags of [SubmissionRingFlag]; [from_bits_truncate] keeps only these. *)
Definition SubmissionRingFlag_all : Z := 7.

(** ** Mapped memory *)

(** A mapping; xx-core's [Map]. *)
Record Map : Type := mkMap { map_addr : Z; map_len : Z }.

Inductive MmapOffsets : Type := SubmissionRing | CompletionRing | SubmissionEntries.

Record Rings : Type := mkRings {
  ring : Map;
  separate_completion_ring : option Map;
  submission_entries : Map
}.

(** The part of io_uring's [Parameters] that the code reads. *)
Record Parameters : Type := mkParameters {
  sq_entries : Z;
  cq_entries : Z;
  sq_off_array : Z;
  cq_off_cqes : Z;
  completion_entry_wide : bool;
  submission_entry_wide : bool;
  single_mmap : bool
}.

(** [size_of] of the types the code maps. *)
Definition size_of_u32 : Z := 4.

Section Rings.
Context (overflow_checks : bool).
Context (size_of_CompletionEntry size_of_SubmissionEntry : Z).
(** The [mmap] of the ring's descriptor at one of its offsets. *)
Context (mmap : MmapOffsets → Z → OsResult Map).

Definition scale (size_of_T : Z) (count offset : Z) (wide : bool) : outcome Z :=
  count ← (if wide then arith_u overflow_checks 32 (count * 2) else Ret count);
  n ← arith_u overflow_checks 64 (size_of_T * count);
  arith_u overflow_checks 64 (offset + n).

Definition map_memory (size : Z) (offset : MmapOffsets) : Result Map :=
  match mmap offset size with Ok m => Ok m | Err e => Err (ErrOs e) end.

Definition submission_ring (self : Rings) : Map := ring self.

Definition completion_ring (self : Rings) : Map :=
  match separate_completion_ring self with Some m => m | None => ring self end.

Definition Rings_new (params : Parameters) : outcome (Result Rings) :=
  size0 ← scale size_of_u32 (sq_entries params) (sq_off_array params) false;
  size1 ← scale size_of_CompletionEntry (cq_entries params) (cq_off_cqes params)
            (completion_entry_wide params);
  let maps : Result (Map * option Map) :=
    if single_mmap params then
      match map_memory (Z.max size0 size1) SubmissionRing with
      | Ok m => Ok (m, None)
      | Err e => Err e
      end
    else
      match map_memory size0 SubmissionRing with
      | Ok m =>
          match map_memory size1 CompletionRing with
          | Ok m' => Ok (m, Some m')
          | Err e => Err e
          end
      | Err e => Err e
      end in
  match maps with
  | Err e => Ret (Err e)
  | Ok (ring, separate) =>
      size2 ← scale size_of_SubmissionEntry (sq_entries params) 0
                (submission_entry_wide params);
      match map_memory size2 SubmissionEntries with
      | Ok m => Ret (Ok (mkRings ring separate m))
      | Err e => Ret (Err e)
      end
  end.

(** [get_array(map, off, len)]: the bytes of the slice it returns, as the
    offset of its end in the mapping. *)
Definition get_array_end (size_of_T off len : Z) : Z := off + size_of_T * len.
End Rings.

(** ** Queues *)

Record CompletionEntry : Type := mkCqe {
  cqe_user_data : Z;
  cqe_result : Z
}.

Record SubmissionQueue : Type := mkSq {
  sq_kflags : Z;
  sq_ktail : Z;
  sq_tail : Z;
  sq_mask : Z;
  sq_array_entries : list SubmissionEntry;
  sq_capacity : Z;
  sq_khead : Z;
  sq_kdropped : Z;
  sq_array : list Z
}.

Record CompletionQueue : Type := mkCq {
  cq_khead : Z;
  cq_ktail : Z;
  cq_array_entries : list CompletionEntry;
  cq_mask : Z;
  cq_kflags : Z;
  cq_koverflow : Z;
  cq_capacity : Z
}.

Record Queue : Type := mkQueue {
  submission : SubmissionQueue;
  completion : CompletionQueue
}.

Definition set_sq_tail_entries (tail : Z) (es : list SubmissionEntry) (q : SubmissionQueue) :
    SubmissionQueue :=
  mkSq (sq_kflags q) (sq_ktail q) tail (sq_mask q) es (sq_capacity q) (sq_khead q)
    (sq_kdropped q) (sq_array q).

Definition set_sq_ktail (v : Z) (q : SubmissionQueue) : SubmissionQueue :=
  mkSq (sq_kflags q) v (sq_tail q) (sq_mask q) (sq_array_entries q) (sq_capacity q)
    (sq_khead q) (sq_kdropped q) (sq_array q).

Definition set_sq_khead (v : Z) (q : SubmissionQueue) : SubmissionQueue :=
  mkSq (sq_kflags q) (sq_ktail q) (sq_tail q) (sq_mask q) (sq_array_entries q)
    (sq_capacity q) v (sq_kdropped q) (sq_array q).

Definition set_cq_khead (v : Z) (q : CompletionQueue) : CompletionQueue :=
  mkCq v (cq_ktail q) (cq_array_entries q) (cq_mask q) (cq_kflags q) (cq_koverflow q)
    (cq_capacity q).

(** The contents of the mapped words and arrays when the queues are made. *)
Record RingMemory : Type := mkRingMemory {
  mem_sq_khead : Z; mem_sq_ktail : Z; mem_sq_kflags : Z; mem_sq_kdropped : Z;
  mem_sq_array : list Z; mem_sq_entries : list SubmissionEntry;
  mem_cq_khead : Z; mem_cq_ktail : Z; mem_cq_kflags : Z; mem_cq_koverflow : Z;
  mem_cq_entries : list CompletionEntry
}.

Section Queues.
Context (overflow_checks : bool).

Definition SubmissionQueue_new (maps : RingMemory) (params : Parameters) :
    outcome SubmissionQueue :=
  mask ← arith_u overflow_checks 32 (sq_entries params - 1);
  let sq := mkSq (mem_sq_kflags maps) (mem_sq_ktail maps) 0 mask (mem_sq_entries maps)
              (sq_entries params) (mem_sq_khead maps) (mem_sq_kdropped maps)
              (mem_sq_array maps) in
  (* every element of the index array is set to its own index *)
  let array := imap (λ i _, as_u 32 (Z.of_nat i)) (sq_array sq) in
  Ret (mkSq (sq_kflags sq) (sq_ktail sq) (sq_tail sq) (sq_mask sq) (sq_array_entries sq)
         (sq_capacity sq) (sq_khead sq) (sq_kdropped sq) array).

Definition sq_flags (self : SubmissionQueue) : Z :=
  Z.land (sq_kflags self) SubmissionRingFlag_all.

Definition sq_write (self : SubmissionQueue) (index : Z) (entry : SubmissionEntry) :
    outcome SubmissionQueue :=
  if bool_decide (Z.to_nat index < length (sq_array_entries self))%nat then
    Ret (set_sq_tail_entries (sq_tail self)
           (<[Z.to_nat index := entry]> (sq_array_entries self)) self)
  else Undefined.

Definition sq_push (self : SubmissionQueue) (entry : SubmissionEntry) :
    outcome SubmissionQueue :=
  let tail := sq_tail self in
  tail' ← arith_u overflow_checks 32 (tail + 1);
  let self := set_sq_tail_entries tail' (sq_array_entries self) self in
  sq_write self (Z.land tail (sq_mask self)) entry.

Definition sq_sync (self : SubmissionQueue) : SubmissionQueue :=
  set_sq_ktail (sq_tail self) self.

Definition CompletionQueue_new (maps : RingMemory) (params : Parameters) :
    outcome CompletionQueue :=
  mask ← arith_u overflow_checks 32 (cq_entries params - 1);
  Ret (mkCq (mem_cq_khead maps) (mem_cq_ktail maps) (mem_cq_entries maps) mask
         (mem_cq_kflags maps) (mem_cq_koverflow maps) (cq_entries params)).

Definition cq_read (self : CompletionQueue) (index : Z) : outcome CompletionEntry :=
  match cq_array_entries self !! Z.to_nat index with
  | Some e => Ret e
  | None => Undefined
  end.

Definition read_ring (self : CompletionQueue) : Z * Z := (cq_khead self, cq_ktail self).

Definition Queue_new (maps : RingMemory) (params : Parameters) : outcome Queue :=
  submission ← SubmissionQueue_new maps params;
  completion ← CompletionQueue_new maps params;
  Ret (mkQueue submission completion).

Definition needs_flush (self : Queue) : bool :=
  flags_intersects (sq_flags (submission self)) CqOverflow.

Definition needs_enter (self : Queue) : bool :=
  flags_intersects (sq_flags (submission self)) (Z.lor CqOverflow TaskRun).
End Queues.

(** ** The entries between two indices of a ring *)

(** The slot of a (32-bit, free running) index. *)
Definition slot (mask h : Z) : nat := Z.to_nat (Z.land h mask).

Fixpoint ring_view {A} (es : list A) (mask h : Z) (n : nat) : list A :=
  match n with
  | O => []
  | S n' =>
      match es !! slot mask h with
      | Some e => e :: ring_view es mask (as_u 32 (h + 1)) n'
      | None => []
      end
  end.

(** The number of entries between head and tail. *)
Definition ring_count (head tail : Z) : Z := as_u 32 (tail - head).

(** A ring has a power of two of entries, at most 2^31. *)
Definition ring_size (capacity mask : Z) : Prop :=
  ∃ k, 0 ≤ k ≤ 31 ∧ capacity = 2 ^ k ∧ mask = Z.ones k.

Section RingLemmas.
Context {A : Type} (capacity mask : Z).
Context (Hsize : ring_size capacity mask).

Lemma ring_size_bounds : 1 ≤ capacity ≤ 2 ^ 31.
Proof.
  destruct Hsize as (k & Hk & -> & _). split.
  - pose proof (Z.pow_pos_nonneg 2 k). lia.
  - apply Z.pow_le_mono_r; lia.
Qed.

Lemma land_mask h : Z.land h mask = h mod capacity.
Proof. destruct Hsize as (k & Hk & -> & ->). apply Z.land_ones. lia. Qed.

Lemma capacity_divides : (capacity | 2 ^ 32).
Proof.
  destruct Hsize as (k & Hk & -> & ->). exists (2 ^ (32 - k)).
  rewrite <- Z.pow_add_r by lia. f_equal. lia.
Qed.

Lemma slot_mod h : slot mask h = Z.to_nat (h mod capacity).
Proof. unfold slot. by rewrite land_mask. Qed.

Lemma slot_lt h : (slot mask h < Z.to_nat capacity)%nat.
Proof.
  pose proof ring_size_bounds. rewrite slot_mod.
  pose proof (Z.mod_pos_bound h capacity). lia.
Qed.

Lemma slot_as_u h : slot mask (as_u 32 h) = slot mask h.
Proof.
  rewrite !slot_mod. unfold as_u. rewrite Z.mod_mod_divide; [done|].
  apply capacity_divides.
Qed.

Lemma slot_distinct h n : 0 < n < capacity → slot mask (h + n) ≠ slot mask h.
Proof.
  intros Hn. rewrite !slot_mod. intros E.
  pose proof (Z.mod_pos_bound h capacity). pose proof (Z.mod_pos_bound (h + n) capacity).
  assert ((h + n) mod capacity = h mod capacity) as E' by lia.
  rewrite Z.add_mod in E' by lia. rewrite (Z.mod_small n) in E' by lia.
  destruct (Z_lt_dec (h mod capacity + n) capacity).
  - rewrite Z.mod_small in E' by lia. lia.
  - rewrite <- (Z_mod_plus_full _ (-1)) in E'. rewrite Z.mod_small in E' by lia. lia.
Qed.

Lemma length_ring_view (es : list A) h n :
  length es = Z.to_nat capacity → length (ring_view es mask h n) = n.
Proof.
  intros Hes. revert h. induction n as [|n IH]; intros h; simpl; [done|].
  destruct (lookup_lt_is_Some_2 es (slot mask h)) as [x ->]; simpl; [|by rewrite IH].
  rewrite Hes. apply slot_lt.
Qed.

Lemma ring_view_as_u (es : list A) h n :
  ring_view es mask (as_u 32 h) n = ring_view es mask h n.
Proof.
  destruct n; simpl; [done|]. rewrite slot_as_u. autorewrite with machine. done.
Qed.

Lemma ring_view_S (es : list A) h n :
  ring_view es mask h (S n) =
  match es !! slot mask h with
  | Some e => e :: ring_view es mask (as_u 32 (h + 1)) n
  | None => []
  end.
Proof. done. Qed.

(** Writing outside of the entries between head and tail does not change them. *)
Lemma ring_view_insert_other (es : list A) h n (m : nat) x :
  (n ≤ m)%nat → Z.of_nat m < capacity →
  ring_view (<[slot mask (h + Z.of_nat m) := x]> es) mask h n = ring_view es mask h n.
Proof.
  revert h m. induction n as [|n IH]; intros h m Hnm Hm; simpl; [done|].
  rewrite list_lookup_insert_ne by (apply slot_distinct; lia).
  destruct (es !! slot mask h) as [e|]; [|done]. f_equal.
  destruct m as [|m]; [lia|].
  rewrite <- (slot_as_u (h + _)).
  replace (as_u 32 (h + Z.of_nat (S m))) with (as_u 32 (as_u 32 (h + 1) + Z.of_nat m)).
  2:{ autorewrite with machine. f_equal. lia. }
  rewrite slot_as_u. apply IH; lia.
Qed.

(** Writing the slot of the tail appends. *)
Lemma ring_view_snoc (es : list A) h n x :
  length es = Z.to_nat capacity → Z.of_nat n < capacity →
  ring_view (<[slot mask (h + Z.of_nat n) := x]> es) mask h (S n) =
  ring_view es mask h n ++ [x].
Proof.
  intros Hes. revert h. induction n as [|n IH]; intros h Hn.
  - simpl. rewrite Z.add_0_r. rewrite list_lookup_insert_eq; [done|].
    rewrite Hes. apply slot_lt.
  - rewrite !(ring_view_S _ h). rewrite list_lookup_insert_ne by (apply slot_distinct; lia).
    destruct (lookup_lt_is_Some_2 es (slot mask h)) as [e He]; [rewrite Hes; apply slot_lt|].
    rewrite He. cbn [app]. f_equal.
    rewrite <- (slot_as_u (h + _)).
    replace (as_u 32 (h + Z.of_nat (S n))) with (as_u 32 (as_u 32 (h + 1) + Z.of_nat n)).
    2:{ autorewrite with machine. f_equal. lia. }
    rewrite slot_as_u. apply IH. lia.
Qed.

Lemma ring_view_cons (es : list A) h n x l :
  ring_view es mask h (S n) = x :: l →
  es !! slot mask h = Some x ∧ ring_view es mask (as_u 32 (h + 1)) n = l.
Proof. simpl. destruct (es !! slot mask h); naive_solver. Qed.

(** Advancing the head drops from the front. *)
Lemma ring_view_drop (es : list A) h (n c : nat) :
  length es = Z.to_nat capacity → (n ≤ c)%nat →
  ring_view es mask (as_u 32 (h + Z.of_nat n)) (c - n) = drop n (ring_view es mask h c).
Proof.
  intros Hes. revert h c. induction n as [|n IH]; intros h c Hn.
  - by rewrite Z.add_0_r, ring_view_as_u, Nat.sub_0_r, drop_0.
  - destruct c as [|c]; [lia|]. rewrite (ring_view_S _ h).
    destruct (lookup_lt_is_Some_2 es (slot mask h)) as [e ->]; [rewrite Hes; apply slot_lt|].
    simpl. rewrite <- IH by lia. autorewrite with machine. do 2 f_equal. lia.
Qed.

(** The element [i] positions after the head. *)
Lemma ring_view_lookup (es : list A) h n i :
  length es = Z.to_nat capacity → (i < n)%nat →
  ring_view es mask h n !! i = es !! slot mask (h + Z.of_nat i).
Proof.
  intros Hes. revert h i. induction n as [|n IH]; intros h i Hi; [lia|].
  simpl. destruct (lookup_lt_is_Some_2 es (slot mask h)) as [e He];
    [rewrite Hes; apply slot_lt|].
  rewrite He. destruct i as [|i]; simpl.
  - by rewrite Z.add_0_r.
  - rewrite IH by lia. rewrite <- (slot_as_u (_ + _)). autorewrite with machine.
    rewrite slot_as_u. do 2 f_equal. lia.
Qed.
End RingLemmas.

(** ** The submission queue *)

(** The entries pushed and not yet taken by the kernel. *)
Definition sq_count (q : SubmissionQueue) : Z := ring_count (sq_khead q) (sq_tail q).

Definition sq_view (q : SubmissionQueue) : list SubmissionEntry :=
  ring_view (sq_array_entries q) (sq_mask q) (sq_khead q) (Z.to_nat (sq_count q)).

(** What the kernel fetches: the entries the index array names between the
    shared head and the shared tail. *)
Fixpoint sq_fetch (array : list Z) (es : list SubmissionEntry) (mask h : Z) (n : nat) :
    list SubmissionEntry :=
  match n with
  | O => []
  | S n' =>
      match array !! slot mask h ≫= (λ i, es !! Z.to_nat i) with
      | Some e => e :: sq_fetch array es mask (as_u 32 (h + 1)) n'
      | None => []
      end
  end.

Definition sq_published (q : SubmissionQueue) : list SubmissionEntry :=
  sq_fetch (sq_array q) (sq_array_entries q) (sq_mask q) (sq_khead q)
    (Z.to_nat (ring_count (sq_khead q) (sq_ktail q))).

Record sq_wf (q : SubmissionQueue) : Prop := {
  sq_wf_size : ring_size (sq_capacity q) (sq_mask q);
  sq_wf_entries : length (sq_array_entries q) = Z.to_nat (sq_capacity q);
  sq_wf_array : sq_array q = imap (λ i _, Z.of_nat i) (sq_array q);
  sq_wf_array_len : length (sq_array q) = Z.to_nat (sq_capacity q);
  sq_wf_tail : in_u 32 (sq_tail q);
  sq_wf_khead : in_u 32 (sq_khead q);
  sq_wf_count : sq_count q ≤ sq_capacity q
}.

Lemma ring_count_range h t : in_u 32 (ring_count h t).
Proof. by apply as_u_range. Qed.

(** Advancing the tail, and the head, of a ring. *)

Lemma ring_count_push h t :
  ring_count h t < 2 ^ 32 - 1 → ring_count h (as_u 32 (t + 1)) = ring_count h t + 1.
Proof.
  intros H. pose proof (ring_count_range h t) as R. unfold ring_count in *.
  autorewrite with machine. replace (t + 1 - h) with (t - h + 1) by lia.
  rewrite <- as_u_add_l. apply as_u_id. unfold in_u in *. lia.
Qed.

Lemma ring_count_pop h t n :
  0 ≤ n ≤ ring_count h t → ring_count (as_u 32 (h + n)) t = ring_count h t - n.
Proof.
  intros H. pose proof (ring_count_range h t) as R. unfold ring_count in *.
  autorewrite with machine. replace (t - (h + n)) with (t - h - n) by lia.
  rewrite <- as_u_sub_l. apply as_u_id. unfold in_u in *. lia.
Qed.

Lemma ring_count_zero h t : in_u 32 h → in_u 32 t → ring_count h t = 0 ↔ h = t.
Proof.
  intros Hh Ht. unfold ring_count, as_u, in_u in *. split.
  - intros E. destruct (Z_lt_dec t h).
    + rewrite <- (Z_mod_plus_full _ 1), Z.mod_small in E by lia. lia.
    + rewrite Z.mod_small in E by lia. lia.
  - intros ->. by rewrite Z.sub_diag.
Qed.

Lemma index_add_ne h n : in_u 32 h → 0 < n < 2 ^ 32 → h ≠ as_u 32 (h + n).
Proof.
  intros Hh Hn E. assert (as_u 32 (as_u 32 (h + n) - h) = 0) as E0.
  { by rewrite <- E, Z.sub_diag. }
  rewrite as_u_sub_l, as_u_id in E0; unfold in_u in *; lia.
Qed.

Lemma ring_tail_index h t : as_u 32 (h + ring_count h t) = as_u 32 t.
Proof.
  unfold ring_count. autorewrite with machine. f_equal. lia.
Qed.

Section SubmissionLemmas.
Context (overflow_checks : bool) (q : SubmissionQueue) (Hwf : sq_wf q).

Lemma length_sq_view : Z.of_nat (length (sq_view q)) = sq_count q.
Proof.
  unfold sq_view. destruct Hwf.
  rewrite (length_ring_view (sq_capacity q) (sq_mask q)) by done.
  pose proof (ring_count_range (sq_khead q) (sq_tail q)) as [??]. unfold sq_count in *. lia.
Qed.

(** A push into a ring that is not full appends to the staged entries.  The
    index only has to stay below 2^32 in a build with overflow checks. *)
Lemma sq_push_spec e :
  sq_count q < sq_capacity q → (overflow_checks = false ∨ sq_tail q + 1 < 2 ^ 32) →
  ∃ q', sq_push overflow_checks q e = Ret q' ∧ sq_wf q' ∧
    sq_view q' = sq_view q ++ [e] ∧ sq_count q' = sq_count q + 1 ∧
    sq_tail q' = as_u 32 (sq_tail q + 1) ∧
    (sq_ktail q', sq_khead q', sq_kflags q', sq_capacity q') =
    (sq_ktail q, sq_khead q, sq_kflags q, sq_capacity q).
Proof.
  intros Hroom Hov. destruct Hwf as [Hsize Hes Har Harl Ht Hh Hc].
  pose proof (ring_size_bounds _ _ Hsize).
  pose proof (ring_count_range (sq_khead q) (sq_tail q)) as R. unfold sq_count, in_u in *.
  assert (arith_u overflow_checks 32 (sq_tail q + 1) = Ret (as_u 32 (sq_tail q + 1))) as E.
  { destruct Hov as [->|Hov]; [apply arith_u_wraps|].
    rewrite arith_u_fits, as_u_id; unfold in_u; first [done|lia]. }
  assert (slot (sq_mask q) (sq_tail q) < length (sq_array_entries q))%nat as Hslot.
  { rewrite Hes. by apply slot_lt. }
  unfold sq_push. rewrite E. cbn [mbind outcome_bind]. unfold sq_write.
  cbn [sq_array_entries sq_mask sq_tail set_sq_tail_entries].
  rewrite bool_decide_eq_true_2 by done.
  pose proof (ring_count_push (sq_khead q) (sq_tail q)) as Hp.
  eexists. split; [reflexivity|].
  split_and!; try reflexivity.
  - constructor; cbn -[Z.pow]; try done.
    + by rewrite length_insert.
    + by apply as_u_range.
    + unfold sq_count. cbn -[Z.pow]. lia.
  - unfold sq_view, sq_count. cbn -[Z.pow]. rewrite Hp by lia.
    rewrite Z2Nat.inj_add by lia. rewrite Nat.add_1_r.
    rewrite <- (ring_view_snoc (sq_capacity q)) by (done || lia).
    rewrite <- (slot_as_u (sq_capacity q) _ Hsize (_ + _)), Z2Nat.id, ring_tail_index by lia.
    by rewrite (slot_as_u (sq_capacity q)).
  - unfold sq_count. cbn -[Z.pow]. lia.
Qed.

(** The index array is the identity, so the kernel fetches the staged entries. *)
Lemma sq_fetch_ring_view h n :
  sq_fetch (sq_array q) (sq_array_entries q) (sq_mask q) h n =
  ring_view (sq_array_entries q) (sq_mask q) h n.
Proof.
  destruct Hwf as [Hsize Hes Har Harl Ht Hh Hc].
  revert h. induction n as [|n IH]; intros h; simpl; [done|].
  rewrite Har, list_lookup_imap.
  destruct (lookup_lt_is_Some_2 (sq_array q) (slot (sq_mask q) h)) as [x Hx].
  { rewrite Harl. by apply slot_lt. }
  rewrite Hx. simpl. rewrite Nat2Z.id, <- Har.
  destruct (sq_array_entries q !! slot (sq_mask q) h); [|done]. by rewrite IH.
Qed.

Lemma sq_sync_published : sq_published (sq_sync q) = sq_view q.
Proof. unfold sq_published, sq_sync. simpl. apply sq_fetch_ring_view. Qed.

Lemma sq_sync_wf : sq_wf (sq_sync q).
Proof. destruct Hwf. by constructor. Qed.

(** The kernel takes [n] entries: they leave the front. *)
Lemma sq_consume_view n :
  0 ≤ n ≤ sq_count q →
  let q' := set_sq_khead (as_u 32 (sq_khead q + n)) q in
  sq_wf q' ∧ sq_count q' = sq_count q - n ∧ sq_view q' = drop (Z.to_nat n) (sq_view q).
Proof.
  intros Hn q'. destruct Hwf as [Hsize Hes Har Harl Ht Hh Hc].
  assert (sq_count q' = sq_count q - n) as Hcount by by apply ring_count_pop.
  split_and!; [|done|].
  - constructor; try done; [by apply as_u_range|rewrite Hcount; simpl; lia].
  - unfold sq_view at 2. rewrite <- (ring_view_drop (sq_capacity q)) by (done || lia).
    unfold sq_view. rewrite Hcount, Z2Nat.inj_sub, Z2Nat.id by lia. done.
Qed.
End SubmissionLemmas.

(** ** The completion queue *)

Definition cq_count (q : CompletionQueue) : Z := ring_count (cq_khead q) (cq_ktail q).

(** The completions the kernel posted and the library has not released. *)
Definition cq_view (q : CompletionQueue) : list CompletionEntry :=
  ring_view (cq_array_entries q) (cq_mask q) (cq_khead q) (Z.to_nat (cq_count q)).

Record cq_wf (q : CompletionQueue) : Prop := {
  cq_wf_size : ring_size (cq_capacity q) (cq_mask q);
  cq_wf_entries : length (cq_array_entries q) = Z.to_nat (cq_capacity q);
  cq_wf_khead : in_u 32 (cq_khead q);
  cq_wf_ktail : in_u 32 (cq_ktail q);
  cq_wf_count : cq_count q ≤ cq_capacity q
}.

(** The kernel's write of one completion. *)
Definition cq_post (e : CompletionEntry) (q : CompletionQueue) : CompletionQueue :=
  mkCq (cq_khead q) (as_u 32 (cq_ktail q + 1))
    (<[slot (cq_mask q) (cq_ktail q) := e]> (cq_array_entries q)) (cq_mask q)
    (cq_kflags q) (cq_koverflow q) (cq_capacity q).

Section CompletionLemmas.
Context (q : CompletionQueue) (Hwf : cq_wf q).

Lemma length_cq_view : Z.of_nat (length (cq_view q)) = cq_count q.
Proof.
  unfold cq_view. destruct Hwf.
  rewrite (length_ring_view (cq_capacity q) (cq_mask q)) by done.
  pose proof (ring_count_range (cq_khead q) (cq_ktail q)) as [??]. unfold cq_count in *. lia.
Qed.

Lemma cq_post_spec e :
  cq_count q < cq_capacity q →
  cq_wf (cq_post e q) ∧ cq_view (cq_post e q) = cq_view q ++ [e].
Proof.
  intros Hroom. destruct Hwf as [Hsize Hes Hh Ht Hc].
  pose proof (ring_size_bounds _ _ Hsize).
  pose proof (ring_count_range (cq_khead q) (cq_ktail q)) as R. unfold cq_count, in_u in *.
  pose proof (ring_count_push (cq_khead q) (cq_ktail q)) as Hp.
  split.
  - constructor; cbn -[Z.pow]; try done.
    + by rewrite length_insert.
    + by apply as_u_range.
    + unfold cq_count. cbn -[Z.pow]. lia.
  - unfold cq_view, cq_count. cbn -[Z.pow]. rewrite Hp by lia.
    rewrite Z2Nat.inj_add by lia. rewrite Nat.add_1_r.
    rewrite <- (ring_view_snoc (cq_capacity q)) by (done || lia).
    rewrite <- (slot_as_u (cq_capacity q) _ Hsize (_ + _)), Z2Nat.id, ring_tail_index by lia.
    by rewrite (slot_as_u (cq_capacity q)).
Qed.

(** The completion [i] positions after the head is read at its masked index. *)
Lemma cq_read_view i e :
  cq_view q !! i = Some e →
  cq_read q (Z.land (as_u 32 (cq_khead q + Z.of_nat i)) (cq_mask q)) = Ret e.
Proof.
  intros Hi. assert (i < length (cq_view q))%nat as Hlt by by eapply lookup_lt_Some.
  unfold cq_view in *. destruct Hwf as [Hsize Hes Hh Ht Hc].
  rewrite (length_ring_view (cq_capacity q)) in Hlt by done.
  rewrite (ring_view_lookup (cq_capacity q)) in Hi by done.
  unfold cq_read. change (Z.to_nat (Z.land ?h ?m)) with (slot m h).
  rewrite (slot_as_u (cq_capacity q)) by done. by rewrite Hi.
Qed.

(** Releasing the completion at the head. *)
Lemma cq_pop_spec e l :
  cq_view q = e :: l →
  let q' := set_cq_khead (as_u 32 (cq_khead q + 1)) q in
  cq_wf q' ∧ cq_view q' = l ∧ cq_count q' = cq_count q - 1.
Proof.
  intros Hv q'. pose proof length_cq_view as Hlen. rewrite Hv in Hlen. simpl in Hlen.
  destruct Hwf as [Hsize Hes Hh Ht Hc].
  assert (cq_count q' = cq_count q - 1) as Hcount 
    by (apply (ring_count_pop (cq_khead q) (cq_ktail q)); unfold cq_count in Hlen; lia).
  split_and!; [|..|done].
  - constructor; try done.
    + by apply as_u_range.
    + rewrite Hcount. simpl. lia.
  - unfold cq_view. rewrite Hcount. unfold cq_view in Hv.
    replace (Z.to_nat (cq_count q)) with (S (Z.to_nat (cq_count q - 1))) in Hv by lia.
    by apply ring_view_cons in Hv as [_ ?].
Qed.
End CompletionLemmas.

(** ** The mappings hold the arrays *)

(** Limits of the kernel's rings: at most 2^16 entries, offsets in a [u32],
    entries of at most 2^10 bytes. *)
Definition params_ok (p : Parameters) : Prop :=
  0 ≤ sq_entries p ≤ 2 ^ 16 ∧ 0 ≤ cq_entries p ≤ 2 ^ 16 ∧
  in_u 32 (sq_off_array p) ∧ in_u 32 (cq_off_cqes p).

Definition wide_factor (wide : bool) : Z := if wide then 2 else 1.

Lemma scale_spec oc sz count offset wide :
  0 ≤ sz ≤ 2 ^ 10 → 0 ≤ count ≤ 2 ^ 16 → in_u 32 offset →
  scale oc sz count offset wide = Ret (offset + sz * (count * wide_factor wide)).
Proof.
  unfold in_u. intros Hsz Hc Ho. unfold scale, wide_factor.
  assert (0 ≤ sz * (count * 2) ≤ 2 ^ 10 * (2 ^ 16 * 2)) by nia.
  assert (0 ≤ sz * count ≤ 2 ^ 10 * 2 ^ 16) by nia.
  destruct wide; cbn [mbind outcome_bind]; rewrite ?(arith_u_fits _ 32) by (unfold in_u; lia);
    cbn [mbind outcome_bind]; rewrite ?Z.mul_1_r;
    rewrite ?(arith_u_fits _ 64) by (unfold in_u; lia); cbn [mbind outcome_bind];
    by rewrite ?(arith_u_fits _ 64) by (unfold in_u; lia).
Qed.

Section Layout.
Context (oc : bool) (szc szs : Z) (mmap : MmapOffsets → Z → OsResult Map).
Context (Hszc : 0 ≤ szc ≤ 2 ^ 10) (Hszs : 0 ≤ szs ≤ 2 ^ 10).
(** A successful [mmap] maps the requested length. *)
Context (Hmmap : ∀ o n m, mmap o n = Ok m → map_len m = n).

Lemma map_memory_len o n m : map_memory mmap n o = Ok m → map_len m = n.
Proof. unfold map_memory. destruct (mmap o n) eqn:E; naive_solver. Qed.

(** [Rings::new] returns for the sizes the kernel allows. *)
Lemma rings_new_returns params :
  params_ok params → ∃ res, Rings_new oc szc szs mmap params = Ret res.
Proof.
  intros (Hsq & Hcq & Hao & Hco). unfold Rings_new, size_of_u32.
  rewrite !scale_spec by (done || lia). cbn [mbind outcome_bind].
  destruct (single_mmap params).
  - destruct (map_memory mmap (_ `max` _) SubmissionRing); cbn [mbind outcome_bind]; [|by eexists].
    destruct (map_memory mmap _ SubmissionEntries); by eexists.
  - destruct (map_memory mmap _ SubmissionRing); [|by eexists].
    destruct (map_memory mmap _ CompletionRing); cbn [mbind outcome_bind]; [|by eexists].
    destruct (map_memory mmap _ SubmissionEntries); by eexists.
Qed.

(** C33: with either mapping scheme, whenever [Rings::new] succeeds the index
    array, the completion entries (of the wide layout too) and the submission
    entries lie within the mappings the queues use; [Rings::new] itself never
    panics for the sizes the kernel allows. *)
Theorem rings_hold_arrays params :
  params_ok params →
  ∃ res, Rings_new oc szc szs mmap params = Ret res ∧
    ∀ r, res = Ok r →
      get_array_end size_of_u32 (sq_off_array params) (sq_entries params)
        ≤ map_len (submission_ring r) ∧
      get_array_end (szc * wide_factor (completion_entry_wide params))
        (cq_off_cqes params) (cq_entries params) ≤ map_len (completion_ring r) ∧
      get_array_end (szs * wide_factor (submission_entry_wide params)) 0
        (sq_entries params) ≤ map_len (submission_entries r).
Proof.
  intros (Hsq & Hcq & Hao & Hco). unfold Rings_new, size_of_u32, get_array_end.
  rewrite !scale_spec by (done || lia). cbn [mbind outcome_bind].
  set (size0 := _ + 4 * _). set (size1 := _ + szc * _).
  destruct (single_mmap params).
  - destruct (map_memory mmap (size0 `max` size1) SubmissionRing) as [m|e] eqn:E1;
      [|by eexists].
    cbn [mbind outcome_bind].
    destruct (map_memory mmap _ SubmissionEntries) as [m2|e] eqn:E2; [|by eexists].
    apply map_memory_len in E1, E2. eexists. split; [done|]. intros r [= <-].
    unfold completion_ring, submission_ring. simpl. rewrite E1, E2. subst size0 size1.
    simpl. lia.
  - destruct (map_memory mmap size0 SubmissionRing) as [m|e] eqn:E1; [|by eexists].
    destruct (map_memory mmap size1 CompletionRing) as [m'|e] eqn:E3; [|by eexists].
    cbn [mbind outcome_bind].
    destruct (map_memory mmap _ SubmissionEntries) as [m2|e] eqn:E2; [|by eexists].
    apply map_memory_len in E1, E2, E3. eexists. split; [done|]. intros r [= <-].
    unfold completion_ring, submission_ring. simpl. rewrite E1, E2, E3. subst size0 size1.
    simpl. lia.
Qed.

End Layout.

Definition sample_params : Parameters := mkParameters 256 8192 131392 320 false false true.
Definition sample_mmap (o : MmapOffsets) (n : Z) : OsResult Map := Ok (mkMap 4096 n).

Lemma rings_hold_arrays_witness :
  ∃ res, Rings_new true 16 64 sample_mmap sample_params = Ret res ∧
    ∀ r, res = Ok r →
      get_array_end size_of_u32 131392 256 ≤ map_len (submission_ring r) ∧
      get_array_end (16 * wide_factor false) 320 8192 ≤ map_len (completion_ring r) ∧
      get_array_end (64 * wide_factor false) 0 256 ≤ map_len (submission_entries r).
Proof.
  apply (rings_hold_arrays true 16 64 sample_mmap ltac:(lia) ltac:(lia)).
  - intros o n m [= <-]. reflexivity.
  - unfold params_ok, in_u. simpl. lia.
Defined.

(** ** Claims about the submission queue *)

Fixpoint push_all (oc : bool) (es : list SubmissionEntry) (q : SubmissionQueue) :
    outcome SubmissionQueue :=
  match es with
  | [] => Ret q
  | e :: es => q' ← sq_push oc q e; push_all oc es q'
  end.

Lemma push_all_spec es q :
  sq_wf q → sq_count q + Z.of_nat (length es) ≤ sq_capacity q →
  ∃ q', push_all false es q = Ret q' ∧ sq_wf q' ∧ sq_view q' = sq_view q ++ es.
Proof.
  revert q. induction es as [|e es IH]; intros q Hwf Hroom; simpl in *.
  - exists q. by rewrite app_nil_r.
  - destruct (sq_push_spec false q Hwf e) as (q1 & E1 & Hwf1 & Hv1 & Hc1 & _ & Hrest);
      [lia|by left|].
    destruct (IH q1) as (q2 & E2 & Hwf2 & Hv2); [done|simplify_eq; lia|].
    exists q2. rewrite E1. simpl. rewrite E2. split_and!; try done.
    by rewrite Hv2, Hv1, <- app_assoc.
Qed.

(** C12: entries pushed one after the other into a ring with room are published
    by [sync] to the kernel, which fetches through the index array, in order
    and behind those already staged: no entry is lost, duplicated or
    overwritten, whatever the 32-bit indices are (release build). *)
Theorem pushed_entries_published es q :
  sq_wf q → sq_count q + Z.of_nat (length es) ≤ sq_capacity q →
  ∃ q', push_all false es q = Ret q' ∧ sq_wf (sq_sync q') ∧
    sq_published (sq_sync q') = sq_view q ++ es.
Proof.
  intros Hwf Hroom. destruct (push_all_spec es q Hwf Hroom) as (q' & E & Hwf' & Hv).
  exists q'. split_and!; [done|by apply sq_sync_wf|]. by rewrite sq_sync_published.
Qed.

(** A ring of four entries whose indices are about to wrap around. *)
Definition sample_sq : SubmissionQueue :=
  mkSq 0 4294967295 4294967295 3 (replicate 4 zero_entry) 4 4294967294 0 [0; 1; 2; 3].

Lemma sample_sq_wf : sq_wf sample_sq.
Proof.
  constructor; try done.
  exists 2. split_and!; try done; lia.
Qed.

Lemma pushed_entries_published_witness :
  ∃ q', push_all false [set_fd 1 zero_entry; set_fd 2 zero_entry] sample_sq = Ret q' ∧
    sq_wf (sq_sync q') ∧
    sq_published (sq_sync q') =
      sq_view sample_sq ++ [set_fd 1 zero_entry; set_fd 2 zero_entry].
Proof.
  apply (pushed_entries_published [set_fd 1 zero_entry; set_fd 2 zero_entry] sample_sq).
  - apply sample_sq_wf.
  - vm_compute. discriminate.
Defined.

(** In a build with overflow checks, the push at the last 32-bit index
    panics although the ring has room, while the release build wraps. *)
Theorem push_overflow_panics q e :
  sq_wf q → sq_count q < sq_capacity q → sq_tail q = 2 ^ 32 - 1 →
  sq_push true q e = Panic ∧
  ∃ q', sq_push false q e = Ret q' ∧ sq_tail q' = 0.
Proof.
  intros Hwf Hroom Ht. split.
  - unfold sq_push. by rewrite Ht.
  - destruct (sq_push_spec false q Hwf e) as (q1 & E1 & _ & _ & _ & Ht1 & _); [done|by left|].
    exists q1. rewrite Ht1, Ht. done.
Qed.

Lemma push_overflow_panics_witness :
  sq_push true sample_sq zero_entry = Panic ∧
  ∃ q', sq_push false sample_sq zero_entry = Ret q' ∧ sq_tail q' = 0.
Proof.
  apply (push_overflow_panics sample_sq zero_entry).
  - apply sample_sq_wf.
  - vm_compute. reflexivity.
  - reflexivity.
Defined.

(** The queues of a fresh ring are well formed and empty: the index array is the
    identity, nothing is staged and nothing is pending. *)
Lemma fresh_queues_empty oc mem params :
  ring_size (sq_entries params) (sq_entries params - 1) →
  ring_size (cq_entries params) (cq_entries params - 1) →
  length (mem_sq_array mem) = Z.to_nat (sq_entries params) →
  length (mem_sq_entries mem) = Z.to_nat (sq_entries params) →
  length (mem_cq_entries mem) = Z.to_nat (cq_entries params) →
  mem_sq_khead mem = 0 → mem_cq_khead mem = 0 → mem_cq_ktail mem = 0 →
  ∃ q, Queue_new oc mem params = Ret q ∧
    sq_wf (submission q) ∧ cq_wf (completion q) ∧
    sq_view (submission q) = [] ∧ cq_view (completion q) = [].
Proof.
  intros Hsq Hcq Ha He Hc Hk Hck Hct.
  pose proof (ring_size_bounds _ _ Hsq). pose proof (ring_size_bounds _ _ Hcq).
  unfold Queue_new, SubmissionQueue_new, CompletionQueue_new.
  rewrite !arith_u_fits by (unfold in_u; lia). cbn [mbind outcome_bind].
  assert (imap (λ i _, as_u 32 (Z.of_nat i)) (mem_sq_array mem) =
          imap (λ i _, Z.of_nat i) (mem_sq_array mem)) as Himap.
  { apply imap_ext. intros i x Hi. apply as_u_id.
    apply lookup_lt_Some in Hi. unfold in_u. lia. }
  eexists. split; [reflexivity|]. simpl. rewrite Himap, Hk, Hck, Hct.
  split_and!; [| |done|done].
  - constructor; simpl; try done.
    + apply list_eq. intros i. rewrite !list_lookup_imap.
      by destruct (mem_sq_array mem !! i).
    + by rewrite length_imap.
    + unfold sq_count. simpl. change (ring_count 0 0) with 0. lia.
  - constructor; simpl; try done. unfold cq_count. simpl. change (ring_count 0 0) with 0. lia.
Qed.

Definition sample_memory : RingMemory :=
  mkRingMemory 0 0 0 0 (replicate 4 9) (replicate 4 zero_entry) 0 0 0 0
    (replicate 8 (mkCqe 0 0)).
