(* ===== verification/Engine.v ===== *)
(** * The engine interface (src/src/engine/mod.rs)

    [EngineImpl] is the trait of I/O backends, over the state [S] of the whole
    process (a backend runs callbacks, which may change anything).  A method of
    the trait that starts an I/O operation is [start] applied to the
    [Operation] that names the method and its arguments.  [SyncEngine] is the
    fallback that performs a system call at once, and [Engine] the wrapper that
    turns a backend's answer into the [Progress] of a future. *)

From stdpp Require Import base list numbers tactics.
From S2P Require Import Prelude.

Inductive OperationKind : Type := Async | SyncOffload | NonBlocking.

Inductive Operation : Type :=
| Oopen (path flags mode : Z)
| Oclose (fd : Z)
| Oread (fd buf len offset : Z)
| Owrite (fd buf len offset : Z)
| Osocket (domain socket_type protocol : Z)
| Oaccept (socket addr addrlen : Z)
| Oconnect (socket addr addrlen : Z)
| Orecv (socket buf len flags : Z)
| Orecvmsg (socket header flags : Z)
| Osend (socket buf len flags : Z)
| Osendmsg (socket header flags : Z)
| Oshutdown (socket how : Z)
| Obind (socket addr addrlen : Z)
| Olisten (socket backlog : Z)
| Ofsync (file : Z)
| Ostatx (dirfd path flags mask statx : Z)
| Opoll (fd mask : Z).

(** The address of a [Request]. *)
Definition ReqPtr : Type := Z.

(** xx-core's [Work] is a closure to run on a thread pool, and [CancelWork] the token
    that cancels it. *)
Abbreviation Work S := (M S unit).
Definition CancelWork : Type := Z.

Class EngineImpl (S : Type) : Type := {
  has_work : S → bool;
  work : Z → M S (Result unit);
  prepare_wake : M S (Result unit);
  wake : ReqPtr → M S (Result unit);
  start_work : Work S → ReqPtr → M S CancelWork;
  cancel_work : CancelWork → M S unit;
  cancel : ReqPtr → M S (Result unit);
  start : Operation → ReqPtr → M S (option Z);
  kind : Operation → S → OperationKind
}.

(** The [*_kind] methods and the bodies of the operations of the trait. *)

Definition default_kind (op : Operation) : OperationKind :=
  match op with
  | Oopen _ _ _ => SyncOffload
  | Oclose _ => SyncOffload
  | Oread _ _ _ _ => SyncOffload
  | Owrite _ _ _ _ => SyncOffload
  | Osocket _ _ _ => NonBlocking
  | Oaccept _ _ _ => SyncOffload
  | Oconnect _ _ _ => SyncOffload
  | Orecv _ _ _ _ => SyncOffload
  | Orecvmsg _ _ _ => SyncOffload
  | Osend _ _ _ _ => SyncOffload
  | Osendmsg _ _ _ => SyncOffload
  | Oshutdown _ _ => SyncOffload
  | Obind _ _ _ => NonBlocking
  | Olisten _ _ => NonBlocking
  | Ofsync _ => SyncOffload
  | Ostatx _ _ _ _ _ => SyncOffload
  | Opoll _ _ => SyncOffload
  end.

(** [unimplemented!()] *)
Definition default_start {S} (op : Operation) (request : ReqPtr) : M S (option Z) :=
  panic.

(** ** The fallback *)

(** The system calls of xx-core that the fallback uses. *)
Inductive SysCall : Type :=
| close_raw (fd : Z)
| socket_call (domain socket_type protocol : Z)
| shutdown_raw (socket how : Z)
| bind_raw (socket addr addrlen : Z)
| listen_raw (socket backlog : Z).

Module SyncEngine.
Section SyncEngine.
Context {S : Type} (syscall : SysCall → M S (OsResult Z)).

(** [-(err as isize)] *)
Definition sync_result (result : OsResult Z) : Z :=
  match result with
  | Ok num => num
  | Err err => - err
  end.

Definition close (fd : Z) (_ : ReqPtr) : M S (option Z) :=
  result ← syscall (close_raw fd);
  mret (Some (sync_result (result_map (λ _, 0) result))).

Definition socket (domain socket_type protocol : Z) (_ : ReqPtr) : M S (option Z) :=
  result ← syscall (socket_call domain socket_type protocol);
  mret (Some (sync_result result)).

Definition shutdown (socket how : Z) (_ : ReqPtr) : M S (option Z) :=
  result ← syscall (shutdown_raw socket how);
  mret (Some (sync_result (result_map (λ _, 0) result))).

Definition bind (socket addr addrlen : Z) (_ : ReqPtr) : M S (option Z) :=
  result ← syscall (bind_raw socket addr addrlen);
  mret (Some (sync_result (result_map (λ _, 0) result))).

Definition listen (socket backlog : Z) (_ : ReqPtr) : M S (option Z) :=
  result ← syscall (listen_raw socket backlog);
  mret (Some (sync_result (result_map (λ _, 0) result))).

Definition sync_start (op : Operation) (request : ReqPtr) : M S (option Z) :=
  match op with
  | Oclose fd => close fd request
  | Osocket d t p => socket d t p request
  | Oshutdown s how => shutdown s how request
  | Obind s addr addrlen => bind s addr addrlen request
  | Olisten s backlog => listen s backlog request
  | _ => default_start op request
  end.

#[export] Instance sync_engine : EngineImpl S := {|
  has_work := λ _, false;
  work := λ _, mret (Ok tt);
  prepare_wake := mret (Err (ErrKind Unimplemented));
  wake := λ _, mret (Err (ErrKind Unimplemented));
  start_work := λ _ _, panic;
  cancel_work := λ _, panic;
  cancel := λ _, mret (Ok tt);
  start := sync_start;
  kind := λ op _, default_kind op
|}.
End SyncEngine.
End SyncEngine.

(** ** The wrapper *)

(** What running a future yields: the result, or a pending operation with what its
    cancellation names: the request, or the token of the work. *)
Inductive Progress (A : Type) : Type :=
| Pending (cancel_request : ReqPtr)
| Done (a : A).

Arguments Pending {A} cancel_request.
Arguments Done {A} a.

Section Engine.
Context {S : Type} {inner : EngineImpl S}.
(** xx-core's conversion of a system call's return value. *)
Context (syscall_result : Z → OsResult Z).

(** The futures [engine_task!] generates. *)
Definition engine_task (op : Operation) (request : ReqPtr) : M S (Progress Z) :=
  result ← start op request;
  match result with
  | None => mret (Pending request)
  | Some result => mret (Done result)
  end.

(** The cancellation of such a future. *)
Definition engine_task_cancel (request : ReqPtr) : M S (Result unit) := cancel request.

(** [run_work] and its cancellation *)
Definition engine_run_work (work : Work S) (request : ReqPtr) : M S (Progress bool) :=
  token ← start_work work request;
  mret (Pending token).

Definition engine_run_work_cancel (token : CancelWork) : M S (Result unit) :=
  cancel_work token;;
  mret (Ok tt).

(** [result_for_*] *)
Definition result_for (val : Z) : OsResult Z := syscall_result val.
End Engine.

(** ** Claims *)

(** The documented conversion: a negative value is the negated error number. *)
Definition syscall_result_spec (syscall_result : Z → OsResult Z) : Prop :=
  ∀ v, syscall_result v = if v <? 0 then Err (- v) else Ok v.

(** The error numbers are positive and results are not negative. *)
Definition os_result_ok (r : OsResult Z) : Prop :=
  match r with Ok v => 0 ≤ v | Err e => 0 < e end.

(** The isize in which the fallback encodes a system call's result is decoded
    to the same result by [result_for_*]: no error becomes a value and no value
    an error. *)
Theorem sync_result_roundtrip syscall_result r :
  syscall_result_spec syscall_result → os_result_ok r →
  result_for syscall_result (SyncEngine.sync_result r) = r.
Proof.
  intros Hs Hr. unfold result_for. rewrite Hs. destruct r as [v|e]; simpl in *.
  - destruct (Z.ltb_spec v 0); [lia|done].
  - destruct (Z.ltb_spec (- e) 0); [by rewrite Z.opp_involutive|lia].
Qed.

Definition sample_syscall_result (v : Z) : OsResult Z := if v <? 0 then Err (- v) else Ok v.

Lemma sync_result_roundtrip_witness :
  result_for sample_syscall_result (SyncEngine.sync_result (Err Os.NoMem)) = Err Os.NoMem.
Proof.
  apply (sync_result_roundtrip sample_syscall_result (Err Os.NoMem)).
  - intros v. reflexivity.
  - reflexivity.
Defined.

(** The system call of an operation the fallback implements. *)
Definition sync_call (op : Operation) : option SysCall :=
  match op with
  | Oclose fd => Some (close_raw fd)
  | Osocket d t p => Some (socket_call d t p)
  | Oshutdown s how => Some (shutdown_raw s how)
  | Obind s a n => Some (bind_raw s a n)
  | Olisten s n => Some (listen_raw s n)
  | _ => None
  end.

(** Only a new socket has a value (its descriptor) besides success. *)
Definition sync_value (op : Operation) (v : Z) : Z :=
  match op with Osocket _ _ _ => v | _ => 0 end.

(** On the fallback an operation it implements is done when it returns: one
    system call is made, with the operation's arguments; a failure is reported
    as that call's error number, a success as the new descriptor of a socket
    and 0 otherwise; the request is not kept and the state is the one the call
    left.  Every other operation panics. *)
Theorem sync_engine_completes {S} (syscall : SysCall → M S (OsResult Z)) op request s :
  engine_task (inner := SyncEngine.sync_engine syscall) op request s =
  match sync_call op with
  | None => Panic
  | Some call =>
      '(r, s') ← syscall call s;
      Ret (Done (match r with Ok v => sync_value op v | Err e => - e end), s')
  end.
Proof.
  destruct op; try reflexivity; unfold engine_task, mbind, M_bind; simpl;
    unfold SyncEngine.close, SyncEngine.socket, SyncEngine.shutdown, SyncEngine.bind,
      SyncEngine.listen, mbind, M_bind;
    match goal with |- context [syscall ?c s] => destruct (syscall c s) as [[[] ?]| | | |] end;
    reflexivity.
Qed.
