(* ===== verification/Uring.v ===== *)
(** * The io_uring engine (src/src/engine/uring/engine.rs)

    [IoUring] is the engine's record; [World] adds what it interacts with: the
    kernel, the rest of the process and the log of the completions delivered.
    The kernel ([io_uring_enter]) and the callbacks that [Request::complete]
    runs are parameters.  This file has the definitions, in the order of the
    source up to what a definition needs; UringSpec.v has the specification of
    the kernel, the invariant and the lemmas, and UringEngine.v the theorems
    about the operations of the engine. *)

From stdpp Require Import base list numbers tactics.
From S2P Require Import Prelude Op Queue Engine.

(** ** Data *)

Inductive SetupFlag : Type :=
| CompletionRingSize | Clamp | SubmitAll | CoopTaskrun | TaskrunFlag | SingleIssuer
| DeferTaskrun.

Inductive Feature : Type := SingleMmap | ExtArg.

(** The capabilities xx-core detected. *)
Record IoRingFeatures : Type := mkFeatures {
  setup_flag_supported : SetupFlag → bool;
  feature_supported : Feature → bool;
  opcode_supported : OpCode → bool
}.

Record IoUring : Type := mkIoUring {
  to_submit : Z;
  queue : Queue;
  to_complete : Z;
  features : IoRingFeatures;
  expected_wakes : Z;
  wake_queue : list ReqPtr;
  (* the counter of the eventfd *)
  event_fd : Z
}.

(** The arguments of [io_uring_enter] and [io_uring_enter_timeout]. *)
Record EnterArgs : Type := mkEnterArgs {
  ea_submit : Z;
  ea_min_complete : Z;
  ea_get_events : bool;
  ea_timeout : option Z
}.

Record World (K U : Type) : Type := mkWorld {
  engine : IoUring;
  kernel : K;
  rest : U;
  (* the calls of [Request::complete] for a completion entry: request, result *)
  delivered : list (ReqPtr * Z);
  (* the calls of [Request::complete] for a wake *)
  woken_log : list ReqPtr
}.

Arguments mkWorld {K U} engine kernel rest delivered woken_log.
Arguments engine {K U} w : rename.
Arguments kernel {K U} w : rename.
Arguments rest {K U} w : rename.
Arguments delivered {K U} w : rename.
Arguments woken_log {K U} w : rename.

Definition set_to_submit (v : Z) (e : IoUring) : IoUring :=
  mkIoUring v (queue e) (to_complete e) (features e) (expected_wakes e) (wake_queue e)
    (event_fd e).
Definition set_queue (q : Queue) (e : IoUring) : IoUring :=
  mkIoUring (to_submit e) q (to_complete e) (features e) (expected_wakes e) (wake_queue e)
    (event_fd e).
Definition set_to_complete (v : Z) (e : IoUring) : IoUring :=
  mkIoUring (to_submit e) (queue e) v (features e) (expected_wakes e) (wake_queue e)
    (event_fd e).
Definition set_expected_wakes (v : Z) (e : IoUring) : IoUring :=
  mkIoUring (to_submit e) (queue e) (to_complete e) (features e) v (wake_queue e)
    (event_fd e).
Definition set_wake_queue (l : list ReqPtr) (e : IoUring) : IoUring :=
  mkIoUring (to_submit e) (queue e) (to_complete e) (features e) (expected_wakes e) l
    (event_fd e).
Definition set_event_fd (v : Z) (e : IoUring) : IoUring :=
  mkIoUring (to_submit e) (queue e) (to_complete e) (features e) (expected_wakes e)
    (wake_queue e) v.

Definition set_submission (q : SubmissionQueue) (e : IoUring) : IoUring :=
  set_queue (mkQueue q (completion (queue e))) e.
Definition set_completion (q : CompletionQueue) (e : IoUring) : IoUring :=
  set_queue (mkQueue (submission (queue e)) q) e.

Definition upd {K U} (f : IoUring → IoUring) (w : World K U) : World K U :=
  mkWorld (f (engine w)) (kernel w) (rest w) (delivered w) (woken_log w).

Definition log_delivered {K U} (r : ReqPtr) (v : Z) (w : World K U) : World K U :=
  mkWorld (engine w) (kernel w) (rest w) (delivered w ++ [(r, v)]) (woken_log w).

Definition log_woken {K U} (r : ReqPtr) (w : World K U) : World K U :=
  mkWorld (engine w) (kernel w) (rest w) (delivered w) (woken_log w ++ [r]).

(** [PollFlag::In] and [PollFlag::Error]. *)
Definition PollIn : Z := 1.
Definition PollError : Z := 8.

(** [OpenAt::CurrentWorkingDirectory] *)
Definition CurrentWorkingDirectory : Z := -100.

Definition MAX_RESUME : nat := 4.

(** ** The event counter (eventfd(2), non-blocking) *)

Definition eventfd_read (counter : Z) : OsResult Z * Z :=
  if counter =? 0 then (Err Os.Again, counter) else (Ok counter, 0).

Definition eventfd_write (v counter : Z) : OsResult unit * Z :=
  if counter + v <? 2 ^ 64 - 1 then (Ok tt, counter + v) else (Err Os.Again, counter).

Section Uring.
Context {K U : Type}.
Local Abbreviation W := (World K U).

Context (overflow_checks : bool).
Context (default_entry : SubmissionEntry) (big_endian : bool).

(** The kernel: a call of [io_uring_enter] on the shared rings; it also sees the
    counter of the eventfd, which the engine has it poll. *)
Context (io_uring_enter : EnterArgs → Z → K → Queue → OsResult Z * K * Queue).

(** System calls made directly, xx-core's conversion of their results. *)
Context (syscall : SysCall → M W (OsResult Z)) (syscall_result : Z → OsResult Z).

(** Addresses: the static [NO_OP] request, the engine's [event_request], the
    descriptor of the eventfd, and a [TimeSpec] on the stack with the given
    nanoseconds. *)
Context (NO_OP event_request event_fd_raw : Z) (timespec_at : Z → Z).

(** The callbacks of the other requests, for a completion and for a wake. *)
Context (user_complete : ReqPtr → Z → M W unit) (wake_complete : ReqPtr → M W unit).

(** Bound on the rounds of [process_wake]'s loop. *)
Context (wake_fuel : nat).

Definition gets_engine {A} (f : IoUring → A) : M W A := gets (λ w, f (engine w)).
Definition modify_engine (f : IoUring → IoUring) : M W unit := modify (upd f).

Definition call_enter (a : EnterArgs) : M W (OsResult Z) := λ w,
  let '(r, k', q') := io_uring_enter a (event_fd (engine w)) (kernel w) (queue (engine w)) in
  Ret (r, mkWorld (set_queue q' (engine w)) k' (rest w) (delivered w) (woken_log w)).

(** *** Submission *)

Fixpoint enter_loop (fuel : nat) (func : Z → M W (OsResult Z)) (to_submit : Z) :
    M W (Result unit) :=
  match fuel with
  | O => no_fuel
  | S fuel =>
      r ← func to_submit;
      match r with
      | Ok submitted =>
          to_submit ← lift (arith_u overflow_checks 32 (to_submit - as_u 32 submitted));
          if to_submit =? 0 then mret (Ok tt)
          else
            submit_all ← gets_engine (λ e, setup_flag_supported (features e) SubmitAll);
            if negb submit_all then enter_loop fuel func to_submit
            else mret (Err (ErrKind OutOfMemory))
      | Err err =>
          if ((err =? Os.Time) || (err =? Os.Intr) || (err =? Os.Busy)) && (to_submit =? 0)
          then mret (Ok tt)
          else if err =? Os.Again then mret (Err (ErrKind OutOfMemory))
          else mret (Err (ErrOs err))
      end
  end.

Definition enter (func : Z → M W (OsResult Z)) : M W (Result unit) :=
  modify_engine (λ e, set_submission (sq_sync (submission (queue e))) e);;
  n ← gets_engine to_submit;
  modify_engine (set_to_submit 0);;
  complete ← gets_engine to_complete;
  complete ← lift (arith_u overflow_checks 64 (complete + n));
  modify_engine (set_to_complete complete);;
  enter_loop (S (Z.to_nat n)) func n.

Definition flush : M W (Result unit) :=
  get_events ← gets_engine (λ e, needs_flush (queue e));
  enter (λ submit, call_enter (mkEnterArgs submit 0 get_events None)).

Definition push_flush : M W unit :=
  r ← flush;
  lift (expect_nounwind r).

Definition push (request : SubmissionEntry) : M W unit :=
  q ← gets_engine (λ e, submission (queue e));
  q' ← lift (sq_push overflow_checks q request);
  modify_engine (set_submission q');;
  n ← gets_engine to_submit;
  n ← lift (arith_u overflow_checks 32 (n + 1));
  modify_engine (set_to_submit n);;
  capacity ← gets_engine (λ e, sq_capacity (submission (queue e)));
  if n <? capacity then mret tt
  else push_flush.

Definition start_async (op : SubmissionEntry) (request : ReqPtr) : M W (option Z) :=
  let op := set_user_data request op in
  push op;;
  mret None.

(** *** Waiting *)

Definition submit_and_wait_compat (timeout : Z) : M W (Result unit) :=
  tail ← gets_engine (λ e, (read_ring (completion (queue e))).2);
  _ ←? flush;
  tail' ← gets_engine (λ e, (read_ring (completion (queue e))).2);
  if negb (tail' =? tail) then mret (Ok tt)
  else
    let timeout := Z.min timeout 1000000000 in
    nanos ← lift (unwrap (if fits_i 64 timeout then Some timeout else None));
    let op := Op.timeout default_entry (timespec_at nanos) 1 0 in
    start_async op NO_OP;;
    r ← enter (λ submit, call_enter (mkEnterArgs submit 1 true None));
    lift (expect_nounwind r);;
    mret (Ok tt).

Definition submit_and_wait (timeout : Z) : M W (Result (Z * Z)) :=
  let wait := negb (timeout =? 0) in
  n ← gets_engine to_submit;
  ring ← gets_engine (λ e, read_ring (completion (queue e)));
  enter_needed ← gets_engine (λ e, needs_enter (queue e));
  if (n =? 0) && negb (ring.1 =? ring.2) then mret (Ok ring)
  else if (n =? 0) && negb enter_needed && negb wait then mret (Ok ring)
  else
    ext_arg ← gets_engine (λ e, feature_supported (features e) ExtArg);
    _ ←? (if ext_arg : bool then
            enter (λ submit,
              call_enter (mkEnterArgs submit (if wait then 1 else 0) true (Some timeout)))
          else submit_and_wait_compat timeout);
    ring ← gets_engine (λ e, read_ring (completion (queue e)));
    mret (Ok ring).

(** *** Wakes *)

(** [poll] of the event descriptor for the engine's own request. *)
Definition poll_wake : M W unit :=
  start_async (Op.poll default_entry big_endian event_fd_raw PollIn) event_request;;
  mret tt.

Definition process_wake_cold (events : Z) : M W unit :=
  events ← lift (expect_nounwind (result_for syscall_result events));
  if flags_intersects events PollError then abort
  else poll_wake.

Fixpoint complete_wakes (requests : list ReqPtr) : M W unit :=
  match requests with
  | [] => mret tt
  | r :: requests =>
      modify (log_woken r);;
      wake_complete r;;
      complete_wakes requests
  end.

(** The loop of [process_wake]; returns the number of requests woken. *)
Fixpoint process_wake_loop (fuel : nat) (woken : Z) : M W Z :=
  match fuel with
  | O => no_fuel
  | S fuel =>
      pending ← gets_engine wake_queue;
      match pending with
      | [] =>
          counter ← gets_engine event_fd;
          let '(r, counter') := eventfd_read counter in
          modify_engine (set_event_fd counter');;
          lift (expect_nounwind r);;
          mret woken
      | _ :: _ =>
          let amount := Nat.min (length pending) MAX_RESUME in
          let requests := take amount pending in
          modify_engine (set_wake_queue (drop amount pending));;
          complete_wakes requests;;
          woken ← lift (arith_u overflow_checks 64 (woken + Z.of_nat amount));
          process_wake_loop fuel woken
      end
  end.

Definition process_wake (events : Z) : M W unit :=
  if negb (events =? PollIn) then process_wake_cold events
  else
    woken ← process_wake_loop wake_fuel 0;
    count ← gets_engine expected_wakes;
    wakes ← lift (arith_u overflow_checks 64 (count - woken));
    modify_engine (set_expected_wakes wakes);;
    if negb (wakes =? 0) then poll_wake else mret tt.

(** *** Completion *)

(** [Request::complete]: the request's callback.  [NO_OP] does nothing, the
    engine's own request runs [process_wake]. *)
Definition request_complete (request : ReqPtr) (result : Z) : M W unit :=
  modify (log_delivered request result);;
  if request =? NO_OP then mret tt
  else if request =? event_request then process_wake result
  else user_complete request result.

Section RunEvents.
Context (complete_request : ReqPtr → Z → M W unit).

(** The closure [complete(index, update_head)]; returns the new head. *)
Definition complete (mask index : Z) (update_head : option Z) : M W (option Z) :=
  q ← gets_engine (λ e, completion (queue e));
  e ← lift (cq_read q (Z.land index mask));
  head ← match update_head with
         | Some head =>
             let head := as_u 32 (head + 1) in
             modify_engine (λ e,
               set_completion (set_cq_khead head (completion (queue e))) e);;
             mret (Some head)
         | None => mret None
         end;
  complete_request (cqe_user_data e) (cqe_result e);;
  mret head.

(** [while head != tail] *)
Fixpoint run_events_loop (fuel : nat) (mask head tail : Z) : M W Z :=
  if head =? tail then mret head
  else
    match fuel with
    | O => no_fuel
    | S fuel =>
        h ← complete mask head (Some head);
        match h with
        | Some head => run_events_loop fuel mask head tail
        | None => panic
        end
    end.

Definition run_events (ring : Z * Z) : M W unit :=
  let '(head, tail) := ring in
  mask ← gets_engine (λ e, cq_mask (completion (queue e)));
  let count := as_u 32 (tail - head) in
  if count =? 0 then mret tt
  else
    n ← gets_engine to_complete;
    n ← lift (arith_u overflow_checks 64 (n - count));
    modify_engine (set_to_complete n);;
    let tail := as_u 32 (tail - 1) in
    complete mask tail None;;
    head ← run_events_loop (Z.to_nat (ring_count head tail)) mask head tail;
    modify_engine (λ e,
      set_completion (set_cq_khead (as_u 32 (head + 1)) (completion (queue e))) e).
End RunEvents.

(** *** The trait implementation *)

Definition uring_has_work (w : W) : bool :=
  negb (to_complete (engine w) =? 0) || negb (to_submit (engine w) =? 0).

Definition uring_work (timeout : Z) : M W (Result unit) :=
  events ←? submit_and_wait timeout;
  run_events request_complete events;;
  mret (Ok tt).

Definition uring_prepare_wake : M W (Result unit) :=
  count ← gets_engine expected_wakes;
  count ← lift (arith_u overflow_checks 64 (count + 1));
  modify_engine (set_expected_wakes count);;
  (if count =? 1 then poll_wake else mret tt);;
  mret (Ok tt).

Definition uring_wake (request : ReqPtr) : M W (Result unit) :=
  pending ← gets_engine wake_queue;
  let wake := bool_decide (length pending = 0%nat) in
  modify_engine (set_wake_queue (pending ++ [request]));;
  if wake then
    counter ← gets_engine event_fd;
    let '(r, counter') := eventfd_write 1 counter in
    modify_engine (set_event_fd counter');;
    match r with Ok _ => mret (Ok tt) | Err e => mret (Err (ErrOs e)) end
  else mret (Ok tt).

Definition uring_cancel (request : ReqPtr) : M W (Result unit) :=
  let op := Op.cancel default_entry 0 in
  let op := set_addr request op in
  start_async op NO_OP;;
  mret (Ok tt).

(** [len.try_into().unwrap_or(u32::MAX)] *)
Definition clamp_len (len : Z) : Z := if fits_u 32 len then len else 2 ^ 32 - 1.

Definition uring_open (path flags mode : Z) (request : ReqPtr) : M W (option Z) :=
  start_async (Op.openat default_entry CurrentWorkingDirectory path flags mode 0) request.

Definition uring_close_kind (w : W) : OperationKind :=
  if negb (opcode_supported (features (engine w)) Close) then SyncOffload else Async.

Definition uring_close (fd : Z) (request : ReqPtr) : M W (option Z) :=
  supported ← gets_engine (λ e, opcode_supported (features e) Close);
  if negb supported then SyncEngine.close syscall fd request
  else start_async (Op.close default_entry fd) request.

Definition uring_read (fd buf len offset : Z) (request : ReqPtr) : M W (option Z) :=
  start_async (Op.read default_entry fd buf (clamp_len len) offset 0) request.

Definition uring_write (fd buf len offset : Z) (request : ReqPtr) : M W (option Z) :=
  start_async (Op.write default_entry fd buf (clamp_len len) offset 0) request.

Definition uring_socket (domain socket_type protocol : Z) (request : ReqPtr) :
    M W (option Z) :=
  supported ← gets_engine (λ e, opcode_supported (features e) Socket);
  if negb supported then SyncEngine.socket syscall domain socket_type protocol request
  else start_async (Op.socket default_entry domain socket_type protocol 0 0) request.

Definition uring_accept (socket addr addrlen : Z) (request : ReqPtr) : M W (option Z) :=
  start_async (Op.accept default_entry socket addr addrlen 0 0) request.

Definition uring_connect (socket addr addrlen : Z) (request : ReqPtr) : M W (option Z) :=
  start_async (Op.connect default_entry socket addr addrlen) request.

Definition uring_recv (socket buf len flags : Z) (request : ReqPtr) : M W (option Z) :=
  start_async (Op.recv default_entry socket buf (clamp_len len) flags) request.

Definition uring_recvmsg (socket header flags : Z) (request : ReqPtr) : M W (option Z) :=
  start_async (Op.recvmsg default_entry socket header flags) request.

Definition uring_send (socket buf len flags : Z) (request : ReqPtr) : M W (option Z) :=
  start_async (Op.send default_entry socket buf (clamp_len len) flags) request.

Definition uring_sendmsg (socket header flags : Z) (request : ReqPtr) : M W (option Z) :=
  start_async (Op.sendmsg default_entry socket header flags) request.

Definition uring_shutdown (socket how : Z) (request : ReqPtr) : M W (option Z) :=
  supported ← gets_engine (λ e, opcode_supported (features e) OpShutdown);
  if negb supported then SyncEngine.shutdown syscall socket how request
  else start_async (Op.shutdown default_entry socket how) request.

Definition uring_bind (socket addr addrlen : Z) (request : ReqPtr) : M W (option Z) :=
  SyncEngine.bind syscall socket addr addrlen request.

Definition uring_listen (socket backlog : Z) (request : ReqPtr) : M W (option Z) :=
  SyncEngine.listen syscall socket backlog request.

Definition uring_fsync (file : Z) (request : ReqPtr) : M W (option Z) :=
  start_async (Op.fsync default_entry file 0) request.

Definition uring_statx (dirfd path flags mask statx : Z) (request : ReqPtr) :
    M W (option Z) :=
  start_async (Op.statx default_entry dirfd path flags mask statx) request.

Definition uring_poll (fd mask : Z) (request : ReqPtr) : M W (option Z) :=
  start_async (Op.poll default_entry big_endian fd mask) request.

Definition uring_start (op : Operation) (request : ReqPtr) : M W (option Z) :=
  match op with
  | Oopen a b c => uring_open a b c request
  | Oclose a => uring_close a request
  | Oread a b c d => uring_read a b c d request
  | Owrite a b c d => uring_write a b c d request
  | Osocket a b c => uring_socket a b c request
  | Oaccept a b c => uring_accept a b c request
  | Oconnect a b c => uring_connect a b c request
  | Orecv a b c d => uring_recv a b c d request
  | Orecvmsg a b c => uring_recvmsg a b c request
  | Osend a b c d => uring_send a b c d request
  | Osendmsg a b c => uring_sendmsg a b c request
  | Oshutdown a b => uring_shutdown a b request
  | Obind a b c => uring_bind a b c request
  | Olisten a b => uring_listen a b request
  | Ofsync a => uring_fsync a request
  | Ostatx a b c d e => uring_statx a b c d e request
  | Opoll a b => uring_poll a b request
  end.

Definition uring_kind (op : Operation) (w : W) : OperationKind :=
  match op with Oclose _ => uring_close_kind w | _ => default_kind op end.

(** The thread pool of xx-core. *)
Context (submit_direct : Work W → ReqPtr → M W CancelWork) (cancel_direct : CancelWork → M W unit).

Definition uring_start_work (work : Work W) (request : ReqPtr) : M W CancelWork :=
  submit_direct work request.

Definition uring_cancel_work (cancel : CancelWork) : M W unit := cancel_direct cancel.

Definition uring_engine : EngineImpl W := {|
  has_work := uring_has_work;
  work := uring_work;
  prepare_wake := uring_prepare_wake;
  wake := uring_wake;
  start_work := uring_start_work;
  cancel_work := uring_cancel_work;
  cancel := uring_cancel;
  start := uring_start;
  kind := uring_kind
|}.
End Uring.

#[global] Arguments enter_loop : simpl never.
#[global] Arguments run_events_loop : simpl never.
#[global] Arguments process_wake_loop : simpl never.
