(* ===== verification/UringSpec.v ===== *)
(** * The io_uring engine: kernel specification, invariant and lemmas

    [kernel_spec] is what the engine relies on from [io_uring_enter]; [inv] is
    the invariant between two operations of the engine; [pushes] and [evolves]
    are what an operation does to the rings.  The sections follow the engine:
    submission and waiting, then the delivery of completions. *)

From stdpp Require Import base list numbers tactics.
From S2P Require Import Prelude Op Queue Engine Uring.

(** ** Specification of the kernel

    What the engine can observe of the kernel over time: the entries it has taken
    from the submission ring and the completions it has posted to the completion
    ring, each in order.  [laziness] bounds how often a wait may still end without
    a completion: it timed out or a signal came. *)

Class KernelView (K : Type) : Type := {
  taken : K → list SubmissionEntry;
  posted : K → list CompletionEntry;
  laziness : K → nat
}.

(** The number of requests the kernel holds. *)
Definition inflight `{!KernelView K} (k : K) : Z :=
  Z.of_nat (length (taken k)) - Z.of_nat (length (posted k)).

(** Each completion answers a request of its own. *)
Definition answers `{!KernelView K} (k : K) : Prop :=
  cqe_user_data <$> posted k ⊆+ user_data <$> taken k.

(** The completion of the poll of the event descriptor, whose counter is [ev]. *)
Definition poll_result (event_request ev : Z) (e : CompletionEntry) : Prop :=
  cqe_user_data e = event_request → cqe_result e = PollIn ∧ 0 < ev.

Lemma answers_inflight `{!KernelView K} (k : K) : answers k → 0 ≤ inflight k.
Proof. intros Ha%submseteq_length. rewrite !length_fmap in Ha. unfold inflight. lia. Qed.

(** ** The engine's own requests *)

Section Polls.
Context (event_request : Z).

(** The number of requests that are the engine's own. *)
Definition polls_in (l : list ReqPtr) : Z :=
  Z.of_nat (length (filter (λ r, r = event_request) l)).

Lemma polls_in_app l1 l2 : polls_in (l1 ++ l2) = polls_in l1 + polls_in l2.
Proof. unfold polls_in. by rewrite list.filter_app, length_app, Nat2Z.inj_add. Qed.

Lemma polls_in_nonneg l : 0 ≤ polls_in l.
Proof. unfold polls_in. lia. Qed.

Lemma polls_in_other l : Forall (λ r, r ≠ event_request) l → polls_in l = 0.
Proof.
  intros Hl. unfold polls_in. induction Hl as [|r l Hr _ IH]; [done|].
  by rewrite filter_cons_False.
Qed.

Lemma polls_in_own : polls_in [event_request] = 1.
Proof. unfold polls_in. by rewrite filter_cons_True. Qed.

Lemma polls_in_submseteq l1 l2 : l1 ⊆+ l2 → polls_in l1 ≤ polls_in l2.
Proof.
  intros [k Hk]%submseteq_Permutation.
  assert (polls_in l2 = polls_in (l1 ++ k)) as -> by (unfold polls_in; by rewrite Hk).
  rewrite polls_in_app. pose proof (polls_in_nonneg k). lia.
Qed.

End Polls.

(** The polls the kernel holds; a wait goes on without end when it holds nothing that
    can complete, only the poll of a descriptor that is not readable, and the wait
    does not come to nothing any more. *)
Definition held_polls `{!KernelView K} (event_request : Z) (k : K) : Z :=
  polls_in event_request (user_data <$> taken k) -
  polls_in event_request (cqe_user_data <$> posted k).

Definition asleep `{!KernelView K} (event_request ev : Z) (k : K) : Prop :=
  laziness k = 0%nat ∧ inflight k = held_polls event_request k ∧
  (0 < ev → held_polls event_request k = 0).

Section Spec.
Context {K U : Type} `{!KernelView K}.
Local Abbreviation W := (World K U).

(** The engine's own request. *)
Context (event_request : Z).

(** The kernel takes [n] submission entries and posts the completions [new]:
    it owns the head of the submission ring and the tail of the completion
    ring, writes only free completion slots, completes each request at most
    once, and the poll of the event descriptor only when it is readable. *)
Record kernel_moves (ev n : Z) (new : list CompletionEntry) (k : K) (q : Queue) (k' : K)
    (q' : Queue) : Prop := {
  km_sq_frame :
    let s := submission q in let s' := submission q' in
    (sq_ktail s', sq_tail s', sq_mask s', sq_array_entries s', sq_capacity s', sq_array s') =
    (sq_ktail s, sq_tail s, sq_mask s, sq_array_entries s, sq_capacity s, sq_array s);
  km_sq_khead :
    sq_khead (submission q') = as_u 32 (sq_khead (submission q) + n);
  km_cq_wf : cq_wf (completion q');
  km_cq_frame :
    let c := completion q in let c' := completion q' in
    (cq_khead c', cq_mask c', cq_capacity c') = (cq_khead c, cq_mask c, cq_capacity c);
  km_cq_view : cq_view (completion q') = cq_view (completion q) ++ new;
  km_taken : taken k' = taken k ++ take (Z.to_nat n) (sq_published (submission q));
  km_posted : posted k' = posted k ++ new;
  km_answers : answers k';
  km_polls : Forall (poll_result event_request ev) new;
  km_laziness : (laziness k' ≤ laziness k)%nat
}.

(** [io_uring_enter]: at most the published entries are taken; at least one if
    any was asked for and the call did not fail; all of them with [SubmitAll].
    [fatal] stands for what the kernel documents as failures of the call. *)
Definition kernel_spec (fatal : Prop) (submit_all : bool)
    (io_uring_enter : EnterArgs → Z → K → Queue → OsResult Z * K * Queue) : Prop :=
  ∀ a ev k q r k' q',
    io_uring_enter a ev k q = (r, k', q') →
    sq_wf (submission q) → cq_wf (completion q) → answers k →
    0 ≤ ea_submit a ≤ ring_count (sq_khead (submission q)) (sq_ktail (submission q)) →
    ∃ n new, 0 ≤ n ≤ ea_submit a ∧ kernel_moves ev n new k q k' q' ∧
      match r with
      | Ok v =>
          v = n ∧ (ea_submit a = 0 ∨ 0 < n) ∧
          (n < ea_submit a → submit_all = true → fatal)
      | Err e =>
          n = 0 ∧
          (fatal ∨ (ea_submit a = 0 ∧ (e = Os.Time ∨ e = Os.Intr ∨ e = Os.Busy)))
      end.

(** A call that waits and was not cut short comes back with a completion to deliver,
    unless nothing can complete, and only so often without one. *)
Definition kernel_waits
    (io_uring_enter : EnterArgs → Z → K → Queue → OsResult Z * K * Queue) : Prop :=
  ∀ a ev k q r k' q',
    io_uring_enter a ev k q = (r, k', q') →
    sq_wf (submission q) → cq_wf (completion q) → answers k →
    0 ≤ ea_submit a ≤ ring_count (sq_khead (submission q)) (sq_ktail (submission q)) →
    ea_min_complete a = 1 →
    match r with
    | Ok v => v = ea_submit a
    | Err e => e = Os.Time ∨ e = Os.Intr ∨ e = Os.Busy
    end →
    asleep event_request ev k' ∨ cq_view (completion q') ≠ [] ∨ (laziness k' < laziness k)%nat.

(** ** The invariant *)

Local Abbreviation sub w := (submission (queue (engine w))).
Local Abbreviation com w := (completion (queue (engine w))).

(** Completions counted as expected, less those the kernel holds, those posted
    and those about to be submitted ([n]), modulo 2^64 as the counter is.  0
    but for the batch that [run_events] is working on. *)
Definition balance (n : Z) (w : W) : Z :=
  as_u 64 (to_complete (engine w) - (inflight (kernel w) + n + cq_count (com w))).

Record rings_ok (n : Z) (w : W) : Prop := {
  ok_sq : sq_wf (sub w);
  ok_cq : cq_wf (com w);
  ok_staged : sq_count (sub w) = to_submit (engine w) + n;
  ok_to_submit : 0 ≤ to_submit (engine w);
  ok_n : 0 ≤ n;
  ok_answers : answers (kernel w);
  ok_to_complete : in_u 64 (to_complete (engine w))
}.

(** Between two operations: the staged entries are counted by [to_submit] and
    the submission ring has room. *)
Definition inv (submit_all : bool) (w : W) : Prop :=
  rings_ok 0 w ∧ to_submit (engine w) < sq_capacity (sub w) ∧
  setup_flag_supported (features (engine w)) SubmitAll = submit_all.

(** The fields of the engine are of their machine types; the indices of the ring are
    those of entries, and an index masked the way the code does is inside the arrays
    of the rings. *)
Record typed (e : IoUring) : Prop := {
  ty_to_submit : in_u 32 (to_submit e);
  ty_to_complete : in_u 64 (to_complete e);
  ty_expected : in_u 64 (expected_wakes e);
  ty_sq_tail : in_u 32 (sq_tail (submission (queue e)));
  ty_sq_head : in_u 32 (sq_khead (submission (queue e)));
  ty_cq_head : in_u 32 (cq_khead (completion (queue e)));
  ty_cq_tail : in_u 32 (cq_ktail (completion (queue e)));
  ty_array : Forall (λ i, 0 ≤ i < Z.of_nat (length (sq_array_entries (submission (queue e)))))
    (sq_array (submission (queue e)));
  ty_push : ∀ i, (slot (sq_mask (submission (queue e))) i <
    length (sq_array_entries (submission (queue e))))%nat;
  ty_read : ∀ i, (slot (cq_mask (completion (queue e))) i <
    length (cq_array_entries (completion (queue e))))%nat
}.

(** What any operation of the engine does to the completion ring: nothing is
    released, completions are only appended, the balance is kept, and no
    completion is delivered. *)
Record extends (n : Z) (w : W) (n' : Z) (w' : W) : Prop := {
  ex_khead : cq_khead (com w') = cq_khead (com w);
  ex_mask : cq_mask (com w') = cq_mask (com w);
  ex_view : ∃ new, cq_view (com w') = cq_view (com w) ++ new ∧
    posted (kernel w') = posted (kernel w) ++ new;
  ex_balance : balance n' w' = balance n w;
  ex_delivered : delivered w' = delivered w;
  ex_features : features (engine w') = features (engine w)
}.

Definition evolves (submit_all : bool) (w w' : W) : Prop :=
  inv submit_all w' ∧ extends 0 w 0 w'.

(** Every entry pushed so far: those the kernel took and those still staged. *)
Definition history (w : W) : list SubmissionEntry := taken (kernel w) ++ sq_view (sub w).

(** What the submission of entries leaves alone. *)
Definition wake_frame (w : W) : Z * list ReqPtr * Z * list ReqPtr * U :=
  (expected_wakes (engine w), wake_queue (engine w), event_fd (engine w), woken_log w, rest w).

(** The effect of pushing the entries [l]. *)
Record pushes (l : list SubmissionEntry) (n : Z) (w : W) (n' : Z) (w' : W) : Prop := {
  pu_extends : extends n w n' w';
  pu_frame : wake_frame w' = wake_frame w;
  pu_history : history w' = history w ++ l;
  pu_polls : ∀ new, posted (kernel w') = posted (kernel w) ++ new →
    Forall (poll_result event_request (event_fd (engine w))) new;
  pu_laziness : (laziness (kernel w') ≤ laziness (kernel w))%nat
}.

Lemma extends_refl n w : extends n w n w.
Proof. constructor; try done. exists []. by rewrite !app_nil_r. Qed.

Lemma extends_trans n1 w1 n2 w2 n3 w3 :
  extends n1 w1 n2 w2 → extends n2 w2 n3 w3 → extends n1 w1 n3 w3.
Proof.
  intros [H1 H2 (l1 & H3 & P1) H4 H5 H6] [G1 G2 (l2 & G3 & P2) G4 G5 G6].
  constructor; try congruence. exists (l1 ++ l2). by rewrite G3, H3, P2, P1, !app_assoc.
Qed.

Lemma pushes_refl n w : pushes [] n w n w.
Proof.
  constructor; [apply extends_refl|done|by rewrite app_nil_r| |done].
  intros new E. rewrite <- (app_nil_r (posted _)) in E at 1. apply app_inv_head in E as <-. done.
Qed.

Lemma pushes_trans l1 l2 n1 w1 n2 w2 n3 w3 :
  pushes l1 n1 w1 n2 w2 → pushes l2 n2 w2 n3 w3 → pushes (l1 ++ l2) n1 w1 n3 w3.
Proof.
  intros [H1 E1 F1 P1 L1] [H2 E2 F2 P2 L2].
  constructor; [by eapply extends_trans|congruence|by rewrite F2, F1, app_assoc| |lia].
  destruct (ex_view _ _ _ _ H1) as (new1 & _ & Q1), (ex_view _ _ _ _ H2) as (new2 & _ & Q2).
  intros new Q. rewrite Q2, Q1, <- app_assoc in Q. apply app_inv_head in Q as <-.
  injection E1 as _ _ Ev _ _. apply Forall_app. split; [by apply P1|]. rewrite <- Ev. by apply P2.
Qed.

Lemma evolves_refl sa w : inv sa w → evolves sa w w.
Proof. split; [done|]. apply extends_refl. Qed.

Lemma evolves_trans sa w1 w2 w3 :
  evolves sa w1 w2 → evolves sa w2 w3 → evolves sa w1 w3.
Proof. intros [_ H] [Hi H']. split; [done|]. by eapply extends_trans. Qed.

Lemma evolves_inv sa w w' : evolves sa w w' → inv sa w'.
Proof. by intros [? _]. Qed.
End Spec.

Create HintDb uring.
#[export] Hint Resolve evolves_refl evolves_trans evolves_inv extends_refl extends_trans : uring.

(** ** Submission *)

Section Submission.
Context {K U : Type} `{!KernelView K} (event_request : Z).
Context (fatal : Prop) (submit_all : bool).
Context (io_uring_enter : EnterArgs → Z → K → Queue → OsResult Z * K * Queue).
Context (Hkernel : kernel_spec event_request fatal submit_all io_uring_enter).

Local Abbreviation W := (World K U).
Local Abbreviation sub w := (submission (queue (engine w))).
Local Abbreviation com w := (completion (queue (engine w))).
Local Abbreviation call_enter := (call_enter (K := K) (U := U) io_uring_enter).
Local Abbreviation pushes := (pushes event_request).
Local Abbreviation inv := (inv submit_all).

(** While [enter] runs: [n] published entries are left to submit. *)
Definition entering (n : Z) (w : W) : Prop :=
  rings_ok n w ∧ to_submit (engine w) = 0 ∧ sq_ktail (sub w) = sq_tail (sub w) ∧
  setup_flag_supported (features (engine w)) SubmitAll = submit_all.

Lemma sq_wf_moved n (s s' : SubmissionQueue) :
  sq_wf s → 0 ≤ n ≤ sq_count s →
  (sq_ktail s', sq_tail s', sq_mask s', sq_array_entries s', sq_capacity s', sq_array s') =
  (sq_ktail s, sq_tail s, sq_mask s, sq_array_entries s, sq_capacity s, sq_array s) →
  sq_khead s' = as_u 32 (sq_khead s + n) →
  sq_wf s' ∧ sq_count s' = sq_count s - n ∧ sq_view s' = drop (Z.to_nat n) (sq_view s).
Proof.
  intros Hwf Hn Hf Hh. destruct (sq_consume_view s Hwf n Hn) as (Hwf' & Hc & Hv).
  destruct s as [kf kt t m es c kh kd ar], s' as [kf' kt' t' m' es' c' kh' kd' ar'].
  simpl in *. simplify_eq. split_and!; [|done|done].
  destruct Hwf'. by constructor.
Qed.

Lemma length_published q :
  sq_wf q → length (sq_published q) = Z.to_nat (ring_count (sq_khead q) (sq_ktail q)).
Proof.
  intros Hwf. unfold sq_published. rewrite sq_fetch_ring_view by done. destruct Hwf.
  by rewrite (length_ring_view (sq_capacity q)).
Qed.

(** What a move of the kernel does to the counts. *)
Lemma kernel_moves_counts n new ev k q k' q' :
  let s := submission q in
  sq_wf s → cq_wf (completion q) → kernel_moves event_request ev n new k q k' q' →
  0 ≤ n ≤ sq_count s → n ≤ ring_count (sq_khead s) (sq_ktail s) →
  sq_wf (submission q') ∧ sq_count (submission q') = sq_count s - n ∧
  sq_view (submission q') = drop (Z.to_nat n) (sq_view s) ∧
  cq_count (completion q') = cq_count (completion q) + Z.of_nat (length new) ∧
  inflight k' = inflight k + n - Z.of_nat (length new).
Proof.
  intros s Hsq Hcq [Hsf Hskh Hcwf Hcf Hcv Htk Hpo _ _ _] Hn Hp. simpl in *.
  destruct (sq_wf_moved n s (submission q')) as (Hsq' & Hc' & Hv'); try done.
  split_and!; try done.
  - rewrite <- !length_cq_view, Hcv, length_app by done. lia.
  - unfold inflight. rewrite Htk, Hpo, !length_app, length_take, length_published by done. fold s. lia.
Qed.

Lemma call_enter_spec a n w :
  entering n w → ea_submit a = n →
  wp fatal (call_enter a) w (λ r w', ∃ m, 0 ≤ m ≤ n ∧ entering (n - m) w' ∧
    pushes [] n w (n - m) w' ∧
    match r with
    | Ok v => v = m ∧ (n = 0 ∨ 0 < m) ∧ (m < n → submit_all = true → fatal)
    | Err e => m = 0 ∧ (fatal ∨ (n = 0 ∧ (e = Os.Time ∨ e = Os.Intr ∨ e = Os.Busy)))
    end).
Proof.
  intros ([Hsq Hcq Hst Hts Hn Hans Hbal] & Hz & Hkt & Hf) Ha.
  unfold call_enter, wp.
  destruct (io_uring_enter a (event_fd (engine w)) (kernel w) (queue (engine w)))
    as [[r k'] q'] eqn:E. simpl.
  destruct (Hkernel _ _ _ _ _ _ _ E) as (m & new & Hm & Hmv & Hr); try done;
    [rewrite Hkt; unfold sq_count in Hst; lia|].
  destruct (kernel_moves_counts m new _ _ _ _ _ Hsq Hcq Hmv)
    as (Hsq' & Hc' & Hv' & Hcc & Hinf'); [lia|rewrite Hkt; unfold sq_count in Hst; lia|].
  destruct Hmv as [Hsf Hskh Hcwf Hcf Hcv Htk Hpo Hans' Hpl Hlz].
  simpl in Hsf, Hcf. injection Hsf as S1 S2 S3 S4 S5 S6. injection Hcf as C1 C2 C3.
  assert (balance (n - m) (mkWorld (set_queue q' (engine w)) k' (rest w)
    (delivered w) (woken_log w)) = balance n w) as Hbal'.
  { unfold balance. simpl. rewrite Hcc, Hinf'. f_equal. lia. }
  exists m. split_and!; try lia.
  - split_and!; try done; simpl; [|congruence].
    constructor; simpl; try done; try lia.
  - constructor; [|done| | |done].
    + constructor; simpl; try done. eauto.
    + unfold history. simpl. rewrite Htk, Hv', app_nil_r, <- app_assoc. f_equal.
      unfold sq_published. rewrite Hkt, sq_fetch_ring_view by done. apply take_drop.
    + simpl. intros new' E'. rewrite Hpo in E'. by apply app_inv_head in E' as <-.
  - by subst n.
Qed.

Lemma entering_range n w : entering n w → in_u 32 n.
Proof.
  intros ([? _ Hst _ Hn _ _] & Hz & _). pose proof (ring_count_range
    (sq_khead (sub w)) (sq_tail (sub w))). unfold sq_count, in_u in *. lia.
Qed.

Lemma enter_loop_spec oc func fuel n w :
  (∀ m, ∃ a, func m = call_enter a ∧ ea_submit a = m) →
  entering n w → (Z.to_nat n < fuel)%nat →
  wp fatal (enter_loop oc fuel func n) w (λ r w',
    match r with
    | Ok _ => entering 0 w' ∧ pushes [] n w 0 w'
    | Err _ => fatal
    end).
Proof.
  intros Hfunc. revert n w. induction fuel as [|fuel IH]; intros n w Hw Hfuel; [lia|].
  cbn [enter_loop]. apply wp_bind. destruct (Hfunc n) as (a & -> & Ha).
  eapply wp_mono; [by apply call_enter_spec|].
  intros r w' (m & Hm & Hw' & Hex & Hr). assert (0 ≤ n) by apply Hw.
  assert (in_u 32 n) as Hn32 by (by apply (entering_range n w)).
  destruct r as [v|e].
  - destruct Hr as (-> & Hprog & Hpart). apply wp_bind, wp_lift. unfold in_u in Hn32.
    rewrite (as_u_id 32 m) by (unfold in_u; lia).
    rewrite arith_u_fits by (unfold in_u; lia). simpl.
    destruct (Z.eqb_spec (n - m) 0) as [Hz|Hz].
    + apply wp_ret. rewrite Hz in *. by split.
    + apply wp_bind, wp_gets. destruct Hw' as (? & ? & ? & Hsa). rewrite Hsa.
      destruct submit_all eqn:Esa; simpl.
      * apply wp_ret. apply Hpart; [lia|done].
      * eapply wp_mono; [apply IH; [|lia]|].
        { split_and!; congruence || done. }
        intros r' w'' Hr'. destruct r'; [|done]. destruct Hr'.
        split; [done|]. by eapply (pushes_trans _ [] []).
  - destruct Hr as (-> & Hr). destruct Hr as [Hfat|(-> & He)].
    + destruct (_ && _) eqn:Eb; [|by destruct (e =? Os.Again)].
      apply andb_true_iff in Eb as [_ Hz%Z.eqb_eq]. apply wp_ret.
      rewrite Hz, Z.sub_0_r in *. by split.
    + rewrite Z.sub_0_r in *. destruct He as [-> | [-> | ->]]; simpl; apply wp_ret; done.
Qed.

(** *** Waits that end *)

(** Nothing can complete, there is something to deliver, or patience was spent. *)
Definition waited_for (w w' : W) : Prop :=
  asleep event_request (event_fd (engine w')) (kernel w') ∨ cq_view (com w') ≠ [] ∨
  (laziness (kernel w') < laziness (kernel w))%nat.

Lemma call_enter_waits a n w :
  kernel_waits event_request io_uring_enter → ea_min_complete a = 1 → entering n w → ea_submit a = n →
  wp fatal (call_enter a) w (λ r w',
    match r with
    | Ok v => v = n
    | Err e => e = Os.Time ∨ e = Os.Intr ∨ e = Os.Busy
    end → waited_for w w').
Proof.
  intros Hwaits Hmin ([Hsq Hcq Hst Hts Hn Hans Hbal] & Hz & Hkt & Hf) Ha.
  unfold call_enter, wp.
  destruct (io_uring_enter a (event_fd (engine w)) (kernel w) (queue (engine w)))
    as [[r k'] q'] eqn:E. simpl. subst n.
  apply (Hwaits _ _ _ _ _ _ _ E); try done. rewrite Hkt. unfold sq_count in Hst. lia.
Qed.

Lemma enter_loop_waits oc func fuel n w :
  kernel_waits event_request io_uring_enter →
  (∀ m, ∃ a, func m = call_enter a ∧ ea_submit a = m ∧ ea_min_complete a = 1) →
  entering n w → (Z.to_nat n < fuel)%nat →
  wp fatal (enter_loop oc fuel func n) w (λ r w',
    match r with Ok _ => waited_for w w' | Err _ => fatal end).
Proof.
  intros Hwaits Hfunc. revert n w. induction fuel as [|fuel IH]; intros n w Hw Hfuel; [lia|].
  cbn [enter_loop]. apply wp_bind. destruct (Hfunc n) as (a & -> & Ha & Hmin).
  eapply wp_mono; [apply wp_conj; [by apply call_enter_spec|by apply (call_enter_waits a n)]|].
  intros r w' [(m & Hm & Hw' & Hex & Hr) Hfor]. assert (0 ≤ n) by apply Hw.
  assert (in_u 32 n) as Hn32 by (by apply (entering_range n w)).
  destruct r as [v|e].
  - destruct Hr as (-> & Hprog & Hpart). apply wp_bind, wp_lift. unfold in_u in Hn32.
    rewrite (as_u_id 32 m) by (unfold in_u; lia).
    rewrite arith_u_fits by (unfold in_u; lia). simpl.
    destruct (Z.eqb_spec (n - m) 0) as [Hz|Hz]; [apply wp_ret, Hfor; lia|].
    apply wp_bind, wp_gets. destruct Hw' as (? & ? & ? & Hsa). rewrite Hsa.
    destruct submit_all eqn:Esa; simpl; [apply wp_ret, Hpart; [lia|done]|].
    eapply wp_mono; [apply IH; [|lia]|].
    { split_and!; congruence || done. }
    intros r' w'' Hr'. destruct r'; [|done]. pose proof (pu_laziness _ _ _ _ _ _ Hex).
    unfold waited_for in *. destruct Hr' as [|[|]]; [by left|by right; left|right; right; lia].
  - destruct Hr as (-> & Hr).
    destruct (_ && _) eqn:Eb; [|destruct Hr as [Hfat|(-> & He)]].
    + apply wp_ret, Hfor. apply andb_true_iff in Eb as [Eb _].
      rewrite !orb_true_iff, !Z.eqb_eq in Eb. tauto.
    + by destruct (e =? Os.Again).
    + exfalso. revert Eb. destruct He as [-> | [-> | ->]]; done.
Qed.

(** [enter] submits everything that is staged. *)
Definition submitted (w : W) (r : Result unit) (w' : W) : Prop :=
  match r with
  | Ok _ => inv w' ∧ to_submit (engine w') = 0 ∧ pushes [] 0 w 0 w'
  | Err _ => fatal
  end.

(** The state in which [enter] starts to submit. *)
Lemma entering_start (w : W) :
  rings_ok 0 w → setup_flag_supported (features (engine w)) SubmitAll = submit_all →
  entering (to_submit (engine w))
    (upd (set_to_complete (as_u 64 (to_complete (engine w) + to_submit (engine w))))
      (upd (set_to_submit 0) (upd (λ e, set_submission (sq_sync (submission (queue e))) e) w))).
Proof.
  intros [Hsq Hcq Hst Hts Hn Hans Hbal] Hf.
  split_and!; try done. constructor; simpl; try done; try lia.
  - by apply sq_sync_wf.
  - change (sq_count (sq_sync (sub w))) with (sq_count (sub w)). lia.
  - by apply as_u_range.
Qed.

Lemma enter_spec func (w : W) :
  (∀ m, ∃ a, func m = call_enter a ∧ ea_submit a = m) →
  rings_ok 0 w →
  setup_flag_supported (features (engine w)) SubmitAll = submit_all →
  wp fatal (enter false func) w (submitted w).
Proof.
  intros Hfunc Hok Hf. unfold enter, gets_engine, modify_engine.
  wp_steps. simpl. rewrite arith_u_wraps. simpl. wp_steps. simpl.
  eapply wp_mono; [apply (enter_loop_spec _ _ _ (to_submit (engine w)));
    [done|by apply entering_start|lia]|].
  intros r w' Hr. destruct r as [u|]; [|done]. destruct Hr as [Hw' Hex]. simpl.
  destruct Hw' as ([Hsq' Hcq' Hst' Hts' Hn' Hans' Hbal'] & Hz & Hkt & Hf').
  split_and!; [|done|].
  - split_and!; try done. rewrite Hz.
    pose proof (ring_size_bounds _ _ (sq_wf_size _ Hsq')). lia.
  - destruct Hex as [[E1 E2 E3 E4 E5 E6] Ef Eh Ep El]. constructor; [|done|exact Eh|done|done].
    constructor; try done. rewrite E4. unfold balance. simpl. autorewrite with machine.
    f_equal. lia.
Qed.

Lemma enter_waits func (w : W) :
  kernel_waits event_request io_uring_enter →
  (∀ m, ∃ a, func m = call_enter a ∧ ea_submit a = m ∧ ea_min_complete a = 1) →
  rings_ok 0 w → setup_flag_supported (features (engine w)) SubmitAll = submit_all →
  wp fatal (enter false func) w (λ r w',
    match r with Ok _ => waited_for w w' | Err _ => fatal end).
Proof.
  intros Hwaits Hfunc Hok Hf. unfold enter, gets_engine, modify_engine.
  wp_steps. simpl. rewrite arith_u_wraps. simpl. wp_steps. simpl.
  eapply wp_mono; [apply (enter_loop_waits _ _ _ (to_submit (engine w)));
    [done|done|by apply entering_start|lia]|]. done.
Qed.

Lemma flush_spec (w : W) :
  rings_ok 0 w →
  setup_flag_supported (features (engine w)) SubmitAll = submit_all →
  wp fatal (flush false io_uring_enter) w (submitted w).
Proof.
  intros. unfold flush, gets_engine. wp_steps. apply enter_spec; [|done..]. eauto.
Qed.

Lemma push_flush_spec (w : W) :
  rings_ok 0 w →
  setup_flag_supported (features (engine w)) SubmitAll = submit_all →
  wp fatal (push_flush false io_uring_enter) w (λ _ w',
    inv w' ∧ to_submit (engine w') = 0 ∧ pushes [] 0 w 0 w').
Proof.
  intros. unfold push_flush. wp_steps. eapply wp_mono; [by apply flush_spec|].
  intros r w' Hr. apply wp_lift. by destruct r.
Qed.

(** A push stages the entry behind the others, or, when it fills the ring,
    has everything submitted: either way it becomes part of the history. *)
Lemma push_spec e (w : W) :
  inv w →
  wp fatal (push false io_uring_enter e) w (λ _ w',
    inv w' ∧ pushes [e] 0 w 0 w').
Proof.
  intros ([Hsq Hcq Hst Hts Hn Hans Hbal] & Hroom & Hf). unfold push, gets_engine, modify_engine.
  destruct (sq_push_spec false (sub w) Hsq e) as (q' & E & Hwf' & Hv' & Hc' & Ht' & Hrest);
    [lia|by left|].
  injection Hrest as R1 R2 R3 R4.
  pose proof (ring_size_bounds _ _ (sq_wf_size _ Hsq)).
  wp_steps. simpl. rewrite E. simpl. wp_steps. simpl.
  rewrite arith_u_fits by (unfold in_u; lia). simpl. wp_steps. simpl.
  destruct (Z.ltb_spec (to_submit (engine w) + 1) (sq_capacity q')).
  - apply wp_ret. split.
    + split_and!; try done. constructor; simpl; try done; try lia.
    + constructor; [|done| | |done].
      * constructor; simpl; try done. exists []. by rewrite !app_nil_r.
      * unfold history. simpl. by rewrite Hv', app_assoc.
      * apply (pushes_refl _ 0 w).
  - eapply wp_mono; [apply push_flush_spec; [|done]|].
    + constructor; simpl; try done; try lia.
    + intros _ w' (Hinv & Hz & [[E1 E2 E3 E4 E5 E6] Ef Eh Ep El]). split; [done|].
      constructor; [by constructor|done| |done|done].
      rewrite Eh, app_nil_r. unfold history. simpl. by rewrite Hv', app_assoc.
Qed.

Lemma start_async_spec e r (w : W) :
  inv w →
  wp fatal (start_async false io_uring_enter e r) w (λ res w',
    res = None ∧ inv w' ∧ pushes [set_user_data r e] 0 w 0 w').
Proof.
  intros Hw. unfold start_async. wp_steps. eapply wp_mono; [by apply push_spec|].
  intros ? w' H. by apply wp_ret.
Qed.

(** ** Waiting *)

Context (default_entry : SubmissionEntry) (NO_OP : Z) (timespec_at : Z → Z).

(** The entry of the timer that the compatibility path adds. *)
Definition compat_timer (timeout : Z) : SubmissionEntry :=
  set_user_data NO_OP
    (Op.timeout default_entry (timespec_at (Z.min timeout 1000000000)) 1 0).

(** At most that timer, where the kernel cannot wait with a timeout. *)
Definition timer_only (timeout : Z) (w : W) (l : list SubmissionEntry) : Prop :=
  l = [] ∨ (l = [compat_timer timeout] ∧ feature_supported (features (engine w)) ExtArg = false).

(** Everything staged was submitted, with at most the compatibility timer, or
    the call failed. *)
Definition waited {A} (timeout : Z) (P : A → W → Prop) (w : W) (r : Result A) (w' : W) :
    Prop :=
  match r with
  | Ok a => P a w' ∧ inv w' ∧ to_submit (engine w') = 0 ∧
      ∃ l, timer_only timeout w l ∧ pushes l 0 w 0 w'
  | Err _ => fatal
  end.

Lemma submit_and_wait_compat_spec timeout (w : W) :
  inv w → 0 ≤ timeout → feature_supported (features (engine w)) ExtArg = false →
  wp fatal (submit_and_wait_compat false default_entry io_uring_enter NO_OP timespec_at
    timeout) w (waited timeout (λ _ _, True) w).
Proof.
  intros (Hok & Hroom & Hf) Ht Hx. unfold submit_and_wait_compat, gets_engine. wp_steps.
  eapply wp_mono; [by apply flush_spec|]. intros [u|e] w1 H1; [|done].
  destruct H1 as (Hinv1 & Hz1 & Hex1). wp_steps. simpl.
  destruct (_ =? _); simpl;
    [|apply wp_ret; split_and!; [done..|]; exists []; split; [by left|done]].
  wp_steps. unfold fits_i.
  assert (0 ≤ timeout `min` 1000000000 ≤ 1000000000) as Hr by lia.
  assert ((- 2 ^ (64 - 1) <=? timeout `min` 1000000000) &&
    (timeout `min` 1000000000 <? 2 ^ (64 - 1)) = true) as -> by lia.
  simpl. wp_steps. eapply wp_mono; [by apply start_async_spec|].
  intros r w2 (-> & Hinv2 & Hex2). wp_steps.
  eapply wp_mono; [apply enter_spec; [eauto|apply Hinv2|apply Hinv2]|].
  intros [u'|e] w3 H3; [|exact H3]. destruct H3 as (Hinv3 & Hz3 & Hex3).
  wp_steps. simpl. wp_steps. split_and!; try done. eexists. split; [by right|].
  eapply (pushes_trans _ []); [done|]. rewrite <- (app_nil_r [_]).
  by eapply pushes_trans.
Qed.

Lemma submit_and_wait_spec timeout (w : W) :
  inv w → 0 ≤ timeout →
  wp fatal (submit_and_wait false default_entry io_uring_enter NO_OP timespec_at
    timeout) w (waited timeout (λ ring w', ring = read_ring (com w')) w).
Proof.
  intros Hinv Ht. unfold submit_and_wait, gets_engine. wp_steps. simpl.
  assert (∃ l, timer_only timeout w l ∧ pushes l 0 w 0 w) as Hrefl.
  { exists []. split; [by left|apply pushes_refl]. }
  destruct (Z.eqb_spec (to_submit (engine w)) 0) as [Hz|Hz]; simpl.
  1: destruct (negb (_ =? cq_ktail (com w))); simpl; [apply wp_ret; split_and!; done|].
  1: destruct (negb (needs_enter _) && negb _); simpl; [apply wp_ret; split_and!; done|].
  all: wp_steps; destruct (feature_supported _ _) eqn:Hx;
    [eapply wp_mono; [apply enter_spec; [eauto|apply Hinv|apply Hinv]|]
    |eapply wp_mono; [by apply submit_and_wait_compat_spec|]].
  all: intros [u|e] w1 H1; [|done]; simpl in H1; destruct_and!; wp_steps;
    split_and!; try done; exists []; (split; [by left|done]).
Qed.

(** With [ExtArg] and time to wait. *)
Lemma submit_and_wait_waits timeout (w : W) :
  kernel_waits event_request io_uring_enter → inv w → 0 < timeout →
  feature_supported (features (engine w)) ExtArg = true →
  wp fatal (submit_and_wait false default_entry io_uring_enter NO_OP timespec_at
    timeout) w (λ r w',
      match r with Ok _ => waited_for w w' ∧ history w' = history w | Err _ => fatal end).
Proof.
  intros Hwaits Hinv Ht Hext. unfold submit_and_wait, gets_engine. wp_steps. simpl.
  destruct (Z.eqb_spec timeout 0); [lia|].
  assert (cq_khead (com w) ≠ cq_ktail (com w) → cq_view (com w) ≠ []) as Hring.
  { intros Hne Hv. apply Hne, ring_count_zero; [apply Hinv|apply Hinv|].
    change (cq_count (com w) = 0). rewrite <- length_cq_view, Hv by apply Hinv. done. }
  destruct (Z.eqb_spec (to_submit (engine w)) 0) as [Hz|Hz]; simpl.
  1: destruct (Z.eqb_spec (cq_khead (com w)) (cq_ktail (com w))) as [He|He]; simpl;
    [|apply wp_ret; split; [|done]; right; left; by apply Hring].
  1: rewrite andb_false_r.
  all: wp_steps; rewrite Hext;
    (eapply wp_mono; [apply wp_conj;
      [apply enter_spec; [eauto|apply Hinv|apply Hinv]
      |apply enter_waits; [done|eauto|apply Hinv|apply Hinv]]|]);
    intros [u|e] w1 [H1 H2]; [|done]; wp_steps; (split; [done|]);
    destruct H1 as (_ & _ & Hp); rewrite (pu_history _ _ _ _ _ _ Hp); apply app_nil_r.
Qed.
End Submission.

(** ** Delivery of completions *)

(** The request and result of a completion. *)
Definition cqe_event (e : CompletionEntry) : ReqPtr * Z := (cqe_user_data e, cqe_result e).

(** The order of delivery: the last completion of the batch first. *)
Definition delivery_order {A} (l : list A) : list A :=
  match reverse l with
  | x :: l' => x :: reverse l'
  | [] => []
  end.

Lemma delivery_order_snoc {A} (l : list A) x : delivery_order (l ++ [x]) = x :: l.
Proof. unfold delivery_order. rewrite reverse_snoc. simpl. by rewrite reverse_involutive. Qed.

Lemma delivery_order_perm {A} (l : list A) : delivery_order l ≡ₚ l.
Proof.
  destruct l as [|x l _] using rev_ind; [done|].
  rewrite delivery_order_snoc. by rewrite Permutation_app_comm.
Qed.

Section Delivery.
Context {K U : Type} `{!KernelView K} (fatal : Prop) (submit_all : bool).

Local Abbreviation W := (World K U).
Local Abbreviation com w := (completion (queue (engine w))).
Local Abbreviation evolves := (evolves submit_all).
Local Abbreviation inv := (inv submit_all).

(** What the delivery of the completions still to come relies on; the bookkeeping
    of the completion ring does not matter to it. *)
Context (J : list CompletionEntry → W → Prop).
Context (HJ_release : ∀ l h w,
  J l w → J l (upd (λ e, set_completion (set_cq_khead h (completion (queue e))) e) w)).
Context (HJ_count : ∀ l n w, J l w → J l (upd (set_to_complete n) w)).

(** [Request::complete] runs a callback that uses the engine only through its
    operations, and keeps [J] for the completions after it. *)
Context (complete_request : ReqPtr → Z → M W unit).
Context (Hcomplete : ∀ e l w, inv w → J (e :: l) w →
  wp fatal (complete_request (cqe_user_data e) (cqe_result e)) w (λ _ w',
    evolves (log_delivered (cqe_user_data e) (cqe_result e) w) w' ∧ J l w')).

Lemma inv_log r v (w : W) : inv w → inv (log_delivered r v w).
Proof. intros ([] & ? & ?). split_and!; try done. Qed.

(** The head of the completion ring is moved over one completion. *)
Definition release (head : Z) (w : W) : W :=
  upd (λ e, set_completion (set_cq_khead head (completion (queue e))) e) w.

Lemma release_spec (w : W) e l :
  inv w → cq_view (com w) = e :: l →
  let w' := release (as_u 32 (cq_khead (com w) + 1)) w in
  inv w' ∧ cq_view (com w') = l ∧ balance 0 w' = as_u 64 (balance 0 w + 1) ∧
  cq_khead (com w') = as_u 32 (cq_khead (com w) + 1).
Proof.
  intros ([Hsq Hcq Hst Hts Hn Hans Hbal] & Hroom & Hf) Hv w'.
  destruct (cq_pop_spec (com w) Hcq e l Hv) as (Hwf & Hv' & Hc).
  assert (balance 0 w' = as_u 64 (balance 0 w + 1)) as Hb.
  { unfold balance, w', release. simpl. rewrite Hc. autorewrite with machine. f_equal. lia. }
  split_and!; try done.
Qed.

(** One call of the closure [complete]. *)
Lemma complete_spec i e l update_head (w : W) :
  inv w → J (e :: l) w → cq_view (com w) !! i = Some e →
  match update_head with
  | None => True
  | Some head => head = cq_khead (com w) ∧ i = 0%nat
  end →
  wp fatal (complete complete_request (cq_mask (com w))
    (as_u 32 (cq_khead (com w) + Z.of_nat i)) update_head) w (λ h w', J l w' ∧
    match update_head with
    | None => evolves (log_delivered (cqe_user_data e) (cqe_result e) w) w'
    | Some head =>
        h = Some (as_u 32 (head + 1)) ∧
        evolves (log_delivered (cqe_user_data e) (cqe_result e)
          (release (as_u 32 (head + 1)) w)) w'
    end).
Proof.
  intros Hinv HJ Hi Hu. unfold complete, gets_engine, modify_engine. wp_steps.
  rewrite (cq_read_view _ ltac:(apply Hinv) i e Hi). simpl.
  destruct update_head as [head|].
  - destruct Hu as (-> & ->). wp_steps.
    destruct (cq_view (com w)) as [|x l'] eqn:Hv; [done|]. injection Hi as ->.
    destruct (release_spec w e l' Hinv Hv) as (Hinv' & _).
    eapply wp_mono; [apply (Hcomplete e l); [done|by apply HJ_release]|].
    intros ? w' []. by apply wp_ret.
  - wp_steps. eapply wp_mono; [by apply (Hcomplete e l)|]. intros ? w' []. by apply wp_ret.
Qed.

Lemma cq_count_view (w : W) l :
  inv w → cq_view (com w) = l →
  cq_count (com w) = Z.of_nat (length l) ∧ Z.of_nat (length l) ≤ 2 ^ 31.
Proof.
  intros ([_ Hcq _ _ _ _ _] & _) Hv.
  assert (cq_count (com w) = Z.of_nat (length l)) as Hc by (by rewrite <- length_cq_view, Hv).
  pose proof (ring_size_bounds _ _ (cq_wf_size _ Hcq)). pose proof (cq_wf_count _ Hcq). lia.
Qed.

(** One iteration of the [while] loop. *)
Lemma run_events_step e l lj (w : W) :
  inv w → J (e :: lj) w → cq_view (com w) = e :: l →
  wp fatal (complete complete_request (cq_mask (com w)) (cq_khead (com w))
    (Some (cq_khead (com w)))) w (λ h w', h = Some (cq_khead (com w')) ∧ inv w' ∧
      cq_khead (com w') = as_u 32 (cq_khead (com w) + 1) ∧
      cq_mask (com w') = cq_mask (com w) ∧
      (∃ new, cq_view (com w') = l ++ new ∧ posted (kernel w') = posted (kernel w) ++ new) ∧
      balance 0 w' = as_u 64 (balance 0 w + 1) ∧
      delivered w' = delivered w ++ [cqe_event e] ∧ J lj w').
Proof.
  intros Hinv HJ Hv. assert (in_u 32 (cq_khead (com w))) as Hh by apply Hinv.
  pose proof (complete_spec 0 e lj (Some (cq_khead (com w))) w Hinv HJ) as Hc.
  change (Z.of_nat 0) with 0 in Hc. rewrite Z.add_0_r, (as_u_id 32) in Hc by done.
  eapply wp_mono; [apply Hc; [by rewrite Hv|done]|].
  intros h w1 (HJ1 & -> & Hinv1 & [E1 E2 (new & E3 & E6) E4 E5 _]).
  destruct (release_spec w e l) as (Hinvr & Hvr & Hbr & Hkr); [done..|].
  split_and!; try done; [by rewrite E1| |by rewrite E4].
  exists new. by rewrite E3, E6, <- Hvr.
Qed.

(** The [while] loop delivers the rest of the batch in order and stops at the
    last completion, which it leaves in the ring. *)
Lemma run_events_loop_spec batch x extra (w : W) :
  inv w → J batch w → cq_view (com w) = batch ++ x :: extra →
  balance 0 w = as_u 64 (- Z.of_nat (S (length batch))) →
  wp fatal (run_events_loop complete_request (length batch) (cq_mask (com w))
    (cq_khead (com w)) (as_u 32 (cq_khead (com w) + Z.of_nat (length batch)))) w
    (λ h w', h = cq_khead (com w') ∧ inv w' ∧
      (∃ new, cq_view (com w') = x :: extra ++ new ∧
        posted (kernel w') = posted (kernel w) ++ new) ∧ balance 0 w' = as_u 64 (-1) ∧
      delivered w' = delivered w ++ map cqe_event batch ∧ J [] w').
Proof.
  revert w extra. induction batch as [|e batch IH]; intros w extra Hinv HJ Hv Hb.
  - cbn [length]. change (Z.of_nat 0) with 0. unfold run_events_loop.
    rewrite Z.add_0_r, (as_u_id 32) by apply Hinv. rewrite Z.eqb_refl. apply wp_ret.
    split_and!; try done; simpl in *.
    + exists []. by rewrite !app_nil_r.
    + by rewrite app_nil_r.
  - destruct (cq_count_view w _ Hinv Hv) as [_ Hmax].
    rewrite length_app in Hmax. simpl in Hmax.
    cbn [length] in *. unfold run_events_loop. fold (run_events_loop complete_request).
    destruct (Z.eqb_spec (cq_khead (com w))
      (as_u 32 (cq_khead (com w) + Z.of_nat (S (length batch))))) as [E|_].
    { exfalso. revert E. apply index_add_ne; [apply Hinv|lia]. }
    apply wp_bind. eapply wp_mono; [apply (run_events_step e (batch ++ x :: extra) batch); [done|done|exact Hv]|].
    intros h w1 (-> & Hinv1 & Hk1 & Hm1 & (new & Hv1 & Hp1) & Hb1 & Hd1 & HJ1). rewrite <- Hm1.
    replace (as_u 32 (cq_khead (com w) + Z.of_nat (S (length batch)))) with
      (as_u 32 (cq_khead (com w1) + Z.of_nat (length batch))).
    2:{ rewrite Hk1. autorewrite with machine. f_equal. lia. }
    eapply wp_mono; [apply (IH w1 (extra ++ new)); [done|done| |]|].
    { by rewrite Hv1, <- app_assoc. }
    { rewrite Hb1, Hb. autorewrite with machine. f_equal. lia. }
    intros h w' (-> & Hinv' & (new' & Hv' & Hp') & Hb' & Hd' & HJ'). split_and!; try done.
    + exists (new ++ new'). by rewrite Hv', Hp', Hp1, <- !app_assoc.
    + rewrite Hd', Hd1. simpl. by rewrite <- app_assoc.
Qed.

(** A batch is taken off the expected completions before it is delivered. *)
Lemma start_batch (w : W) n :
  inv w → balance 0 w = 0 →
  let w' := upd (set_to_complete (as_u 64 (to_complete (engine w) - n))) w in
  inv w' ∧ balance 0 w' = as_u 64 (- n).
Proof.
  intros ([Hsq Hcq Hst Hts Hn Hinf Hcomp] & Hroom & Hf) Hb0. split.
  - split_and!; try done. constructor; try done. by apply as_u_range.
  - unfold balance in *. simpl. autorewrite with machine.
    rewrite <- (Z.sub_0_l n), <- Hb0. autorewrite with machine. f_equal. lia.
Qed.

(** [run_events] delivers every completion of the ring exactly once, the last
    one first, releases them all, and leaves nothing unaccounted. *)
Lemma run_events_spec (w : W) :
  inv w → balance 0 w = 0 → J (delivery_order (cq_view (com w))) w →
  wp fatal (run_events false complete_request (read_ring (com w))) w (λ _ w',
    inv w' ∧ balance 0 w' = 0 ∧
    delivered w' = delivered w ++ map cqe_event (delivery_order (cq_view (com w))) ∧
    posted (kernel w') = posted (kernel w) ++ cq_view (com w') ∧ J [] w').
Proof.
  intros Hinv Hb HJ. unfold run_events, read_ring, gets_engine, modify_engine.
  fold (ring_count (cq_khead (com w)) (cq_ktail (com w))). fold (cq_count (com w)).
  wp_steps. destruct (cq_view (com w)) as [|x batch _] eqn:Hv using rev_ind.
  { destruct (cq_count_view w _ Hinv Hv) as [-> _]. simpl. apply wp_ret.
    by rewrite Hv, !app_nil_r. }
  rewrite delivery_order_snoc in HJ.
  destruct (cq_count_view w _ Hinv Hv) as [Hc Hmax]. rewrite length_app in Hc, Hmax.
  simpl in Hc, Hmax. destruct (Z.eqb_spec (cq_count (com w)) 0); [lia|].
  destruct (start_batch w (cq_count (com w)) Hinv Hb) as (Hinv0 & Hb0).
  wp_steps. rewrite arith_u_wraps. simpl. wp_steps.
  set (w0 := upd (set_to_complete _) w) in *.
  replace (as_u 32 (cq_ktail (com w) - 1)) with
    (as_u 32 (cq_khead (com w0) + Z.of_nat (length batch))).
  2:{ rewrite <- (as_u_sub_l 32 (cq_ktail (com w))).
      rewrite <- (ring_tail_index (cq_khead (com w)) (cq_ktail (com w))).
      autorewrite with machine. unfold cq_count in Hc. simpl. f_equal. lia. }
  eapply wp_mono; [apply (complete_spec (length batch) x batch None w0 Hinv0); [by apply HJ_count| |done]|].
  { change (com w0) with (com w). rewrite Hv. apply list_lookup_middle. done. }
  intros h w1 (HJ1 & Hinv1 & [E1 E2 (new & E3 & E6) E4 E5 _]).
  change (com (log_delivered _ _ w0)) with (com w) in E1, E2, E3.
  change (balance 0 (log_delivered _ _ w0)) with (balance 0 w0) in E4.
  wp_steps. change (com w0) with (com w). rewrite <- E1, <- E2.
  replace (Z.to_nat (ring_count (cq_khead (com w1)) _)) with (length batch).
  2:{ unfold ring_count. rewrite as_u_sub_l.
      rewrite as_u_id; unfold in_u; lia. }
  eapply wp_mono; [apply (run_events_loop_spec batch x new w1 Hinv1 HJ1)|].
  { by rewrite E3, Hv, <- app_assoc. }
  { rewrite E4, Hb0, Hc. f_equal. lia. }
  intros h' w2 (-> & Hinv2 & (new' & Hv2 & Hp2) & Hb2 & Hd2 & HJ2). wp_steps.
  destruct (release_spec w2 x (new ++ new')) as (Hinv3 & Hv3 & Hb3 & _); [done..|].
  split_and!; [exact Hinv3|etransitivity; [exact Hb3|by rewrite Hb2]| | |by apply HJ_release].
  - simpl. rewrite Hd2, E5. simpl. rewrite delivery_order_snoc, <- app_assoc. done.
  - assert (posted (kernel w2) = posted (kernel w) ++ new ++ new') as Hp
      by (rewrite Hp2, E6, <- app_assoc; done).
    refine (eq_trans Hp _). f_equal. symmetry. exact Hv3.
Qed.
End Delivery.
