(* ===== verification/UringEngine.v ===== *)
(** * The io_uring engine: theorems about its operations

    What each operation of [EngineImpl for IoUring] submits to the kernel. *)

From stdpp Require Import base list numbers relations tactics.
From S2P Require Import Prelude Op Queue Engine Uring UringSpec.

(** ** The kernel request of an operation *)

Definition op_request (op : Operation) : option KernelOp :=
  match op with
  | Oopen path flags mode => Some (KOpenAt CurrentWorkingDirectory path flags mode 0)
  | Oclose fd => Some (KClose fd 0)
  | Oread fd buf len offset => Some (KRw Read fd buf (Z.min len (2 ^ 32 - 1)) offset 0 0)
  | Owrite fd buf len offset => Some (KRw Write fd buf (Z.min len (2 ^ 32 - 1)) offset 0 0)
  | Osocket d t p => Some (KSocket d t p 0)
  | Oaccept s addr addrlen => Some (KAccept s addr addrlen 0 0)
  | Oconnect s addr addrlen => Some (KConnect s addr addrlen)
  | Orecv s buf len flags => Some (KSendRecv Recv s buf (Z.min len (2 ^ 32 - 1)) flags)
  | Orecvmsg s header flags => Some (KSendRecv RecvMsg s header 1 flags)
  | Osend s buf len flags => Some (KSendRecv Send s buf (Z.min len (2 ^ 32 - 1)) flags)
  | Osendmsg s header flags => Some (KSendRecv SendMsg s header 1 flags)
  | Oshutdown s how => Some (KShutdown s how)
  | Obind _ _ _ | Olisten _ _ => None
  | Ofsync file => Some (KFsync file 0 0 0)
  | Ostatx dirfd path flags mask statx => Some (KStatx dirfd path flags mask statx)
  | Opoll fd mask => Some (KPollAdd fd mask)
  end.

(** The constructor of [Op] an operation uses. *)
Definition op_call (op : Operation) : option OpCall :=
  match op with
  | Oopen path flags mode => Some (Copenat CurrentWorkingDirectory path flags mode 0)
  | Oclose fd => Some (Cclose fd)
  | Oread fd buf len offset => Some (Cread fd buf (clamp_len len) offset 0)
  | Owrite fd buf len offset => Some (Cwrite fd buf (clamp_len len) offset 0)
  | Osocket d t p => Some (Csocket d t p 0 0)
  | Oaccept s addr addrlen => Some (Caccept s addr addrlen 0 0)
  | Oconnect s addr addrlen => Some (Cconnect s addr addrlen)
  | Orecv s buf len flags => Some (Crecv s buf (clamp_len len) flags)
  | Orecvmsg s header flags => Some (Crecvmsg s header flags)
  | Osend s buf len flags => Some (Csend s buf (clamp_len len) flags)
  | Osendmsg s header flags => Some (Csendmsg s header flags)
  | Oshutdown s how => Some (Cshutdown s how)
  | Obind _ _ _ | Olisten _ _ => None
  | Ofsync file => Some (Cfsync file 0)
  | Ostatx dirfd path flags mask statx => Some (Cstatx dirfd path flags mask statx)
  | Opoll fd mask => Some (Cpoll fd mask)
  end.

(** The operation codes whose support is checked before they are used. *)
Definition op_checked (op : Operation) : option OpCode :=
  match op with
  | Oclose _ => Some Close
  | Osocket _ _ _ => Some Socket
  | Oshutdown _ _ => Some OpShutdown
  | _ => None
  end.

Definition op_supported (f : IoRingFeatures) (op : Operation) : bool :=
  match op_checked op with Some code => opcode_supported f code | None => true end.

(** The arguments have the values of their types; lengths are not negative. *)
Definition op_ok (op : Operation) : Prop :=
  match op with
  | Oread _ _ len offset | Owrite _ _ len offset => 0 ≤ len ∧ in_i 64 offset
  | Orecv _ _ len _ | Osend _ _ len _ => 0 ≤ len
  | Osocket d _ _ => in_u 32 d
  | Oconnect _ _ addrlen => in_i 32 addrlen
  | Opoll _ mask => in_u 32 mask
  | _ => True
  end.

Lemma clamp_len_min len : 0 ≤ len → clamp_len len = Z.min len (2 ^ 32 - 1).
Proof.
  intros. unfold clamp_len. destruct (fits_u 32 len) eqn:E.
  - apply fits_u_spec in E. unfold in_u in E. lia.
  - destruct (decide (in_u 32 len)) as [Hin|Hout]; [|unfold in_u in Hout; lia].
    apply fits_u_true in Hin. congruence.
Qed.

Lemma op_call_entry default be op c :
  zeroed default → op_ok op → op_call op = Some c →
  ∃ e, encode default be 0 c = Ret e ∧ decode be e = op_request op.
Proof.
  intros Hz Hok Hc.
  assert (op_request op = Some (meaning 0 c)) as ->
    by (destruct op; simplify_eq/=; rewrite ?clamp_len_min by naive_solver; done).
  assert (args_ok 0 c) as Hargs by (destruct op; naive_solver).
  assert (zero_copy c = false) as Hzc by by destruct op; simplify_eq/=.
  assert (∃ e, encode default be 0 c = Ret e) as [e He]
    by (destruct op; simplify_eq/=; by eexists).
  exists e. split; [done|]. rewrite (decode_encode_slots default be 0 c e) by done.
  by destruct op; simplify_eq/=.
Qed.

Lemma decode_user_data be r e : decode be (set_user_data r e) = decode be e.
Proof. done. Qed.

Section Operations.
Context {K U : Type} `{!KernelView K}.
Context (NO_OP event_request event_fd_raw : Z) (fatal : Prop) (submit_all : bool).
Context (io_uring_enter : EnterArgs → Z → K → Queue → OsResult Z * K * Queue).
Context (Hkernel : kernel_spec event_request fatal submit_all io_uring_enter).
Context (default_entry : SubmissionEntry) (big_endian : bool).
Context (Hdefault : zeroed default_entry).
Context (syscall : SysCall → M (World K U) (OsResult Z)).

Local Abbreviation W := (World K U).
Local Abbreviation sub w := (submission (queue (engine w))).
Local Abbreviation com w := (completion (queue (engine w))).
Local Abbreviation pushes := (pushes event_request).
Local Abbreviation inv := (inv submit_all).
Local Abbreviation evolves := (evolves submit_all).
Local Abbreviation start_async := (start_async false io_uring_enter).
Local Abbreviation uring_start :=
  (uring_start false default_entry big_endian io_uring_enter syscall).
Local Abbreviation uring_cancel := (uring_cancel false default_entry io_uring_enter NO_OP).
Local Abbreviation poll_wake :=
  (poll_wake false default_entry big_endian io_uring_enter event_request event_fd_raw).
Local Abbreviation uring_prepare_wake := (uring_prepare_wake false default_entry big_endian
  io_uring_enter event_request event_fd_raw).

(** An operation that the kernel supports is started by submitting the entry
    of its constructor; the others are left to the fallback. *)
Lemma uring_start_entry op r (w : W) :
  uring_start op r w =
  match op_call op with
  | Some c =>
      if op_supported (features (engine w)) op then
        match encode default_entry big_endian 0 c with
        | Ret e => start_async e r w
        | _ => Panic
        end
      else SyncEngine.sync_start syscall op r w
  | None => SyncEngine.sync_start syscall op r w
  end.
Proof.
  destruct op; try reflexivity; simpl;
    unfold op_supported, uring_close, uring_socket, uring_shutdown, gets_engine, mbind, M_bind;
    simpl; by destruct (opcode_supported _ _).
Qed.

(** The entry [e] of a request [r] was pushed: it was staged or handed over. *)
Definition requested (r : ReqPtr) (k : KernelOp) (w w' : W) : Prop :=
  ∃ e, decode big_endian e = Some k ∧ user_data e = r ∧ pushes [e] 0 w 0 w'.

Lemma start_async_requested e r k (w : W) :
  inv w → decode big_endian e = Some k →
  wp fatal (start_async e r) w (λ res w', res = None ∧ inv w' ∧ requested r k w w').
Proof.
  intros Hw He. eapply wp_mono; [by apply start_async_spec|].
  intros res w' (-> & Hinv & Hp). split_and!; try done.
  exists (set_user_data r e). by rewrite decode_user_data.
Qed.

Lemma uring_start_async op r k (w : W) :
  inv w → op_ok op → op_request op = Some k →
  op_supported (features (engine w)) op = true →
  wp fatal (uring_start op r) w (λ res w', res = None ∧ inv w' ∧ requested r k w w').
Proof.
  intros Hw Hok Hk Hs. unfold wp. rewrite uring_start_entry, Hs.
  destruct (op_call op) as [c|] eqn:Hc; [|by destruct op].
  destruct (op_call_entry default_entry big_endian op c Hdefault Hok Hc) as (e & -> & He).
  apply (start_async_requested e r k w); congruence.
Qed.

Lemma uring_cancel_spec r (w : W) :
  inv w →
  wp fatal (uring_cancel r) w (λ res w',
    res = Ok tt ∧ inv w' ∧ requested NO_OP (KCancel r 0 0) w w').
Proof.
  intros Hw. unfold uring_cancel. wp_steps.
  eapply wp_mono; [apply (start_async_requested _ _ (KCancel r 0 0)); [done|]|].
  - destruct Hdefault as (? & ? & ? & ? & ? & ? & ? & Hf & ?).
    unfold Op.cancel, new_op. cbn. rewrite H. by rewrite as_u_id.
  - intros res w' (-> & Hinv & Hreq). by apply wp_ret.
Qed.

Lemma poll_wake_spec (w : W) :
  inv w →
  wp fatal poll_wake w (λ _ w',
    inv w' ∧ requested event_request (KPollAdd event_fd_raw PollIn) w w').
Proof.
  intros Hw. unfold poll_wake. wp_steps.
  eapply wp_mono; [apply (start_async_requested _ _ (KPollAdd event_fd_raw PollIn)); [done|]|].
  - by apply (decode_encode_slots default_entry big_endian 0 (Cpoll event_fd_raw PollIn)).
  - intros res w' (-> & Hinv & Hreq). by apply wp_ret.
Qed.

(** The counter of wakes and the registration of the poll. *)
Lemma uring_prepare_wake_spec (w : W) :
  inv w → 0 ≤ expected_wakes (engine w) < 2 ^ 64 - 1 →
  wp fatal uring_prepare_wake w (λ res w', res = Ok tt ∧ inv w' ∧
    let w0 := upd (set_expected_wakes (expected_wakes (engine w) + 1)) w in
    if expected_wakes (engine w) =? 0 then
      requested event_request (KPollAdd event_fd_raw PollIn) w0 w'
    else w' = w0).
Proof.
  intros Hw Hr. unfold uring_prepare_wake, gets_engine, modify_engine.
  wp_steps. rewrite arith_u_fits by (unfold in_u; lia). simpl. wp_steps. simpl.
  set (w0 := upd _ w).
  assert (inv w0) as Hinv0. { destruct Hw as ([] & ? & ?). split_and!; try done. }
  destruct (Z.eqb_spec (expected_wakes (engine w)) 0) as [->|Hne]; simpl.
  - eapply wp_mono; [by apply poll_wake_spec|]. intros u w' [Hinv Hreq]. by apply wp_ret.
  - destruct (Z.eqb_spec (expected_wakes (engine w) + 1) 1); [lia|]. wp_steps. done.
Qed.
End Operations.
