(* ===== verification/UringProcess.v ===== *)
(** * The io_uring engine: code that uses it

    [api_step] is one use of the engine by the rest of the process, another thread
    or the kernel; [behaves] is what any sequence of them does to the engine.  It
    keeps [inv] and the state of the wakes, [wake_ok]: the event descriptor is
    polled once at a time, just when wakes are expected, and readable when one is
    queued. *)

From stdpp Require Import base list numbers relations tactics.
From S2P Require Import Prelude Op Queue Engine Uring UringSpec UringEngine.

Section Wakes.
Context {K U : Type} `{!KernelView K} (event_request : Z).

Local Abbreviation W := (World K U).
Local Abbreviation sub w := (submission (queue (engine w))).
Local Abbreviation pushes := (pushes event_request).
Local Abbreviation polls_in := (polls_in event_request).

(** The polls that were submitted and not delivered. *)
Definition open_polls (w : W) : Z :=
  polls_in (user_data <$> history w) - polls_in (fst <$> delivered w).

(** The completions that were posted and are still to be delivered. *)
Definition owed (w : W) (l : list CompletionEntry) : Prop :=
  cqe_event <$> posted (kernel w) ≡ₚ delivered w ++ (cqe_event <$> l).

(** Those of the poll say that the event descriptor is readable, which it is. *)
Definition live (w : W) (l : list CompletionEntry) : Prop :=
  owed w l ∧ Forall (poll_result event_request (event_fd (engine w))) l.

(** The state of the wakes with [p] polls open and [off] wakes that were taken off
    the queue and not yet subtracted from the expected ones. *)
Record wake_state (p : Z) (off : nat) (w : W) : Prop := {
  wk_open : open_polls w = p;
  wk_expected : Z.of_nat (length (wake_queue (engine w)) + off) ≤ expected_wakes (engine w) < 2 ^ 64;
  wk_event : 0 ≤ event_fd (engine w);
  wk_signal : wake_queue (engine w) ≠ [] → 0 < event_fd (engine w);
  wk_live : ∃ l, live w l
}.

(** One poll is open just when wakes are expected, and the event descriptor is
    readable just when one is queued, but not while [process_wake] runs ([busy]). *)
Definition open_for (busy : bool) (w : W) : Z :=
  if busy || (expected_wakes (engine w) =? 0) then 0 else 1.

Definition wake_ok (busy : bool) (off : nat) (w : W) : Prop :=
  wake_state (open_for busy w) off w ∧
  if busy then 0 < expected_wakes (engine w)
  else 0 < event_fd (engine w) → wake_queue (engine w) ≠ [].

Lemma owed_posts l new (w w' : W) :
  owed w l → posted (kernel w') = posted (kernel w) ++ new → delivered w' = delivered w →
  owed w' (l ++ new).
Proof. unfold owed. intros Hp Hpo Hd. rewrite Hpo, Hd, !fmap_app, Hp. by rewrite app_assoc. Qed.

Lemma owed_deliver e l (w : W) :
  owed w (e :: l) → owed (log_delivered (cqe_user_data e) (cqe_result e) w) l.
Proof. unfold owed. intros ->. simpl. by rewrite <- app_assoc. Qed.

Lemma owed_users l (w : W) :
  owed w l → cqe_user_data <$> posted (kernel w) ≡ₚ (fst <$> delivered w) ++ (cqe_user_data <$> l).
Proof.
  intros Hl. assert (∀ k, cqe_user_data <$> k = fst <$> (cqe_event <$> k)) as E
    by (intros k; by rewrite <- list_fmap_compose).
  rewrite !E, <- fmap_app. by rewrite Hl.
Qed.

(** What is owed is determined, up to the order. *)
Lemma live_owed l l' (w : W) : live w l' → owed w l → live w l.
Proof.
  intros [Hl' Hp] Hl. split; [done|]. rewrite list.Forall_forall in Hp |- *. intros e He Hu.
  assert (cqe_event <$> l ≡ₚ cqe_event <$> l') as Hll.
  { unfold owed in *. rewrite Hl in Hl'. by apply Permutation_app_inv_l in Hl'. }
  assert (cqe_event e ∈ cqe_event <$> l') as (e' & Ee & He')%list_elem_of_fmap.
  { rewrite <- Hll. by apply list_elem_of_fmap_2. }
  unfold cqe_event in Ee. injection Ee as E1 E2. rewrite E2. apply (Hp e' He'). congruence.
Qed.

Lemma live_posts l new (w w' : W) :
  live w l → posted (kernel w') = posted (kernel w) ++ new → delivered w' = delivered w →
  event_fd (engine w) ≤ event_fd (engine w') →
  Forall (poll_result event_request (event_fd (engine w))) new → live w' (l ++ new).
Proof.
  intros [Hp Hl] Hpo Hd He Hn. split; [by apply (owed_posts l new w)|].
  apply Forall_app. split; (eapply list.Forall_impl; [eassumption|]);
    intros e Hr Hu; destruct (Hr Hu); split; (done || lia).
Qed.

(** The wakes are left alone and [l] is pushed. *)
Lemma wake_state_push p off l (w w' : W) :
  wake_state p off w → pushes l 0 w 0 w' →
  wake_state (p + polls_in (user_data <$> l)) off w'.
Proof.
  intros [Ho Hx He Hs [lv Hl]] [[_ _ (new & _ & Hpo) _ Hd _] Hf Hh Hpl _].
  injection Hf as F1 F2 F3 F4 F5. constructor; rewrite ?F1, ?F2, ?F3; try done.
  - unfold open_polls in *. rewrite Hh, fmap_app, polls_in_app, Hd. lia.
  - exists (lv ++ new). apply (live_posts lv new w w'); try done; [lia|by apply Hpl].
Qed.

Lemma wake_ok_push busy off l (w w' : W) :
  wake_ok busy off w → pushes l 0 w 0 w' → Forall (λ e, user_data e ≠ event_request) l →
  wake_ok busy off w'.
Proof.
  intros [Hw Hb] Hp Hl. pose proof (wake_state_push _ _ _ _ _ Hw Hp) as Hw'.
  rewrite polls_in_other, Z.add_0_r in Hw' by by apply Forall_fmap.
  pose proof (pu_frame _ _ _ _ _ _ Hp) as Hf. injection Hf as F1 F2 F3 _ _.
  unfold wake_ok, open_for in *. by rewrite F1, F2, F3.
Qed.

(** Only the kernel's own completions and the state outside of the engine move. *)
Lemma wake_ok_frame busy off new (w w' : W) :
  wake_ok busy off w → history w' = history w → delivered w' = delivered w →
  (expected_wakes (engine w'), wake_queue (engine w'), event_fd (engine w')) =
  (expected_wakes (engine w), wake_queue (engine w), event_fd (engine w)) →
  posted (kernel w') = posted (kernel w) ++ new →
  Forall (poll_result event_request (event_fd (engine w))) new →
  wake_ok busy off w'.
Proof.
  intros [[Ho Hx He Hs [lv Hl]] Hb] Hh Hd Hf Hpo Hn. injection Hf as F1 F2 F3.
  split; [|by rewrite F1, F2, F3]. unfold open_for in *.
  constructor; unfold open_polls in *; rewrite ?Hh, ?Hd, ?F1, ?F2, ?F3; try done.
  exists (lv ++ new). apply (live_posts lv new w w'); (done || lia).
Qed.

(** At most one completion of the poll is there. *)
Lemma live_polls p off l (w : W) :
  wake_state p off w → answers (kernel w) → live w l →
  polls_in (cqe_user_data <$> l) ≤ p.
Proof.
  intros [Ho _ _ _ _] Ha [Hl _]. unfold open_polls, history in Ho.
  pose proof (owed_users l w Hl) as Hu.
  apply (polls_in_submseteq event_request) in Ha.
  assert (polls_in (cqe_user_data <$> posted (kernel w)) =
    polls_in ((fst <$> delivered w) ++ (cqe_user_data <$> l))) as Hc
    by (unfold polls_in; by rewrite Hu).
  rewrite polls_in_app in Hc. rewrite fmap_app, polls_in_app in Ho.
  pose proof (polls_in_nonneg event_request (user_data <$> sq_view (sub w))). lia.
Qed.
End Wakes.

(** ** Uses of the engine *)

Section Processes.
Context {K U : Type} `{!KernelView K}.
Context (NO_OP event_request event_fd_raw : Z) (fatal : Prop) (submit_all : bool).
Context (io_uring_enter : EnterArgs → Z → K → Queue → OsResult Z * K * Queue).
Context (Hkernel : kernel_spec event_request fatal submit_all io_uring_enter).
Context (default_entry : SubmissionEntry) (big_endian : bool).
Context (Hdefault : zeroed default_entry).
Context (syscall : SysCall → M (World K U) (OsResult Z)).

(** They are the addresses of two objects. *)
Context (Hdistinct : NO_OP ≠ event_request).

Local Abbreviation W := (World K U).
Local Abbreviation sub w := (submission (queue (engine w))).
Local Abbreviation com w := (completion (queue (engine w))).
Local Abbreviation pushes := (pushes event_request).
Local Abbreviation inv := (inv submit_all).
Local Abbreviation evolves := (evolves submit_all).
Local Abbreviation wake_ok := (wake_ok event_request).
Local Abbreviation uring_start :=
  (uring_start false default_entry big_endian io_uring_enter syscall).
Local Abbreviation uring_cancel := (uring_cancel false default_entry io_uring_enter NO_OP).
Local Abbreviation uring_prepare_wake := (uring_prepare_wake false default_entry big_endian
  io_uring_enter event_request event_fd_raw).

Definition with_rest (u : U) (w : W) : W :=
  mkWorld (engine w) (kernel w) u (delivered w) (woken_log w).

(** A system call does not touch the engine. *)
Context (Hsyscall : ∀ c w, wp fatal (syscall c) w (λ _ w', ∃ u, w' = with_rest u w)).

(** One step of the rest of the process: an operation of the engine that
    returned, with a request of the caller's; a wake, maybe of another thread,
    that was announced ([off] of the announced ones were just taken off the
    queue); the kernel posting completions on its own; or anything that does not
    touch the engine. *)
Inductive api_step (off : nat) : relation W :=
| api_start op r res w w' :
    op_ok op → r ≠ event_request → uring_start op r w = Ret (res, w') → api_step off w w'
| api_cancel r res w w' :
    r ≠ event_request → uring_cancel r w = Ret (res, w') → api_step off w w'
| api_prepare res w w' :
    expected_wakes (engine w) < 2 ^ 64 - 1 → uring_prepare_wake w = Ret (res, w') →
    api_step off w w'
| api_wake r res w w' :
    Z.of_nat (length (wake_queue (engine w)) + off) < expected_wakes (engine w) →
    uring_wake r w = Ret (res, w') → api_step off w w'
| api_kernel new w k' q' :
    kernel_moves event_request (event_fd (engine w)) 0 new (kernel w) (queue (engine w)) k' q' →
    api_step off w (mkWorld (set_queue q' (engine w)) k' (rest w) (delivered w) (woken_log w))
| api_rest u w : api_step off w (with_rest u w).

(** Wakes are only added; the event counter is not read. *)
Record wakes_added (w w' : W) : Prop := {
  wa_queue : ∃ l, wake_queue (engine w') = wake_queue (engine w) ++ l;
  wa_log : woken_log w' = woken_log w;
  wa_event : event_fd (engine w) ≤ event_fd (engine w')
}.

Lemma wakes_added_refl (w : W) : wakes_added w w.
Proof. constructor; [exists []; by rewrite app_nil_r|done..]. Qed.

Lemma wakes_added_trans (w1 w2 w3 : W) :
  wakes_added w1 w2 → wakes_added w2 w3 → wakes_added w1 w3.
Proof.
  intros [[l1 H1] H2 H3] [[l2 G1] G2 G3]. constructor; [|congruence|lia].
  exists (l1 ++ l2). by rewrite G1, H1, app_assoc.
Qed.

(** What the rest of the process can do to the engine. *)
Record behaves (off : nat) (w w' : W) : Prop := {
  be_evolves : evolves w w';
  be_wakes : wakes_added w w';
  be_ok : ∀ busy, wake_ok busy off w → wake_ok busy off w';
  be_expected : ∀ busy, wake_ok busy off w →
    expected_wakes (engine w) ≤ expected_wakes (engine w')
}.

Lemma behaves_refl off (w : W) : inv w → behaves off w w.
Proof. constructor; [by apply evolves_refl|apply wakes_added_refl|done|done]. Qed.

Lemma behaves_trans off (w1 w2 w3 : W) : behaves off w1 w2 → behaves off w2 w3 → behaves off w1 w3.
Proof.
  intros [H1 H2 H3 H4] [G1 G2 G3 G4]. constructor; eauto using evolves_trans, wakes_added_trans.
  intros busy Hok. etransitivity; [by eapply H4|]. by eapply G4, H3.
Qed.

Lemma requested_behaves off r k (w w' : W) :
  inv w' → r ≠ event_request → requested event_request big_endian r k w w' → behaves off w w'.
Proof.
  intros Hinv Hr (e & _ & He & Hp). pose proof Hp as [Hex Hf _ _ _]. injection Hf as F1 F2 F3 F4 F5.
  constructor; [by split| | |].
  - constructor; [exists []; by rewrite app_nil_r|done|lia].
  - intros busy Hw. apply (wake_ok_push event_request busy off [e] w w'); [done..|].
    constructor; [congruence|done].
  - intros _ _. lia.
Qed.

Lemma with_rest_behaves off u (w : W) : inv w → behaves off w (with_rest u w).
Proof.
  intros ([] & ? & ?). constructor; [split| | |done].
  - split_and!; try done.
  - constructor; try done. exists []. by rewrite !app_nil_r.
  - constructor; [exists []; by rewrite app_nil_r|done..].
  - intros busy Hw. apply (wake_ok_frame event_request busy off [] w); try done. by rewrite app_nil_r.
Qed.

(** Changes of the wake fields only. *)
Lemma wake_fields_behave f (w : W) :
  inv w →
  (∀ e, to_submit (f e) = to_submit e ∧ queue (f e) = queue e ∧
        to_complete (f e) = to_complete e ∧ features (f e) = features e) →
  evolves w (upd f w).
Proof.
  intros ([Hsq Hcq Hst Hts Hn Hans Hbal] & Hroom & Hf) Hfr.
  destruct (Hfr (engine w)) as (E1 & E2 & E3 & E4). split.
  - split_and!; simpl; rewrite ?E1, ?E2, ?E4; try done.
    constructor; simpl; rewrite ?E1, ?E2, ?E3; done.
  - constructor; unfold balance; simpl; rewrite ?E2, ?E3; try done.
    exists []. by rewrite !app_nil_r.
Qed.

Lemma live_mono l (w w' : W) :
  live event_request w l → posted (kernel w') = posted (kernel w) → delivered w' = delivered w →
  event_fd (engine w) ≤ event_fd (engine w') → live event_request w' l.
Proof.
  intros Hl Hp Hd He. rewrite <- (app_nil_r l).
  apply (live_posts event_request l [] w w'); try done. by rewrite app_nil_r.
Qed.

Lemma uring_wake_behaves off r (w : W) :
  inv w → Z.of_nat (length (wake_queue (engine w)) + off) < expected_wakes (engine w) →
  wp fatal (uring_wake r) w (λ _ w', behaves off w w').
Proof.
  intros Hw Hann. unfold uring_wake, gets_engine, modify_engine. wp_steps. simpl.
  assert (∀ ev, event_fd (engine w) ≤ ev →
    (0 ≤ event_fd (engine w) →
      (wake_queue (engine w) ≠ [] → 0 < event_fd (engine w)) → 0 < ev) →
    behaves off w (upd (set_event_fd ev)
      (upd (set_wake_queue (wake_queue (engine w) ++ [r])) w))) as Hgen.
  { intros ev Hev Hpos. constructor.
    - set (w1 := upd (set_wake_queue _) w).
      assert (evolves w w1) as H1 by by apply wake_fields_behave.
      eapply evolves_trans; [exact H1|]. apply wake_fields_behave; [apply H1|done].
    - constructor; [by eexists|done|done].
    - intros busy [[Ho Hx He Hs [l Hl]] Hb].
      split; [|destruct busy; [done|intros _; simpl; by destruct (wake_queue (engine w))]].
      assert (0 < ev) as Hev0 by auto.
      constructor; simpl; try done; [rewrite length_app; simpl; lia|lia|].
      exists l. by apply (live_mono l w).
    - done. }
  case_bool_decide as Hq.
  - wp_steps. unfold eventfd_write. simpl. destruct (Z.ltb_spec (event_fd (engine w) + 1) (2 ^ 64 - 1));
      wp_steps; apply Hgen; lia.
  - wp_steps. specialize (Hgen (event_fd (engine w))). apply Hgen; [lia|].
    intros _ Hs. apply Hs. by destruct (wake_queue (engine w)).
Qed.

(** The operations the fallback has. *)
Lemma sync_start_behaves off op r (w : W) :
  inv w → op_call op = None ∨ op_checked op ≠ None →
  wp fatal (SyncEngine.sync_start syscall op r) w (λ _ w', behaves off w w').
Proof.
  intros Hw Hop. destruct op; simpl in *; try (by destruct Hop);
    apply wp_bind; (eapply wp_mono; [apply Hsyscall|]);
    intros res w' [u ->]; wp_steps; by apply with_rest_behaves.
Qed.

Lemma uring_start_behaves off op r (w : W) :
  inv w → op_ok op → r ≠ event_request →
  wp fatal (uring_start op r) w (λ _ w', behaves off w w').
Proof.
  intros Hw Hok Hr. destruct (op_call op) as [c|] eqn:Hc;
    [destruct (op_supported (features (engine w)) op) eqn:Hs|].
  - destruct (op_request op) as [k|] eqn:Hk; [|by destruct op].
    eapply wp_mono; [by eapply uring_start_async|]. intros res w' (_ & Hinv & Hreq).
    by eapply requested_behaves.
  - unfold wp. rewrite uring_start_entry, Hc, Hs. apply sync_start_behaves; [done|].
    right. unfold op_supported in Hs. by destruct (op_checked op).
  - unfold wp. rewrite uring_start_entry, Hc. apply sync_start_behaves; [done|by left].
Qed.

(** Announcing a wake: the first one opens the poll. *)
Lemma wake_ok_announce busy off (w : W) :
  wake_ok busy off w → expected_wakes (engine w) < 2 ^ 64 - 1 →
  let w0 := upd (set_expected_wakes (expected_wakes (engine w) + 1)) w in
  wake_state event_request
    (if expected_wakes (engine w) =? 0 then 0 else open_for busy w0) off w0.
Proof.
  intros [[Ho Hx He Hs [l Hl]] Hb] Hmax w0. unfold open_for in *. simpl.
  constructor; simpl; try done; [|lia|exists l; by apply (live_mono l w)].
  change (open_polls event_request w0) with (open_polls event_request w). rewrite Ho.
  destruct (Z.eqb_spec (expected_wakes (engine w)) 0); [by rewrite orb_true_r|].
  destruct (Z.eqb_spec (expected_wakes (engine w) + 1) 0); [lia|done].
Qed.

Lemma prepare_behaves off (w : W) :
  inv w → expected_wakes (engine w) < 2 ^ 64 - 1 →
  wp fatal uring_prepare_wake w (λ _ w', behaves off w w').
Proof.
  intros Hw Hmax. unfold uring_prepare_wake, gets_engine, modify_engine. wp_steps.
  rewrite arith_u_wraps. simpl. wp_steps. set (w0 := upd _ w).
  assert (evolves w w0) as Hev0 by by apply wake_fields_behave.
  assert (wakes_added w w0) as Hwa0 by (constructor; [exists []; by rewrite app_nil_r|done..]).
  assert (∀ busy, wake_ok busy off w →
    as_u 64 (expected_wakes (engine w) + 1) = expected_wakes (engine w) + 1) as Hfit.
  { intros busy [[_ ? _ _ _] _]. apply as_u_id. unfold in_u. lia. }
  destruct (Z.eqb_spec (as_u 64 (expected_wakes (engine w) + 1)) 1) as [E|E]; wp_steps.
  - eapply wp_mono; [eapply poll_wake_spec; [done..|apply Hev0]|].
    intros u w' [Hinv (e & _ & Hu & Hp)]. wp_steps.
    pose proof (pu_frame _ _ _ _ _ _ Hp) as Hf. injection Hf as F1 F2 F3 F4 F5.
    constructor.
    + eapply evolves_trans; [done|]. split; [done|]. apply Hp.
    + constructor; [exists []; by rewrite app_nil_r|done|simpl in *; lia].
    + intros busy Hok. pose proof (Hfit _ Hok) as Hfit'. rewrite Hfit' in E.
      pose proof (wake_ok_announce busy off w Hok Hmax) as H0. cbn zeta in H0.
      assert (expected_wakes (engine w) = 0) as Hz by lia.
      rewrite <- Hfit', (proj2 (Z.eqb_eq _ _) Hz) in H0.
      apply (wake_state_push event_request 0 off [e] w0 w') in H0; [|done].
      simpl in H0. rewrite Hu, polls_in_own in H0.
      destruct Hok as [_ Hb]. destruct busy; [lia|].
      split; [|by rewrite F2, F3]. unfold open_for. rewrite F1. simpl. by rewrite Hfit', Hz.
    + intros busy Hok. rewrite F1. simpl. rewrite (Hfit _ Hok). lia.
  - constructor; try done; [|intros busy Hok; simpl; rewrite (Hfit _ Hok); lia].
    intros busy Hok. pose proof (Hfit _ Hok) as Hfit'. rewrite Hfit' in E.
    pose proof (wake_ok_announce busy off w Hok Hmax) as H0. cbn zeta in H0.
    rewrite <- Hfit', (proj2 (Z.eqb_neq _ _)) in H0 by lia. split; [done|].
    destruct Hok as [_ Hb]. destruct busy; simpl; [lia|done].
Qed.

Lemma api_kernel_behaves off new (w : W) k' q' :
  inv w → kernel_moves event_request (event_fd (engine w)) 0 new (kernel w) (queue (engine w)) k' q' →
  behaves off w (mkWorld (set_queue q' (engine w)) k' (rest w) (delivered w) (woken_log w)).
Proof.
  intros ([Hsq Hcq Hst Hts Hn Hans Hbal] & Hroom & Hf) Hm.
  destruct (kernel_moves_counts event_request 0 new _ _ _ _ _ Hsq Hcq Hm)
    as (Hsq' & Hc' & Hv' & Hcc & Hinf); [unfold sq_count in *; lia|apply ring_count_range|].
  destruct Hm as [Hsf Hskh Hcwf Hcf Hcv Htk Hpo Hans' Hpl Hlz].
  simpl in Hsf, Hcf. injection Hsf as S1 S2 S3 S4 S5 S6. injection Hcf as C1 C2 C3.
  constructor; [split| | |done].
  - split_and!; simpl; [|congruence|done]. constructor; simpl; try done; lia.
  - constructor; simpl; try done; [by eexists|]. unfold balance. simpl. f_equal. lia.
  - constructor; [exists []; by rewrite app_nil_r|done..].
  - intros busy Hw. apply (wake_ok_frame event_request busy off new w); try done.
    unfold history. simpl. rewrite Htk, Hv'. change (Z.to_nat 0) with 0%nat.
    by rewrite take_0, drop_0, app_nil_r.
Qed.

(** Every step keeps the invariants. *)
Lemma api_step_behaves off (w w' : W) : inv w → api_step off w w' → behaves off w w'.
Proof.
  intros Hw Hs. revert Hw.
  destruct Hs as [op r res w1 w2 Hok Hr E|r res w1 w2 Hr E|res w1 w2 Hm E|r res w1 w2 Ha E
    |new w1 k' q' Hm|u w1]; intros Hw.
  1-4: apply (wp_Ret fatal _ _ _ _ (λ _ w', behaves off w1 w') E).
  - by apply uring_start_behaves.
  - eapply wp_mono; [by eapply uring_cancel_spec|].
    intros ? ? (_ & ? & ?). by apply (requested_behaves off NO_OP (KCancel r 0 0)).
  - by apply prepare_behaves.
  - by apply uring_wake_behaves.
  - by eapply api_kernel_behaves.
  - by apply with_rest_behaves.
Qed.

Lemma api_steps_behave off (w w' : W) : rtc (api_step off) w w' → inv w → behaves off w w'.
Proof.
  induction 1 as [w|w1 w2 w3 Hs _ IH]; intros Hw; [by apply behaves_refl|].
  assert (behaves off w1 w2) as H12 by by apply api_step_behaves.
  eapply behaves_trans; [done|]. apply IH. apply H12.
Qed.
End Processes.
