(* ===== verification/UringWork.v ===== *)
(** * The io_uring engine: wakes and the unit of work

    [process_wake] hands every pending wake to its request in order; [work]
    submits everything that is staged and delivers every completion in the ring
    exactly once.  The callbacks are any code that uses the engine through its
    operations ([api_step] of UringProcess.v). *)

From stdpp Require Import base list numbers relations tactics.
From S2P Require Import Prelude Op Queue Engine Uring UringSpec UringEngine UringProcess.

Section Work.
Context {K U : Type} `{!KernelView K}.
Context (NO_OP event_request event_fd_raw : Z) (fatal : Prop) (submit_all : bool).
Context (io_uring_enter : EnterArgs → Z → K → Queue → OsResult Z * K * Queue).
Context (Hkernel : kernel_spec event_request fatal submit_all io_uring_enter).
Context (default_entry : SubmissionEntry) (big_endian : bool).
Context (Hdefault : zeroed default_entry).
Context (syscall : SysCall → M (World K U) (OsResult Z)) (syscall_result : Z → OsResult Z).
Context (timespec_at : Z → Z).
Context (Hdistinct : NO_OP ≠ event_request).
Context (Hsyscall : ∀ c w, wp fatal (syscall c) w (λ _ w', ∃ u, w' = with_rest u w)).

(** The callbacks; what they do to the rest of the process; bounds on the wakes
    that may still arrive and on the operations that may still be started. *)
Context (user_complete : ReqPtr → Z → M (World K U) unit).
Context (wake_complete : ReqPtr → M (World K U) unit).
Context (R : relation U) `{!PreOrder R}.
Context (wake_fuel : nat) (budget starts : U → nat).

Local Abbreviation W := (World K U).
Local Abbreviation sub w := (submission (queue (engine w))).
Local Abbreviation com w := (completion (queue (engine w))).
Local Abbreviation pushes := (pushes event_request).
Local Abbreviation polls_in := (polls_in event_request).
Local Abbreviation inv := (inv submit_all).
Local Abbreviation evolves := (evolves submit_all).
Local Abbreviation wake_ok := (wake_ok event_request).
Local Abbreviation requested := (requested event_request big_endian).
Local Abbreviation api_step := (api_step NO_OP event_request event_fd_raw io_uring_enter
  default_entry big_endian syscall).
Local Abbreviation complete_wakes := (complete_wakes wake_complete).
Local Abbreviation process_wake_loop := (process_wake_loop false wake_complete).
Local Abbreviation process_wake := (process_wake false default_entry big_endian io_uring_enter
  syscall_result event_request event_fd_raw wake_complete wake_fuel).
Local Abbreviation request_complete := (request_complete false default_entry big_endian
  io_uring_enter syscall_result NO_OP event_request event_fd_raw user_complete wake_complete
  wake_fuel).
Local Abbreviation submit_and_wait := (submit_and_wait false default_entry io_uring_enter NO_OP
  timespec_at).
Local Abbreviation uring_work := (uring_work false default_entry big_endian io_uring_enter
  syscall_result NO_OP event_request event_fd_raw timespec_at user_complete wake_complete
  wake_fuel).

(** The wakes that are queued or may still be queued. *)
Definition supply (w : W) : nat := (length (wake_queue (engine w)) + budget (rest w))%nat.

(** Every wake that is expected is queued, was just taken off the queue ([off]), or
    may still be queued. *)
Definition promised (off : nat) (w : W) : Prop :=
  expected_wakes (engine w) ≤ Z.of_nat (supply w + off).

Definition keeps_promise (off off' : nat) (w w' : W) : Prop := promised off w → promised off' w'.

Lemma keeps_promise_refl off w : keeps_promise off off w w.
Proof. by intros ?. Qed.

#[local] Hint Resolve keeps_promise_refl : core.

Lemma promised_frame off w w' :
  (expected_wakes (engine w'), wake_queue (engine w'), rest w') =
  (expected_wakes (engine w), wake_queue (engine w), rest w) → keeps_promise off off w w'.
Proof.
  intros E. injection E as E1 E2 E3. unfold keeps_promise, promised, supply. by rewrite E1, E2, E3.
Qed.

Lemma promised_push off l w w' : pushes l 0 w 0 w' → keeps_promise off off w w'.
Proof.
  intros Hp. pose proof (pu_frame _ _ _ _ _ _ Hp) as Hf. injection Hf as F1 F2 _ _ F5.
  apply promised_frame. by rewrite F1, F2, F5.
Qed.

(** The work that is left: the requests submitted and not delivered, the wakes that
    are expected, the waits that may come to nothing and the operations that may be
    started. *)
Definition effort (w : W) : Z :=
  Z.of_nat (length (history w)) - Z.of_nat (length (delivered w)) +
  expected_wakes (engine w) + Z.of_nat (laziness (kernel w)) + Z.of_nat (starts (rest w)).

(** What a step of the process spends. *)
Record spends (n : Z) (w w' : W) : Prop := {
  sp_supply : (supply w' ≤ supply w)%nat;
  sp_rest : R (rest w) (rest w');
  sp_effort : effort w' + n ≤ effort w
}.

Lemma spends_refl w : spends 0 w w.
Proof. constructor; [done|reflexivity|lia]. Qed.

Lemma spends_eq w w' :
  (supply w' ≤ supply w)%nat → rest w' = rest w → effort w' = effort w → spends 0 w w'.
Proof. intros Hs Hr He. constructor; [done|by rewrite Hr|lia]. Qed.

Lemma spends_trans n m w1 w2 w3 : spends n w1 w2 → spends m w2 w3 → spends (n + m) w1 w3.
Proof. intros [] []. constructor; [lia|by etransitivity|lia]. Qed.

(** A callback uses the engine through its operations only, spends what it uses
    and announces no wake that does not come. *)
Definition callback (m : M W unit) : Prop :=
  ∀ busy off w, inv w → wake_ok busy off w →
    wp fatal m w (λ _ w', rtc (api_step off) w w' ∧ spends 0 w w' ∧ keeps_promise off off w w').

Context (Huser : ∀ r v, callback (user_complete r v)).
Context (Hwake : ∀ r, callback (wake_complete r)).

(** Submitting entries costs one each; the kernel does not make it more. *)
Lemma pushes_spends l w w' : pushes l 0 w 0 w' → spends (- Z.of_nat (length l)) w w'.
Proof.
  intros [[_ _ _ _ Hd _] Hf Hh _ Hp]. injection Hf as F1 F2 _ _ F5.
  constructor; [unfold supply; by rewrite F2, F5|by rewrite F5|].
  unfold effort. rewrite Hd, Hh, F1, F5, length_app. lia.
Qed.

(** Delivering a completion saves one. *)
Lemma deliver_spends r v w : spends 1 w (log_delivered r v w).
Proof.
  constructor; [done|done|]. unfold effort. simpl.
  change (history (log_delivered r v w)) with (history w).
  rewrite length_app. simpl. lia.
Qed.

Lemma log_woken_evolves r (w : W) : inv w → evolves w (log_woken r w).
Proof.
  intros ([] & ? & ?). split; [by split_and!|]. constructor; try done.
  exists []. by rewrite !app_nil_r.
Qed.

Lemma log_woken_ok busy off r (w : W) : wake_ok busy off w → wake_ok busy off (log_woken r w).
Proof.
  intros Hw. apply (wake_ok_frame event_request busy off [] w); try done. by rewrite app_nil_r.
Qed.

(** A batch of wakes: each request is resumed, in order. *)
Lemma complete_wakes_spec off l (w : W) :
  inv w → wake_ok true off w →
  wp fatal (complete_wakes l) w (λ _ w', evolves w w' ∧ wake_ok true off w' ∧ spends 0 w w' ∧
    keeps_promise off off w w' ∧ (∃ l', wake_queue (engine w') = wake_queue (engine w) ++ l') ∧
    woken_log w' = woken_log w ++ l ∧ event_fd (engine w) ≤ event_fd (engine w') ∧
    expected_wakes (engine w) ≤ expected_wakes (engine w')).
Proof.
  revert w. induction l as [|r l IH]; intros w Hw Hok; cbn [Uring.complete_wakes].
  { wp_steps. split_and!; [by apply evolves_refl|done|apply spends_refl|done|
      exists []; by rewrite app_nil_r| |done|done]. by rewrite app_nil_r. }
  pose proof (log_woken_evolves r w Hw) as Hlog. wp_steps.
  eapply wp_mono; [apply (Hwake r true off); [apply Hlog|by apply log_woken_ok]|].
  intros _ w1 (Hsteps & Hs1 & Hk1).
  eapply api_steps_behave in Hsteps as [Hev1 [[l1 Hq1] Hl1 He1] Hok1 Hx1]; [|done..|apply Hlog].
  specialize (Hx1 true (log_woken_ok _ _ _ _ Hok)).
  eapply wp_mono; [apply IH; [apply Hev1|by apply Hok1, log_woken_ok]|].
  intros _ w2 (Hev2 & Hok2 & Hs2 & Hk2 & [l2 Hq2] & Hl2 & He2 & Hx2). simpl in *. split_and!.
  - eapply evolves_trans; [exact Hlog|]. by eapply evolves_trans.
  - done.
  - assert (spends 0 w (log_woken r w)) as Hs0 by (by apply spends_eq).
    apply (spends_trans 0 0 _ _ _ Hs0), (spends_trans 0 0 _ _ _ Hs1 Hs2).
  - intros Hp. by apply Hk2, Hk1.
  - exists (l1 ++ l2). by rewrite Hq2, Hq1, app_assoc.
  - by rewrite Hl2, Hl1, <- app_assoc.
  - lia.
  - lia.
Qed.

(** What the loop of [process_wake] achieves: every wake that was pending and
    every wake [extra] that came in the meantime was handed over, first come
    first served. *)
Definition drained (n0 n : Z) (w w' : W) : Prop :=
  evolves w w' ∧ wake_queue (engine w') = [] ∧ event_fd (engine w') = 0 ∧
  expected_wakes (engine w) ≤ expected_wakes (engine w') ∧
  ∃ extra, woken_log w' = woken_log w ++ wake_queue (engine w) ++ extra ∧
    n = n0 + Z.of_nat (length (wake_queue (engine w) ++ extra)).

(** Wakes are taken off the queue. *)
Lemma wake_ok_take k off (w : W) :
  wake_ok true off w → (k ≤ length (wake_queue (engine w)))%nat →
  0 < event_fd (engine w) →
  wake_ok true (off + k) (upd (set_wake_queue (drop k (wake_queue (engine w)))) w).
Proof.
  intros [[Ho Hx He Hs [l Hl]] Hb] Hk Hpos. split; [|done].
  constructor; simpl; try done; [rewrite length_drop; lia|].
  exists l. by apply (live_mono event_request l w).
Qed.

(** Reading the event descriptor: no poll is open, so none relies on it. *)
Lemma wake_ok_read off (w : W) :
  inv w → wake_ok true off w → wake_queue (engine w) = [] →
  wake_ok true off (upd (set_event_fd 0) w).
Proof.
  intros Hw [Hst Hb] Hq. split; [|done]. pose proof Hst as [Ho Hx He Hs [l Hl]].
  constructor; simpl; try done. exists l. split; [apply Hl|].
  pose proof (live_polls event_request _ off l w Hst ltac:(apply Hw) Hl) as Hp.
  unfold open_for in Hp. simpl in Hp.
  apply list.Forall_forall. intros e He' Hu. exfalso.
  assert (cqe_user_data e ∈ cqe_user_data <$> l) as Hin by by apply list_elem_of_fmap_2.
  apply list_elem_of_split in Hin as (l1 & l2 & E). rewrite E, cons_middle, !polls_in_app, Hu,
    polls_in_own in Hp.
  pose proof (polls_in_nonneg event_request l1). pose proof (polls_in_nonneg event_request l2). lia.
Qed.

Lemma process_wake_loop_spec fuel off (w : W) :
  inv w → wake_ok true off w → 0 < event_fd (engine w) → (supply w < fuel)%nat →
  wp fatal (process_wake_loop fuel (Z.of_nat off)) w (λ n w', drained (Z.of_nat off) n w w' ∧
    spends 0 w w' ∧ 0 ≤ n ∧ wake_ok true (Z.to_nat n) w' ∧ keeps_promise off (Z.to_nat n) w w').
Proof.
  unfold drained. revert off w.
  induction fuel as [|fuel IH]; intros off w Hw Hok He Hf; [lia|].
  unfold Uring.process_wake_loop. fold process_wake_loop.
  unfold gets_engine, modify_engine. wp_steps.
  destruct (wake_queue (engine w)) as [|r q] eqn:Hq.
  - wp_steps. unfold eventfd_read. destruct (Z.eqb_spec (event_fd (engine w)) 0); [lia|].
    wp_steps. simpl. wp_steps. split_and!; [by apply wake_fields_behave|done|done|done| | |lia| |].
    + exists []. simpl. split_and!; [by rewrite app_nil_r|lia].
    + by apply spends_eq.
    + rewrite Nat2Z.id. by apply wake_ok_read.
    + rewrite Nat2Z.id. by apply promised_frame.
  - wp_steps. rewrite <- Hq. set (k := Nat.min _ _).
    assert (1 ≤ k ≤ length (wake_queue (engine w)))%nat as Hk
      by (unfold k, MAX_RESUME; rewrite Hq; simpl; lia).
    set (w1 := upd _ w).
    assert (evolves w w1) as Hev1 by by apply wake_fields_behave.
    pose proof (wake_ok_take k off w Hok ltac:(lia) He) as Hok1. fold w1 in Hok1.
    assert (supply w1 + k = supply w)%nat as Hs1.
    { unfold supply, w1. cbn [upd engine set_wake_queue wake_queue rest].
      rewrite length_drop. lia. }
    assert (spends 0 w w1) as Hsp1 by (apply spends_eq; [lia|done|done]).
    eapply wp_mono; [by apply complete_wakes_spec; [apply Hev1|]|].
    intros _ w2 (Hev2 & Hok2 & Hsp2 & Hk2 & [l2 Hq2] & Hl2 & He2 & Hx2).
    wp_steps. rewrite arith_u_fits.
    2:{ destruct Hok1 as [[_ Hx _ _ _] _]. simpl in Hx. rewrite length_drop in Hx.
        unfold in_u. lia. }
    simpl. rewrite <- Nat2Z.inj_add.
    pose proof (sp_supply _ _ _ Hsp2).
    eapply wp_mono; [apply IH; [apply Hev2|done|simpl in *; lia|lia]|].
    intros n' w3 ((Hev3 & Hq3 & He3 & Hx3 & extra & Hl3 & ->) & Hsp3 & Hn3 & Hok3 & Hk3).
    assert (wake_queue (engine w2) = drop k (wake_queue (engine w)) ++ l2) as Hq2' by done.
    split_and!; [eauto using evolves_trans|done|done|simpl in *; lia| | |done|done|].
    + exists (l2 ++ extra). rewrite Hl3, Hl2, Hq2' in *.
      change (woken_log w1) with (woken_log w).
      rewrite !length_app, length_drop in *. split_and!; [|lia]. rewrite <- !app_assoc. f_equal.
      by rewrite (app_assoc (take k _)), take_drop.
    + apply (spends_trans 0 0 _ _ _ Hsp1), (spends_trans 0 0 _ _ _ Hsp2 Hsp3).
    + intros Hp. apply Hk3, Hk2. unfold promised in *. change (expected_wakes (engine w1)) with
        (expected_wakes (engine w)). lia.
Qed.

(** [process_wake] on a readable event descriptor: the wakes are handed over
    and counted off, and the descriptor is polled again when more are
    expected. *)
Definition wakes_processed (w w' : W) : Prop :=
  ∃ n w1, drained 0 n w w1 ∧
    let left := expected_wakes (engine w1) - n in
    let w2 := upd (set_expected_wakes left) w1 in
    0 ≤ left ∧
    if left =? 0 then w' = w2
    else requested event_request (KPollAdd event_fd_raw PollIn) w2 w'.

(** The wakes that were taken off are counted off. *)
Lemma wake_ok_count n (w : W) :
  wake_ok true n w →
  let left := expected_wakes (engine w) - Z.of_nat n in
  let w2 := upd (set_expected_wakes left) w in
  0 ≤ left < 2 ^ 64 ∧ wake_state event_request 0 0 w2.
Proof.
  intros [[Ho Hx He Hs [l Hl]] Hb] left w2. split; [unfold left; lia|].
  constructor; simpl; try done; [unfold left; lia|]. exists l.
  by apply (live_mono event_request l w).
Qed.

Lemma process_wake_spec (w : W) :
  inv w → wake_ok true 0 w → wake_queue (engine w) ≠ [] → (supply w < wake_fuel)%nat →
  wp fatal (process_wake PollIn) w (λ _ w',
    inv w' ∧ wakes_processed w w' ∧ evolves w w' ∧ wake_ok false 0 w' ∧ spends 0 w w' ∧
    keeps_promise 0 0 w w').
Proof.
  intros Hw Hok Hq Hf. assert (0 < event_fd (engine w)) as He by by apply Hok.
  unfold Uring.process_wake. simpl. wp_steps.
  eapply wp_mono; [by apply (process_wake_loop_spec _ 0)|].
  intros n w1 (Hd & Hsp & Hn & Hok1 & Hk1). unfold gets_engine, modify_engine. wp_steps.
  destruct (wake_ok_count _ _ Hok1) as [Hleft Hst]. rewrite Z2Nat.id in Hleft, Hst by done.
  rewrite arith_u_fits by done. simpl. wp_steps.
  set (left := expected_wakes (engine w1) - n) in *. set (w2 := upd _ w1) in *.
  assert (evolves w1 w2) as Hev2 by (apply wake_fields_behave; [apply Hd|done]).
  assert (evolves w w2) as Hev by (eapply evolves_trans; [apply Hd|done]).
  assert (event_fd (engine w2) = 0) as Hev0 by apply Hd.
  assert (1 ≤ n) as Hn1.
  { destruct Hd as (_ & _ & _ & _ & extra & _ & ->). destruct (wake_queue (engine w)); [done|].
    simpl. lia. }
  assert (spends n w w2) as Hsp2.
  { apply (spends_trans 0 n _ _ _ Hsp). constructor; [done|done|].
    unfold effort. change (history w2) with (history w1). simpl. unfold left. lia. }
  assert (keeps_promise 0 0 w w2) as Hk2.
  { intros Hp. specialize (Hk1 Hp). unfold promised, supply in *. simpl. unfold left. lia. }
  destruct (Z.eqb_spec left 0) as [Hz|Hz]; simpl.
  - wp_steps. split_and!; [apply Hev2| |done| | |done].
    + exists n, w1. split; [done|]. cbn zeta. fold left. split; [lia|].
      by rewrite (proj2 (Z.eqb_eq left 0) Hz).
    + split; [|lia]. unfold open_for. simpl. by rewrite (proj2 (Z.eqb_eq left 0) Hz).
    + destruct Hsp2. constructor; [done|done|lia].
  - eapply wp_mono; [eapply poll_wake_spec; [done..|apply Hev2]|].
    intros _ w' [Hinv Hreq]. pose proof Hreq as (e & _ & Hu & Hp). split_and!; [done| | | | |].
    + exists n, w1. split; [done|]. cbn zeta. fold left. split; [lia|].
      by rewrite (proj2 (Z.eqb_neq left 0) Hz).
    + eapply evolves_trans; [done|]. split; [done|apply Hp].
    + pose proof (wake_state_push event_request 0 0 [e] w2 w' Hst Hp) as Hst'.
      simpl in Hst'. rewrite Hu, polls_in_own in Hst'.
      pose proof (pu_frame _ _ _ _ _ _ Hp) as F. injection F as F1 _ F3 _ _.
      split; [|simpl in F3, Hev0; rewrite F3, Hev0; lia]. unfold open_for.
      rewrite F1. simpl. by rewrite (proj2 (Z.eqb_neq left 0) Hz).
    + destruct (spends_trans _ _ _ _ _ Hsp2 (pushes_spends [e] _ _ Hp)) as [? ? Heff].
      constructor; [done|done|simpl in Heff; lia].
    + intros Hpr. by apply (promised_push 0 [e] w2 w' Hp), Hk2.
Qed.

(** ** Wakes are conserved

    The requests resumed, followed by those queued, are only added to at the end, and
    an expected wake stays expected until it is resumed. *)
Definition conserved (w w' : W) : Prop :=
  (∃ l, woken_log w' ++ wake_queue (engine w') = woken_log w ++ wake_queue (engine w) ++ l) ∧
  Z.of_nat (length (woken_log w)) + expected_wakes (engine w) ≤
  Z.of_nat (length (woken_log w')) + expected_wakes (engine w').

#[export] Instance conserved_order : PreOrder conserved.
Proof.
  split.
  - intros w. split; [exists []; by rewrite app_nil_r|lia].
  - intros w1 w2 w3 [[l1 H1] G1] [[l2 H2] G2]. split; [|lia].
    exists (l1 ++ l2). by rewrite H2, (app_assoc (woken_log w2)), H1, <- !app_assoc.
Qed.

Lemma conserved_frame (w w' : W) : wake_frame w' = wake_frame w → conserved w w'.
Proof.
  intros F. injection F as F1 F2 _ F4 _. unfold conserved. rewrite F1, F2, F4.
  split; [exists []; by rewrite app_nil_r|lia].
Qed.

Lemma conserved_behaves busy off (w w' : W) :
  behaves event_request submit_all off w w' → wake_ok busy off w → conserved w w'.
Proof.
  intros [_ [[l Hq] Hl _] _ Hx] Hok. specialize (Hx _ Hok). split; [|rewrite Hl; lia].
  exists l. by rewrite Hq, Hl.
Qed.

Lemma conserved_processed (w w' : W) : wakes_processed w w' → conserved w w'.
Proof.
  intros (n & w1 & (_ & Hq & _ & Hx & extra & Hl & Hn) & _ & H). cbn zeta in H.
  set (w2 := upd _ w1) in H.
  assert (conserved w w2) as H2.
  { split; simpl; rewrite Hl; [exists extra; rewrite Hq, app_nil_r; done|].
    rewrite length_app. lia. }
  etransitivity; [exact H2|]. destruct (_ =? 0); [by subst w'|].
  destruct H as (e & _ & _ & Hp). apply conserved_frame, Hp.
Qed.

(** ** Delivery of completions to requests *)

(** What the delivery of the completions [l] relies on: with [w0] they were
    started with. *)
Definition deliverable (w0 : W) (l : list CompletionEntry) (w : W) : Prop :=
  wake_ok false 0 w ∧ (∃ more, owed w (l ++ more)) ∧ (supply w < wake_fuel)%nat ∧
  keeps_promise 0 0 w0 w ∧ conserved w0 w ∧ features (engine w) = features (engine w0) ∧
  ∃ n, spends n w0 w ∧ Z.of_nat (length (cq_view (com w0))) ≤ n + Z.of_nat (length l).

(** It does not depend on the bookkeeping of the completion ring. *)
Lemma deliverable_frame w0 l (w w' : W) :
  deliverable w0 l w → kernel w' = kernel w → sub w' = sub w → delivered w' = delivered w →
  wake_frame w' = wake_frame w → features (engine w') = features (engine w) →
  deliverable w0 l w'.
Proof.
  intros (Hok & [more Ho] & Hf & Hpr & Hc & Hft & n & Hs & Hn) Hk Hq Hd F Hft'.
  assert (conserved w0 w') as Hc' by (etransitivity; [exact Hc|by apply conserved_frame]).
  injection F as F1 F2 F3 F4 F5.
  assert (history w' = history w) as Hh by (unfold history; by rewrite Hk, Hq).
  split_and!.
  - apply (wake_ok_frame event_request false 0 [] w); try done; [by rewrite F1, F2, F3|].
    by rewrite Hk, app_nil_r.
  - exists more. unfold owed in *. by rewrite Hk, Hd.
  - unfold supply in *. by rewrite F2, F5.
  - intros Hp0. apply (promised_frame 0 w w'); [by rewrite F1, F2, F5|by apply Hpr].
  - done.
  - congruence.
  - exists n. split; [|done]. rewrite <- (Z.add_0_r n). apply (spends_trans _ _ _ w); [done|].
    apply spends_eq; [unfold supply; by rewrite F2, F5|done|].
    unfold effort. by rewrite Hh, Hd, Hk, F1, F5.
Qed.

Lemma deliverable_upd w0 l f (w : W) :
  deliverable w0 l w →
  (∀ e, submission (queue (f e)) = submission (queue e) ∧
    (expected_wakes (f e), wake_queue (f e), event_fd (f e)) =
    (expected_wakes e, wake_queue e, event_fd e) ∧ features (f e) = features e) →
  deliverable w0 l (upd f w).
Proof.
  intros H1 Hfr. destruct (Hfr (engine w)) as (E1 & [= E2 E3 E4] & E5).
  apply (deliverable_frame w0 l w); try done. unfold wake_frame. simpl. by rewrite E2, E3, E4.
Qed.

(** The completion of another request is delivered. *)
Lemma wake_ok_deliver r v (w : W) :
  wake_ok false 0 w → (∃ l, owed (log_delivered r v w) l) → r ≠ event_request →
  wake_ok false 0 (log_delivered r v w).
Proof.
  intros [[Ho Hx He Hs [l' Hl']] Hb] [l Hl] Hr. split; [|done].
  constructor; simpl; try done.
  - unfold open_polls in *. simpl. rewrite fmap_app, polls_in_app. simpl.
    rewrite (polls_in_other _ [r]) by by constructor. rewrite Z.add_0_r. exact Ho.
  - exists l. split; [done|]. destruct Hl' as [Hl' Hp].
    rewrite list.Forall_forall in Hp |- *. intros e Hin Hu. simpl.
    assert (cqe_event e ∈ cqe_event <$> l') as (e' & Ee & He')%list_elem_of_fmap.
    { assert ((r, v) :: (cqe_event <$> l) ≡ₚ cqe_event <$> l') as <-.
      { unfold owed in *. simpl in Hl. rewrite Hl in Hl'. rewrite <- app_assoc in Hl'.
        by apply Permutation_app_inv_l in Hl'. }
      right. by apply list_elem_of_fmap_2. }
    unfold cqe_event in Ee. injection Ee as E1 E2. rewrite E2. apply (Hp e' He'). congruence.
Qed.

(** The completion of the poll is delivered. *)
Lemma wake_ok_poll e l (w : W) :
  inv w → wake_ok false 0 w → owed w (e :: l) → cqe_user_data e = event_request →
  cqe_result e = PollIn ∧ wake_queue (engine w) ≠ [] ∧
  wake_ok true 0 (log_delivered (cqe_user_data e) (cqe_result e) w).
Proof.
  intros Hw [Hst Hb] Hl Hu. pose proof Hst as [Ho Hx He Hs [l' Hl']].
  pose proof (live_owed event_request _ _ w Hl' Hl) as Hlv.
  pose proof (live_polls event_request _ _ _ w Hst ltac:(apply Hw) Hlv) as Hp.
  cbn [fmap list_fmap] in Hp. rewrite Hu in Hp.
  change (event_request :: ?k) with ([event_request] ++ k) in Hp.
  rewrite polls_in_app, polls_in_own in Hp.
  pose proof (polls_in_nonneg event_request (cqe_user_data <$> l)).
  destruct Hlv as [_ Hres]. inversion Hres as [|? ? Hr1 Hr2]; subst. destruct (Hr1 Hu) as [Hr Hev].
  unfold open_for in *. simpl in *.
  destruct (Z.eqb_spec (expected_wakes (engine w)) 0); [lia|].
  split_and!; [done|by apply Hb|]. split; [|simpl; lia].
  constructor; simpl; try done; [|exists l; split; [by apply owed_deliver|done]].
  unfold open_polls in *. simpl. rewrite fmap_app, polls_in_app. simpl.
  rewrite Hu, polls_in_own. change (history (log_delivered _ _ w)) with (history w).
  unfold open_for. simpl. lia.
Qed.

Lemma request_complete_spec w0 e l (w : W) :
  inv w → deliverable w0 (e :: l) w →
  wp fatal (request_complete (cqe_user_data e) (cqe_result e)) w (λ _ w',
    evolves (log_delivered (cqe_user_data e) (cqe_result e) w) w' ∧ deliverable w0 l w').
Proof.
  intros Hw (Hok & [more Ho] & Hf & Hpr & Hc & Hft & n & Hsp & Hlen).
  unfold Uring.request_complete. wp_steps.
  set (w1 := log_delivered _ _ w). cbn [length app] in Ho, Hlen.
  assert (inv w1) as Hw1 by by apply inv_log.
  assert (owed w1 (l ++ more)) as Ho1 by by apply owed_deliver.
  assert (spends 1 w w1) as Hd by apply deliver_spends.
  assert (∀ w', evolves w1 w' → wake_ok false 0 w' → spends 0 w1 w' →
    keeps_promise 0 0 w1 w' → conserved w1 w' → deliverable w0 l w') as Hdone.
  { intros w' [_ Hex] Hok' Hsp' Hk' Hc'. pose proof (spends_trans _ _ _ _ _ Hd Hsp') as Hd'.
    split_and!; [done| |destruct Hd'; lia|intros Hp0; by apply Hk', Hpr
      |by transitivity w|by rewrite (ex_features _ _ _ _ Hex)|].
    - destruct (ex_view _ _ _ _ Hex) as (new & _ & Hpo). exists (more ++ new). rewrite app_assoc.
      apply (owed_posts _ new w1); [done..|apply Hex].
    - eexists. split; [exact (spends_trans _ _ _ _ _ Hsp Hd')|lia]. }
  destruct (Z.eqb_spec (cqe_user_data e) NO_OP) as [Hn|_].
  { wp_steps. split; [by apply evolves_refl|]. apply (Hdone w1).
    - by apply evolves_refl.
    - apply wake_ok_deliver; [done|by eexists|congruence].
    - apply spends_refl.
    - done.
    - done. }
  destruct (Z.eqb_spec (cqe_user_data e) event_request) as [He|He].
  - destruct (wake_ok_poll e (l ++ more) w Hw Hok Ho He) as (Hres & Hq & Hok1).
    fold w1 in Hok1. change (wake_queue (engine w1) ≠ []) in Hq. clearbody w1. rewrite Hres.
    eapply wp_mono; [apply process_wake_spec; [done|exact Hok1|done|]|].
    { destruct Hd. lia. }
    intros _ w' (_ & Hpw & Hevol & Hok' & Hsp' & Hk'). split; [done|].
    apply Hdone; [done..|by apply conserved_processed].
  - assert (wake_ok false 0 w1) as Hok1 by (apply wake_ok_deliver; [done|by eexists|done]).
    eapply wp_mono; [by apply (Huser _ _ false 0%nat)|]. intros _ w' (Hsteps & Hs & Hk').
    eapply api_steps_behave in Hsteps as Hb; [|done..]. pose proof Hb as [Hev _ Hok'].
    split; [done|]. apply Hdone; [done|by apply Hok'|done|done|].
    by apply (conserved_behaves false 0).
Qed.

(** ** The unit of work *)

(** The engine between two units of work: the completions still to be delivered
    are those in the ring. *)
Definition engine_ok (w : W) : Prop :=
  inv w ∧ balance 0 w = 0 ∧ owed w (cq_view (com w)) ∧ wake_ok false 0 w.

(** It stays so whatever uses the engine. *)
Lemma engine_ok_behaves w w' :
  engine_ok w → behaves event_request submit_all 0 w w' → engine_ok w'.
Proof.
  intros (Hw & Hb & Ho & Hok) [[Hinv [_ _ (new & Hv & Hpo) Hb' Hd _]] _ Hok'].
  split_and!; [done|congruence| |by apply Hok']. rewrite Hv. by apply (owed_posts _ new w).
Qed.

(** It is well typed. *)
Lemma engine_ok_typed w : engine_ok w → typed (engine w).
Proof.
  intros (([Hsq Hcq Hst Hts _ _ Htc] & Hroom & _) & _ & _ & ([_ ? _ _ _] & _)).
  pose proof (ring_size_bounds _ _ (sq_wf_size _ Hsq)). destruct Hsq, Hcq.
  assert (in_u 32 (to_submit (engine w))) by (unfold in_u; lia).
  assert (in_u 64 (expected_wakes (engine w))) by (unfold in_u; lia).
  constructor; try done.
  - eapply Forall_lookup. rewrite sq_wf_array. intros i x Hx. apply list_lookup_imap_Some in Hx.
    destruct Hx as (y & Hy & ->). apply lookup_lt_Some in Hy. unfold in_u. lia.
  - intros i. rewrite sq_wf_entries. by apply slot_lt.
  - intros i. rewrite cq_wf_entries. by apply slot_lt.
Qed.

Lemma batch_deliverable (w : W) :
  engine_ok w → (supply w < wake_fuel)%nat →
  deliverable w (delivery_order (cq_view (com w))) w.
Proof.
  intros (Hw & Hb & Ho & Hok) Hf. split_and!; [done| |done|done|done|done|].
  - exists []. unfold owed in *. rewrite app_nil_r, Ho. by rewrite delivery_order_perm.
  - exists 0. split; [apply spends_refl|]. by rewrite delivery_order_perm.
Qed.

(** Every completion in the ring is delivered, the last one first. *)
Lemma run_batch_spec (w : W) :
  engine_ok w → (supply w < wake_fuel)%nat →
  wp fatal (run_events false request_complete (read_ring (com w))) w (λ _ w',
    engine_ok w' ∧
    delivered w' = delivered w ++ map cqe_event (delivery_order (cq_view (com w))) ∧
    spends (Z.of_nat (length (cq_view (com w)))) w w' ∧ keeps_promise 0 0 w w' ∧
    conserved w w' ∧ features (engine w') = features (engine w)).
Proof.
  intros Hall Hf. pose proof (batch_deliverable w Hall Hf) as Hd.
  destruct Hall as (Hw & Hb & Ho & Hok).
  eapply wp_mono; [apply (run_events_spec fatal submit_all (deliverable w));
    [intros; by apply deliverable_upd|intros; by apply deliverable_upd
    |apply request_complete_spec|done..]|].
  clear Hd.
  intros _ w' (Hinv & Hb' & Hd & Hpo & Hok' & _ & _ & Hpr & Hc & Hft & n & Hs & Hn). simpl in Hn.
  split_and!; [split_and!; try done| | |done|done|done].
  - unfold owed in *. rewrite Hpo, Hd, fmap_app, Ho.
    apply Permutation_app_tail, Permutation_app_head. symmetry.
    apply (fmap_Permutation cqe_event), delivery_order_perm.
  - done.
  - destruct Hs. constructor; [done|done|lia].
Qed.

(** What a unit of work did: the staged entries (and at most the timer of the
    compatibility path) were submitted, giving [w1]; then every completion in
    the ring was delivered exactly once. *)
Definition worked (timeout : Z) (w w1 w' : W) : Prop :=
  engine_ok w1 ∧ to_submit (engine w1) = 0 ∧
  (∃ l, timer_only default_entry NO_OP timespec_at timeout w l ∧
        pushes l 0 w 0 w1) ∧
  engine_ok w' ∧
  delivered w' = delivered w ++ map cqe_event (delivery_order (cq_view (com w1))) ∧
  spends (Z.of_nat (length (cq_view (com w1)))) w1 w' ∧ keeps_promise 0 0 w w' ∧
  conserved w w' ∧ features (engine w') = features (engine w).

Lemma engine_ok_pushes l w w' :
  engine_ok w → inv w' → pushes l 0 w 0 w' → Forall (λ e, user_data e ≠ event_request) l →
  engine_ok w'.
Proof.
  intros (Hw & Hb & Ho & Hok) Hinv Hp Hl. pose proof Hp as [[_ _ (new & Hv & Hpo) Hb' Hd _] _ _ _ _].
  split_and!; [done|congruence| |by eapply wake_ok_push].
  rewrite Hv. by apply (owed_posts _ new w).
Qed.

Lemma timer_only_other timeout (w : W) l :
  timer_only default_entry NO_OP timespec_at timeout w l →
  Forall (λ e, user_data e ≠ event_request) l.
Proof. intros [->|[-> _]]; [done|]. by constructor. Qed.

Lemma submit_and_wait_ok timeout (w : W) :
  engine_ok w → 0 ≤ timeout →
  wp fatal (submit_and_wait timeout) w (λ r w1,
    match r with
    | Ok ring => ring = read_ring (com w1) ∧ engine_ok w1 ∧ to_submit (engine w1) = 0 ∧
        ∃ l, timer_only default_entry NO_OP timespec_at timeout w l ∧
          pushes l 0 w 0 w1
    | Err _ => fatal
    end).
Proof.
  intros Hok Ht. eapply wp_mono; [eapply submit_and_wait_spec; [done|apply Hok|done]|].
  intros [ring|e] w1 Hsw; [|done]. destruct Hsw as (-> & Hw1 & Hz & l & Hl & Hp).
  split_and!; [done| |done|by exists l].
  apply (engine_ok_pushes l w w1); try done. by eapply timer_only_other.
Qed.

Lemma uring_work_spec timeout (w : W) :
  engine_ok w → 0 ≤ timeout → (supply w < wake_fuel)%nat →
  wp fatal (uring_work timeout) w (λ r w',
    match r with Ok _ => ∃ w1, worked timeout w w1 w' | Err _ => fatal end).
Proof.
  intros Hok Ht Hf. unfold Uring.uring_work. wp_steps.
  eapply wp_mono; [by apply submit_and_wait_ok|].
  intros [ring|e] w1 Hsw; [|done]. destruct Hsw as (-> & Hok1 & Hz & l & Hl & Hp). apply wp_bind.
  pose proof (sp_supply _ _ _ (pushes_spends _ _ _ Hp)).
  eapply wp_mono; [apply run_batch_spec; [done|lia]|].
  intros _ w' (Hok' & Hd & Hs & Hk & Hc & Hft). apply wp_ret. exists w1.
  pose proof (pu_extends _ _ _ _ _ _ Hp) as Hex.
  split_and!; try done; [by exists l| |intros Hp0; by apply Hk, (promised_push 0 l w w1 Hp)
    |etransitivity; [apply conserved_frame, Hp|done]|by rewrite Hft, (ex_features _ _ _ _ Hex)].
  by rewrite Hd, (ex_delivered _ _ _ _ Hex).
Qed.

(** *** What is left to do *)

(** The requests that were submitted and not delivered are staged, with the kernel,
    or in the ring. *)
Lemma open_count w :
  engine_ok w →
  Z.of_nat (length (history w)) - Z.of_nat (length (delivered w)) =
  to_submit (engine w) + inflight (kernel w) + cq_count (com w).
Proof.
  intros (([Hsq Hcq Hst _ _ _ _] & _) & _ & Ho & _). apply Permutation_length in Ho.
  rewrite length_app, !length_fmap in Ho. unfold history, inflight.
  pose proof (length_sq_view _ Hsq). pose proof (length_cq_view _ Hcq). rewrite length_app. lia.
Qed.

Lemma open_counted w :
  engine_ok w → in_u 64 (to_complete (engine w)) ∧ 0 ≤ to_submit (engine w) ∧
  0 ≤ inflight (kernel w) ∧ 0 ≤ cq_count (com w) ∧
  to_complete (engine w) = as_u 64 (inflight (kernel w) + cq_count (com w)).
Proof.
  intros (([Hsq Hcq Hst Hts _ Ha Hc] & _) & Hb & _ & _). split_and!; try done.
  - by apply answers_inflight.
  - apply ring_count_range.
  - unfold balance in Hb. rewrite Z.add_0_r in Hb. rewrite <- (as_u_id 64 (to_complete _)) by done.
    unfold as_u in *. apply Z.mod_divide in Hb as [q Hq]; [|done].
    rewrite <- (Z.mod_add (inflight (kernel w) + cq_count (com w)) q) by done. f_equal. lia.
Qed.

Lemma no_work w :
  engine_ok w → length (history w) = length (delivered w) → uring_has_work w = false.
Proof.
  intros Hok Hl. pose proof (open_count w Hok).
  destruct (open_counted w Hok) as (_ & ? & ? & ? & Hc). unfold uring_has_work.
  rewrite Hc. replace (inflight (kernel w) + cq_count (com w)) with 0 by lia.
  by replace (to_submit (engine w)) with 0 by lia.
Qed.

(** When there is no work, every request was delivered exactly once. *)
Lemma all_delivered w :
  engine_ok w → uring_has_work w = false →
  Z.of_nat (length (history w)) - Z.of_nat (length (delivered w)) < 2 ^ 64 →
  fst <$> delivered w ≡ₚ user_data <$> history w ∧ cq_view (com w) = [].
Proof.
  intros Hok Hw Hmax. pose proof (open_count w Hok) as Hn.
  destruct (open_counted w Hok) as (_ & ? & ? & ? & Hc). unfold uring_has_work in Hw.
  rewrite orb_false_iff, !negb_false_iff, !Z.eqb_eq in Hw. destruct Hw as [Hw Hz].
  rewrite Hc, as_u_id in Hw by (unfold in_u; lia).
  destruct Hok as (([Hsq Hcq Hst _ _ Ha _] & _) & _ & Ho & _).
  pose proof (length_sq_view _ Hsq). pose proof (length_cq_view _ Hcq).
  assert (sq_view (sub w) = []) as Hs by (apply nil_length_inv; lia).
  assert (cq_view (com w) = []) as Hv by (apply nil_length_inv; lia). split; [|done].
  pose proof (owed_users _ w Ho) as Hu. rewrite Hv, app_nil_r in Hu.
  unfold history. rewrite Hs, app_nil_r, <- Hu. apply submseteq_length_Permutation; [done|].
  rewrite !length_fmap. unfold inflight in *. lia.
Qed.

Lemma lazy_effort w w' :
  pushes [] 0 w 0 w' → (laziness (kernel w') < laziness (kernel w))%nat → effort w' < effort w.
Proof.
  intros [[_ _ _ _ Hd _] Hf Hh _ Hp] Hl. injection Hf as F1 _ _ _ F5.
  unfold effort. rewrite Hd, Hh, F1, F5, app_nil_r. lia.
Qed.

(** The wait that comes next ends: something other than the poll of the event
    descriptor is open, or that is readable, or the wait may yet come to nothing. *)
Definition ready (w : W) : Prop :=
  laziness (kernel w) = 0%nat → 0 < event_fd (engine w) ∨ expected_wakes (engine w) = 0 ∨
  Z.of_nat (length (delivered w)) + 1 < Z.of_nat (length (history w)).

(** With the ring empty, the polls the kernel holds are those that are open. *)
Lemma held_open w :
  engine_ok w → to_submit (engine w) = 0 → cq_view (com w) = [] →
  held_polls event_request (kernel w) = open_for false w.
Proof.
  intros (([Hsq _ Hst _ _ _ _] & _) & _ & Ho & [[Hop _ _ _ _] _]) Hz Hv.
  rewrite <- Hop. unfold held_polls, open_polls, history. pose proof (length_sq_view _ Hsq).
  assert (sq_view (sub w) = []) as -> by (apply nil_length_inv; lia).
  rewrite app_nil_r. apply owed_users in Ho. rewrite Hv, app_nil_r in Ho.
  unfold UringSpec.polls_in. by rewrite Ho.
Qed.

(** A wait that is over for good found something to deliver. *)
Lemma asleep_delivers w w1 :
  engine_ok w1 → to_submit (engine w1) = 0 → pushes [] 0 w 0 w1 → ready w →
  (length (delivered w) < length (history w))%nat →
  asleep event_request (event_fd (engine w1)) (kernel w1) →
  cq_view (com w1) ≠ [] ∨ (laziness (kernel w1) < laziness (kernel w))%nat.
Proof.
  intros Hok1 Hz Hp Hr Hopen (Hl & Hinf & Hev). destruct (decide (laziness (kernel w) = 0%nat))
    as [Hl0|]; [|right; lia]. left. intros Hv. specialize (Hr Hl0).
  pose proof (held_open w1 Hok1 Hz Hv) as Hh. pose proof (open_count w1 Hok1) as Hn.
  assert (cq_count (com w1) = 0) as Hc.
  { rewrite <- length_cq_view, Hv by apply Hok1. done. }
  destruct Hp as [Hex Hf Hhi _ _]. injection Hf as F1 _ F3 _ _.
  rewrite (ex_delivered _ _ _ _ Hex), Hhi, app_nil_r in Hn. unfold open_for in Hh. rewrite F1 in Hh.
  simpl in Hh. rewrite F3 in Hev. destruct (Z.eqb_spec (expected_wakes (engine w)) 0); [lia|].
  destruct Hr as [?|[?|?]]; [|done|lia]. specialize (Hev ltac:(done)). lia.
Qed.

(** With work to do and time to wait, the work that is left gets less. *)
Lemma uring_work_drains timeout (w : W) :
  kernel_waits event_request io_uring_enter → engine_ok w → ready w → 0 < timeout →
  (supply w < wake_fuel)%nat →
  feature_supported (features (engine w)) ExtArg = true → uring_has_work w = true →
  wp fatal (uring_work timeout) w (λ r w',
    match r with Ok _ => effort w' < effort w | Err _ => fatal end).
Proof.
  intros Hwaits Hok Hready Ht Hf Hext Hwork. unfold Uring.uring_work. wp_steps.
  eapply wp_mono; [apply wp_conj; [apply (submit_and_wait_ok timeout w Hok); lia|
    eapply submit_and_wait_waits; [done|done|apply Hok|done..]]|].
  intros [ring|e] w1 [Hsw Hfor]; [|done]. destruct Hsw as (-> & Hok1 & Hz & l & Hl & Hp).
  destruct Hfor as [Hfor Hh]. apply wp_bind.
  assert (l = []) as ->.
  { rewrite (pu_history _ _ _ _ _ _ Hp) in Hh. rewrite <- (app_nil_r (history w)) in Hh at 2.
    by apply app_inv_head in Hh. }
  pose proof (pushes_spends _ _ _ Hp) as Hs1. pose proof (sp_supply _ _ _ Hs1).
  eapply wp_mono; [apply run_batch_spec; [done|lia]|].
  intros _ w' (Hok' & _ & Hs & _). apply wp_ret. destruct Hs as [_ _ Hs]. pose proof (sp_effort _ _ _ Hs1).
  simpl in *.
  assert (length (delivered w) < length (history w))%nat as Hopen.
  { destruct (decide (length (history w) = length (delivered w))) as [E|].
    - by rewrite no_work in Hwork.
    - destruct (open_counted w Hok) as (_ & ? & ? & ? & _). pose proof (open_count w Hok). lia. }
  assert (cq_view (com w1) ≠ [] ∨ (laziness (kernel w1) < laziness (kernel w))%nat) as [Hv|Hlazy].
  { destruct Hfor as [Hnone|Hfor]; [by eapply asleep_delivers|done]. }
  - destruct (cq_view (com w1)); [done|simpl in *; lia].
  - pose proof (lazy_effort w w1 Hp Hlazy). lia.
Qed.
End Work.
