(* ===== verification/UringSim.v ===== *)
(** * The io_uring engine on a concrete kernel

    A kernel that satisfies [kernel_spec] and [kernel_waits], and worlds on it: the
    inputs of the witnesses of the theorems about the engine. *)

From stdpp Require Import base list numbers relations tactics.
From S2P Require Import Prelude Op Queue Engine Uring UringSpec UringEngine UringProcess UringWork.

(** ** A kernel

    It takes everything it is offered and completes requests in order as long as the
    completion ring has room, but the poll of the event descriptor only when that is
    readable. *)

Module Sim.
Record Kernel : Type := mkKernel {
  accepted : list SubmissionEntry;
  completed : list CompletionEntry;
  vain : nat
}.

#[global] Instance view : KernelView Kernel :=
  {| taken := accepted; posted := completed; laziness := vain |}.

(** The engine's own request. *)
Definition event_request : Z := 88.

(** The list without the first [r]. *)
Fixpoint strike (r : Z) (l : list Z) : list Z :=
  match l with
  | [] => []
  | x :: l => if x =? r then l else x :: strike r l
  end.

(** The requests that were not completed. *)
Definition waiting (k : Kernel) : list Z :=
  foldr strike (user_data <$> accepted k) (cqe_user_data <$> completed k).

(** A poll reports readability, everything else returns 0. *)
Definition result_of (r : Z) : CompletionEntry :=
  mkCqe r (if r =? event_request then PollIn else 0).

Fixpoint post (ev : Z) (l : list Z) (q : CompletionQueue) : list CompletionEntry * CompletionQueue :=
  match l with
  | [] => ([], q)
  | r :: l =>
      if (r =? event_request) && (ev <=? 0) then post ev l q
      else if cq_count q <? cq_capacity q then
        let '(out, q') := post ev l (cq_post (result_of r) q) in (result_of r :: out, q')
      else ([], q)
  end.

Definition enter (a : EnterArgs) (ev : Z) (k : Kernel) (q : Queue) : OsResult Z * Kernel * Queue :=
  let n := ea_submit a in
  let new := take (Z.to_nat n) (sq_published (submission q)) in
  let s := set_sq_khead (as_u 32 (sq_khead (submission q) + n)) (submission q) in
  let '(out, c) := post ev (waiting k ++ (user_data <$> new)) (completion q) in
  (Ok n, mkKernel (accepted k ++ new) (completed k ++ out)
    (match out with [] => pred (vain k) | _ => vain k end), mkQueue s c).

Lemma strike_perm r l : r ∈ l → l ≡ₚ r :: strike r l.
Proof.
  induction l as [|x l IH]; [by intros ?%not_elem_of_nil|]. simpl.
  destruct (Z.eqb_spec x r) as [->|Hne]; [done|].
  intros [?|Hl]%elem_of_cons; [done|]. rewrite (IH Hl) at 1. apply Permutation_swap.
Qed.

Lemma strikes_perm l k : k ⊆+ l → l ≡ₚ k ++ foldr strike l k.
Proof.
  induction k as [|r k IH]; intros Hk; [done|]. simpl.
  assert (l ≡ₚ k ++ foldr strike l k) as Hl by (apply IH; etransitivity; [|exact Hk]; by constructor).
  assert (r ∈ foldr strike l k) as Hr.
  { apply singleton_submseteq_l, (submseteq_app_inv_l _ _ k). rewrite <- Hl.
    by rewrite (Permutation_app_comm k [r]). }
  rewrite Hl at 1. rewrite (strike_perm r (foldr strike l k) Hr) at 1. symmetry.
  apply Permutation_middle.
Qed.

Lemma waiting_perm k new :
  answers k →
  user_data <$> accepted k ++ new ≡ₚ
    (cqe_user_data <$> completed k) ++ waiting k ++ (user_data <$> new).
Proof. intros Ha. rewrite fmap_app, (strikes_perm _ _ Ha) at 1. by rewrite <- app_assoc. Qed.

Lemma post_spec ev l q out q' :
  cq_wf q → post ev l q = (out, q') →
  cq_wf q' ∧ cq_view q' = cq_view q ++ out ∧ (cqe_user_data <$> out) `sublist_of` l ∧
  Forall (poll_result event_request ev) out ∧
  (cq_khead q', cq_mask q', cq_capacity q') = (cq_khead q, cq_mask q, cq_capacity q) ∧
  (cq_view q' = [] → Forall (λ r, r = event_request) l ∧ (0 < ev → l = [])).
Proof.
  revert q out. induction l as [|r l IH]; intros q out Hwf E; cbn [post] in E.
  { simplify_eq. split_and!; [done|by rewrite app_nil_r|done..]. }
  destruct (_ && _) eqn:Er.
  { apply andb_true_iff in Er as [->%Z.eqb_eq Hev%Z.leb_le].
    destruct (IH _ _ Hwf E) as (? & ? & ? & ? & ? & Hn). split_and!; try done; [by constructor|].
    intros Hv. destruct (Hn Hv). split; [by constructor|lia]. }
  destruct (Z.ltb_spec (cq_count q) (cq_capacity q)) as [Hc|Hc].
  - destruct (cq_post_spec q Hwf (result_of r)) as [Hwf' Hv]; [done|].
    destruct (post ev l _) as [out' q''] eqn:Ep. simplify_eq.
    destruct (IH _ _ Hwf' Ep) as (? & Hv' & ? & ? & ? & _). rewrite Hv', Hv, <- app_assoc.
    split_and!; try done.
    + by constructor.
    + constructor; [|done]. unfold poll_result, result_of. simpl. intros ->.
      rewrite Z.eqb_refl in *. split; [done|]. simpl in Er. lia.
    + intros Hn. by apply app_eq_nil in Hn as [_ ?].
  - simplify_eq. split_and!; [done|by rewrite app_nil_r|apply sublist_nil_l|done|done|].
    intros Hv. pose proof (length_cq_view _ Hwf) as Hl. rewrite Hv in Hl.
    pose proof (ring_size_bounds _ _ (cq_wf_size _ Hwf)). simpl in Hl. lia.
Qed.

(** What a call does. *)
Lemma enter_does a ev k q r k' q' :
  enter a ev k q = (r, k', q') → cq_wf (completion q) → answers k →
  ∃ out, r = Ok (ea_submit a) ∧ cq_wf (completion q') ∧
    submission q' = set_sq_khead (as_u 32 (sq_khead (submission q) + ea_submit a)) (submission q) ∧
    cq_view (completion q') = cq_view (completion q) ++ out ∧ completed k' = completed k ++ out ∧
    accepted k' = accepted k ++ take (Z.to_nat (ea_submit a)) (sq_published (submission q)) ∧
    answers k' ∧ Forall (poll_result event_request ev) out ∧
    (cq_khead (completion q'), cq_mask (completion q'), cq_capacity (completion q')) =
    (cq_khead (completion q), cq_mask (completion q), cq_capacity (completion q)) ∧
    vain k' = (match out with [] => pred (vain k) | _ => vain k end) ∧
    (cq_view (completion q') = [] → ∃ l, Forall (λ r, r = event_request) l ∧ (0 < ev → l = []) ∧
      user_data <$> accepted k' ≡ₚ (cqe_user_data <$> completed k') ++ l).
Proof.
  intros E Hcq Ha. unfold enter in E. set (new := take _ _) in *.
  destruct (post _ _ _) as [out c] eqn:Ep. simplify_eq.
  destruct (post_spec _ _ _ _ _ Hcq Ep) as (Hwf & Hv & Hsub & Hpl & Hf & Hn).
  pose proof (waiting_perm k new Ha) as Hperm.
  exists out. split_and!; try done.
  - unfold answers. simpl. rewrite Hperm, !fmap_app.
    apply submseteq_app; [done|]. by apply sublist_submseteq.
  - intros Hnil. destruct (Hn Hnil) as [Hall Hev]. eexists. split_and!; [exact Hall|done|].
    simpl in Hnil. rewrite Hv in Hnil. apply app_eq_nil in Hnil as [_ ->]. simpl.
    rewrite app_nil_r. exact Hperm.
Qed.

Lemma kernel_ok submit_all : kernel_spec event_request False submit_all enter.
Proof.
  intros a ev k q r k' q' E Hsq Hcq Ha Hn.
  destruct (enter_does _ _ _ _ _ _ _ E Hcq Ha)
    as (out & -> & Hwf & Hs & Hv & Hpo & Htk & Ha' & Hpl & Hf & Hvain & _).
  exists (ea_submit a), out. split_and!; try lia.
  constructor; simpl; try done; rewrite ?Hs; try done. rewrite Hvain. destruct out; lia.
Qed.

Lemma polls_in_all r l : Forall (λ x, x = r) l → polls_in r l = Z.of_nat (length l).
Proof.
  unfold polls_in. induction 1 as [|x l -> _ IH]; [done|]. rewrite filter_cons_True by done.
  apply Nat2Z.inj in IH. f_equal. cbn [length]. f_equal. exact IH.
Qed.

Lemma kernel_ends : kernel_waits event_request enter.
Proof.
  intros a ev k q r k' q' E Hsq Hcq Ha Hn _ _.
  destruct (enter_does _ _ _ _ _ _ _ E Hcq Ha)
    as (out & _ & Hwf & Hs & Hv & Hpo & Htk & Ha' & Hpl & Hf & Hvain & Hnil).
  destruct (decide (cq_view (completion q') = [])) as [Hq|]; [|by right; left].
  destruct (Hnil Hq) as (l & Hl & Hev & Hperm). rewrite Hq in Hv. symmetry in Hv.
  apply app_eq_nil in Hv as [_ ->].
  destruct (decide (vain k = 0%nat)) as [Hz|Hz]; [|right; right; simpl; lia].
  left. split; [simpl; lia|]. unfold inflight, held_polls. simpl. 
  assert (length (accepted k') = length (completed k') + length l)%nat as Hlen.
  { apply Permutation_length in Hperm. by rewrite length_app, !length_fmap in Hperm. }
  assert (polls_in event_request (user_data <$> accepted k') =
    polls_in event_request ((cqe_user_data <$> completed k') ++ l)) as ->
    by (unfold polls_in; by rewrite Hperm).
  rewrite polls_in_app, (polls_in_all _ _ Hl). split; [lia|].
  intros Hpos. rewrite (Hev Hpos). simpl. lia.
Qed.
End Sim.

(** ** Worlds *)

Definition features_all : IoRingFeatures := mkFeatures (λ _, true) (λ _, true) (λ _, true).

(** Rings about to wrap around. *)
Definition idle_queue : Queue :=
  mkQueue (mkSq 0 4294967295 4294967295 3 (replicate 4 zero_entry) 4 4294967295 0 [0; 1; 2; 3])
    (mkCq 4294967290 4294967290 (replicate 8 (mkCqe 0 0)) 7 0 0 8).

(** A world at rest, with [u] outside of the engine. *)
Definition idle_with {U : Type} (u : U) : World Sim.Kernel U :=
  mkWorld (mkIoUring 0 idle_queue 0 features_all 0 [] 0) (Sim.mkKernel [] [] 2) u [] [].

Definition idle : World Sim.Kernel nat := idle_with 0%nat.

Lemma ring_size_pow k : 0 ≤ k ≤ 31 → ring_size (2 ^ k) (Z.ones k).
Proof. by exists k. Qed.

(** A decidable fact about a concrete world. *)
Ltac by_decision := apply (bool_decide_unpack _); vm_compute; exact I.

Ltac solve_inv :=
  split_and!; [|done|done];
  constructor; [constructor; try done; by apply (ring_size_pow 2)
               |constructor; try done; by apply (ring_size_pow 3)|try done..];
  unfold answers; by_decision.

Lemma idle_inv {U} (u : U) : inv true (idle_with u).
Proof. solve_inv. Qed.

Lemma idle_ok {U} (u : U) : engine_ok Sim.event_request true (idle_with u).
Proof.
  split_and!; [apply idle_inv|done|unfold owed; by_decision|]. split; [|done].
  constructor; try done. exists []. vm_compute. repeat constructor.
Qed.

Definition sim_syscall {U} (c : SysCall) : M (World Sim.Kernel U) (OsResult Z) := mret (Ok 0).

Definition sim_start {U} :=
  uring_start (K := Sim.Kernel) (U := U) false zero_entry false Sim.enter sim_syscall.

Definition sim_prepare {U} :=
  uring_prepare_wake (K := Sim.Kernel) (U := U) false zero_entry false Sim.enter Sim.event_request 10.

Lemma sim_syscall_rest {U} c (w : World Sim.Kernel U) :
  wp False (sim_syscall c) w (λ _ w', ∃ u, w' = with_rest u w).
Proof. apply wp_ret. exists (rest w). by destruct w. Qed.

(** After three operations were started. *)
Definition busy : World Sim.Kernel nat :=
  Eval vm_compute in
  match (sim_start (Oread 5 4096 512 0) 1001;; sim_start (Ofsync 5) 1002;;
         sim_start (Opoll 7 1) 1003) idle with
  | Ret (_, w) => w
  | _ => idle
  end.

Lemma busy_inv : inv true busy.
Proof. solve_inv. Qed.

Lemma busy_ok : engine_ok Sim.event_request true busy.
Proof.
  split_and!; [apply busy_inv|done|unfold owed; by_decision|]. split; [|done].
  constructor; try done. exists []. vm_compute. repeat constructor.
Qed.

(** Three wakes were announced, two have been queued, and the poll of the event
    descriptor is staged behind the other operations. *)
Definition waking : World Sim.Kernel nat :=
  Eval vm_compute in
  match (sim_start (Oread 5 4096 512 0) 1001;; sim_start (Ofsync 5) 1002;;
         sim_prepare;; sim_prepare;; sim_prepare;; uring_wake 2001;; uring_wake 2002) idle with
  | Ret (_, w) => w
  | _ => idle
  end.

Lemma waking_ok : engine_ok Sim.event_request true waking.
Proof.
  split_and!; [solve_inv|done|unfold owed; by_decision|]. split; [|done].
  constructor; try done.
  exists []. split; [unfold owed; by_decision|done].
Qed.

(** The completion of the poll was delivered, the others are in the ring. *)
Definition polled : World Sim.Kernel nat :=
  Eval vm_compute in
  match submit_and_wait false zero_entry Sim.enter 77 (λ n, n) 1000 waking with
  | Ret (Ok _, w) => log_delivered Sim.event_request PollIn w
  | _ => waking
  end.

Lemma polled_inv : inv true polled.
Proof. solve_inv. Qed.

Lemma polled_ok : wake_ok Sim.event_request true 0 polled.
Proof.
  split; [|done]. constructor; try done.
  exists [mkCqe 1001 0; mkCqe 1002 0]. split.
  - unfold owed; by_decision.
  - repeat constructor; done.
Qed.

(** A request that does nothing when it is resumed. *)
Lemma idle_callback {U} (R : relation U) `{!Reflexive R} (budget starts : U → nat) :
  callback 77 Sim.event_request 10 False true Sim.enter zero_entry false sim_syscall
    R budget starts (mret tt).
Proof.
  intros b off w _ _. apply wp_ret. split_and!; [apply rtc_refl| |apply keeps_promise_refl].
  constructor; [done|reflexivity|lia].
Qed.
