(* ===== verification/UringTheorems.v ===== *)
(** * The io_uring engine: the main theorems

    The theorems about the engine, each for any kernel that satisfies
    [kernel_spec], with witnesses on the kernel of UringSim.v. *)

From stdpp Require Import base list numbers relations tactics.
From S2P Require Import Prelude Op Queue Engine Uring UringSpec UringEngine UringProcess UringWork UringSim.

Section Theorems.
Context {K U : Type} `{!KernelView K}.
Context (NO_OP event_request event_fd_raw : Z) (fatal : Prop) (submit_all : bool).
Context (io_uring_enter : EnterArgs → Z → K → Queue → OsResult Z * K * Queue).
Context (Hkernel : kernel_spec event_request fatal submit_all io_uring_enter).
Context (default_entry : SubmissionEntry) (big_endian : bool).
Context (Hdefault : zeroed default_entry).
Context (syscall : SysCall → M (World K U) (OsResult Z)) (syscall_result : Z → OsResult Z).
Context (timespec_at : Z → Z).
Context (Hdistinct : NO_OP ≠ event_request).
Context (Hsyscall : ∀ c w, wp fatal (syscall c) w (λ _ w', ∃ u, w' = with_rest u w)).

Local Abbreviation W := (World K U).
Local Abbreviation sub w := (submission (queue (engine w))).
Local Abbreviation com w := (completion (queue (engine w))).
Local Abbreviation inv := (inv submit_all).
Local Abbreviation engine_ok := (engine_ok event_request submit_all).
Local Abbreviation requested := (requested event_request big_endian).
Local Abbreviation api_step := (api_step NO_OP event_request event_fd_raw io_uring_enter
  default_entry big_endian syscall).

(** Starting an operation that the kernel supports submits exactly one
    entry, which carries the request's address and which the kernel reads as
    that operation with those arguments (an over-long buffer clamped to u32);
    it is behind everything pushed before, the rings stay consistent, the
    result is not immediate, and no completion is delivered meanwhile. *)
Theorem start_submits_request op r k (w : W) :
  inv w → op_ok op → op_request op = Some k →
  op_supported (features (engine w)) op = true →
  wp fatal (uring_start false default_entry big_endian io_uring_enter syscall op r) w
    (λ res w', res = None ∧ inv w' ∧ requested r k w w').
Proof. intros. by eapply uring_start_async. Qed.

(** Cancelling a request submits one cancellation that names the
    request's address, whose own completion goes to the [NO_OP] request. *)
Theorem cancel_submits_cancellation r (w : W) :
  inv w →
  wp fatal (uring_cancel false default_entry io_uring_enter NO_OP r) w
    (λ res w', res = Ok tt ∧ inv w' ∧ requested NO_OP (KCancel r 0 0) w w').
Proof. intros. by eapply uring_cancel_spec. Qed.

(** C14: a flush terminates and hands every staged entry to the kernel, in the
    order they were pushed, however few the kernel takes at a time; it fails
    only when the kernel does. *)
Theorem flush_submits_everything (w : W) :
  inv w →
  wp fatal (flush false io_uring_enter) w (λ res w',
    match res with
    | Ok _ => inv w' ∧ to_submit (engine w') = 0 ∧ sq_view (sub w') = [] ∧
        taken (kernel w') = taken (kernel w) ++ sq_view (sub w)
    | Err _ => fatal
    end).
Proof.
  intros Hw. eapply wp_mono; [eapply flush_spec; [done|apply Hw..]|].
  intros [u|e] w'; [|done]. intros (Hinv & Hz & [_ _ Hh _ _]).
  assert (sq_view (sub w') = []) as Hv.
  { apply nil_length_inv. destruct Hinv as ([Hsq _ Hst _ _ _ _] & _).
    pose proof (length_sq_view _ Hsq). lia. }
  split_and!; try done. unfold history in Hh. by rewrite Hv, !app_nil_r in Hh.
Qed.

(** C6: any code that uses the engine through its operations, in any order,
    with the kernel completing requests and other threads waking at any time,
    keeps the engine consistent: the rings, the count of the outstanding work,
    the completions still to be delivered, and the poll of the event descriptor,
    which is open once just when wakes are expected.  Nothing that is in the
    completion ring is lost, reordered or delivered, and no wake is lost. *)
Theorem operations_keep_invariant (w w' : W) :
  rtc (api_step 0) w w' → engine_ok w →
  engine_ok w' ∧
  (∃ new, cq_view (com w') = cq_view (com w) ++ new ∧
    posted (kernel w') = posted (kernel w) ++ new) ∧
  (∃ l, wake_queue (engine w') = wake_queue (engine w) ++ l) ∧
  delivered w' = delivered w ∧ woken_log w' = woken_log w.
Proof.
  intros Hs Hok.
  assert (behaves event_request submit_all 0 w w') as Hb
    by (eapply api_steps_behave; [done..|apply Hok]).
  split; [by apply (engine_ok_behaves event_request submit_all w)|].
  destruct Hb as [[_ [_ _ ? _ ? _]] [? ? _] _]. done.
Qed.

(** C21: whatever uses the engine, its fields keep within their machine types, and
    every index the code can form addresses an entry of its ring: the memory of the
    rings is only accessed inside its arrays. *)
Theorem fields_well_typed (w w' : W) :
  rtc (api_step 0) w w' → engine_ok w → typed (engine w').
Proof.
  intros Hs Hok. apply (engine_ok_typed event_request submit_all).
  eapply engine_ok_behaves; [exact Hok|]. eapply api_steps_behave; [done..|apply Hok].
Qed.

(** C32: [has_work] is exact: it is false just when nothing is staged, the
    kernel holds nothing and no completion is waiting to be delivered. *)
Theorem has_work_exact (w : W) :
  engine_ok w → inflight (kernel w) + cq_count (com w) < 2 ^ 64 →
  uring_has_work w = false ↔
  sq_view (sub w) = [] ∧ inflight (kernel w) = 0 ∧ cq_view (com w) = [].
Proof.
  intros Hok Hmax. destruct (open_counted _ _ w Hok) as (_ & ? & ? & ? & Hc).
  destruct Hok as (([Hsq Hcq Hst Hts _ Hinf Hcomp] & _) & _).
  pose proof (length_sq_view _ Hsq) as Ls. pose proof (length_cq_view _ Hcq) as Lc.
  rewrite as_u_id in Hc by (unfold in_u; lia).
  unfold uring_has_work. rewrite orb_false_iff, !negb_false_iff, !Z.eqb_eq, Hc.
  split.
  - intros [??]. split_and!; [apply nil_length_inv; lia|lia|apply nil_length_inv; lia].
  - intros (E1 & ? & E2). rewrite E1 in Ls. rewrite E2 in Lc. simpl in *. lia.
Qed.

(** The first wake that is announced polls the event descriptor once,
    later ones only count. *)
Theorem prepare_wake_polls_once (w : W) :
  inv w → 0 ≤ expected_wakes (engine w) < 2 ^ 64 - 1 →
  wp fatal (uring_prepare_wake false default_entry big_endian io_uring_enter event_request
      event_fd_raw) w (λ res w', res = Ok tt ∧ inv w' ∧
    let w0 := upd (set_expected_wakes (expected_wakes (engine w) + 1)) w in
    if expected_wakes (engine w) =? 0 then
      requested event_request (KPollAdd event_fd_raw PollIn) w0 w'
    else w' = w0).
Proof. intros. by eapply uring_prepare_wake_spec. Qed.

(** The callbacks of the requests, what they do to the rest of the process, and
    bounds on the wakes and operations to come. *)
Context (user_complete : ReqPtr → Z → M W unit) (wake_complete : ReqPtr → M W unit).
Context (R : relation U) `{!PreOrder R}.
Context (wake_fuel : nat) (budget starts : U → nat).

Local Abbreviation callback := (callback NO_OP event_request event_fd_raw fatal submit_all
  io_uring_enter default_entry big_endian syscall R budget starts).

Context (Huser : ∀ r v, callback (user_complete r v)).
Context (Hwake : ∀ r, callback (wake_complete r)).

(** C13: when the poll of the event descriptor has completed, [process_wake]
    returns after resuming every request whose wake is queued, and every one
    whose wake arrives while it works, exactly once and first come first served;
    the queue and the event counter are then empty, the wakes are counted off,
    and the descriptor is polled again just when more are expected. *)
Theorem process_wake_in_order (w : W) :
  inv w → wake_ok event_request true 0 w → wake_queue (engine w) ≠ [] →
  (supply budget w < wake_fuel)%nat →
  wp fatal (process_wake false default_entry big_endian io_uring_enter syscall_result
      event_request event_fd_raw wake_complete wake_fuel PollIn) w
    (λ _ w', inv w' ∧ wake_ok event_request false 0 w' ∧
      wakes_processed event_request event_fd_raw submit_all big_endian w w').
Proof.
  intros. eapply wp_mono; [by eapply (process_wake_spec NO_OP)|].
  intros _ w' (? & ? & _ & ? & _ & _). done.
Qed.

(** C1: a unit of work submits everything that is staged, then delivers every
    completion that is in the ring exactly once to the request it names, the
    last one first and the others in order, while the callbacks use the
    engine freely; afterwards the engine is consistent and the outstanding
    work is counted exactly again.  It fails only when the kernel does. *)
Theorem work_delivers_exactly_once timeout (w : W) :
  engine_ok w → 0 ≤ timeout → (supply budget w < wake_fuel)%nat →
  wp fatal (uring_work false default_entry big_endian io_uring_enter syscall_result NO_OP
      event_request event_fd_raw timespec_at user_complete wake_complete wake_fuel timeout) w
    (λ res w',
      match res with
      | Ok _ => ∃ w1, worked NO_OP event_request submit_all default_entry timespec_at R budget
          starts timeout w w1 w'
      | Err _ => fatal
      end).
Proof. intros. by eapply uring_work_spec. Qed.
End Theorems.

(** ** The theorems on the concrete kernel *)

Local Abbreviation ev := Sim.event_request.

Lemma start_submits_request_witness :
  wp False (sim_start (Orecv 9 8192 8589934592 0) 1004) busy (λ res w', res = None ∧
    inv true w' ∧ requested ev false 1004 (KSendRecv Recv 9 8192 4294967295 0) busy w').
Proof.
  apply (start_submits_request ev False true Sim.enter (Sim.kernel_ok true) zero_entry false);
    try reflexivity; try apply busy_inv. repeat split.
Defined.

Lemma cancel_submits_cancellation_witness :
  wp False (uring_cancel false zero_entry Sim.enter 77 1001) busy (λ res w', res = Ok tt ∧
    inv true w' ∧ requested ev false 77 (KCancel 1001 0 0) busy w').
Proof.
  apply (cancel_submits_cancellation 77 ev False true Sim.enter (Sim.kernel_ok true) zero_entry
    false); [repeat split|apply busy_inv].
Defined.

Lemma flush_submits_everything_witness :
  wp False (flush false Sim.enter) busy (λ res w',
    match res with
    | Ok _ => inv true w' ∧ to_submit (engine w') = 0 ∧
        sq_view (submission (queue (engine w'))) = [] ∧
        Sim.accepted (kernel w') =
          Sim.accepted (kernel busy) ++ sq_view (submission (queue (engine busy)))
    | Err _ => False
    end).
Proof.
  apply (flush_submits_everything ev False true Sim.enter (Sim.kernel_ok true)). apply busy_inv.
Defined.

(** After another thread's wake. *)
Definition woken_again : World Sim.Kernel nat :=
  upd (set_wake_queue [2001; 2002; 2003]) waking.

Lemma operations_keep_invariant_witness :
  let w' := woken_again in
  engine_ok ev true w' ∧
  (∃ new, cq_view (completion (queue (engine w'))) =
      cq_view (completion (queue (engine waking))) ++ new ∧
    Sim.completed (kernel w') = Sim.completed (kernel waking) ++ new) ∧
  (∃ l, wake_queue (engine w') = wake_queue (engine waking) ++ l) ∧
  delivered w' = delivered waking ∧ woken_log w' = woken_log waking.
Proof.
  apply (operations_keep_invariant 77 ev 10 False true Sim.enter (Sim.kernel_ok true)
    zero_entry false ltac:(repeat split) sim_syscall ltac:(done) sim_syscall_rest).
  - apply rtc_once. apply (api_wake _ _ _ _ _ _ _ _ 2003 (Ok tt)); [reflexivity|].
    vm_compute. reflexivity.
  - apply waking_ok.
Defined.

Lemma fields_well_typed_witness : typed (engine woken_again).
Proof.
  apply (fields_well_typed 77 ev 10 False true Sim.enter (Sim.kernel_ok true) zero_entry false
    ltac:(repeat split) sim_syscall ltac:(done) sim_syscall_rest waking).
  - apply rtc_once. apply (api_wake _ _ _ _ _ _ _ _ 2003 (Ok tt)); [reflexivity|].
    vm_compute. reflexivity.
  - apply waking_ok.
Defined.

Lemma has_work_exact_witness :
  uring_has_work busy = false ↔
  sq_view (submission (queue (engine busy))) = [] ∧ inflight (kernel busy) = 0 ∧
  cq_view (completion (queue (engine busy))) = [].
Proof. apply (has_work_exact ev true); [apply busy_ok|vm_compute; reflexivity]. Defined.

Lemma prepare_wake_polls_once_witness :
  wp False sim_prepare idle (λ res w', res = Ok tt ∧ inv true w' ∧
    let w0 := upd (set_expected_wakes (expected_wakes (engine idle) + 1)) idle in
    if expected_wakes (engine idle) =? 0 then
      requested ev false ev (KPollAdd 10 PollIn) w0 w'
    else w' = w0).
Proof.
  apply (prepare_wake_polls_once ev 10 False true Sim.enter (Sim.kernel_ok true) zero_entry
    false); [repeat split|apply idle_inv|split; reflexivity || done].
Defined.

Lemma process_wake_in_order_witness :
  wp False (process_wake false zero_entry false Sim.enter (λ v, Ok v) ev 10 (λ _, mret tt) 8
      PollIn) polled (λ _ w', inv true w' ∧ wake_ok ev false 0 w' ∧
    wakes_processed ev 10 true false polled w').
Proof.
  apply (process_wake_in_order 77 ev 10 False true Sim.enter (Sim.kernel_ok true) zero_entry
    false ltac:(repeat split) sim_syscall (λ v, Ok v) ltac:(done) sim_syscall_rest (λ _, mret tt)
    eq 8 id id).
  - intros _. by apply idle_callback.
  - apply polled_inv.
  - apply polled_ok.
  - done.
  - vm_compute. lia.
Defined.

Lemma work_delivers_exactly_once_witness :
  wp False (uring_work false zero_entry false Sim.enter (λ v, Ok v) 77 ev 10 (λ n, n)
      (λ _ _, mret tt) (λ _, mret tt) 8 1000) waking (λ res w',
    match res with
    | Ok _ => ∃ w1, worked 77 ev true zero_entry (λ n, n) eq id id 1000 waking w1 w'
    | Err _ => False
    end).
Proof.
  apply (work_delivers_exactly_once 77 ev 10 False true Sim.enter (Sim.kernel_ok true)
    zero_entry false ltac:(repeat split) sim_syscall (λ v, Ok v) (λ n, n) ltac:(done)
    sim_syscall_rest (λ _ _, mret tt) (λ _, mret tt) eq 8 id id).
  - intros _ _. by apply idle_callback.
  - intros _. by apply idle_callback.
  - apply waking_ok.
  - lia.
  - vm_compute. lia.
Defined.
