(* ===== verification/Setup.v ===== *)
(** * Creation of the io_uring engine (src/src/engine/uring/engine.rs)

    [create_io_uring] asks the kernel for its features and for a ring, [IoUring_new]
    maps the ring and puts the engine together.  Detection, the system calls and the
    thread pool are xx-core's and parameters.  The theorem: a new engine is in the
    state from which the theorems of UringTheorems.v start, and a failure leaves
    nothing behind. *)

From stdpp Require Import base list numbers gmap tactics.
From S2P Require Import Prelude Op Queue Engine Uring UringSpec UringProcess UringWork UringSim.

#[export] Instance SetupFlag_eq_dec : EqDecision SetupFlag.
Proof. solve_decision. Defined.

(** What is logged. *)
Inductive Message : Type :=
| NoKernelSupport
| OpNotSupported (op : OpCode)
| CompatibilityMode
| LockedMemoryLimit.

(** [Parameters] as they are passed to [io_uring_setup]. *)
Record SetupParameters : Type := mkSetup {
  req_sq_entries : Z;
  req_cq_entries : Z;
  req_flags : list SetupFlag
}.

(** The operations the engine has a use for. *)
Definition engine_ops : list OpCode :=
  [OpenAt; Close; Read; Write; Socket; Accept; Connect; Recv; RecvMsg; Send; SendMsg;
   OpShutdown; FileSync; Statx; PollAdd].

(** The flags that are asked for, in the order of their bits. *)
Definition wanted_flags : list SetupFlag :=
  [CompletionRingSize; Clamp; SubmitAll; CoopTaskrun; TaskrunFlag; SingleIssuer; DeferTaskrun].

(** The loop over the flags: those that are supported are added. *)
Fixpoint add_supported (features : IoRingFeatures) (flags setup_flags : list SetupFlag) :
    list SetupFlag :=
  match flags with
  | [] => setup_flags
  | flag :: flags =>
      add_supported features flags
        (if setup_flag_supported features flag then setup_flags ++ [flag] else setup_flags)
  end.

Definition setup_params (features : IoRingFeatures) : SetupParameters :=
  let setup_flags := add_supported features wanted_flags [] in
  mkSetup 0x100 (if negb (bool_decide (Clamp ∈ setup_flags)) then 0 else 0x2000) setup_flags.

(** An engine with the objects it owns. *)
Record Created (P : Type) : Type := mkCreated {
  ring_fd : Z;
  event_fd_raw : Z;
  thread_pool : P;
  created_engine : IoUring;
  (* the argument of [event_request]: null until the engine is pinned *)
  event_arg : option Z
}.

Arguments mkCreated {P} _ _ _ _ _.
Arguments ring_fd {P} _.
Arguments event_fd_raw {P} _.
Arguments thread_pool {P} _.
Arguments created_engine {P} _.
Arguments event_arg {P} _.

(** [Pin for IoUring]: the request of the event descriptor is handed the engine. *)
Definition IoUring_pin {P} (address : Z) (self : Created P) : Created P :=
  mkCreated (ring_fd self) (event_fd_raw self) (thread_pool self) (created_engine self)
    (Some address).

Section Setup.
Context {S P : Type}.

Context (io_uring_detect_features : M S (Result (option IoRingFeatures))).
Context (log : Message → M S unit).
Context (io_uring_setup : SetupParameters → M S (OsResult (Z * Parameters))).

(** One warning for each operation that is not supported. *)
Fixpoint warn_ops (features : IoRingFeatures) (ops : list OpCode) : M S unit :=
  match ops with
  | [] => mret tt
  | op :: ops =>
      (if negb (opcode_supported features op) then log (OpNotSupported op) else mret tt);;
      warn_ops features ops
  end.

Definition create_io_uring : M S (Result (IoRingFeatures * Z * Parameters)) :=
  detected ←? io_uring_detect_features;
  match detected with
  | None => log NoKernelSupport;; mret (Err (ErrOs Os.NoSys))
  | Some features =>
      warn_ops features engine_ops;;
      let params := setup_params features in
      (if negb (bool_decide (wanted_flags ⊆ req_flags params)) ||
          negb (feature_supported features ExtArg) then log CompatibilityMode else mret tt);;
      r ← io_uring_setup params;
      match r with
      | Ok (fd, params) => mret (Ok (features, fd, params))
      | Err err =>
          (if err =? Os.NoMem then log LockedMemoryLimit else mret tt);;
          mret (Err (ErrOs err))
      end
  end.

(** The thread pool, the descriptors, the mappings and what they show. *)
Context (thread_pool_new : M S (Result P)) (drop_pool : P → M S unit).
Context (drop_fd : Z → M S unit) (eventfd_new : M S (Result Z)).
Context (overflow_checks : bool) (size_of_CompletionEntry size_of_SubmissionEntry : Z).
Context (mmap : Z → MmapOffsets → Z → OsResult Map) (ring_memory : S → Rings → RingMemory).

Definition IoUring_new : M S (Result (Created P)) :=
  thread_pool ←? thread_pool_new;
  created ← create_io_uring;
  match created with
  | Err e => drop_pool thread_pool;; mret (Err e)
  | Ok (features, ring_fd, params) =>
      rings ← lift (Rings_new overflow_checks size_of_CompletionEntry size_of_SubmissionEntry
        (mmap ring_fd) params);
      match rings with
      | Err e => drop_fd ring_fd;; drop_pool thread_pool;; mret (Err e)
      | Ok rings =>
          maps ← gets (λ s, ring_memory s rings);
          queue ← lift (Queue_new overflow_checks maps params);
          event_fd ← eventfd_new;
          match event_fd with
          | Err e => drop_fd ring_fd;; drop_pool thread_pool;; mret (Err e)
          | Ok event_fd =>
              mret (Ok (mkCreated ring_fd event_fd thread_pool
                (mkIoUring 0 queue 0 features 0 [] 0) None))
          end
      end
  end.
End Setup.

#[global] Arguments warn_ops : simpl never.
#[global] Arguments setup_params : simpl never.

(** ** The flags *)

Lemma add_supported_app features flags acc :
  add_supported features flags acc =
  acc ++ filter (λ f, setup_flag_supported features f = true) flags.
Proof.
  revert acc. induction flags as [|f flags IH]; intros acc; simpl; [by rewrite app_nil_r|].
  rewrite IH. destruct (setup_flag_supported features f) eqn:E.
  - by rewrite filter_cons_True, <- app_assoc.
  - by rewrite filter_cons_False by by rewrite E.
Qed.

Lemma elem_of_setup_flags features f :
  f ∈ req_flags (setup_params features) ↔ setup_flag_supported features f = true.
Proof.
  unfold setup_params. cbn [req_flags].
  rewrite add_supported_app, app_nil_l, list_elem_of_filter. split; [naive_solver|].
  intros Hf. split; [done|]. destruct f; by_decision.
Qed.

(** The kernel is asked exactly for the flags it supports among those the engine
    wants, for 256 submission entries, and for 8192 completion entries just when it
    is allowed to give less ([Clamp]). *)
Theorem setup_asks_supported features :
  (∀ f, f ∈ req_flags (setup_params features) ↔ setup_flag_supported features f = true) ∧
  NoDup (req_flags (setup_params features)) ∧
  req_sq_entries (setup_params features) = 256 ∧
  req_cq_entries (setup_params features) =
    (if setup_flag_supported features Clamp then 8192 else 0).
Proof.
  split_and!; [apply elem_of_setup_flags| |done|].
  - unfold setup_params. cbn [req_flags]. rewrite add_supported_app, app_nil_l.
    apply list.NoDup_filter. by_decision.
  - pose proof (elem_of_setup_flags features Clamp) as Hc. unfold setup_params in *.
    cbn [req_flags req_cq_entries] in *. case_bool_decide as E; simpl;
      destruct (setup_flag_supported features Clamp); naive_solver.
Qed.

(** ** The engine *)

Section New.
Context {S P : Type} (fatal : Prop) (submit_all : bool).
Context (io_uring_detect_features : M S (Result (option IoRingFeatures))).
Context (log : Message → M S unit).
Context (io_uring_setup : SetupParameters → M S (OsResult (Z * Parameters))).
Context (thread_pool_new : M S (Result P)) (drop_pool : P → M S unit).
Context (drop_fd : Z → M S unit) (eventfd_new : M S (Result Z)).
Context (overflow_checks : bool) (szc szs : Z).
Context (mmap : Z → MmapOffsets → Z → OsResult Map) (ring_memory : S → Rings → RingMemory).

(** What the process owns: its open descriptors and running thread pools. *)
Context (open_fds : S → gset Z) (pools : S → nat).

Definition owns (fds : gset Z) (n : nat) (s : S) : Prop := open_fds s = fds ∧ pools s = n.

(** The sizes of the rings are powers of two, within the kernel's limits; the arrays
    have these sizes and the indices start at 0. *)
Definition fresh_ring (p : Parameters) (mem : RingMemory) : Prop :=
  length (mem_sq_array mem) = Z.to_nat (sq_entries p) ∧
  length (mem_sq_entries mem) = Z.to_nat (sq_entries p) ∧
  length (mem_cq_entries mem) = Z.to_nat (cq_entries p) ∧
  mem_sq_khead mem = 0 ∧ mem_cq_khead mem = 0 ∧ mem_cq_ktail mem = 0.

(** What the operating system and xx-core promise: a resource is there after it was made
    and gone after it was dropped, detection and logging change nothing, and a ring that
    was set up is fresh. *)
Record setup_laws : Prop := {
  detect_law : ∀ s, wp fatal io_uring_detect_features s (λ _ s', owns (open_fds s) (pools s) s');
  log_law : ∀ m s, wp fatal (log m) s (λ _ s', owns (open_fds s) (pools s) s');
  pool_law : ∀ s, wp fatal thread_pool_new s (λ r s',
    owns (open_fds s) (match r with Ok _ => Datatypes.S (pools s) | Err _ => pools s end) s');
  drop_pool_law : ∀ p s,
    wp fatal (drop_pool p) s (λ _ s', owns (open_fds s) (pred (pools s)) s');
  drop_fd_law : ∀ fd s, wp fatal (drop_fd fd) s (λ _ s', owns (open_fds s ∖ {[ fd ]}) (pools s) s');
  eventfd_law : ∀ s, wp fatal eventfd_new s (λ r s',
    match r with
    | Ok fd => (fd ∉ open_fds s) ∧ owns ({[ fd ]} ∪ open_fds s) (pools s) s'
    | Err _ => owns (open_fds s) (pools s) s'
    end);
  setup_law : ∀ req s, wp fatal (io_uring_setup req) s (λ r s',
    match r with
    | Ok (fd, p) => (fd ∉ open_fds s) ∧ owns ({[ fd ]} ∪ open_fds s) (pools s) s' ∧ params_ok p ∧
        ring_size (sq_entries p) (sq_entries p - 1) ∧ ring_size (cq_entries p) (cq_entries p - 1) ∧
        ∀ rings, fresh_ring p (ring_memory s' rings)
    | Err _ => owns (open_fds s) (pools s) s'
    end);
  completion_size : 0 ≤ szc ≤ 2 ^ 10;
  submission_size : 0 ≤ szs ≤ 2 ^ 10
}.

Context (laws : setup_laws).

Lemma warn_ops_owns features ops s :
  wp fatal (warn_ops log features ops) s (λ _ s', owns (open_fds s) (pools s) s').
Proof.
  revert s. induction ops as [|op ops IH]; intros s;
    unfold warn_ops; [by wp_steps|]. fold (warn_ops log features ops). wp_steps.
  assert (wp fatal (if negb (opcode_supported features op) then log (OpNotSupported op)
    else mret tt) s (λ _ s', owns (open_fds s) (pools s) s')) as H1
    by (destruct (negb _); [apply log_law, laws|by wp_steps]).
  eapply wp_mono; [exact H1|]. intros _ s1 [E1 E2]. eapply wp_mono; [apply IH|].
  intros _ s2 [E3 E4]. split; congruence.
Qed.

(** What [create_io_uring] yields. *)
Lemma create_io_uring_spec s :
  wp fatal (create_io_uring io_uring_detect_features log io_uring_setup) s (λ r s',
    match r with
    | Ok (features, fd, p) => (fd ∉ open_fds s) ∧ owns ({[ fd ]} ∪ open_fds s) (pools s) s' ∧
        params_ok p ∧ ring_size (sq_entries p) (sq_entries p - 1) ∧
        ring_size (cq_entries p) (cq_entries p - 1) ∧
        ∀ rings, fresh_ring p (ring_memory s' rings)
    | Err _ => owns (open_fds s) (pools s) s'
    end).
Proof.
  unfold create_io_uring. wp_steps. eapply wp_mono; [apply detect_law, laws|].
  intros [[features|]|e] s1 [E1 E2]; simpl; wp_steps.
  2:{ eapply wp_mono; [apply log_law, laws|]. intros _ s2 [E3 E4]. wp_steps. split; congruence. }
  2:{ by split. }
  eapply wp_mono; [apply warn_ops_owns|]. intros _ s2 [E3 E4]. wp_steps.
  assert (∀ b m, wp fatal (if b : bool then log m else mret tt) s2 (λ _ s',
    owns (open_fds s) (pools s) s')) as Hmsg.
  { intros [] m; [eapply wp_mono; [apply log_law, laws|]; intros _ s3 []; split; congruence|].
    wp_steps. split; congruence. }
  eapply wp_mono; [apply Hmsg|]. intros _ s3 [E5 E6]. wp_steps.
  eapply wp_mono; [apply setup_law, laws|]. intros [[fd p]|e] s4; simpl.
  - rewrite E5, E6. intros. by wp_steps.
  - intros [E7 E8]. wp_steps. destruct (e =? Os.NoMem); wp_steps.
    + eapply wp_mono; [apply log_law, laws|]. intros _ s5 [E9 E10]. wp_steps. split; congruence.
    + split; congruence.
Qed.
(** An engine on fresh rings, with a kernel that has seen nothing. *)
Lemma fresh_engine_ok {K U} `{!KernelView K} event_request q features (k : K) (u : U) :
  sq_wf (submission q) → cq_wf (completion q) → sq_view (submission q) = [] →
  cq_view (completion q) = [] → taken k = [] → posted k = [] →
  engine_ok event_request (setup_flag_supported features SubmitAll)
    (mkWorld (mkIoUring 0 q 0 features 0 [] 0) k u [] []).
Proof.
  intros Hsq Hcq Hsv Hcv Ht Hp.
  pose proof (length_sq_view _ Hsq) as Ls. pose proof (length_cq_view _ Hcq) as Lc.
  rewrite Hsv in Ls. rewrite Hcv in Lc. simpl in Ls, Lc.
  assert (inflight k = 0) as Hi by (unfold inflight; by rewrite Ht, Hp).
  pose proof (ring_size_bounds _ _ (sq_wf_size _ Hsq)).
  split_and!.
  - split_and!; simpl; [|lia|done]. constructor; simpl; try done; try lia.
    unfold answers. by rewrite Ht, Hp.
  - unfold balance. simpl. by rewrite Hi, <- Lc.
  - unfold owed. simpl. by rewrite Hp, Hcv.
  - split; [|done]. constructor; simpl; try done.
    + unfold open_polls, history. simpl. by rewrite Ht, Hsv.
    + exists []. split; [|done]. unfold owed. simpl. by rewrite Hp.
Qed.

(** What the caller gets: an engine ready for use with its descriptors and its pool,
    or an error and nothing else. *)
Definition new_post (s : S) (r : Result (Created P)) (s' : S) : Prop :=
  match r with
  | Ok c =>
      (ring_fd c ∉ open_fds s) ∧ (event_fd_raw c ∉ open_fds s) ∧ ring_fd c ≠ event_fd_raw c ∧
      owns ({[ ring_fd c; event_fd_raw c ]} ∪ open_fds s) (Datatypes.S (pools s)) s' ∧
      ∀ K U (view : KernelView K) event_request (k : K) (u : U), taken k = [] → posted k = [] →
        engine_ok event_request
          (bool_decide (SubmitAll ∈ req_flags (setup_params (features (created_engine c)))))
          (mkWorld (created_engine c) k u [] [])
  | Err _ => owns (open_fds s) (pools s) s'
  end.

(** What was made is dropped again. *)
Lemma cleanup_owns fd pool e s s1 :
  fd ∉ open_fds s → owns ({[ fd ]} ∪ open_fds s) (Datatypes.S (pools s)) s1 →
  wp fatal (drop_fd fd;; drop_pool pool;; mret (Err e)) s1 (new_post s).
Proof.
  intros Hfd [E1 E2]. wp_steps. eapply wp_mono; [apply drop_fd_law, laws|]. intros _ s2 [E3 E4]. wp_steps.
  eapply wp_mono; [apply drop_pool_law, laws|]. intros _ s3 [E5 E6]. wp_steps.
  split; [rewrite E5, E3, E1; set_solver|by rewrite E6, E4, E2].
Qed.

(** [IoUring::new] either yields an engine in the state from which its operations
    are proved correct, with [SubmitAll] taken into account just when the ring was
    created with it, or fails and gives back every descriptor and thread it got. *)
Lemma IoUring_new_spec s :
  wp fatal (IoUring_new io_uring_detect_features log io_uring_setup thread_pool_new drop_pool
    drop_fd eventfd_new overflow_checks szc szs mmap ring_memory) s (new_post s).
Proof.
  unfold IoUring_new. wp_steps. eapply wp_mono; [apply pool_law, laws|].
  intros [pool|e] s1 [E1 E2]; simpl; wp_steps; [|by split].
  eapply wp_mono; [apply create_io_uring_spec|]. intros [[[features fd] p]|e] s2; simpl.
  2:{ intros [E3 E4]. wp_steps. eapply wp_mono; [apply drop_pool_law, laws|]. intros _ s3 [E5 E6]. wp_steps.
      split; [congruence|]. by rewrite E6, E4, E2. }
  rewrite E1, E2. intros (Hfd & Hown & Hp & Hsq & Hcq & Hmem). wp_steps.
  destruct (rings_new_returns overflow_checks szc szs (mmap fd) (completion_size laws) (submission_size laws) p Hp) as [res ->].
  simpl. destruct res as [rings|e]; [|by apply cleanup_owns].
  destruct (Hmem rings) as (L1 & L2 & L3 & K1 & K2 & K3).
  destruct (fresh_queues_empty overflow_checks (ring_memory s2 rings) p)
    as (q & Eq & Wsq & Wcq & Vsq & Vcq); [done..|].
  wp_steps. rewrite Eq. simpl. wp_steps. eapply wp_mono; [apply eventfd_law, laws|].
  intros [ev|e] s3; simpl.
  - destruct Hown as [O1 O2]. rewrite O1, O2. intros [Hev [O3 O4]]. wp_steps.
    split_and!; simpl; [done|set_solver|set_solver|split; [set_solver|done]|].
    intros K U view event_request k u Ht Hpo.
    rewrite (bool_decide_ext _ _ (elem_of_setup_flags features SubmitAll)).
    assert (bool_decide (setup_flag_supported features SubmitAll = true) =
      setup_flag_supported features SubmitAll) as ->
      by (by destruct (setup_flag_supported features SubmitAll)).
    by apply fresh_engine_ok.
  - intros [O1 O2]. destruct Hown as [O3 O4]. apply cleanup_owns; [done|]. split; congruence.
Qed.
End New.

(** ** A process on which the theorem applies *)

Module SimSetup.
Record Process : Type := mkProcess {
  p_open : gset Z;
  p_pools : nat;
  p_messages : list Message
}.

Definition note (m : Message) : M Process unit :=
  modify (λ p, mkProcess (p_open p) (p_pools p) (p_messages p ++ [m])).

Definition open_fd : M Process Z := λ p,
  let fd := fresh (p_open p) in Ret (fd, mkProcess ({[ fd ]} ∪ p_open p) (p_pools p) (p_messages p)).

Definition close_fd (fd : Z) : M Process unit :=
  modify (λ p, mkProcess (p_open p ∖ {[ fd ]}) (p_pools p) (p_messages p)).

Definition set_pools (f : nat → nat) : M Process unit :=
  modify (λ p, mkProcess (p_open p) (f (p_pools p)) (p_messages p)).

(** A kernel without [Clamp], [SubmitAll] and sockets. *)
Definition features_few : IoRingFeatures :=
  mkFeatures (λ f, negb (bool_decide (f ∈ [Clamp; SubmitAll]))) (λ _, true)
    (λ op, negb (bool_decide (op = Socket))).

Definition detect : M Process (Result (option IoRingFeatures)) := mret (Ok (Some features_few)).

(** The kernel gives rings of 4 and 8 entries. *)
Definition setup (req : SetupParameters) : M Process (OsResult (Z * Parameters)) :=
  fd ← open_fd; mret (Ok (fd, mkParameters 4 8 128 64 false false true)).

Definition pool_new : M Process (Result unit) := set_pools Datatypes.S;; mret (Ok tt).

(** No more than 100 descriptors. *)
Definition event_new : M Process (Result Z) :=
  n ← gets (λ p, size (p_open p));
  if bool_decide (n < 100)%nat then fd ← open_fd; mret (Ok fd) else mret (Err (ErrOs 24)).

Definition process : Process := mkProcess {[ 0; 1; 2 ]} 0 [].
End SimSetup.

Lemma sim_setup_laws :
  setup_laws False SimSetup.detect SimSetup.note SimSetup.setup SimSetup.pool_new
    (λ _, SimSetup.set_pools pred) SimSetup.close_fd SimSetup.event_new 16 64
    (λ _ _, sample_memory) SimSetup.p_open SimSetup.p_pools.
Proof.
  constructor; try by split.
  - intros s1. unfold SimSetup.event_new. wp_steps. destruct (bool_decide _); wp_steps; [|by split].
    split; [apply is_fresh|by split].
  - intros req s1. split_and!; [apply is_fresh|by split|by repeat split|..].
    + by apply (ring_size_pow 2).
    + by apply (ring_size_pow 3).
    + by intros rings.
Qed.
