(* ===== verification/Driver.v ===== *)
(** * The driver (src/src/driver.rs): timers, parking and shutdown

    The driver keeps the pending timers in a [BTreeSet] ordered by expiry and
    then request, which is a strictly sorted list here, and a flag that is set
    while it exits.  Its state is part of the state [S] of the whole process,
    reached through [DriverState]; the engine is any [EngineImpl S] and the
    callbacks of the requests are parameters. *)

From stdpp Require Import base list numbers relations tactics.
From S2P Require Import Prelude Engine.

(** ** Data *)

Record Timeout : Type := mkTimeout {
  expire : Z;
  request : ReqPtr
}.

#[export] Instance Timeout_eq_dec : EqDecision Timeout.
Proof. intros [e r] [e' r']. unfold ReqPtr in *. solve_decision. Defined.

(** The derived order of [Timeout]: expiry first. *)
Definition timeout_lt (a b : Timeout) : bool :=
  (expire a <? expire b) || ((expire a =? expire b) && (request a <? request b)).

(** [BTreeSet<Timeout>] *)
Abbreviation TimerSet := (list Timeout).

Fixpoint ts_insert (t : Timeout) (ts : TimerSet) : TimerSet :=
  match ts with
  | [] => [t]
  | x :: ts' =>
      if timeout_lt t x then t :: x :: ts'
      else if timeout_lt x t then x :: ts_insert t ts'
      else x :: ts'
  end.

Definition ts_take (t : Timeout) (ts : TimerSet) : option Timeout * TimerSet :=
  if bool_decide (t ∈ ts) then (Some t, filter (λ x, x ≠ t) ts) else (None, ts).

Definition ts_first (ts : TimerSet) : option Timeout := head ts.

Definition ts_pop_first (ts : TimerSet) : option (Timeout * TimerSet) :=
  match ts with [] => None | t :: ts' => Some (t, ts') end.

(** The driver, with a log of the timers completed so far. *)
Record Driver : Type := mkDriver {
  timers : TimerSet;
  exiting : bool;
  fired : list (Timeout * Result unit)
}.

Definition set_timers (ts : TimerSet) (d : Driver) : Driver := mkDriver ts (exiting d) (fired d).
Definition set_exiting (b : bool) (d : Driver) : Driver := mkDriver (timers d) b (fired d).
Definition log_fired (t : Timeout) (r : Result unit) (d : Driver) : Driver :=
  mkDriver (timers d) (exiting d) (fired d ++ [(t, r)]).

(** A process state that contains a driver. *)
Class DriverState (S : Type) : Type := {
  driver : S → Driver;
  set_driver : Driver → S → S;
  driver_set : ∀ d s, driver (set_driver d s) = d
}.

(** [duration!(1 hour)] in nanoseconds *)
Definition one_hour : Z := 3600 * 1000000000.

(** [TimeoutFlag::Abs] *)
Definition Abs : Z := 1.

(** What running the future of a timer yields. *)
Inductive TimerProgress : Type :=
| TimerDone (r : Result unit)
| TimerPending (t : Timeout).

Definition shutdown_error : Error := ErrKind Shutdown.

(** xx-core's [Waker]: a pointer and the functions to call with it.  The driver it
    points to is the one of the state. *)
Record WakerVTable (S : Type) : Type := mkWakerVTable {
  vtable_prepare : M S unit;
  vtable_wake : ReqPtr → M S unit
}.

Arguments mkWakerVTable {S} vtable_prepare vtable_wake.

Record Waker (S : Type) : Type := mkWaker { waker_ptr : Z; vtable : WakerVTable S }.

Arguments mkWaker {S} waker_ptr vtable.

Section Driver.
Context {S : Type} `{DriverState S} {io_engine : EngineImpl S}.

(** The monotonic clock. *)
Context (clock : M S (OsResult Z)).

(** The callback of a timer's request. *)
Context (timer_callback : Timeout → Result unit → M S unit).

Definition gets_driver {A} (f : Driver → A) : M S A := gets (λ s, f (driver s)).
Definition modify_driver (f : Driver → Driver) : M S unit :=
  modify (λ s, set_driver (f (driver s)) s).

(** [Driver::new] *)
Definition new_driver : Driver := mkDriver [] false [].

(** [prepare] and [wake] of the waker *)
Definition waker_prepare : M S unit :=
  r ← prepare_wake; lift (expect_nounwind r).

Definition waker_wake (request : ReqPtr) : M S unit :=
  r ← wake request; lift (expect_nounwind r).

(** [WAKER] and the waker of a driver, which is at the address [self] *)
Definition WAKER : WakerVTable S := mkWakerVTable waker_prepare waker_wake.

Definition waker (self : Z) : Waker S := mkWaker self WAKER.

Definition time : M S Z := r ← clock; lift (expect_nounwind r).

(** [ops::timers::nanotime] *)
Definition nanotime : M S Z :=
  r ← clock; match r with Ok v => mret v | Err _ => panic end.

Definition timer_complete (timeout : Timeout) (result : Result unit) : M S unit :=
  modify_driver (log_fired timeout result);;
  timer_callback timeout result.

Definition queue_timer (timer : Timeout) : M S unit :=
  modify_driver (λ d, set_timers (ts_insert timer (timers d)) d).

Definition cancel_timer (timer : Timeout) : M S (Result unit) :=
  ts ← gets_driver timers;
  match ts_take timer ts with
  | (None, _) => mret (Err (ErrKind NotFound))
  | (Some timeout, ts') =>
      modify_driver (set_timers ts');;
      timer_complete timeout (Err (ErrKind Interrupted));;
      mret (Ok tt)
  end.

Definition check_exiting : M S (Result unit) :=
  e ← gets_driver exiting;
  mret (if negb e then Ok tt else Err shutdown_error).

Definition timeout (expire flags : Z) (request : ReqPtr) : M S TimerProgress :=
  c ← check_exiting;
  match c with
  | Err err => mret (TimerDone (Err err))
  | Ok _ =>
      expire ← (if negb (flags_intersects flags Abs) then
                  now ← nanotime;
                  lift (unwrap (checked_u 64 (expire + now)))
                else mret expire);
      queue_timer (mkTimeout expire request);;
      mret (TimerPending (mkTimeout expire request))
  end.

(** The cancellation of a timer's future. *)
Definition timeout_cancel (expire : Z) (request : ReqPtr) : M S (Result unit) :=
  cancel_timer (mkTimeout expire request).

(** The loop of [run_timers]; returns the timeout. *)
Fixpoint run_timers_loop (fuel : nat) (now : Z) (ran : bool) : M S Z :=
  ts ← gets_driver timers;
  match ts_first ts with
  | None => mret one_hour
  | Some timer =>
      if now <? expire timer then
        now ← (if ran then time else mret now);
        mret (saturating_sub (expire timer) now)
      else
        match fuel with
        | O => no_fuel
        | Datatypes.S fuel =>
            popped ← lift (unwrap (ts_pop_first ts));
            let '(timer, ts') := popped in
            modify_driver (set_timers ts');;
            timer_complete timer (Ok tt);;
            run_timers_loop fuel now true
        end
  end.

Definition run_timers (fuel : nat) : M S Z :=
  now ← time;
  run_timers_loop fuel now false.

Definition park (timeout : Z) : M S unit :=
  r ← work timeout; lift (expect_nounwind r).

(** [block_while]: [fuel] bounds the rounds, [timer_fuel] the timers of one. *)
Fixpoint block_while (fuel timer_fuel : nat) (block : S → bool) : M S unit :=
  match fuel with
  | O => no_fuel
  | Datatypes.S fuel =>
      timeout ← run_timers timer_fuel;
      b ← gets block;
      if negb b then mret tt
      else
        park timeout;;
        b ← gets block;
        if negb b then mret tt else block_while fuel timer_fuel block
  end.

(** The first loop of [exit]. *)
Fixpoint exit_timers (fuel : nat) : M S unit :=
  ts ← gets_driver timers;
  if bool_decide (ts = []) then mret tt
  else
    match fuel with
    | O => no_fuel
    | Datatypes.S fuel =>
        popped ← lift (unwrap (ts_pop_first ts));
        let '(timeout, ts') := popped in
        modify_driver (set_timers ts');;
        timer_complete timeout (Err shutdown_error);;
        exit_timers fuel
    end.

(** The second loop of [exit]. *)
Fixpoint exit_engine (fuel timer_fuel : nat) : M S unit :=
  match fuel with
  | O => no_fuel
  | Datatypes.S fuel =>
      timeout ← run_timers timer_fuel;
      b ← gets has_work;
      if negb b then mret tt
      else park timeout;; exit_engine fuel timer_fuel
  end.

Definition exit (fuel timer_fuel : nat) : M S unit :=
  modify_driver (set_exiting true);;
  exit_timers timer_fuel;;
  exit_engine fuel timer_fuel;;
  modify_driver (set_exiting false).

(** The futures that [engine_task!] generates hand over to the engine's. *)
Definition driver_task (op : Operation) (request : ReqPtr) : M S (Progress Z) :=
  engine_task op request.

Definition driver_run_work (work : Work S) (request : ReqPtr) : M S (Progress bool) :=
  engine_run_work work request.
End Driver.

#[global] Arguments run_timers_loop : simpl never.
#[global] Arguments exit_timers : simpl never.
#[global] Arguments exit_engine : simpl never.
#[global] Arguments block_while : simpl never.
