(* ===== verification/DriverSpec.v ===== *)
(** * The driver: what callbacks may do to it, and its theorems

    [timer_step] is one use of the driver by other code; [moved] says that
    timers are neither lost nor completed twice.  The theorems: a timer is never
    completed early nor left behind once its time has come, cancelling is exact,
    and the shutdown completes every timer exactly once and terminates. *)

From Stdlib Require Import Sorted.
From stdpp Require Import base list numbers relations tactics.
From S2P Require Import Prelude Engine Driver.

(** ** The timer set *)

Definition timer_before (a b : Timeout) : Prop := timeout_lt a b = true.

#[export] Instance timer_before_dec a b : Decision (timer_before a b).
Proof. unfold timer_before. apply _. Defined.

(** Strictly sorted. *)
Definition ts_wf (ts : TimerSet) : Prop := StronglySorted timer_before ts.

Lemma timeout_lt_spec a b :
  timer_before a b ↔ expire a < expire b ∨ (expire a = expire b ∧ request a < request b).
Proof. unfold timer_before, timeout_lt. rewrite orb_true_iff, andb_true_iff. lia. Qed.

Lemma timeout_lt_false a b : timeout_lt a b = false ↔ ¬ timer_before a b.
Proof. unfold timer_before. by destruct (timeout_lt a b). Qed.

#[export] Instance timer_before_trans : Transitive timer_before.
Proof. intros a b c. rewrite !timeout_lt_spec. lia. Qed.

Lemma timer_before_irrefl a : ¬ timer_before a a.
Proof. rewrite timeout_lt_spec. lia. Qed.

Lemma timer_before_tricho a b : ¬ timer_before a b → ¬ timer_before b a → a = b.
Proof.
  rewrite !timeout_lt_spec. destruct a as [e r], b as [e' r']. simpl. intros.
  f_equal; lia.
Qed.

(** The smallest timer is the one that expires first. *)
Lemma ts_first_least t ts x : ts_wf (t :: ts) → x ∈ t :: ts → expire t ≤ expire x.
Proof.
  intros Hs Hx. apply elem_of_cons in Hx as [->|Hx]; [lia|].
  inversion Hs as [|? ? _ Hall]; subst. rewrite list.Forall_forall in Hall.
  apply Hall, timeout_lt_spec in Hx. lia.
Qed.

Lemma ts_wf_notin t ts : ts_wf (t :: ts) → t ∉ ts.
Proof.
  intros Hs Hx. inversion Hs as [|? ? _ Hall]; subst. rewrite list.Forall_forall in Hall.
  apply Hall in Hx. by apply timer_before_irrefl in Hx.
Qed.

Lemma ts_wf_NoDup ts : ts_wf ts → NoDup ts.
Proof.
  induction ts as [|t ts IH]; intros Hs; constructor; [by apply ts_wf_notin|].
  apply IH. by inversion Hs.
Qed.

(** Inserting adds the timer unless it is there. *)
Lemma ts_insert_elem t ts x : ts_wf ts → x ∈ ts_insert t ts ↔ x = t ∨ x ∈ ts.
Proof.
  induction ts as [|y ts IH]; simpl; intros Hs; [set_solver|].
  destruct (timeout_lt t y) eqn:E1; [set_solver|].
  destruct (timeout_lt y t) eqn:E2.
  - rewrite !elem_of_cons, IH by (by inversion Hs). naive_solver.
  - apply timeout_lt_false in E1, E2. pose proof (timer_before_tricho _ _ E1 E2). set_solver.
Qed.

Lemma ts_insert_wf t ts : ts_wf ts → ts_wf (ts_insert t ts).
Proof.
  induction ts as [|y ts IH]; simpl; intros Hs; [repeat constructor|].
  inversion Hs as [|? ? Hs' Hall]; subst.
  destruct (timeout_lt t y) eqn:E1.
  - constructor; [done|]. constructor; [done|].
    eapply list.Forall_impl; [exact Hall|]. intros z Hz. by transitivity y.
  - destruct (timeout_lt y t) eqn:E2; [|done]. constructor; [by apply IH|].
    rewrite list.Forall_forall in *. intros z [->|Hz]%ts_insert_elem; [done|by apply Hall|done].
Qed.

Lemma ts_insert_perm t ts : ts_wf ts → t ∉ ts → ts_insert t ts ≡ₚ t :: ts.
Proof.
  intros Hs Ht. apply NoDup_Permutation.
  - by apply ts_wf_NoDup, ts_insert_wf.
  - constructor; [done|by apply ts_wf_NoDup].
  - intros x. rewrite ts_insert_elem, elem_of_cons by done. done.
Qed.

Lemma ts_insert_present t ts : ts_wf ts → t ∈ ts → ts_insert t ts = ts.
Proof.
  induction ts as [|y ts IH]; simpl; intros Hs Ht; [set_solver|].
  inversion Hs as [|? ? Hs' Hall]; subst. rewrite list.Forall_forall in Hall.
  apply elem_of_cons in Ht as [->|Ht].
  - rewrite (proj2 (timeout_lt_false y y)) by apply timer_before_irrefl. done.
  - pose proof (Hall _ Ht) as Hb. rewrite Hb. rewrite (proj2 (timeout_lt_false t y)).
    + by rewrite IH.
    + intros Hb'. apply (timer_before_irrefl t). by transitivity y.
Qed.

Lemma ts_remove_wf t ts : ts_wf ts → ts_wf (filter (λ x, x ≠ t) ts).
Proof.
  induction ts as [|y ts IH]; intros Hs; [done|]. inversion Hs as [|? ? Hs' Hall]; subst.
  rewrite filter_cons. case_decide; [|by apply IH]. constructor; [by apply IH|].
  rewrite list.Forall_forall in *. intros x [_ Hx]%list_elem_of_filter. by apply Hall.
Qed.

Lemma ts_remove_perm t ts : ts_wf ts → t ∈ ts → ts ≡ₚ t :: filter (λ x, x ≠ t) ts.
Proof.
  intros Hs Ht. pose proof (ts_wf_NoDup _ Hs). apply NoDup_Permutation; [done| |].
  - constructor; [|by apply list.NoDup_filter]. rewrite list_elem_of_filter. naive_solver.
  - intros x. rewrite elem_of_cons, list_elem_of_filter.
    destruct (decide (x = t)); naive_solver.
Qed.

(** ** What other code may do to the driver *)

(** One use of the driver: a timer is queued (only while it is not exiting) or
    cancelled. *)
Inductive timer_step : relation Driver :=
| step_queue t d :
    exiting d = false → timer_step d (set_timers (ts_insert t (timers d)) d)
| step_cancel t d :
    t ∈ timers d →
    timer_step d (log_fired t (Err (ErrKind Interrupted))
      (set_timers (filter (λ x, x ≠ t) (timers d)) d)).

(** Every timer queued so far is pending or was completed, exactly once: [new]
    were queued and [gone] were completed. *)
Record moved (new : list Timeout) (gone : list (Timeout * Result unit)) (d d' : Driver) : Prop := {
  mv_wf : ts_wf (timers d');
  mv_exiting : exiting d' = exiting d;
  mv_new : exiting d = true → new = [];
  mv_fired : fired d' = fired d ++ gone;
  mv_timers : timers d' ++ map fst gone ≡ₚ timers d ++ new
}.

Lemma moved_refl d : ts_wf (timers d) → moved [] [] d d.
Proof. intros. constructor; simpl; rewrite ?app_nil_r; done. Qed.

Lemma moved_trans n1 g1 n2 g2 d1 d2 d3 :
  moved n1 g1 d1 d2 → moved n2 g2 d2 d3 → moved (n1 ++ n2) (g1 ++ g2) d1 d3.
Proof.
  intros [W1 E1 N1 F1 T1] [W2 E2 N2 F2 T2]. constructor.
  - done.
  - congruence.
  - intros He. rewrite N1, N2 by congruence. done.
  - by rewrite F2, F1, app_assoc.
  - rewrite map_app, (Permutation_app_comm (map fst g1)), app_assoc, T2.
    rewrite <- app_assoc, (Permutation_app_comm n2), !app_assoc, T1. done.
Qed.

Lemma moved_queue t d :
  ts_wf (timers d) → exiting d = false →
  ∃ new, moved new [] d (set_timers (ts_insert t (timers d)) d).
Proof.
  intros Hs He. destruct (decide (t ∈ timers d)) as [Ht|Ht].
  - exists []. rewrite ts_insert_present by done. destruct d. by apply moved_refl.
  - exists [t]. constructor; simpl; try (by rewrite ?app_nil_r, ?He).
    + by apply ts_insert_wf.
    + rewrite app_nil_r, ts_insert_perm by done. by rewrite Permutation_app_comm.
Qed.

(** A pending timer is taken out and completed. *)
Lemma moved_complete t r ts d :
  ts_wf (timers d) → ts_wf ts → timers d ≡ₚ t :: ts →
  moved [] [(t, r)] d (log_fired t r (set_timers ts d)).
Proof.
  intros Hs Hs' Hp. constructor; simpl; try done. rewrite app_nil_r, Hp.
  by rewrite Permutation_app_comm.
Qed.

(** The completions among [gone] that are not cancellations. *)
Definition cancelled (p : Timeout * Result unit) : Prop := p.2 = Err (ErrKind Interrupted).

Lemma timer_steps_moved d d' :
  rtc timer_step d d' → ts_wf (timers d) →
  ∃ new gone, moved new gone d d' ∧ Forall cancelled gone.
Proof.
  induction 1 as [d|d1 d2 d3 Hs _ IH]; intros Hw.
  { exists [], []. split; [by apply moved_refl|done]. }
  assert (∃ new gone, moved new gone d1 d2 ∧ Forall cancelled gone) as (n1 & g1 & H1 & C1).
  { destruct Hs as [t d He|t d Ht].
    - destruct (moved_queue t d Hw He) as [new Hm]. by exists new, [].
    - exists [], [(t, Err (ErrKind Interrupted))]. split; [|by repeat constructor].
      apply moved_complete; [done|by apply ts_remove_wf|by apply ts_remove_perm]. }
  destruct IH as (n2 & g2 & H2 & C2); [apply H1|].
  exists (n1 ++ n2), (g1 ++ g2). split; [by eapply moved_trans|by apply Forall_app].
Qed.

(** ** The process the driver is part of *)

(** What is observed of it: the time last read from the clock, a bound on the timers
    that callbacks may still queue, a measure of the work the engine has left, its
    invariant, and that the next wait for the engine ends. *)
Class ProcessModel (S : Type) : Type := {
  now_of : S → Z;
  budget : S → nat;
  outstanding : S → nat;
  process_ok : S → Prop;
  ready : S → Prop
}.

Section Interface.
Context {S : Type} `{DriverState S} `{!ProcessModel S}.

Local Abbreviation tms s := (timers (driver s)).

(** The timers that are pending or may still be queued. *)
Definition timer_supply (s : S) : nat := (length (tms s) + budget s)%nat.

(** Those and the ones completed so far. *)
Definition timer_total (s : S) : nat := (length (fired (driver s)) + timer_supply s)%nat.

(** What code that uses the driver through its operations does. *)
Record used (s s' : S) : Prop := {
  used_steps : rtc timer_step (driver s) (driver s');
  used_now : now_of s ≤ now_of s';
  used_total : (timer_total s' ≤ timer_total s)%nat;
  used_outstanding : (outstanding s' ≤ outstanding s)%nat;
  used_ok : process_ok s'
}.

(** When the driver may call the request of a timer: successfully only when its time has
    come, otherwise because it was cancelled or the driver exits. *)
Definition rightly (t : Timeout) (r : Result unit) (s : S) : Prop :=
  match r with
  | Ok _ => expire t ≤ now_of s
  | Err e => e = ErrKind Interrupted ∨ e = shutdown_error
  end.

#[export] Instance rightly_dec t r s : Decision (rightly t r s).
Proof. destruct r; simpl; apply _. Defined.

(** The clock does not go back and callbacks use the driver through its operations, when
    they are called rightly; the observations do not depend on the driver. *)
Class ProcessLaws (fatal : Prop) (clock : M S (OsResult Z))
    (timer_callback : Timeout → Result unit → M S unit) : Prop := {
  now_set : ∀ d s, now_of (set_driver d s) = now_of s;
  budget_set : ∀ d s, budget (set_driver d s) = budget s;
  outstanding_set : ∀ d s, outstanding (set_driver d s) = outstanding s;
  ok_set : ∀ d s, process_ok s → process_ok (set_driver d s);
  clock_law : ∀ s, process_ok s → wp fatal clock s (λ r s',
    r = Ok (now_of s') ∧ now_of s ≤ now_of s' ∧ driver s' = driver s ∧
    budget s' = budget s ∧ (outstanding s' ≤ outstanding s)%nat ∧ process_ok s' ∧ ready s');
  callback_law : ∀ t r s, ts_wf (tms s) → process_ok s → rightly t r s →
    wp fatal (timer_callback t r) s (λ _ s', used s s')
}.

(** What the engine promises the driver: a unit of work runs callbacks only and fails
    only when the kernel does ([fatal]); and while the driver exits, when tasks start nothing new, work that may
    wait for the engine gets done. *)
Class EngineLaws (fatal : Prop) (io_engine : EngineImpl S) : Prop := {
  has_work_set : ∀ d (s : S), has_work (set_driver d s) = has_work s;
  work_law : ∀ timeout s, 0 ≤ timeout → ts_wf (tms s) → process_ok s →
    wp fatal (work timeout) s (λ r s', match r with Ok _ => used s s' | Err _ => fatal end);
  drain_law : ∀ timeout s, 0 < timeout → exiting (driver s) = true → ts_wf (tms s) →
    process_ok s → ready s → has_work s = true →
    wp fatal (work timeout) s (λ r s',
      match r with Ok _ => (outstanding s' < outstanding s)%nat | Err _ => fatal end)
}.
End Interface.

(** ** Running the driver *)

Section Running.
Context {S : Type} `{DriverState S} `{!ProcessModel S} (fatal : Prop).
Context (clock : M S (OsResult Z)) (timer_callback : Timeout → Result unit → M S unit).
Context `{!ProcessLaws fatal clock timer_callback}.

Local Abbreviation tms s := (timers (driver s)).
Local Abbreviation time := (time clock).
Local Abbreviation timer_complete := (timer_complete timer_callback).
Local Abbreviation run_timers_loop := (run_timers_loop clock timer_callback).
Local Abbreviation run_timers := (run_timers clock timer_callback).
Local Abbreviation exit_timers := (exit_timers timer_callback).
Local Abbreviation exit_engine := (exit_engine clock timer_callback).
Local Abbreviation exit := (exit clock timer_callback).

(** From [s] to [s'] the timers [new] were queued, [gone] completed. *)
Record ran (new : list Timeout) (gone : list (Timeout * Result unit)) (s s' : S) : Prop := {
  ran_moved : moved new gone (driver s) (driver s');
  ran_now : now_of s ≤ now_of s';
  ran_supply : (timer_supply s' + length gone ≤ timer_supply s)%nat;
  ran_outstanding : (outstanding s' ≤ outstanding s)%nat;
  ran_ok : process_ok s'
}.

Lemma ran_refl s : ts_wf (tms s) → process_ok s → ran [] [] s s.
Proof. intros. constructor; [by apply moved_refl|simpl; lia..|done]. Qed.

Lemma ran_trans n1 g1 n2 g2 s1 s2 s3 :
  ran n1 g1 s1 s2 → ran n2 g2 s2 s3 → ran (n1 ++ n2) (g1 ++ g2) s1 s3.
Proof. intros [] []. constructor; [by eapply moved_trans|rewrite ?length_app; lia..|done]. Qed.

Lemma used_ran s s' :
  used s s' → ts_wf (tms s) → ∃ new gone, ran new gone s s' ∧ Forall cancelled gone.
Proof.
  intros [Hs Hn Ht Ho Hok] Hw. destruct (timer_steps_moved _ _ Hs Hw) as (new & gone & Hm & Hc).
  exists new, gone. split; [|done]. constructor; try done.
  unfold timer_total in Ht. rewrite (mv_fired _ _ _ _ Hm), length_app in Ht. lia.
Qed.

Lemma time_spec s :
  ts_wf (tms s) → process_ok s →
  wp fatal time s (λ v s', v = now_of s' ∧ ran [] [] s s' ∧ driver s' = driver s ∧ ready s').
Proof.
  intros Hw Hok. unfold Driver.time. wp_steps. eapply wp_mono; [by apply clock_law|].
  intros r s' (-> & Hn & Hd & Hb & Ho & Hok' & Hr). wp_steps. simpl. split_and!; try done.
  constructor; [rewrite Hd; by apply moved_refl|done| |lia|done].
  unfold timer_supply. rewrite Hd, Hb. simpl. lia.
Qed.

(** A pending timer is taken out of the set and completed. *)
Lemma pop_complete_spec t r ts s :
  ts_wf (tms s) → process_ok s → rightly t r s → ts_wf ts → tms s ≡ₚ t :: ts →
  wp fatal (modify_driver (set_timers ts);; timer_complete t r) s (λ _ s',
    ∃ new gone, ran new ((t, r) :: gone) s s' ∧ Forall cancelled gone).
Proof.
  intros Hw Hok Hri Hw' Hp. unfold modify_driver, Driver.timer_complete. wp_steps.
  unfold modify_driver. wp_steps. rewrite !driver_set.
  set (s1 := set_driver _ (set_driver _ s)).
  assert (driver s1 = log_fired t r (set_timers ts (driver s))) as Hd1
    by (unfold s1; by rewrite driver_set).
  assert (process_ok s1) as Hok1 by by apply ok_set, ok_set.
  assert (rightly t r s1) as Hri1 by (unfold rightly, s1 in *; by rewrite !now_set).
  eapply wp_mono; [apply callback_law; [by rewrite Hd1|done|done]|].
  intros ? s' Hu. destruct (used_ran _ _ Hu ltac:(by rewrite Hd1)) as (new & gone & Hr & Hc).
  assert (ran [] [(t, r)] s s1) as Hr1.
  { constructor; [|unfold s1; rewrite !now_set; lia| |unfold s1; by rewrite !outstanding_set|done].
    - rewrite Hd1. by apply moved_complete.
    - unfold timer_supply, s1. rewrite driver_set, !budget_set. simpl. rewrite Hp. simpl. lia. }
  exists new, gone. split; [by apply (ran_trans [] [(t, r)] new gone _ s1)|done].
Qed.

Lemma pop_complete_bind t r ts s (Q : S → Prop) :
  ts_wf (tms s) → process_ok s → rightly t r s → ts_wf ts → tms s ≡ₚ t :: ts →
  (∀ s' new gone, ran new ((t, r) :: gone) s s' → Forall cancelled gone → Q s') →
  wp fatal (timer_complete t r) (set_driver (set_timers ts (driver s)) s) (λ _ s', Q s').
Proof.
  intros Hw Hok Hri Hw' Hp HQ.
  refine (wp_mono _ _ _ _ _ (pop_complete_spec t r ts s Hw Hok Hri Hw' Hp : wp fatal (timer_complete t r)
    (set_driver (set_timers ts (driver s)) s) _) _).
  intros ? s' (new & gone & ? & ?). eauto.
Qed.

(** ** Running expired timers *)

(** [run_timers] with the reading [now]: exactly the expired timers are
    completed, and the timeout is that of the first one left. *)
Record timers_ran (now : Z) (s : S) (timeout : Z) (s' : S) : Prop := {
  tr_ran : ∃ new gone, ran new gone s s' ∧
    Forall (λ p, cancelled p ∨ (p.2 = Ok tt ∧ expire p.1 ≤ now)) gone;
  tr_left : ∀ t, t ∈ tms s' → now < expire t;
  tr_due : (∃ t, t ∈ tms s ∧ expire t ≤ now) → (timer_supply s' < timer_supply s)%nat;
  tr_timeout : ∃ now', now ≤ now' ≤ now_of s' ∧
    timeout = match tms s' with [] => one_hour | t :: _ => saturating_sub (expire t) now' end
}.

Lemma run_timers_loop_spec fuel now b s :
  ts_wf (tms s) → process_ok s → now ≤ now_of s → (timer_supply s ≤ fuel)%nat →
  wp fatal (run_timers_loop fuel now b) s (λ timeout s', timers_ran now s timeout s').
Proof.
  revert b s. induction fuel as [|fuel IH]; intros b s Hw Hok Hn Hf;
    unfold Driver.run_timers_loop; try fold run_timers_loop; unfold gets_driver; wp_steps;
    destruct (tms s) as [|t ts] eqn:Ets; simpl.
  1, 3: wp_steps; split; [exists [], []; split; [apply ran_refl; by rewrite ?Ets|done]
    |rewrite Ets; set_solver|rewrite Ets; set_solver|exists now; rewrite Ets; split; [lia|done]].
  1: unfold timer_supply in Hf; rewrite Ets in Hf; simpl in Hf; lia.
  destruct (Z.ltb_spec now (expire t)) as [Hlt|Hge].
  - wp_steps. assert (∀ x, x ∈ t :: ts → now < expire x) as Hleft.
    { intros x Hx. pose proof (ts_first_least t ts x Hw Hx). lia. }
    assert (¬ ∃ x, x ∈ tms s ∧ expire x ≤ now) as Hnone.
    { intros (x & Hx & ?). rewrite Ets in Hx. specialize (Hleft x Hx). lia. }
    destruct b.
    + eapply wp_mono; [apply time_spec; by rewrite ?Ets|]. intros v s' (-> & Hr & Hd & _). wp_steps.
      split; [by exists [], []|rewrite Hd, Ets; done|done|].
      exists (now_of s'). rewrite Hd, Ets. destruct Hr. split; [lia|done].
    + wp_steps. split; [exists [], []; split; [apply ran_refl; by rewrite ?Ets|done]
        |by rewrite Ets|done|exists now; rewrite Ets; split; [lia|done]].
  - wp_steps. simpl. unfold modify_driver. wp_steps. inversion Hw as [|? ? Hw' _]; subst.
    apply pop_complete_bind; [by rewrite Ets|done|simpl; lia|done|by rewrite Ets|].
    intros s' new gone Hr Hc. pose proof (ran_now _ _ _ _ Hr).
    pose proof (ran_supply _ _ _ _ Hr) as Hs. simpl in Hs.
    eapply wp_mono; [apply IH; [apply Hr|apply Hr|lia|lia]|].
    intros v s'' [(n2 & g2 & Hr2 & Hg2) Hl _ Ht].
    split; [| |intros _; destruct Hr2; lia|]; [|done..].
    exists (new ++ n2), ((t, Ok tt) :: gone ++ g2).
    split; [by apply (ran_trans _ ((t, Ok tt) :: gone) _ _ _ s')|].
    constructor; [by right|]. apply Forall_app. split; [|done].
    eapply list.Forall_impl; [exact Hc|]. by left.
Qed.

Lemma run_timers_spec fuel s :
  ts_wf (tms s) → process_ok s → (timer_supply s ≤ fuel)%nat →
  wp fatal (run_timers fuel) s (λ timeout s',
    ∃ now, now_of s ≤ now ∧ timers_ran now s timeout s').
Proof.
  intros Hw Hok Hf. unfold Driver.run_timers. wp_steps.
  eapply wp_mono; [by apply time_spec|]. intros v s1 (-> & Hr & Hd & _).
  pose proof (ran_supply _ _ _ _ Hr) as Hs. pose proof (ran_now _ _ _ _ Hr). simpl in Hs.
  eapply wp_mono; [apply run_timers_loop_spec; [by rewrite Hd|apply Hr|lia|lia]|].
  intros timeout s' [(new & gone & Hr' & Hg) Hl Hdue Ht]. exists (now_of s1). split; [done|].
  split; [|done| |done].
  - exists new, gone. split; [|done]. by apply (ran_trans [] [] _ _ _ s1).
  - intros Hx. rewrite <- Hd in Hx. specialize (Hdue Hx). lia.
Qed.

(** With no timer there is an hour to wait. *)
Lemma run_timers_idle fuel s :
  tms s = [] → process_ok s →
  wp fatal (run_timers fuel) s (λ timeout s',
    timeout = one_hour ∧ ran [] [] s s' ∧ driver s' = driver s ∧ ready s').
Proof.
  intros Hts Hok. unfold Driver.run_timers. wp_steps.
  eapply wp_mono; [apply time_spec; [rewrite Hts; constructor|done]|].
  intros v s1 (-> & Hr & Hd & Hready).
  destruct fuel; unfold Driver.run_timers_loop, gets_driver; wp_steps; rewrite Hd, Hts; by wp_steps.
Qed.

(** ** Shutdown *)

(** Completions of a shutdown: cancelled by the task, or told to shut down. *)
Definition shut_down (p : Timeout * Result unit) : Prop :=
  cancelled p ∨ p.2 = Err shutdown_error.

Lemma exit_timers_spec fuel s :
  ts_wf (tms s) → process_ok s → exiting (driver s) = true → (timer_supply s ≤ fuel)%nat →
  wp fatal (exit_timers fuel) s (λ _ s',
    tms s' = [] ∧ ∃ gone, ran [] gone s s' ∧ Forall shut_down gone).
Proof.
  revert s. induction fuel as [|fuel IH]; intros s Hw Hok He Hf;
    unfold Driver.exit_timers; try fold exit_timers; unfold gets_driver; wp_steps;
    destruct (tms s) as [|t ts] eqn:Ets; simpl.
  1, 3: wp_steps; split; [done|]; exists []; split; [apply ran_refl; by rewrite ?Ets|done].
  1: unfold timer_supply in Hf; rewrite Ets in Hf; simpl in Hf; lia.
  wp_steps. simpl. unfold modify_driver. wp_steps. inversion Hw as [|? ? Hw' _]; subst.
  apply pop_complete_bind; [by rewrite Ets|done|by right|done|by rewrite Ets|].
  intros s' new gone Hr Hc. pose proof (ran_supply _ _ _ _ Hr) as Hs. simpl in Hs.
  destruct (ran_moved _ _ _ _ Hr) as [Hw1 He1 Hn1 _ _].
  rewrite (Hn1 He) in Hr.
  eapply wp_mono; [apply IH; [done|apply Hr|congruence|lia]|]. intros _ s'' (Hts & g2 & Hr2 & Hg2).
  split; [done|]. eexists. split; [exact (ran_trans _ _ _ _ _ _ _ Hr Hr2)|].
  apply Forall_app. split; [|done]. constructor; [by right|].
  eapply list.Forall_impl; [exact Hc|]. by left.
Qed.

Context {io_engine : EngineImpl S} `{!EngineLaws fatal io_engine}.

Lemma park_spec timeout s :
  0 ≤ timeout → ts_wf (tms s) → process_ok s →
  wp fatal (park timeout) s (λ _ s', ∃ new gone, ran new gone s s' ∧ Forall cancelled gone).
Proof.
  intros Ht Hw Hok. unfold park. wp_steps. eapply wp_mono; [by apply work_law|].
  intros [u|e] s' Hu; wp_steps; simpl; [by apply used_ran|done].
Qed.

Lemma park_drains timeout s :
  0 < timeout → ts_wf (tms s) → process_ok s → ready s → exiting (driver s) = true →
  has_work s = true →
  wp fatal (park timeout) s (λ _ s', (outstanding s' < outstanding s)%nat).
Proof.
  intros Ht Hw Hok Hr He Hh. unfold park. wp_steps.
  eapply wp_mono; [by apply drain_law|]. intros [u|e] s' Ho; by wp_steps.
Qed.

(** With no timer left and none coming, only the clock and the engine move. *)
Lemma ran_nothing new gone s s' :
  ran new gone s s' → tms s = [] → exiting (driver s) = true → new = [] ∧ gone = [] ∧ tms s' = [].
Proof.
  intros [[_ _ Hn _ Ht] _ _ _ _] Hts He. rewrite (Hn He), Hts in *.
  simpl in Ht. apply Permutation_nil_r, app_nil in Ht as [? Hg]. by apply map_eq_nil in Hg.
Qed.

Lemma exit_engine_spec fuel tfuel s :
  tms s = [] → process_ok s → exiting (driver s) = true → (outstanding s < fuel)%nat →
  wp fatal (exit_engine fuel tfuel) s (λ _ s', tms s' = [] ∧ ran [] [] s s' ∧ has_work s' = false).
Proof.
  revert s. induction fuel as [|fuel IH]; intros s Hts Hok He Hf; [lia|].
  unfold Driver.exit_engine; fold exit_engine. wp_steps.
  eapply wp_mono; [by apply run_timers_idle|]. intros timeout s1 (-> & Hr1 & Hd1 & Hready). wp_steps.
  assert (ts_wf (tms s1)) as Hw1 by (rewrite Hd1, Hts; constructor).
  assert (process_ok s1) as Hok1 by apply Hr1. rewrite <- Hd1 in Hts, He.
  destruct (has_work s1) eqn:Eh; simpl; [|by wp_steps].
  wp_steps. eapply wp_mono; [apply wp_conj; [by apply park_spec|by apply park_drains]|].
  intros _ s2 [(n2 & g2 & Hr2 & _) Ho].
  destruct (ran_nothing _ _ _ _ Hr2 Hts He) as (-> & -> & Hts2).
  pose proof (ran_trans _ _ _ _ _ _ _ Hr1 Hr2) as Hr12. simpl in Hr12.
  pose proof (ran_outstanding _ _ _ _ Hr1).
  eapply wp_mono; [apply IH; [done|apply Hr2| |lia]|].
  - by rewrite (mv_exiting _ _ _ _ (ran_moved _ _ _ _ Hr2)).
  - intros _ s' (Ht & Hr & Hh). split_and!; try done. exact (ran_trans _ _ _ _ _ _ _ Hr12 Hr).
Qed.

Lemma set_exiting_ran b s :
  let s' := set_driver (set_exiting b (driver s)) s in
  tms s' = tms s ∧ timer_supply s' = timer_supply s ∧ outstanding s' = outstanding s.
Proof.
  unfold timer_supply. cbn zeta. by rewrite driver_set, budget_set, outstanding_set.
Qed.

(** The shutdown: every timer is completed and the engine has no work left. *)
Record shutdown (s s' : S) : Prop := {
  sd_timers : tms s' = [];
  sd_exiting : exiting (driver s') = false;
  sd_work : has_work s' = false;
  sd_fired : ∃ gone, fired (driver s') = fired (driver s) ++ gone ∧ map fst gone ≡ₚ tms s ∧
    Forall shut_down gone;
  sd_ok : process_ok s';
  sd_outstanding : (outstanding s' ≤ outstanding s)%nat
}.

Lemma exit_spec fuel tfuel s :
  ts_wf (tms s) → process_ok s → (timer_supply s ≤ tfuel)%nat → (outstanding s < fuel)%nat →
  wp fatal (exit fuel tfuel) s (λ _ s', shutdown s s').
Proof.
  intros Hw Hok Hs Ho. unfold Driver.exit, modify_driver. wp_steps.
  set (s0 := set_driver _ s). destruct (set_exiting_ran true s) as (Ht0 & Hs0 & Ho0).
  fold s0 in Ht0, Hs0, Ho0. assert (exiting (driver s0) = true) as He0 by (unfold s0; by rewrite driver_set).
  assert (fired (driver s0) = fired (driver s)) as Hf0 by (unfold s0; by rewrite driver_set).
  eapply wp_mono; [apply exit_timers_spec; [by rewrite Ht0|by apply ok_set|done|lia]|].
  intros _ s1 (Ht1 & gone & Hr1 & Hg). pose proof (ran_outstanding _ _ _ _ Hr1).
  destruct (ran_moved _ _ _ _ Hr1) as [_ He1 _ Hf1 Hp1].
  wp_steps. eapply wp_mono; [apply exit_engine_spec; [done|apply Hr1|congruence|lia]|].
  intros _ s2 (Ht2 & Hr2 & Hh2). wp_steps.
  constructor; rewrite ?driver_set, ?has_work_set, ?outstanding_set; simpl; try done.
  - exists gone. split_and!; [|by rewrite Ht1, Ht0, app_nil_r in Hp1|done].
    rewrite (mv_fired _ _ _ _ (ran_moved _ _ _ _ Hr2)), Hf1, Hf0. by rewrite app_nil_r.
  - apply ok_set, Hr2.
  - destruct Hr2. lia.
Qed.

(** C7: the shutdown terminates.  It completes every pending timer exactly once,
    with the shutdown error unless its task cancelled it first; no timer is
    queued meanwhile, the engine is run until it has no work left, and the
    driver can be used again afterwards. *)
Theorem exit_completes_all fuel tfuel s :
  ts_wf (tms s) → process_ok s → (timer_supply s ≤ tfuel)%nat → (outstanding s < fuel)%nat →
  wp fatal (exit fuel tfuel) s (λ _ s',
    tms s' = [] ∧ exiting (driver s') = false ∧ has_work s' = false ∧
    ∃ gone, fired (driver s') = fired (driver s) ++ gone ∧ map fst gone ≡ₚ tms s ∧
      Forall shut_down gone).
Proof. intros. eapply wp_mono; [by apply exit_spec|]. by intros _ s' []. Qed.

(** C8: [run_timers] terminates; it completes no timer before its time, leaves no
    timer behind whose time had come when it read the clock, loses none and
    completes none twice, and returns a timeout that does not outlast the first
    timer left (an hour when there is none). *)
Theorem run_timers_exact fuel s :
  ts_wf (tms s) → process_ok s → (timer_supply s ≤ fuel)%nat →
  wp fatal (run_timers fuel) s (λ timeout s',
    ∃ now, now_of s ≤ now ∧ timers_ran now s timeout s').
Proof. apply run_timers_spec. Qed.

(** Cancelling completes the timer that is pending with the interruption
    error before anything else happens to the set; a timer that is not pending
    (any more) is reported as not found and nothing changes. *)
Theorem cancel_timer_exact t s :
  ts_wf (tms s) → process_ok s →
  wp fatal (cancel_timer timer_callback t) s (λ r s',
    if bool_decide (t ∈ tms s) then
      r = Ok tt ∧ ∃ new gone, ran new ((t, Err (ErrKind Interrupted)) :: gone) s s' ∧
        Forall cancelled gone
    else r = Err (ErrKind NotFound) ∧ s' = s).
Proof.
  intros Hw Hok. unfold cancel_timer, gets_driver, ts_take. wp_steps.
  case_bool_decide as Ht; [|by wp_steps]. wp_steps. unfold modify_driver. wp_steps.
  apply pop_complete_bind; [done|done|by left|by apply ts_remove_wf|by apply ts_remove_perm|].
  intros s' new gone Hr Hc. wp_steps. split; [done|]. by exists new, gone.
Qed.

Lemma timeout_spec e flags r s :
  ts_wf (tms s) → process_ok s →
  (flags_intersects flags Abs = false → ∀ v s', clock s = Ret (Ok v, s') → e + v < 2 ^ 64) →
  0 ≤ e → 0 ≤ now_of s →
  wp fatal (timeout clock e flags r) s (λ p s',
    if exiting (driver s) then p = TimerDone (Err shutdown_error) ∧ s' = s
    else ∃ t, p = TimerPending t ∧ request t = r ∧
      expire t = (if flags_intersects flags Abs then e else e + now_of s') ∧
      ts_wf (tms s') ∧ (∀ x, x ∈ tms s' ↔ x = t ∨ x ∈ tms s) ∧
      process_ok s' ∧ now_of s ≤ now_of s').
Proof.
  intros Hw Hok Hov He Hn. unfold timeout, check_exiting, gets_driver. wp_steps.
  destruct (exiting (driver s)); simpl; wp_steps; [done|].
  destruct (flags_intersects flags Abs) eqn:Ef; simpl; wp_steps;
    unfold queue_timer, modify_driver.
  - wp_steps. exists (mkTimeout e r). rewrite driver_set. simpl. split_and!; try done.
    + by apply ts_insert_wf.
    + intros x. by apply ts_insert_elem.
    + by apply ok_set.
    + rewrite now_set. lia.
  - unfold nanotime. wp_steps. eapply wp_mono; [by apply wp_eq, clock_law|].
    intros v s' [E (-> & Hnow & Hd & _ & _ & Hok' & _)]. apply Hov in E; [|done]. wp_steps. unfold checked_u.
    rewrite fits_u_true by (unfold in_u; lia). simpl. wp_steps.
    exists (mkTimeout (e + now_of s') r). rewrite driver_set, Hd, now_set. simpl.
    split_and!; try done; [by apply ts_insert_wf| |by apply ok_set].
    intros x. by apply ts_insert_elem.
Qed.

(** A timeout is refused while the driver exits; otherwise one timer for the
    request is queued, at the given time or at the given distance from now, the
    others stay, and the set stays ordered. *)
Theorem timeout_queues_timer e flags r s :
  ts_wf (tms s) → process_ok s →
  (flags_intersects flags Abs = false → ∀ v s', clock s = Ret (Ok v, s') → e + v < 2 ^ 64) →
  0 ≤ e → 0 ≤ now_of s →
  wp fatal (timeout clock e flags r) s (λ p s',
    if exiting (driver s) then p = TimerDone (Err shutdown_error) ∧ s' = s
    else ∃ t, p = TimerPending t ∧ request t = r ∧
      expire t = (if flags_intersects flags Abs then e else e + now_of s') ∧
      ts_wf (tms s') ∧ (∀ x, x ∈ tms s' ↔ x = t ∨ x ∈ tms s)).
Proof.
  intros. eapply wp_mono; [by apply timeout_spec|]. intros p s'. destruct (exiting (driver s)); [done|].
  intros (t & ? & ? & ? & ? & ? & _). by exists t.
Qed.

(** A relative timeout that does not fit in 64 bits of nanoseconds panics,
    and nothing is queued. *)
Theorem timeout_overflow_panics e flags r v s s' :
  exiting (driver s) = false → flags_intersects flags Abs = false →
  clock s = Ret (Ok v, s') → 2 ^ 64 ≤ e + v →
  timeout clock e flags r s = Panic.
Proof.
  intros He Hf Hc Hv. unfold timeout, check_exiting, gets_driver, nanotime.
  unfold mbind, M_bind, gets, mret, M_ret, lift. rewrite He, Hf. simpl. rewrite Hc. simpl.
  unfold checked_u. rewrite fits_u_false by (unfold in_u; lia). done.
Qed.

(** The first timer that is left will be due: now, or when the wait is over. *)
Lemma timers_ran_due now s timeout s1 :
  timers_ran now s timeout s1 → tms s1 ≠ [] →
  0 ≤ timeout ∧ ∃ t, t ∈ tms s1 ∧ expire t ≤ now_of s1 + timeout.
Proof.
  intros [_ _ _ (now' & Hn & ->)] Hne. destruct (tms s1) as [|t ts]; [done|].
  unfold saturating_sub. split; [lia|]. exists t. split; [left|lia].
Qed.

(** Rounds of [block_while] that may be left: one for each unit of work and each
    timer, and one to wait for the first timer unless it is due. *)
Definition due (s : S) : Prop := ∃ t, t ∈ tms s ∧ expire t ≤ now_of s.

Definition rounds (s : S) (n : nat) : Prop :=
  (outstanding s + timer_supply s + 1 < n)%nat ∨ (due s ∧ (outstanding s + timer_supply s < n)%nat).

(** A unit of work makes progress: the work that is left gets less, or the wait lasts
    as long as it may when there is a timer to wait for. *)
Definition progressed (timeout : Z) (s s' : S) : Prop :=
  (outstanding s' < outstanding s)%nat ∨ (tms s ≠ [] ∧ now_of s + timeout ≤ now_of s').

(** A round in which the engine worked, or time passed up to the first timer. *)
Lemma rounds_next now s timeout s1 s2 new gone fuel :
  rounds s (Datatypes.S fuel) → timers_ran now s timeout s1 → now_of s ≤ now →
  ran new gone s1 s2 → progressed timeout s1 s2 →
  rounds s2 fuel.
Proof.
  intros Hf Htr Hn Hr Hd. pose proof Htr as [(n1 & g1 & Hr1 & _) _ Hdue _].
  pose proof (ran_outstanding _ _ _ _ Hr1). pose proof (ran_outstanding _ _ _ _ Hr).
  pose proof (ran_supply _ _ _ _ Hr1). pose proof (ran_supply _ _ _ _ Hr) as Hs2.
  assert (rounds s (Datatypes.S fuel) → (outstanding s1 + timer_supply s1 < fuel)%nat) as Hsum.
  { intros [?|[(t & Ht & He) ?]]; [lia|].
    assert (timer_supply s1 < timer_supply s)%nat by (apply Hdue; exists t; split; [done|lia]). lia. }
  specialize (Hsum Hf). destruct Hd as [Hd|[Hne Htime]]; [left; lia|].
  destruct (timers_ran_due _ _ _ _ Htr Hne) as (_ & t & Ht & He).
  destruct (decide (t ∈ tms s2)) as [Ht2|Ht2].
  - right. split; [exists t; split; [done|lia]|lia].
  - left. enough (1 ≤ length gone)%nat by lia.
    destruct (ran_moved _ _ _ _ Hr) as [_ _ _ _ Hp].
    assert (t ∈ tms s2 ++ map fst gone) as [?|Hg]%elem_of_app
      by (rewrite Hp; apply elem_of_app; by left); [done|].
    destruct gone; [by apply not_elem_of_nil in Hg|simpl; lia].
Qed.

Lemma block_while_spec block fuel tfuel s :
  (∀ timeout s0, 0 ≤ timeout → (timeout = 0 → tms s0 ≠ []) → process_ok s0 → block s0 = true →
    wp fatal (work timeout) s0 (λ r s1,
      match r with Ok _ => block s1 = false ∨ progressed timeout s0 s1 | Err _ => fatal end)) →
  ts_wf (tms s) → process_ok s → (timer_supply s ≤ tfuel)%nat →
  (outstanding s + timer_supply s + 1 < fuel)%nat →
  wp fatal (block_while clock timer_callback fuel tfuel block) s (λ _ s',
    block s' = false ∧ ∃ new gone, ran new gone s s').
Proof.
  intros Hprog Hw Hok Hs Ho. assert (rounds s fuel) as Hf by by left. clear Ho. revert s Hw Hok Hs Hf.
  induction fuel as [|fuel IH]; intros s Hw Hok Hs Hf; [destruct Hf; lia|].
  unfold block_while; fold (block_while clock timer_callback). wp_steps.
  eapply wp_mono; [by apply run_timers_spec|]. intros timeout s1 (now & Hnow & Htr).
  pose proof Htr as [(n1 & g1 & Hr1 & _) _ _ (now' & _ & Hto)]. wp_steps.
  destruct (block s1) eqn:Eb; simpl; [|wp_steps; split; [done|by exists n1, g1]].
  pose proof (ran_moved _ _ _ _ Hr1) as [Hw1 _ _ _ _]. assert (process_ok s1) as Hok1 by apply Hr1.
  assert (0 ≤ timeout) as Ht0.
  { rewrite Hto. destruct (tms s1); [done|unfold saturating_sub; lia]. }
  assert (timeout = 0 → tms s1 ≠ []) as Hzero by (rewrite Hto; by destruct (tms s1)).
  wp_steps. unfold park. wp_steps.
  eapply wp_mono; [apply wp_conj; [by apply work_law|by apply Hprog]|].
  intros [u|e] s2 [Hu Hd]; [|by wp_steps]. wp_steps. simpl. wp_steps.
  destruct (used_ran _ _ Hu Hw1) as (n2 & g2 & Hr2 & _).
  pose proof (ran_trans _ _ _ _ _ _ _ Hr1 Hr2) as Hr12. pose proof (ran_supply _ _ _ _ Hr12).
  destruct (block s2) eqn:Eb2; simpl; [|wp_steps; split; [done|by eexists _, _]].
  destruct Hd as [|Hd]; [done|].
  eapply wp_mono; [apply IH; [apply Hr12|apply Hr12|lia|by eapply rounds_next]|].
  intros _ s' (Hb & n3 & g3 & Hr3). split; [done|].
  eexists _, _. exact (ran_trans _ _ _ _ _ _ _ Hr12 Hr3).
Qed.
(** [block_while] returns once the condition is false, provided that a unit of
    work makes progress while it is not: the work that is left gets less, or the
    wait lasts as long as it may when there is a timer to wait for.  Timers are run
    before every wait, and none is lost or completed twice. *)
Theorem block_while_returns block fuel tfuel s :
  (∀ timeout s0, 0 ≤ timeout → (timeout = 0 → tms s0 ≠ []) → process_ok s0 → block s0 = true →
    wp fatal (work timeout) s0 (λ r s1,
      match r with Ok _ => block s1 = false ∨ progressed timeout s0 s1 | Err _ => fatal end)) →
  ts_wf (tms s) → process_ok s → (timer_supply s ≤ tfuel)%nat →
  (outstanding s + timer_supply s + 1 < fuel)%nat →
  wp fatal (block_while clock timer_callback fuel tfuel block) s (λ _ s',
    block s' = false ∧ ∃ new gone, ran new gone s s').
Proof. apply block_while_spec. Qed.
End Running.

(** ** The calls of the driver

    [calls m s t r s']: the code [m] of the driver, started in [s], calls the request of
    the timer [t] with the result [r] in the state [s'].  It is observed with a breakpoint:
    a callback that stops the run at just this call and is the process's own otherwise. *)

Section Calls.
Context {S : Type} `{DriverState S} `{!ProcessModel S} (fatal : Prop).
Context (clock : M S (OsResult Z)) (timer_callback : Timeout → Result unit → M S unit).
Context `{!ProcessLaws fatal clock timer_callback}.

Local Abbreviation Callback := (Timeout → Result unit → M S unit).

Definition breakpoint (t : Timeout) (r : Result unit) (s' : S) (cb : Callback) : Prop :=
  cb t r s' = Panic ∧
  ∀ t0 r0 s0, ¬ (t0 = t ∧ r0 = r ∧ s0 = s') → cb t0 r0 s0 = timer_callback t0 r0 s0.

Definition calls {A} (m : Callback → M S A) (s : S) (t : Timeout) (r : Result unit) (s' : S) :
    Prop :=
  ∃ cb, breakpoint t r s' cb ∧ m cb s = Panic.

(** A callback with a breakpoint at a call that is not right is as good as the process's. *)
Lemma breakpoint_laws t r s' cb :
  breakpoint t r s' cb → ¬ rightly t r s' → ProcessLaws fatal clock cb.
Proof.
  intros [_ Hcb] Hn. constructor; try by apply (ProcessLaws0).
  intros t0 r0 s0 Hw Hok Hr. unfold wp. rewrite Hcb; [by apply callback_law|].
  by intros (-> & -> & ->).
Qed.

(** So code that is right with every such callback makes the right calls only. *)
Lemma calls_rightly {A} (m : Callback → M S A) s t r s' (Q : Callback → A → S → Prop) :
  (∀ cb, ProcessLaws fatal clock cb → wp fatal (m cb) s (Q cb)) →
  calls m s t r s' → rightly t r s'.
Proof.
  intros Hm (cb & Hb & E). destruct (decide (rightly t r s')) as [|Hn]; [done|exfalso].
  specialize (Hm cb (breakpoint_laws _ _ _ _ Hb Hn)). unfold wp in Hm. by rewrite E in Hm.
Qed.

(** The code of the driver that calls the requests of timers: running the expired ones,
    cancelling one, and the shutdown. *)
Inductive driver_calls (s : S) (t : Timeout) (r : Result unit) (s' : S) : Prop :=
| by_run_timers fuel :
    (timer_supply s ≤ fuel)%nat → calls (λ cb, run_timers clock cb fuel) s t r s' →
    driver_calls s t r s'
| by_cancel_timer x :
    calls (λ cb, cancel_timer cb x) s t r s' → driver_calls s t r s'
| by_exit fuel :
    exiting (driver s) = true → (timer_supply s ≤ fuel)%nat →
    calls (λ cb, exit_timers cb fuel) s t r s' → driver_calls s t r s'.

(** The driver calls a timer's request successfully only when its time has come, and
    otherwise with the error of a cancellation or of the shutdown. *)
Lemma driver_calls_rightly s t r s' :
  ts_wf (timers (driver s)) → process_ok s → driver_calls s t r s' → rightly t r s'.
Proof.
  intros Hw Hok [fuel Hf Hc|x Hc|fuel He Hf Hc].
  - eapply calls_rightly; [|exact Hc]. intros cb Hl. by apply run_timers_spec.
  - eapply calls_rightly; [|exact Hc]. intros cb Hl. by apply (cancel_timer_exact fatal clock cb).
  - eapply calls_rightly; [|exact Hc]. intros cb Hl. by apply (exit_timers_spec fatal clock cb).
Qed.
End Calls.

(** ** A process on which the theorems apply

    The engine has some units of work left, the clock advances with every
    reading, and a completed timer queues another one while it may. *)

Module SimProcess.
Record Process : Type := mkProcess {
  p_driver : Driver;
  p_now : Z;
  p_budget : nat;
  p_work : nat
}.

#[export] Instance process_driver : DriverState Process := {|
  driver := p_driver;
  set_driver := λ d p, mkProcess d (p_now p) (p_budget p) (p_work p);
  driver_set := λ d p, eq_refl
|}.

(** With nothing left to do, waiting takes its time. *)
Definition do_work (timeout : Z) (p : Process) : Process :=
  match p_work p with
  | O => mkProcess (p_driver p) (p_now p + timeout) (p_budget p) O
  | Datatypes.S n => mkProcess (p_driver p) (p_now p) (p_budget p) n
  end.

#[export] Instance process_engine : EngineImpl Process := {|
  has_work := λ p, negb (Nat.eqb (p_work p) 0);
  work := λ timeout p, Ret (Ok tt, do_work timeout p);
  prepare_wake := mret (Ok tt);
  wake := λ _, mret (Ok tt);
  start_work := λ work _, work;; mret 0;
  cancel_work := λ _, mret tt;
  cancel := λ _, mret (Ok tt);
  start := λ _ _, mret None;
  kind := λ _ _, Async
|}.

#[export] Instance process_model : ProcessModel Process := {|
  now_of := p_now;
  budget := p_budget;
  outstanding := p_work;
  process_ok := λ p, 0 ≤ p_now p;
  ready := λ _, True
|}.

Definition tick : M Process (OsResult Z) := λ p,
  Ret (Ok (p_now p + 1), mkProcess (p_driver p) (p_now p + 1) (p_budget p) (p_work p)).

Definition spend : M Process unit :=
  modify (λ p, mkProcess (p_driver p) (p_now p) (pred (p_budget p)) (p_work p)).

(** A completed timer queues another one, ten nanoseconds later. *)
Definition again (t : Timeout) (r : Result unit) : M Process unit :=
  b ← gets p_budget;
  match b with
  | O => mret tt
  | Datatypes.S _ =>
      spend;;
      timeout tick (expire t + 10) Abs (request t + 1);;
      mret tt
  end.

Definition process : Process :=
  mkProcess (mkDriver [mkTimeout 50 1; mkTimeout 100 2; mkTimeout 100 3] false []) 100 2 3.

Lemma process_wf : ts_wf (timers (driver process)).
Proof. repeat constructor. Qed.

Lemma length_ts_insert t ts : (length (ts_insert t ts) ≤ Datatypes.S (length ts))%nat.
Proof.
  induction ts as [|x ts IH]; simpl; [lia|].
  destruct (timeout_lt t x); simpl; [lia|]. destruct (timeout_lt x t); simpl; lia.
Qed.

Lemma again_used t r p :
  process_ok p → wp False (again t r) p (λ _ p', used p p').
Proof.
  intros Hok. unfold again, spend. wp_steps.
  destruct p as [d n b k]. simpl in *. destruct b as [|b].
  { wp_steps. by constructor; [apply rtc_refl|lia..|]. }
  wp_steps. unfold timeout, check_exiting, gets_driver, queue_timer, modify_driver. wp_steps.
  simpl. destruct (exiting d) eqn:Ed; simpl; wp_steps;
    constructor; unfold timer_total, timer_supply; simpl; try lia.
  - apply rtc_refl.
  - by apply rtc_once, step_queue.
  - pose proof (length_ts_insert (mkTimeout (expire t + 10) (request t + 1)) (timers d)). lia.
Qed.

#[export] Instance process_laws : ProcessLaws False tick again.
Proof.
  constructor; try done.
  - intros p Hok. split_and!; simpl in *; (done || lia).
  - intros t r p _ Hok _. by apply again_used.
Qed.

#[export] Instance engine_laws : EngineLaws False process_engine.
Proof.
  constructor; [done|..].
  - intros timeout [d n b [|k]] Ht _ Hok; unfold wp; simpl in *;
      (constructor; [apply rtc_refl|unfold timer_total, timer_supply; simpl; lia..]).
  - intros timeout [d n b [|k]] _ _ _ _ _ Hw; [done|]. unfold wp. simpl. lia.
Qed.
End SimProcess.

Import SimProcess.

Lemma exit_completes_all_witness :
  wp False (exit tick again 4 5) process (λ _ s',
    timers (driver s') = [] ∧ exiting (driver s') = false ∧ has_work s' = false ∧
    ∃ gone, fired (driver s') = fired (driver process) ++ gone ∧
      map fst gone ≡ₚ timers (driver process) ∧ Forall shut_down gone).
Proof.
  apply (exit_completes_all False tick again); [apply process_wf|done|done|simpl; lia].
Defined.

Lemma run_timers_exact_witness :
  wp False (run_timers tick again 5) process (λ timeout s',
    ∃ now, now_of process ≤ now ∧ timers_ran now process timeout s').
Proof.
  apply (run_timers_exact False tick again); [apply process_wf|done|done].
Defined.

Lemma cancel_timer_exact_witness :
  wp False (cancel_timer again (mkTimeout 100 2)) process (λ r s',
    if bool_decide (mkTimeout 100 2 ∈ timers (driver process)) then
      r = Ok tt ∧ ∃ new gone,
        ran new ((mkTimeout 100 2, Err (ErrKind Interrupted)) :: gone)
          process s' ∧ Forall cancelled gone
    else r = Err (ErrKind NotFound) ∧ s' = process).
Proof.
  apply (cancel_timer_exact False tick again); [apply process_wf|done].
Defined.

Lemma timeout_queues_timer_witness :
  wp False (timeout tick 7 0 9) process (λ p s',
    if exiting (driver process) then p = TimerDone (Err shutdown_error) ∧ s' = process
    else ∃ t, p = TimerPending t ∧ request t = 9 ∧
      expire t = (if flags_intersects 0 Abs then 7 else 7 + now_of s') ∧
      ts_wf (timers (driver s')) ∧
      (∀ x, x ∈ timers (driver s') ↔ x = t ∨ x ∈ timers (driver process))).
Proof.
  apply (timeout_queues_timer False tick again 7 0 9 process).
  - apply process_wf.
  - discriminate.
  - intros _ v s' E. injection E as <- _. reflexivity.
  - discriminate.
  - discriminate.
Defined.

Lemma timeout_overflow_panics_witness : timeout tick (2 ^ 64 - 101) 0 9 process = Panic.
Proof.
  apply (timeout_overflow_panics tick (2 ^ 64 - 101) 0 9 101 process
    (mkProcess (driver process) 101 2 3)); (reflexivity || discriminate).
Defined.

(** Until the work is done and the timers have run out. *)
Definition unfinished (p : Process) : bool :=
  has_work p || negb (bool_decide (timers (driver p) = [])).

Lemma block_while_returns_witness :
  wp False (block_while tick again 10 5 unfinished) process (λ _ s',
    unfinished s' = false ∧ ∃ new gone, ran new gone process s').
Proof.
  apply (block_while_returns False tick again unfinished); [|apply process_wf|done|done|simpl; lia].
  intros timeout [d n b [|k]] _ _ _ Hb; unfold wp, progressed; simpl in *;
    right; [right|left; lia].
  split; [|lia]. intros E. unfold unfinished in Hb. simpl in Hb. by rewrite E in Hb.
Defined.
