(* ===== verification/System.v ===== *)
(** * The driver on io_uring

    The process as a whole: the world of the io_uring engine, whose rest contains the
    driver.  The engine keeps what it promises the driver ([EngineLaws]), for any
    callbacks that use the engine and the driver through their operations and a kernel
    that takes the timeout of a wait as an argument; so the shutdown of the driver
    delivers every request that was ever submitted and every wake that was announced. *)

From stdpp Require Import base list numbers relations tactics.
From S2P Require Import Prelude Op Queue Engine Uring UringSpec UringEngine UringProcess UringWork UringSim.
From S2P Require Import Driver DriverSpec.

(** What the process has outside of the engine: a driver, the time, and bounds on the
    timers, the wakes and the operations to come. *)
Class Outside (U : Type) : Type := {
  outside_driver :: DriverState U;
  outside_now : U → Z;
  timers_coming : U → nat;
  wakes_coming : U → nat;
  starts_coming : U → nat;
  now_outside : ∀ d u, outside_now (set_driver d u) = outside_now u;
  timers_outside : ∀ d u, timers_coming (set_driver d u) = timers_coming u;
  wakes_outside : ∀ d u, wakes_coming (set_driver d u) = wakes_coming u;
  starts_outside : ∀ d u, starts_coming (set_driver d u) = starts_coming u
}.

Section System.
Context {K U : Type} `{!KernelView K} `{!Outside U}.
Context (NO_OP event_request event_fd_raw : Z) (fatal : Prop) (submit_all : bool).
Context (io_uring_enter : EnterArgs → Z → K → Queue → OsResult Z * K * Queue).
Context (Hkernel : kernel_spec event_request fatal submit_all io_uring_enter).
Context (Hwaits : kernel_waits event_request io_uring_enter).
Context (default_entry : SubmissionEntry) (big_endian : bool).
Context (Hdefault : zeroed default_entry).
Context (syscall : SysCall → M (World K U) (OsResult Z)) (syscall_result : Z → OsResult Z).
Context (timespec_at : Z → Z).
Context (Hdistinct : NO_OP ≠ event_request).
Context (Hsyscall : ∀ c w, wp fatal (syscall c) w (λ _ w', ∃ u, w' = with_rest u w)).

(** The callbacks of requests, of wakes and of timers, and the clock. *)
Context (user_complete : ReqPtr → Z → M (World K U) unit).
Context (wake_complete : ReqPtr → M (World K U) unit).
Context (timer_callback : Timeout → Result unit → M (World K U) unit).
Context (clock : M (World K U) (OsResult Z)).
Context (wake_fuel : nat).
Context (submit_direct : Work (World K U) → ReqPtr → M (World K U) CancelWork).
Context (cancel_direct : CancelWork → M (World K U) unit).

Local Abbreviation W := (World K U).

(** The timers completed, pending and to come. *)
Definition total_outside (u : U) : nat :=
  (length (fired (driver u)) + (length (timers (driver u)) + timers_coming u))%nat.

(** The driver is used through its operations. *)
Definition timers_used (u u' : U) : Prop :=
  rtc timer_step (driver u) (driver u') ∧ outside_now u ≤ outside_now u' ∧
  (total_outside u' ≤ total_outside u)%nat.

#[export] Instance timers_used_order : PreOrder timers_used.
Proof.
  split.
  - intros u. split_and!; [apply rtc_refl|lia..].
  - intros u1 u2 u3 (? & ? & ?) (? & ? & ?). split_and!; [by etransitivity|lia..].
Qed.

Local Abbreviation callback := (callback NO_OP event_request event_fd_raw fatal submit_all
  io_uring_enter default_entry big_endian syscall timers_used wakes_coming starts_coming).
Local Abbreviation api_step := (api_step NO_OP event_request event_fd_raw io_uring_enter
  default_entry big_endian syscall).
Local Abbreviation spends := (spends timers_used wakes_coming starts_coming).
Local Abbreviation effort := (effort starts_coming).
Local Abbreviation promised := (promised wakes_coming).
Local Abbreviation engine_ok := (engine_ok event_request submit_all).
Local Abbreviation uring := (uring_engine false default_entry big_endian io_uring_enter syscall
  syscall_result NO_OP event_request event_fd_raw timespec_at user_complete wake_complete
  wake_fuel submit_direct cancel_direct).

(** ** The process *)

#[export, program] Instance world_driver : DriverState W := {|
  driver := λ w, driver (rest w);
  set_driver := λ d w, with_rest (set_driver d (rest w)) w
|}.
Next Obligation. intros d w. apply driver_set. Qed.

(** The engine is consistent, and every announced wake is queued or will come. *)
Record system_ok (w : W) : Prop := {
  sys_engine : engine_ok w;
  sys_supply : (supply wakes_coming w < wake_fuel)%nat;
  sys_promised : promised 0 w
}.

(** The kernel takes the timeout of a wait as an argument (IORING_ENTER_EXT_ARG, Linux
    5.11).  Without it the engine waits with [submit_and_wait_compat], of which the source
    says that the application may hang when it exits (engine.rs, 614-619). *)
Definition has_ext_arg (w : W) : Prop := feature_supported (features (engine w)) ExtArg = true.

(** The process, as the driver sees it from a world [start] on: consistent, on a kernel
    that can wait with a timeout, and no wake of [start] is lost. *)
Definition system_from (start w : W) : Prop := system_ok w ∧ has_ext_arg w ∧ conserved start w.

#[export] Instance world_model (start : W) : ProcessModel W := {|
  now_of := λ w, outside_now (rest w);
  budget := λ w, timers_coming (rest w);
  outstanding := λ w, Z.to_nat (effort w);
  process_ok := system_from start;
  ready := UringWork.ready
|}.

Lemma effort_nonneg w : engine_ok w → 0 ≤ effort w.
Proof.
  intros Hok. pose proof (open_count _ _ w Hok). destruct (open_counted _ _ w Hok) as (_ & ? & ? & ? & _).
  destruct Hok as (_ & _ & _ & [[_ ? _ _ _] _]). unfold UringWork.effort. lia.
Qed.

Lemma spends_used start n w w' :
  spends n w w' → 0 ≤ n → system_from start w' → used (ProcessModel0 := world_model start) w w'.
Proof.
  intros [Hs (? & ? & ?) He] Hn Hok. constructor; simpl; try done. lia.
Qed.

(** The code outside of the engine keeps the process consistent. *)
Lemma system_steps w w' :
  system_ok w → rtc (api_step 0) w w' → spends 0 w w' → keeps_promise wakes_coming 0 0 w w' →
  system_ok w'.
Proof.
  intros [He Hs Hp] Hsteps Hsp Hk. constructor.
  - apply (engine_ok_behaves event_request submit_all w); [done|].
    eapply api_steps_behave; [done..|apply He].
  - destruct Hsp. lia.
  - by apply Hk.
Qed.

Lemma system_from_steps start w w' :
  system_from start w → rtc (api_step 0) w w' → spends 0 w w' →
  keeps_promise wakes_coming 0 0 w w' → system_from start w'.
Proof.
  intros (Hok & Hx & Hc) Hsteps Hsp Hk.
  assert (behaves event_request submit_all 0 w w') as Hb
    by (eapply api_steps_behave; [done..|apply Hok]).
  split_and!; [by eapply system_steps| |].
  - destruct Hb as [[_ [_ _ _ _ _ Hf]] _ _]. unfold has_ext_arg in *. by rewrite Hf.
  - etransitivity; [exact Hc|]. destruct Hok as [(_ & _ & _ & Hw) _ _].
    by apply (conserved_behaves event_request submit_all false 0).
Qed.

(** Callbacks use the engine and the driver through their operations. *)
Context (Huser : ∀ r v, callback (user_complete r v)).
Context (Hwake : ∀ r, callback (wake_complete r)).
Context (Htimer : ∀ t r, callback (timer_callback t r)).

(** When the clock is read, time has passed, in which other threads and the kernel
    may have acted; and unless a wait may come to nothing, an announced wake has
    come, or a request other than the poll of the event descriptor is open. *)
Context (Hclock : ∀ w, system_ok w → wp fatal clock w (λ r w',
  r = Ok (outside_now (rest w')) ∧ outside_now (rest w) ≤ outside_now (rest w') ∧
  driver (rest w') = driver (rest w) ∧ timers_coming (rest w') = timers_coming (rest w) ∧
  rtc (api_step 0) w w' ∧ spends 0 w w' ∧ keeps_promise wakes_coming 0 0 w w' ∧
  UringWork.ready w')).

Lemma set_driver_frame d w :
  effort (set_driver d w) = effort w ∧ supply wakes_coming (set_driver d w) = supply wakes_coming w.
Proof.
  unfold UringWork.effort, supply. simpl. by rewrite starts_outside, wakes_outside.
Qed.

Lemma set_driver_from start d w : system_from start w → system_from start (set_driver d w).
Proof.
  intros ([He Hs Hp] & Hx & Hc). destruct (set_driver_frame d w) as [_ Hs'].
  split_and!; [|done|exact Hc]. constructor; [|lia|].
  - eapply engine_ok_behaves; [done|]. by apply with_rest_behaves, He.
  - unfold UringWork.promised in *. rewrite Hs'. exact Hp.
Qed.

#[export] Instance system_process start :
  ProcessLaws (ProcessModel0 := world_model start) fatal clock timer_callback.
Proof.
  constructor.
  - intros. apply now_outside.
  - intros. apply timers_outside.
  - intros d w. destruct (set_driver_frame d w) as [E _].
    change (Z.to_nat (effort (set_driver d w)) = Z.to_nat (effort w)). by rewrite E.
  - apply set_driver_from.
  - intros w Hok. eapply wp_mono; [apply Hclock, Hok|].
    intros r w' (-> & Hn & Hd & Hb & Hsteps & Hsp & Hk & Hr). split_and!; try done.
    + simpl. destruct Hsp. lia.
    + by apply (system_from_steps start w).
  - intros t r w _ Hok _. pose proof Hok as ([(Hi & _ & _ & Hw) _ _] & _).
    eapply wp_mono; [by apply (Htimer t r false 0%nat)|]. intros _ w' (Hsteps & Hsp & Hk).
    apply (spends_used start 0); [done..|]. by apply (system_from_steps start w).
Qed.

(** ** The engine keeps its promises *)

Local Abbreviation uring_work := (uring_work false default_entry big_endian io_uring_enter
  syscall_result NO_OP event_request event_fd_raw timespec_at user_complete wake_complete wake_fuel).

Section From.
Context (start : W).
#[local] Existing Instance world_model.
Local Abbreviation used := (used (ProcessModel0 := world_model start)).

Lemma worked_used timeout w w1 w' :
  system_from start w →
  worked NO_OP event_request submit_all default_entry timespec_at timers_used wakes_coming
    starts_coming timeout w w1 w' → used w w'.
Proof.
  intros ([He Hs Hp] & Hx & Hc) (_ & _ & (l & Hl & Hpush) & Hok' & _ & Hsp & Hk & Hc' & Hf).
  unfold has_ext_arg in Hx. destruct Hl as [->|[_ Hl]]; [|congruence].
  pose proof (spends_trans _ _ _ _ _ _ _ _
    (pushes_spends event_request timers_used wakes_coming starts_coming [] w w1 Hpush) Hsp) as Hall.
  apply (spends_used start _ _ _ Hall); [simpl; lia|].
  split_and!; [|unfold has_ext_arg; by rewrite Hf|by etransitivity].
  constructor; [done| |by apply Hk]. destruct Hall. lia.
Qed.

Lemma uring_work_used timeout w :
  system_from start w → 0 ≤ timeout →
  wp fatal (uring_work timeout) w (λ r w', match r with Ok _ => used w w' | Err _ => fatal end).
Proof.
  intros Hok Ht. eapply wp_mono; [apply (uring_work_spec NO_OP event_request event_fd_raw fatal submit_all
    io_uring_enter Hkernel default_entry big_endian Hdefault syscall syscall_result timespec_at
    Hdistinct Hsyscall _ _ timers_used wake_fuel wakes_coming starts_coming Huser Hwake);
    [apply Hok|done|apply Hok]|].
  intros [u|e] w' H; [|done]. destruct H as [w1 Hw]. by eapply worked_used.
Qed.

Lemma uring_work_less timeout w :
  system_from start w → UringWork.ready w → 0 < timeout → uring_has_work w = true →
  wp fatal (uring_work timeout) w (λ r w', match r with
    Ok _ => (Z.to_nat (effort w') < Z.to_nat (effort w))%nat | Err _ => fatal end).
Proof.
  intros Hok Hr Ht Hh. eapply wp_mono; [apply wp_conj;
    [apply (uring_work_used timeout); [done|lia]
    |apply (uring_work_drains NO_OP event_request event_fd_raw fatal submit_all io_uring_enter
      Hkernel default_entry big_endian Hdefault syscall syscall_result timespec_at Hdistinct
      Hsyscall _ _ timers_used wake_fuel wakes_coming starts_coming Huser Hwake);
      [done|apply Hok|done|done|apply Hok|apply Hok|done]]|].
  intros [u|e] w' [Hu He]; [|done]. destruct (used_ok _ _ Hu) as [[Hok' _ _] _].
  pose proof (effort_nonneg w' Hok'). lia.
Qed.

#[export] Instance system_engine : EngineLaws (ProcessModel0 := world_model start) fatal uring.
Proof.
  constructor; [done|..].
  - intros timeout w Ht _ Hok. by apply uring_work_used.
  - intros timeout w Ht _ _ Hok Hr Hh. by apply uring_work_less.
Qed.
End From.

(** ** The shutdown *)

(** Nothing is left: every request that was ever submitted was delivered exactly
    once, and no wake is expected any more. *)
Lemma nothing_left w :
  system_ok w → uring_has_work w = false → effort w < 2 ^ 64 →
  fst <$> delivered w ≡ₚ user_data <$> history w ∧ expected_wakes (engine w) = 0 ∧
  wake_queue (engine w) = [].
Proof.
  intros [He _ _] Hw Hmax. pose proof He as (_ & _ & _ & [[Ho Hx _ _ _] _]).
  destruct (all_delivered event_request submit_all w He Hw) as [Hall _].
  { unfold UringWork.effort in Hmax. lia. }
  assert (expected_wakes (engine w) = 0) as Hz.
  { unfold open_polls, polls_in in Ho. rewrite Hall in Ho. unfold open_for in Ho. simpl in Ho.
    destruct (Z.eqb_spec (expected_wakes (engine w)) 0); [done|lia]. }
  split_and!; [done|done|]. apply nil_length_inv. lia.
Qed.

(** Then the wakes that were queued were resumed, in order, and as many as were expected. *)
Lemma all_woken (w w' : W) :
  conserved w w' → expected_wakes (engine w') = 0 → wake_queue (engine w') = [] →
  ∃ l, woken_log w' = woken_log w ++ wake_queue (engine w) ++ l ∧
    expected_wakes (engine w) ≤ Z.of_nat (length (wake_queue (engine w) ++ l)).
Proof.
  intros [[l Hl] Hx] Hz Hq. rewrite Hq, app_nil_r in Hl. exists l. split; [done|].
  rewrite Hl, Hz, length_app in Hx. lia.
Qed.

(** C5: on a kernel that takes the timeout of a wait as an argument, the shutdown of a
    driver that runs on io_uring terminates, whatever is outstanding: timers, requests
    with the kernel, completions in the ring and wakes of other threads.  Every timer has
    then been completed exactly once, with the shutdown error unless its task cancelled
    it; every request that was ever submitted has been completed exactly once; the
    requests whose wakes were queued have been resumed, in order, followed by those whose
    wakes came later, as many in all as wakes were expected; and none is left. *)
Theorem shutdown_delivers_everything fuel tfuel w :
  ts_wf (timers (driver w)) → system_ok w → has_ext_arg w →
  (length (timers (driver w)) + timers_coming (rest w) ≤ tfuel)%nat →
  effort w < Z.of_nat fuel → effort w < 2 ^ 64 →
  wp fatal (exit (io_engine := uring) clock timer_callback fuel tfuel) w (λ _ w',
    timers (driver w') = [] ∧
    (∃ gone, fired (driver w') = fired (driver w) ++ gone ∧
      map fst gone ≡ₚ timers (driver w) ∧ Forall shut_down gone) ∧
    fst <$> delivered w' ≡ₚ user_data <$> history w' ∧
    (∃ l, woken_log w' = woken_log w ++ wake_queue (engine w) ++ l ∧
      expected_wakes (engine w) ≤ Z.of_nat (length (wake_queue (engine w) ++ l))) ∧
    expected_wakes (engine w') = 0 ∧ wake_queue (engine w') = [] ∧ system_ok w').
Proof.
  intros Hts Hok Hx Hs Ho Hf. pose proof (effort_nonneg w (sys_engine _ Hok)).
  assert (system_from w w) as Hfrom by (by split_and!).
  eapply wp_mono; [apply (exit_spec (ProcessModel0 := world_model w) fatal clock timer_callback);
    try done; simpl; lia|].
  intros _ w' [Ht _ Hw Hg (Hok' & _ & Hc) Hout]. simpl in Hout.
  pose proof (effort_nonneg w' (sys_engine _ Hok')).
  destruct (nothing_left w' Hok' Hw) as (? & Hz & Hq); [lia|]. split_and!; try done.
  by apply all_woken.
Qed.

(** C16: a driver on io_uring that blocks until a condition holds returns, on a kernel that
    takes the timeout of a wait as an argument, as long as the engine has work that can
    complete while the condition does not hold. *)
Theorem blocked_work_returns block fuel tfuel w :
  (∀ w0, system_ok w0 → block w0 = true → uring_has_work w0 = true ∧ UringWork.ready w0) →
  ts_wf (timers (driver w)) → system_ok w → has_ext_arg w →
  (length (timers (driver w)) + timers_coming (rest w) ≤ tfuel)%nat →
  effort w + Z.of_nat (length (timers (driver w)) + timers_coming (rest w)) + 1 < Z.of_nat fuel →
  wp fatal (block_while (io_engine := uring) clock timer_callback fuel tfuel block) w (λ _ w',
    block w' = false ∧ system_ok w' ∧ has_ext_arg w').
Proof.
  intros Hblock Hts Hok Hx Hs Hf. pose proof (effort_nonneg w (sys_engine _ Hok)).
  assert (system_from w w) as Hfrom by (by split_and!).
  eapply wp_mono; [apply (block_while_spec (ProcessModel0 := world_model w) fatal clock
    timer_callback block); try done|].
  - intros timeout w0 Ht Hz Hok0 Hb. destruct (Hblock w0 (proj1 Hok0) Hb) as [Hh Hr].
    destruct (decide (timeout = 0)) as [->|Hne].
    + eapply wp_mono; [by apply (uring_work_used w 0)|]. intros [u|e] w1 Hu; [|done].
      right. right. split; [by apply Hz|]. rewrite Z.add_0_r. apply Hu.
    + eapply wp_mono; [apply (uring_work_less w timeout); [done..|lia|done]|].
      intros [u|e] w1 Hu; [|done]. by right; left.
  - unfold timer_supply. simpl in *. lia.
  - intros _ w' (Hb & new & gone & Hr). destruct (ran_ok _ _ _ _ Hr) as (? & ? & _). done.
Qed.
End System.

(** ** A process on which the theorems apply

    Requests are outstanding, timers are pending, and two wakes were announced by
    other threads, one of which comes only when the clock is read next. *)

Module SimSystem.
Record Rest : Type := mkRest { r_driver : Driver; r_now : Z; r_timers : nat; r_wakes : nat }.

#[export] Instance rest_driver : DriverState Rest := {|
  driver := r_driver;
  set_driver := λ d u, mkRest d (r_now u) (r_timers u) (r_wakes u);
  driver_set := λ d u, eq_refl
|}.

#[export] Instance rest_outside : Outside Rest := {|
  outside_now := r_now;
  timers_coming := r_timers;
  wakes_coming := r_wakes;
  starts_coming := λ _, O;
  now_outside := λ d u, eq_refl;
  timers_outside := λ d u, eq_refl;
  wakes_outside := λ d u, eq_refl;
  starts_outside := λ d u, eq_refl
|}.

Local Abbreviation W := (World Sim.Kernel Rest).
Local Abbreviation ev := Sim.event_request.

Definition pass_time (u : Rest) : Rest := mkRest (r_driver u) (r_now u + 1) (r_timers u) (r_wakes u).
Definition wake_came (u : Rest) : Rest := mkRest (r_driver u) (r_now u) (r_timers u) (pred (r_wakes u)).
Definition in_rest (f : Rest → Rest) : M W unit := modify (λ w, with_rest (f (rest w)) w).

(** Time passes, and another thread may wake a request. *)
Definition clock : M W (OsResult Z) :=
  in_rest pass_time;;
  e ← gets (λ w, engine w);
  (if Z.of_nat (length (wake_queue e)) <? expected_wakes e then
     in_rest wake_came;; uring_wake 2002
   else mret (Ok tt));;
  gets (λ w, Ok (r_now (rest w))).

Local Abbreviation api_step := (api_step 77 ev 10 Sim.enter zero_entry false sim_syscall 0).
Local Abbreviation system_ok := (system_ok (K := Sim.Kernel) (U := Rest) ev true 8).

(** The result of a wake. *)
Lemma wake_result r (w : W) :
  ∃ v res, uring_wake r w = Ret (res, upd (set_event_fd v)
    (upd (set_wake_queue (wake_queue (engine w) ++ [r])) w)).
Proof.
  unfold uring_wake, gets_engine, modify_engine, mbind, M_bind, gets, modify, mret, M_ret. simpl.
  case_bool_decide; simpl; [|exists (event_fd (engine w)); by eexists].
  destruct (eventfd_write 1 (event_fd (engine w))) as [[]]; by eexists _, _.
Qed.

(** A wake is queued, or none is expected. *)
Lemma woken_ready (w : W) :
  engine_ok ev true w → expected_wakes (engine w) ≤ Z.of_nat (length (wake_queue (engine w))) ∨
    wake_queue (engine w) ≠ [] → UringWork.ready w.
Proof.
  intros (_ & _ & _ & [[_ Hx _ Hs _] _]) Hq _.
  destruct (wake_queue (engine w)) eqn:E; [|left; by apply Hs].
  destruct Hq as [Hq|]; [|done]. simpl in *. right. left. lia.
Qed.

(** A wake that was announced comes. *)
Lemma wake_comes (w w1 : W) v res :
  let w0 := with_rest (wake_came (rest w)) w in
  w1 = upd (set_event_fd v) (upd (set_wake_queue (wake_queue (engine w) ++ [2002])) w0) →
  uring_wake 2002 w0 = Ret (res, w1) → system_ok w →
  Z.of_nat (length (wake_queue (engine w))) < expected_wakes (engine w) →
  rtc api_step w w1 ∧ spends timers_used wakes_coming starts_coming 0 w w1 ∧
  keeps_promise wakes_coming 0 0 w w1 ∧ wake_queue (engine w1) ≠ [].
Proof.
  intros w0 E1 E [_ _ Hp] Hlt.
  assert (supply wakes_coming w1 = supply wakes_coming w) as Hs.
  { unfold promised, supply in *. rewrite E1. simpl in *. rewrite length_app. simpl. lia. }
  split_and!.
  - eapply rtc_l; [apply api_rest|]. apply rtc_once.
    eapply api_wake; [|exact E]. simpl. rewrite Nat.add_0_r. exact Hlt.
  - constructor; [lia| |rewrite E1; unfold effort; simpl; unfold history; simpl; lia].
    rewrite E1. split_and!; unfold total_outside; simpl; [apply rtc_refl|lia..].
  - unfold keeps_promise, promised. rewrite Hs, E1. done.
  - rewrite E1. simpl. by destruct (wake_queue (engine w)).
Qed.

Lemma clock_ok (w : W) :
  system_ok w →
  wp False clock w (λ r w', r = Ok (outside_now (rest w')) ∧
    outside_now (rest w) ≤ outside_now (rest w') ∧ driver (rest w') = driver (rest w) ∧
    timers_coming (rest w') = timers_coming (rest w) ∧ rtc api_step w w' ∧
    spends timers_used wakes_coming starts_coming 0 w w' ∧
    keeps_promise wakes_coming 0 0 w w' ∧ UringWork.ready w').
Proof.
  intros Hok. set (w0 := with_rest (pass_time (rest w)) w).
  assert (rtc api_step w w0) as Hst0 by apply rtc_once, api_rest.
  assert (spends timers_used wakes_coming starts_coming 0 w w0) as Hsp0.
  { constructor; [done| |unfold effort; simpl; unfold history; simpl; lia].
    split_and!; unfold total_outside; simpl; [apply rtc_refl|lia..]. }
  assert (keeps_promise wakes_coming 0 0 w w0) as Hk0 by (intros Hp; exact Hp).
  assert (system_ok w0) as Hok0.
  { eapply system_steps; try done; [apply Sim.kernel_ok|repeat split|done|apply sim_syscall_rest]. }
  unfold clock, in_rest. wp_steps. fold w0. 
  destruct (Z.ltb_spec (Z.of_nat (length (wake_queue (engine w0)))) (expected_wakes (engine w0)))
    as [Hlt|Hge]; wp_steps.
  - set (w1 := with_rest (wake_came (rest w0)) w0). destruct (wake_result 2002 w1) as (v & res & E).
    unfold wp. rewrite E. simpl. set (w2 := upd _ (upd _ w1)) in *.
    destruct (wake_comes w0 w2 v res) as (Hst & Hsp & Hk & Hq); [done..|]. 
    assert (system_ok w2) as Hok2.
    { apply (system_steps 77 ev 10 False true Sim.enter (Sim.kernel_ok true) zero_entry false
        ltac:(repeat split) sim_syscall ltac:(done) sim_syscall_rest 8 w0 w2); done. }
    split_and!; simpl; try done; [lia|by etransitivity| |].
    + apply (spends_trans _ _ _ 0 0 _ _ _ Hsp0 Hsp).
    + apply woken_ready; [apply Hok2|by right].
  - split_and!; simpl; try done; [lia|]. apply woken_ready; [apply Hok0|by left].
Qed.
(** Two requests and the poll are outstanding, one of two announced wakes is queued,
    two timers are pending. *)
Definition process : W :=
  Eval vm_compute in
  match (sim_start (Oread 5 4096 512 0) 1001;; sim_start (Ofsync 5) 1002;;
         sim_prepare;; sim_prepare;; uring_wake 2001)
    (idle_with (mkRest (mkDriver [mkTimeout 50 1; mkTimeout 100 2] false []) 100 0 1)) with
  | Ret (_, w) => w
  | _ => idle_with (mkRest new_driver 0 0 0)
  end.

Lemma process_system_ok : system_ok process.
Proof.
  constructor; [|vm_compute; lia|vm_compute; congruence].
  split_and!; [solve_inv|done|unfold owed; by_decision|]. split; [|done].
  constructor; try done. exists []. split; [unfold owed; by_decision|done].
Qed.

Definition uring : EngineImpl W :=
  uring_engine false zero_entry false Sim.enter sim_syscall (λ v, Ok v) 77 ev 10 (λ n, n)
    (λ _ _, mret tt) (λ _, mret tt) 8 (λ work _, work;; mret 0) (λ _, mret tt).
End SimSystem.

Import SimSystem.

#[local] Existing Instances world_driver.

Lemma shutdown_delivers_everything_witness :
  wp False (exit (io_engine := SimSystem.uring) SimSystem.clock (λ _ _, mret tt) 10 3) SimSystem.process
    (λ _ w', timers (driver w') = [] ∧
      (∃ gone, fired (driver w') = fired (driver SimSystem.process) ++ gone ∧
        map fst gone ≡ₚ timers (driver SimSystem.process) ∧ Forall shut_down gone) ∧
      fst <$> delivered w' ≡ₚ user_data <$> history w' ∧
      (∃ l, woken_log w' = woken_log SimSystem.process ++
          wake_queue (engine SimSystem.process) ++ l ∧
        expected_wakes (engine SimSystem.process) ≤
          Z.of_nat (length (wake_queue (engine SimSystem.process) ++ l))) ∧
      expected_wakes (engine w') = 0 ∧ wake_queue (engine w') = [] ∧
      system_ok Sim.event_request true 8 w').
Proof.
  apply (shutdown_delivers_everything 77 Sim.event_request 10 False true Sim.enter
    (Sim.kernel_ok true) Sim.kernel_ends zero_entry false ltac:(repeat split) sim_syscall
    (λ v, Ok v) (λ n, n) ltac:(done) sim_syscall_rest (λ _ _, mret tt) (λ _, mret tt)
    (λ _ _, mret tt) SimSystem.clock 8 (λ work _, work;; mret 0) (λ _, mret tt)).
  - intros _ _. apply idle_callback, timers_used_order.
  - intros _. apply idle_callback, timers_used_order.
  - intros _ _. apply idle_callback, timers_used_order.
  - apply clock_ok.
  - repeat constructor.
  - apply process_system_ok.
  - reflexivity.
  - vm_compute. lia.
  - vm_compute. reflexivity.
  - vm_compute. reflexivity.
Defined.

(** While there is work and no wake is missing. *)
Definition busy_working (w : World Sim.Kernel Rest) : bool :=
  uring_has_work w &&
  ((expected_wakes (engine w) <=? Z.of_nat (length (wake_queue (engine w)))) ||
   negb (bool_decide (wake_queue (engine w) = []))).

Lemma blocked_work_returns_witness :
  wp False (block_while (io_engine := SimSystem.uring) SimSystem.clock (λ _ _, mret tt) 12 3
      busy_working) SimSystem.process
    (λ _ w', busy_working w' = false ∧ system_ok Sim.event_request true 8 w' ∧ has_ext_arg w').
Proof.
  apply (blocked_work_returns 77 Sim.event_request 10 False true Sim.enter
    (Sim.kernel_ok true) Sim.kernel_ends zero_entry false ltac:(repeat split) sim_syscall
    (λ v, Ok v) (λ n, n) ltac:(done) sim_syscall_rest (λ _ _, mret tt) (λ _, mret tt)
    (λ _ _, mret tt) SimSystem.clock 8 (λ work _, work;; mret 0) (λ _, mret tt)).
  - intros _ _. apply idle_callback, timers_used_order.
  - intros _. apply idle_callback, timers_used_order.
  - intros _ _. apply idle_callback, timers_used_order.
  - apply clock_ok.
  - intros w0 Hok [Hw Hb]%andb_true_iff. split; [done|]. apply woken_ready; [apply Hok|].
    apply orb_true_iff in Hb as [Hb%Z.leb_le|Hb%negb_true_iff]; [by left|right].
    by apply bool_decide_eq_false in Hb.
  - repeat constructor.
  - apply process_system_ok.
  - reflexivity.
  - vm_compute. lia.
  - vm_compute. reflexivity.
Defined.
