(* ===== verification/Wake.v ===== *)
(** * Waking the engine from other threads (src/src/engine/uring/engine.rs)

    [wake] may be called by any thread while the engine's own thread runs
    [process_wake]: a request is pushed under the lock of the queue, and the
    event descriptor is written after the lock was released, so the two can
    interleave with everything else.  Here each critical section, each access of
    the event descriptor and each resumed request is one step.  [wake] and
    [process_wake] of Uring.v are the same code run without interleaving, and
    WakeRefine.v shows that these steps simulate them. *)

From stdpp Require Import base list numbers relations tactics.
From S2P Require Import Prelude Engine Uring.

(** The poll of the event descriptor. *)
Inductive PollState : Type := Unarmed | Armed | Posted.

(** Where the engine's thread is: elsewhere, at the top of the loop of
    [process_wake], resuming the requests of a batch, or ended by
    [expect_nounwind].  [woken] counts the requests taken so far. *)
Inductive MainState : Type :=
| Outside
| Looping (woken : nat)
| Resuming (requests : list ReqPtr) (woken : nat)
| Aborted.

Record Wakes : Type := mkWakes {
  pending_wakes : list ReqPtr;    (* wake_queue *)
  counter : Z;                    (* of the eventfd *)
  writers : nat;                  (* threads that are about to write it *)
  expected : nat;                 (* expected_wakes *)
  announced : nat;                (* prepare_wake calls whose wake is to come *)
  poll_state : PollState;
  main : MainState;
  resumed : list ReqPtr           (* log of the requests resumed *)
}.

Definition initial : Wakes := mkWakes [] 0 0 0 0 Unarmed Outside [].

(** The requests of the current batch, and the wakes not yet counted off. *)
Definition batch (m : MainState) : list ReqPtr :=
  match m with Resuming l _ => l | _ => [] end.

Definition taken_off (m : MainState) : nat :=
  match m with Looping n | Resuming _ n => n | _ => 0%nat end.

(** Tasks run, and may announce wakes, when the engine's thread is not between
    two batches. *)
Definition tasks_run (m : MainState) : bool :=
  match m with Outside => true | Resuming _ _ => true | _ => false end.

Definition poll_again (n : nat) (p : PollState) : PollState :=
  if Nat.eqb n 0 then p else Armed.

(** [prepare_wake] *)
Inductive prepare_step : relation Wakes :=
| prepare q c w e a p m l :
    tasks_run m = true →
    prepare_step (mkWakes q c w e a p m l)
      (mkWakes q c w (S e) (S a) (if Nat.eqb (S e) 1 then Armed else p) m l).

(** [wake], in any thread: the push under the lock, then the write. *)
Inductive push_step (r : ReqPtr) : relation Wakes :=
| push_first c w e a p m l :
    push_step r (mkWakes [] c w e (S a) p m l) (mkWakes [r] c (S w) e a p m l)
| push_more x q c w e a p m l :
    push_step r (mkWakes (x :: q) c w e (S a) p m l)
      (mkWakes ((x :: q) ++ [r]) c w e a p m l).

Inductive write_step : relation Wakes :=
| write_event q c w e a p m l c' :
    eventfd_write 1 c = (Ok tt, c') →
    write_step (mkWakes q c (S w) e a p m l) (mkWakes q c' w e a p m l)
| write_fails q c w e a p m l err :
    eventfd_write 1 c = (Err err, c) →
    write_step (mkWakes q c (S w) e a p m l) (mkWakes q c w e a p Aborted l).

(** The kernel completes the poll of a readable descriptor; [run_events] then
    calls [process_wake]. *)
Inductive kernel_step : relation Wakes :=
| poll_completes q c w e a m l :
    0 < c → kernel_step (mkWakes q c w e a Armed m l) (mkWakes q c w e a Posted m l)
| poll_delivered q c w e a l :
    kernel_step (mkWakes q c w e a Posted Outside l) (mkWakes q c w e a Unarmed (Looping 0) l).

(** [process_wake] *)
Inductive process_step : relation Wakes :=
| process_drain x q c w e a p n l :
    let amount := Nat.min (length (x :: q)) MAX_RESUME in
    process_step (mkWakes (x :: q) c w e a p (Looping n) l)
      (mkWakes (drop amount (x :: q)) c w e a p
        (Resuming (take amount (x :: q)) (n + amount)) l)
| process_resume r rs q c w e a p n l :
    process_step (mkWakes q c w e a p (Resuming (r :: rs) n) l)
      (mkWakes q c w e a p (Resuming rs n) (l ++ [r]))
| process_next q c w e a p n l :
    process_step (mkWakes q c w e a p (Resuming [] n) l) (mkWakes q c w e a p (Looping n) l)
| process_finish c w e a p n l v c' :
    eventfd_read c = (Ok v, c') →
    process_step (mkWakes [] c w e a p (Looping n) l)
      (mkWakes [] c' w (e - n) a (poll_again (e - n) p) Outside l)
| process_fails c w e a p n l err :
    eventfd_read c = (Err err, c) →
    process_step (mkWakes [] c w e a p (Looping n) l) (mkWakes [] c w e a p Aborted l).

(** What happens on its own, once wakes were announced and requested. *)
Definition internal_step (s s' : Wakes) : Prop :=
  write_step s s' ∨ kernel_step s s' ∨ process_step s s'.

Definition wake_step (s s' : Wakes) : Prop :=
  prepare_step s s' ∨ (∃ r, push_step r s s') ∨ internal_step s s'.

(** ** The invariant *)

Record wakes_ok (s : Wakes) : Prop := {
  wo_counter : 0 ≤ counter s;
  (* each announced wake is to come, queued, in the batch, or just taken off *)
  wo_expected : expected s =
    (announced s + length (pending_wakes s) + taken_off (main s))%nat;
  wo_batch : (length (batch (main s)) ≤ taken_off (main s))%nat ∧
    match main s with Resuming _ n => (0 < n)%nat | _ => True end;
  (* the poll is armed just when wakes are expected, and not while they are processed *)
  wo_poll : match main s with
    | Outside => poll_state s = Unarmed ↔ expected s = 0%nat
    | _ => poll_state s = Unarmed
    end;
  (* whoever reads the descriptor finds it readable *)
  wo_readable : poll_state s = Posted ∨ main s ≠ Outside → 0 < counter s;
  (* no wake is lost *)
  wo_pending : pending_wakes s ≠ [] → 0 < counter s ∨ (0 < writers s)%nat;
  wo_alive : main s ≠ Aborted
}.

Lemma eventfd_read_ok c : 0 < c → eventfd_read c = (Ok c, 0).
Proof. intros. unfold eventfd_read. destruct (Z.eqb_spec c 0); [lia|done]. Qed.

Lemma eventfd_write_ok c : c + 1 < 2 ^ 64 - 1 → eventfd_write 1 c = (Ok tt, c + 1).
Proof. intros. unfold eventfd_write. destruct (Z.ltb_spec (c + 1) (2 ^ 64 - 1)); [done|lia]. Qed.

Lemma initial_ok : wakes_ok initial.
Proof. constructor; simpl; try done; try lia; intros [|]; done. Qed.

Lemma prepare_ok s s' : wakes_ok s → prepare_step s s' → wakes_ok s' ∧ counter s' = counter s.
Proof.
  intros Hok Hs. destruct Hs as [q c w e a p m l Ht].
  destruct Hok as [Hc He [Hb Hb'] Hp Hr Hq Ha]. simpl in *. split; [|done].
  constructor; simpl; try done; try lia.
  - destruct m as [|n|rs n|]; try done.
    + destruct (Nat.eqb_spec e 0) as [->|Hne]; simpl; [done|]. rewrite Hp. done.
    + simpl in *. destruct (Nat.eqb_spec e 0); [lia|done].
  - intros Hx. apply Hr. destruct (Nat.eqb_spec e 0); [|done]. naive_solver.
Qed.

Lemma push_ok r s s' : wakes_ok s → push_step r s s' → wakes_ok s' ∧ counter s' = counter s.
Proof.
  intros Hok Hs. destruct Hs; destruct Hok as [Hc He Hb Hp Hr Hq Ha]; simpl in *;
    (split; [|done]); constructor; simpl; rewrite ?length_app; simpl; try done; try lia.
  intros _. by apply Hq.
Qed.

Lemma write_ok s s' :
  wakes_ok s → counter s + 1 < 2 ^ 64 - 1 → write_step s s' →
  wakes_ok s' ∧ counter s' = counter s + 1.
Proof.
  intros Hok Hmax Hs. destruct Hs as [q c w e a p m l c' E|q c w e a p m l err E];
    simpl in Hmax; rewrite eventfd_write_ok in E by done; simplify_eq.
  destruct Hok as [Hc He Hb Hp Hr Hq Ha]; simpl in *. split; [|done].
  constructor; simpl; try done; lia.
Qed.

Lemma kernel_step_ok s s' : wakes_ok s → kernel_step s s' → wakes_ok s' ∧ counter s' = counter s.
Proof.
  intros Hok Hs. destruct Hs as [q c w e a m l Hpos|q c w e a l];
    destruct Hok as [Hc He Hb Hp Hr Hq Ha]; simpl in *; (split; [|done]);
    constructor; simpl; try done; try lia.
  - destruct m; naive_solver.
  - intros _. apply Hr. by left.
Qed.

Lemma process_ok s s' :
  wakes_ok s → process_step s s' → wakes_ok s' ∧ 0 ≤ counter s' ≤ counter s.
Proof.
  intros Hok Hs. destruct Hok as [Hc He Hb Hp Hr Hq Ha].
  destruct Hs as [x q c w e a p n l amount|r rs q c w e a p n l|q c w e a p n l
    |c w e a p n l v c' E|c w e a p n l err E]; simpl in *.
  - assert (1 ≤ amount ≤ length (x :: q))%nat as Hk by (unfold amount, MAX_RESUME; simpl; lia).
    split; [|lia]. constructor; simpl; rewrite ?length_drop, ?length_take; simpl in *;
      try done; try lia.
    + intros _. apply Hr. by right.
    + intros _. left. apply Hr. by right.
  - split; [|lia]. constructor; simpl; try done; try lia. intros _. apply Hr. by right.
  - split; [|lia]. constructor; simpl; try done; try lia. intros _. apply Hr. by right.
  - rewrite eventfd_read_ok in E by (apply Hr; by right). injection E as <- <-. split; [|lia].
    constructor; simpl; try done; try lia.
    + unfold poll_again. by destruct (Nat.eqb_spec (e - n) 0).
    + intros [Hx|Hx]; [|done]. unfold poll_again in Hx.
      destruct (Nat.eqb (e - n) 0); [congruence|done].
  - rewrite eventfd_read_ok in E by (apply Hr; by right). done.
Qed.

Lemma wake_step_ok s s' :
  wakes_ok s → counter s + 1 < 2 ^ 64 - 1 → wake_step s s' →
  wakes_ok s' ∧ counter s' ≤ counter s + 1.
Proof.
  intros Hok Hmax [Hs|[[r Hs]|[Hs|[Hs|Hs]]]].
  - destruct (prepare_ok _ _ Hok Hs). split; [done|lia].
  - destruct (push_ok _ _ _ Hok Hs). split; [done|lia].
  - destruct (write_ok _ _ Hok Hmax Hs). split; [done|lia].
  - destruct (kernel_step_ok _ _ Hok Hs). split; [done|lia].
  - destruct (process_ok _ _ Hok Hs). split; [done|lia].
Qed.

Lemma reachable_ok n s : nsteps wake_step n initial s → Z.of_nat n < 2 ^ 64 - 2 →
  wakes_ok s ∧ counter s ≤ Z.of_nat n.
Proof.
  intros Hs Hn. cut (∀ s0, wakes_ok s0 → counter s0 + Z.of_nat n < 2 ^ 64 - 2 →
    nsteps wake_step n s0 s → wakes_ok s ∧ counter s ≤ counter s0 + Z.of_nat n).
  { intros Hgen. apply Hgen in Hs; [|apply initial_ok|simpl; lia]. simpl in Hs. lia || done. }
  clear Hs Hn. revert s. induction n as [|n IH]; intros s s0 Hok Hc Hs.
  - inversion Hs; subst. split; [done|lia].
  - apply nsteps_inv_r in Hs as (s1 & Hs & Hlast).
    destruct (IH s1 s0 Hok ltac:(lia) Hs) as [Hok1 Hc1].
    destruct (wake_step_ok s1 s Hok1 ltac:(lia) Hlast). split; [done|lia].
Qed.

(** ** Progress *)

(** Nothing is left to do. *)
Definition quiescent (s : Wakes) : Prop :=
  pending_wakes s = [] ∧ writers s = 0%nat ∧ main s = Outside ∧
  (poll_state s = Unarmed ∨ counter s = 0).

Lemma progress s :
  wakes_ok s → counter s + 1 < 2 ^ 64 - 1 → quiescent s ∨ ∃ s', internal_step s s'.
Proof.
  intros [Hc He Hb Hp Hr Hq Ha] Hmax. destruct s as [q c w e a p m l]. simpl in *.
  destruct w as [|w].
  2:{ right. eexists. left. constructor. by apply eventfd_write_ok. }
  destruct m as [|n|[|r rs] n|]; [| | | |done].
  - destruct p.
    + left. destruct q; [by repeat split; left|]. exfalso. assert (e = 0%nat) by (by apply Hp).
      simpl in He. lia.
    + destruct (Z_lt_dec 0 c); [right; eexists; right; left; by constructor|].
      left. assert (c = 0) as -> by lia. destruct q; [by repeat split; right|].
      destruct Hq; [done|lia|lia].
    + right. eexists. right; left. constructor.
  - right. destruct q as [|x q]; eexists; right; right; [|apply process_drain].
    eapply process_finish, eventfd_read_ok, Hr. by right.
  - right. eexists. right; right. constructor.
  - right. eexists. right; right. constructor.
Qed.

(** Each internal step uses something up. *)
Definition effort (s : Wakes) : nat :=
  (10 * writers s + 4 * length (pending_wakes s) + (if (0 <? counter s)%Z then 5 else 0) +
   match main s with
   | Outside => match poll_state s with Unarmed => 0 | Armed => 3 | Posted => 2 end
   | Looping _ => 1
   | Resuming l _ => 2 + 2 * length l
   | Aborted => 0
   end)%nat.

Lemma internal_step_effort s s' :
  wakes_ok s → counter s + 1 < 2 ^ 64 - 1 → internal_step s s' → (effort s' < effort s)%nat.
Proof.
  intros [Hc He Hb Hp Hr Hq Ha] Hmax [Hs|[Hs|Hs]].
  - destruct Hs as [q c w e a p m l c' E|q c w e a p m l err E]; simpl in *;
      rewrite eventfd_write_ok in E by done; [|done]. injection E as <-.
    unfold effort. simpl. destruct (0 <? c), (0 <? c + 1), m; simpl; try lia; destruct p; lia.
  - destruct Hs as [q c w e a m l Hpos|q c w e a l]; unfold effort; simpl in *.
    + destruct m; try done; lia.
    + destruct (0 <? c); lia.
  - destruct Hs as [x q c w e a p n l amount|r rs q c w e a p n l|q c w e a p n l
      |c w e a p n l v c' E|c w e a p n l err E]; unfold effort; simpl in *.
    + assert (1 ≤ amount ≤ length (x :: q))%nat as Hk by (unfold amount, MAX_RESUME; simpl; lia).
      rewrite length_drop, length_take. simpl in *. destruct (0 <? c); lia.
    + destruct (0 <? c); lia.
    + destruct (0 <? c); lia.
    + assert (0 < c) as Hpos by (apply Hr; by right). rewrite eventfd_read_ok in E by done.
      injection E as <- <-. destruct (Z.ltb_spec 0 c); [|lia]. simpl. rewrite Hp.
      unfold poll_again. destruct (Nat.eqb _ 0); lia.
    + rewrite eventfd_read_ok in E by (apply Hr; by right). done.
Qed.

(** The requests resumed and still to be resumed, in order. *)
Definition wake_order (s : Wakes) : list ReqPtr :=
  resumed s ++ batch (main s) ++ pending_wakes s.

Lemma internal_step_order s s' :
  wakes_ok s → counter s + 1 < 2 ^ 64 - 1 → internal_step s s' → wake_order s' = wake_order s.
Proof.
  intros [Hc He Hb Hp Hr Hq Ha] Hmax [Hs|[Hs|Hs]]; unfold wake_order.
  - destruct Hs as [|q c w e a p m l err E]; [done|]. simpl in *.
    by rewrite eventfd_write_ok in E.
  - by destruct Hs.
  - destruct Hs as [x q c w e a p n l amount|r rs q c w e a p n l|q c w e a p n l
      |c w e a p n l v c' E|c w e a p n l err E]; simpl in *; try done.
    + by rewrite take_drop.
    + by rewrite <- app_assoc.
Qed.

Lemma internal_run k s s' :
  wakes_ok s → counter s + Z.of_nat k < 2 ^ 64 - 2 → nsteps internal_step k s s' →
  wakes_ok s' ∧ counter s' ≤ counter s + Z.of_nat k ∧ (k + effort s' ≤ effort s)%nat ∧
  wake_order s' = wake_order s.
Proof.
  intros Hok Hc Hs. revert Hok Hc. induction Hs as [s|k s1 s2 s3 H1 Hs IH]; intros Hok Hc.
  { split_and!; [done|lia..|done]. }
  destruct (wake_step_ok s1 s2 Hok ltac:(lia) ltac:(right; right; done)) as [Hok2 Hc2].
  pose proof (internal_step_effort s1 s2 Hok ltac:(lia) H1).
  pose proof (internal_step_order s1 s2 Hok ltac:(lia) H1).
  destruct IH as (? & ? & ? & ?); [done|lia|]. split_and!; [done|lia..|congruence].
Qed.

(** C9: however the threads interleave, the engine never finds the event
    descriptor empty when it reads it, never polls it twice at a time, polls it
    just when wakes are expected, counts the expected wakes exactly, and keeps
    it readable (or about to be written) while wakes are queued. *)
Theorem wake_protocol_invariant n s :
  nsteps wake_step n initial s → Z.of_nat n < 2 ^ 64 - 2 → wakes_ok s.
Proof. intros Hs Hn. by apply (reachable_ok n s). Qed.

(** C2: no wake is lost: from any reachable state, what the threads, the kernel
    and the engine do without further requests stops after finitely many steps,
    never stops before everything is resumed, and resumes the requests in the
    order of their wakes. *)
Theorem wakes_all_resumed n s :
  nsteps wake_step n initial s → Z.of_nat (n + effort s + 1) < 2 ^ 64 - 2 →
  ∀ k s', nsteps internal_step k s s' →
    (k ≤ effort s)%nat ∧ wake_order s' = wake_order s ∧
    (quiescent s' ∨ ∃ s'', internal_step s' s'').
Proof.
  intros Hs Hn. destruct (reachable_ok n s Hs ltac:(lia)) as [Hok Hc].
  assert (∀ k s', nsteps internal_step k s s' → (k ≤ effort s)%nat →
    (k + effort s' ≤ effort s)%nat ∧ wake_order s' = wake_order s ∧
    (quiescent s' ∨ ∃ s'', internal_step s' s'')) as Hrun.
  { intros k s' Hk Hle. destruct (internal_run k s s' Hok ltac:(lia) Hk) as (Hok' & Hc' & He & Ho).
    split_and!; try done. apply progress; [done|lia]. }
  intros k s' Hk. destruct (decide (k ≤ effort s)%nat) as [Hle|Hgt].
  { destruct (Hrun k s' Hk Hle) as (? & ? & ?). done. }
  replace k with (effort s + (1 + (k - effort s - 1)))%nat in Hk by lia.
  apply nsteps_add_inv in Hk as (s1 & Hk1 & Hk2). apply nsteps_add_inv in Hk2 as (s2 & Hk2 & _).
  destruct (internal_run (effort s) s s1 Hok ltac:(lia) Hk1) as (Hok1 & Hc1 & He1 & _).
  apply nsteps_once_inv in Hk2. pose proof (internal_step_effort s1 s2 Hok1 ltac:(lia) Hk2). lia.
Qed.

(** A wake is announced and then requested by another thread. *)
Definition one_wake : Wakes := mkWakes [7] 0 1 1 0 Armed Outside [].

Lemma one_wake_reachable : nsteps wake_step 2 initial one_wake.
Proof.
  eapply nsteps_l; [left; by apply prepare|]. apply nsteps_once. right; left. exists 7.
  apply push_first.
Qed.

Lemma wake_protocol_invariant_witness : wakes_ok one_wake.
Proof. apply (wake_protocol_invariant 2 one_wake); [apply one_wake_reachable|reflexivity]. Defined.

Definition one_wake_written : Wakes := mkWakes [7] 1 0 1 0 Armed Outside [].

Lemma wakes_all_resumed_witness :
  (1 ≤ effort one_wake)%nat ∧ wake_order one_wake_written = [7] ∧
  (quiescent one_wake_written ∨ ∃ s'', internal_step one_wake_written s'').
Proof.
  apply (wakes_all_resumed 2 one_wake); [apply one_wake_reachable|reflexivity|].
  apply nsteps_once. left. by apply write_event.
Defined.
