(* ===== verification/WakeRefine.v ===== *)
(** * The engine implements the wake protocol

    Wake.v describes the waking of the engine as steps of threads that interleave.
    [abs] takes the world of the engine to a state of that protocol, and the code of
    Uring.v is simulated by it: whatever uses the engine, and each unit of work, is a
    sequence of steps of the protocol ([engine_refines_protocol]).  The completion of
    the poll is taken as the protocol's when it is delivered. *)

From stdpp Require Import base list numbers relations tactics.
From S2P Require Import Prelude Op Queue Engine Uring UringSpec UringEngine UringProcess UringWork UringSim Wake Driver.

Section Refine.
Context {K U : Type} `{!KernelView K}.
Context (NO_OP event_request event_fd_raw : Z) (fatal : Prop) (submit_all : bool).
Context (io_uring_enter : EnterArgs → Z → K → Queue → OsResult Z * K * Queue).
Context (Hkernel : kernel_spec event_request fatal submit_all io_uring_enter).
Context (default_entry : SubmissionEntry) (big_endian : bool).
Context (Hdefault : zeroed default_entry).
Context (syscall : SysCall → M (World K U) (OsResult Z)) (syscall_result : Z → OsResult Z).
Context (timespec_at : Z → Z).
Context (Hdistinct : NO_OP ≠ event_request).
Context (Hsyscall : ∀ c w, wp fatal (syscall c) w (λ _ w', ∃ u, w' = with_rest u w)).

Local Abbreviation W := (World K U).
Local Abbreviation sub w := (submission (queue (engine w))).
Local Abbreviation com w := (completion (queue (engine w))).
Local Abbreviation pushes := (pushes event_request).
Local Abbreviation inv := (inv submit_all).
Local Abbreviation wake_ok := (wake_ok event_request).
Local Abbreviation requested := (requested event_request big_endian).
Local Abbreviation api_step := (api_step NO_OP event_request event_fd_raw io_uring_enter
  default_entry big_endian syscall).

(** The state of the protocol: the engine's thread is at [m], no other thread is
    between its push and its write, and the announced wakes that are neither queued
    nor taken off are to come. *)
Definition abs (m : MainState) (w : W) : Wakes :=
  let e := Z.to_nat (expected_wakes (engine w)) in
  let q := wake_queue (engine w) in
  mkWakes q (event_fd (engine w)) 0 e (e - length q - taken_off m)
    (if open_polls event_request w =? 0 then Unarmed else Armed) m (woken_log w).

(** Whether [process_wake] runs. *)
Definition in_process (m : MainState) : bool :=
  match m with Looping _ | Resuming _ _ => true | _ => false end.

Definition at_main (m : MainState) (w : W) : Prop := wake_ok (in_process m) (taken_off m) w.

(** Each write of the event descriptor was that of a wake that is still queued or was
    taken off. *)
Definition written (m : MainState) (w : W) : Prop :=
  event_fd (engine w) ≤ Z.of_nat (length (wake_queue (engine w)) + taken_off m).

Lemma abs_frame m (w w' : W) :
  (expected_wakes (engine w'), wake_queue (engine w'), event_fd (engine w'), woken_log w') =
  (expected_wakes (engine w), wake_queue (engine w), event_fd (engine w), woken_log w) →
  open_polls event_request w' = open_polls event_request w → abs m w' = abs m w.
Proof. intros [= E1 E2 E3 E4] Ho. unfold abs. by rewrite E1, E2, E3, E4, Ho. Qed.

Lemma open_polls_push l (w w' : W) :
  pushes l 0 w 0 w' →
  open_polls event_request w' =
    open_polls event_request w + polls_in event_request (user_data <$> l).
Proof.
  intros Hp. unfold open_polls. rewrite (pu_history _ _ _ _ _ _ Hp), fmap_app, polls_in_app.
  rewrite (ex_delivered _ _ _ _ (pu_extends _ _ _ _ _ _ Hp)). lia.
Qed.

Lemma abs_pushes m l (w w' : W) :
  pushes l 0 w 0 w' → Forall (λ e, user_data e ≠ event_request) l → abs m w' = abs m w.
Proof.
  intros Hp Hl. pose proof (pu_frame _ _ _ _ _ _ Hp) as [= F1 F2 F3 F4 _].
  apply abs_frame; [by rewrite F1, F2, F3, F4|].
  rewrite (open_polls_push l w w' Hp), polls_in_other by by apply Forall_fmap. lia.
Qed.

Lemma abs_requested m r k (w w' : W) :
  r ≠ event_request → requested r k w w' → abs m w' = abs m w.
Proof.
  intros Hr (e & _ & He & Hp). apply (abs_pushes m [e]); [done|].
  constructor; [congruence|done].
Qed.

(** ** The operations of the engine *)

Lemma start_abs m op r (w : W) :
  inv w → op_ok op → r ≠ event_request →
  wp fatal (uring_start false default_entry big_endian io_uring_enter syscall op r) w
    (λ _ w', abs m w' = abs m w).
Proof.
  intros Hw Hok Hr.
  assert (op_call op = None ∨ op_checked op ≠ None →
    wp fatal (SyncEngine.sync_start syscall op r) w (λ _ w', abs m w' = abs m w)) as Hsync.
  { intros Hop. destruct op; simpl in *; try (by destruct Hop);
      apply wp_bind; (eapply wp_mono; [apply Hsyscall|]); intros res w' [u ->]; by wp_steps. }
  destruct (op_call op) as [c|] eqn:Hc;
    [destruct (op_supported (features (engine w)) op) eqn:Hs|].
  - destruct (op_request op) as [k|] eqn:Hk; [|by destruct op].
    eapply wp_mono; [by eapply uring_start_async|]. intros res w' (_ & _ & Hreq).
    by apply (abs_requested m r k).
  - unfold wp. rewrite uring_start_entry, Hc, Hs. apply Hsync.
    right. unfold op_supported in Hs. by destruct (op_checked op).
  - unfold wp. rewrite uring_start_entry, Hc. apply Hsync. by left.
Qed.

(** [prepare_wake] is the step of that name. *)
Lemma prepare_refines m (w : W) :
  inv w → at_main m w → tasks_run m = true → expected_wakes (engine w) < 2 ^ 64 - 1 →
  wp fatal (uring_prepare_wake false default_entry big_endian io_uring_enter event_request
    event_fd_raw) w (λ _ w', prepare_step (abs m w) (abs m w')).
Proof.
  intros Hw [[Ho Hx He Hs Hl] Hb] Hm Hmax.
  eapply wp_mono; [eapply uring_prepare_wake_spec; [done..|lia]|].
  intros res w' (_ & _ & H). cbn zeta in H. set (w0 := upd _ w) in H.
  assert (prepare_step (abs m w) (mkWakes (wake_queue (engine w)) (event_fd (engine w)) 0
    (Z.to_nat (expected_wakes (engine w) + 1))
    (Z.to_nat (expected_wakes (engine w) + 1) - length (wake_queue (engine w)) - taken_off m)
    (if expected_wakes (engine w) =? 0 then Armed else poll_state (abs m w)) m (woken_log w)))
    as Hstep.
  { unfold abs at 1. rewrite Z2Nat.inj_add, Nat.add_1_r by lia.
    replace (S _ - _ - _)%nat with (S (Z.to_nat (expected_wakes (engine w)) -
      length (wake_queue (engine w)) - taken_off m)) by lia.
    replace (expected_wakes (engine w) =? 0) with
      (Nat.eqb (S (Z.to_nat (expected_wakes (engine w)))) 1).
    - by apply prepare.
    - destruct (Z.eqb_spec (expected_wakes (engine w)) 0) as [->|]; [done|].
      apply Nat.eqb_neq. lia. }
  destruct (Z.eqb_spec (expected_wakes (engine w)) 0) as [Hz|Hz].
  - destruct H as (e & _ & Hu & Hp). pose proof (pu_frame _ _ _ _ _ _ Hp) as [= F1 F2 F3 F4 _].
    pose proof (open_polls_push _ _ _ Hp) as Hop. cbn [fmap list_fmap] in Hop.
    rewrite Hu, polls_in_own in Hop. change (open_polls event_request w0) with
      (open_polls event_request w) in Hop.
    unfold open_for in Ho. rewrite Hz, orb_true_r in Ho. unfold abs at 2.
    rewrite F1, F2, F3, F4, Hop, Ho. exact Hstep.
  - subst w'. exact Hstep.
Qed.

(** [wake] is a push, followed by a write when the queue was empty. *)
Lemma wake_refines m r (w : W) :
  at_main m w → written m w →
  Z.of_nat (length (wake_queue (engine w)) + taken_off m) < expected_wakes (engine w) →
  Z.of_nat (taken_off m) + 1 < 2 ^ 64 - 1 →
  wp fatal (uring_wake r) w (λ res w',
    res = Ok tt ∧ rtc wake_step (abs m w) (abs m w') ∧ written m w').
Proof.
  intros [[Ho Hx He Hs _] _] Hwr Hann Hmax. unfold uring_wake, gets_engine, modify_engine. wp_steps.
  unfold written in *. unfold abs at 1.
  assert (∀ q' v, abs m (upd (set_event_fd v) (upd (set_wake_queue q') w)) =
    mkWakes q' v 0 (Z.to_nat (expected_wakes (engine w)))
      (Z.to_nat (expected_wakes (engine w)) - length q' - taken_off m)
      (poll_state (abs m w)) m (woken_log w)) as Habs by done.
  destruct (wake_queue (engine w)) as [|x q] eqn:Eq; simpl in *; wp_steps.
  - rewrite eventfd_write_ok by (simpl; lia). wp_steps. split_and!; [done| |simpl; lia]. rewrite Habs. simpl.
    destruct (Z.to_nat (expected_wakes (engine w))) as [|e] eqn:Ee; [lia|].
    replace (S e - 0 - taken_off m)%nat with (S (e - taken_off m)) by lia.
    replace (S e - 1 - taken_off m)%nat with (e - taken_off m)%nat by lia.
    eapply rtc_l; [right; left; exists r; apply push_first|]. apply rtc_once.
    right. right. left. apply write_event. apply eventfd_write_ok. lia.
  - split_and!; [done| |simpl; rewrite length_app; simpl; lia].
    specialize (Habs ((x :: q) ++ [r]) (event_fd (engine w))). simpl in Habs.
    match goal with |- rtc _ _ ?t => change t with
      (abs m (upd (set_event_fd (event_fd (engine w))) (upd (set_wake_queue (x :: q ++ [r])) w))) end.
    rewrite Habs. apply rtc_once. right. left. exists r. rewrite length_app. simpl.
    destruct (Z.to_nat (expected_wakes (engine w))) as [|e] eqn:Ee; [lia|].
    replace (S e - S (length q) - taken_off m)%nat with
      (S (e - (length q + 1) - taken_off m)) by lia.
    replace (S e - S (length q + 1) - taken_off m)%nat with
      (e - (length q + 1) - taken_off m)%nat by lia.
    apply (push_more r x q).
Qed.
Lemma kernel_abs m new (w : W) k' q' :
  inv w → kernel_moves event_request (event_fd (engine w)) 0 new (kernel w) (queue (engine w)) k' q' →
  abs m (mkWorld (set_queue q' (engine w)) k' (rest w) (delivered w) (woken_log w)) = abs m w.
Proof.
  intros ([Hsq Hcq Hst Hts Hn Hans Hbal] & Hroom & Hf) Hm. apply abs_frame; [done|].
  destruct (kernel_moves_counts event_request 0 new _ _ _ _ _ Hsq Hcq Hm)
    as (_ & _ & Hv' & _ & _); [unfold sq_count in *; lia|apply ring_count_range|].
  unfold open_polls, history. simpl. rewrite (km_taken _ _ _ _ _ _ _ _ Hm), Hv'.
  change (Z.to_nat 0) with 0%nat. by rewrite take_0, drop_0, app_nil_r.
Qed.

(** What leaves the protocol alone. *)
Lemma same_abs m (w w' : W) :
  abs m w' = abs m w → written m w → rtc wake_step (abs m w) (abs m w') ∧ written m w'.
Proof.
  intros E Hwr. rewrite E. split; [apply rtc_refl|]. unfold abs in E.
  injection E as E1 E2 _ _ _ _. unfold written in *. by rewrite E1, E2.
Qed.

Lemma prepare_keeps s s' :
  prepare_step s s' → pending_wakes s' = pending_wakes s ∧ counter s' = counter s.
Proof. by destruct 1. Qed.

Lemma api_step_refines m (w w' : W) :
  inv w → at_main m w → tasks_run m = true → written m w →
  Z.of_nat (taken_off m) + 1 < 2 ^ 64 - 1 → api_step (taken_off m) w w' →
  rtc wake_step (abs m w) (abs m w') ∧ written m w'.
Proof.
  intros Hw Hok Hm Hwr Hmax Hs. revert Hw Hok Hwr.
  destruct Hs as [op r res w1 w2 Hop Hr E|r res w1 w2 Hr E|res w1 w2 Hx E|r res w1 w2 Ha E
    |new w1 k' q' Hk|u w1]; intros Hw Hok Hwr.
  - apply same_abs; [|done].
    by apply (wp_Ret fatal _ _ _ _ (λ _ w', abs m w' = abs m w1) E), start_abs.
  - apply same_abs; [|done]. apply (wp_Ret fatal _ _ _ _ (λ _ w', abs m w' = abs m w1) E).
    eapply wp_mono; [by eapply uring_cancel_spec|]. intros ? ? (_ & _ & Hreq).
    by apply (abs_requested m NO_OP (KCancel r 0 0)).
  - pose proof (prepare_refines m w1 Hw Hok Hm Hx) as Hp.
    apply (wp_Ret fatal _ _ _ _ _ E) in Hp. split; [by apply rtc_once; left|].
    apply prepare_keeps in Hp as [E1 E2]. unfold written in *. simpl in E1, E2.
    by rewrite E1, E2.
  - pose proof (wake_refines m r w1 Hok Hwr Ha Hmax) as Hp.
    by apply (wp_Ret fatal _ _ _ _ _ E) in Hp as (_ & ? & ?).
  - apply same_abs; [|done]. by apply (kernel_abs m new).
  - by apply same_abs.
Qed.

(** Any use of the engine is a sequence of steps of the protocol. *)
Lemma api_steps_refine m (w w' : W) :
  rtc (api_step (taken_off m)) w w' → inv w → at_main m w → tasks_run m = true → written m w →
  Z.of_nat (taken_off m) + 1 < 2 ^ 64 - 1 →
  rtc wake_step (abs m w) (abs m w') ∧ written m w'.
Proof.
  induction 1 as [w|w1 w2 w3 Hs _ IH]; intros Hw Hok Hm Hwr Hmax; [by split|].
  destruct (api_step_refines m w1 w2) as [H1 Hwr2]; [done..|].
  assert (behaves event_request submit_all (taken_off m) w1 w2) as [[Hw2 _] _ Hok2]
    by (by eapply api_step_behaves).
  destruct IH as [H2 Hwr3]; [done|by apply Hok2|done..|]. split; [by etransitivity|done].
Qed.
(** ** [process_wake] *)

Context (user_complete : ReqPtr → Z → M W unit) (wake_complete : ReqPtr → M W unit).
Context (R : relation U) `{!PreOrder R}.
Context (wake_fuel : nat) (budget starts : U → nat).

Local Abbreviation callback := (callback NO_OP event_request event_fd_raw fatal submit_all
  io_uring_enter default_entry big_endian syscall R budget starts).
Local Abbreviation complete_wakes := (complete_wakes wake_complete).
Local Abbreviation process_wake_loop := (process_wake_loop false wake_complete).
Local Abbreviation process_wake := (process_wake false default_entry big_endian io_uring_enter
  syscall_result event_request event_fd_raw wake_complete wake_fuel).
Local Abbreviation supply := (supply budget).

Context (Huser : ∀ r v, callback (user_complete r v)).
Context (Hwake : ∀ r, callback (wake_complete r)).

(** The wakes of one unit of work can be counted. *)
Context (Hfuel : Z.of_nat wake_fuel + 1 < 2 ^ 64 - 1).

Lemma complete_wakes_refines n l (w : W) :
  inv w → wake_ok true n w → written (Resuming l n) w → Z.of_nat n + 1 < 2 ^ 64 - 1 →
  wp fatal (complete_wakes l) w (λ _ w',
    rtc wake_step (abs (Resuming l n) w) (abs (Resuming [] n) w') ∧ written (Resuming [] n) w').
Proof.
  revert w. induction l as [|r l IH]; intros w Hw Hok Hwr Hmax; cbn [Uring.complete_wakes].
  { wp_steps. split; [apply rtc_refl|done]. }
  pose proof (log_woken_evolves submit_all r w Hw) as Hlog.
  pose proof (log_woken_ok event_request true n r w Hok) as Hok0. wp_steps.
  eapply wp_mono; [apply (Hwake r true n); [apply Hlog|done]|]. intros _ w1 (Hsteps & _ & _).
  assert (behaves event_request submit_all n (log_woken r w) w1) as [[Hw1 _] _ Hok1]
    by (eapply api_steps_behave; [done..|apply Hlog]).
  destruct (api_steps_refine (Resuming l n) (log_woken r w) w1) as [H1 Hwr1]; [done|apply Hlog|done..|].
  eapply wp_mono; [apply IH; [done|by apply Hok1|done..]|]. intros _ w2 [H2 Hwr2]. split; [|done].
  eapply rtc_l; [right; right; right; right; apply process_resume|]. by etransitivity.
Qed.

(** A batch is taken off the queue. *)
Lemma drain_refines off r q (w : W) :
  wake_queue (engine w) = r :: q →
  let k := Nat.min (length (wake_queue (engine w))) MAX_RESUME in
  process_step (abs (Looping off) w)
    (abs (Resuming (take k (wake_queue (engine w))) (off + k))
      (upd (set_wake_queue (drop k (wake_queue (engine w)))) w)).
Proof.
  intros Hq k. pose proof (process_drain r q (event_fd (engine w)) 0
    (Z.to_nat (expected_wakes (engine w)))
    (Z.to_nat (expected_wakes (engine w)) - length (r :: q) - off)
    (poll_state (abs Outside w)) off (woken_log w)) as Hd. cbn zeta in Hd.
  unfold abs at 1. rewrite Hq. replace (abs (Resuming _ _) _) with
    (mkWakes (drop k (r :: q)) (event_fd (engine w)) 0 (Z.to_nat (expected_wakes (engine w)))
      (Z.to_nat (expected_wakes (engine w)) - length (r :: q) - off) (poll_state (abs Outside w))
      (Resuming (take k (r :: q)) (off + k)) (woken_log w)).
  { subst k. rewrite Hq. exact Hd. }
  unfold abs. cbn [upd engine set_wake_queue wake_queue event_fd expected_wakes woken_log taken_off].
  rewrite length_drop.
  assert (k ≤ length (r :: q))%nat by (unfold k; rewrite Hq; lia).
  f_equal. lia.
Qed.

(** The state in which the loop finds the queue empty, just before it reads the event
    descriptor. *)
Lemma process_wake_loop_refines fuel off (w : W) :
  inv w → wake_ok true off w → 0 < event_fd (engine w) → (supply w < fuel)%nat →
  (off + supply w ≤ wake_fuel)%nat → written (Looping off) w →
  wp fatal (process_wake_loop fuel (Z.of_nat off)) w (λ n w', ∃ w1,
    w' = upd (set_event_fd 0) w1 ∧ wake_queue (engine w1) = [] ∧ 0 < event_fd (engine w1) ∧
    rtc wake_step (abs (Looping off) w) (abs (Looping (Z.to_nat n)) w1)).
Proof.
  revert off w. induction fuel as [|fuel IH]; intros off w Hw Hok He Hf Hmax Hwr; [lia|].
  unfold Uring.process_wake_loop. fold process_wake_loop.
  unfold gets_engine, modify_engine. wp_steps.
  destruct (wake_queue (engine w)) as [|r q] eqn:Hq.
  - wp_steps. rewrite eventfd_read_ok by done. wp_steps. simpl. wp_steps. exists w.
    rewrite Nat2Z.id. split_and!; [done..|apply rtc_refl].
  - wp_steps. rewrite <- Hq. set (k := Nat.min _ _).
    assert (1 ≤ k ≤ length (wake_queue (engine w)))%nat as Hk
      by (unfold k, MAX_RESUME; rewrite Hq; simpl; lia).
    set (w1 := upd _ w).
    assert (UringSpec.evolves submit_all w w1) as Hev1 by by apply wake_fields_behave.
    pose proof (wake_ok_take event_request k off w Hok ltac:(lia) He) as Hok1. fold w1 in Hok1.
    assert (supply w1 + k = supply w)%nat as Hs1.
    { unfold UringWork.supply, w1. cbn [upd engine set_wake_queue wake_queue rest].
      rewrite length_drop. lia. }
    assert (written (Resuming (take k (wake_queue (engine w))) (off + k)) w1) as Hwr1.
    { unfold written in *. simpl in *. rewrite length_drop. lia. }
    assert (rtc wake_step (abs (Looping off) w)
      (abs (Resuming (take k (wake_queue (engine w))) (off + k)) w1)) as Hstep1.
    { apply rtc_once. right. right. right. right. by apply (drain_refines off r q). }
    eapply wp_mono; [apply wp_conj;
      [eapply complete_wakes_spec; [done..|apply Hev1|exact Hok1]
      |apply complete_wakes_refines; [apply Hev1|exact Hok1|exact Hwr1|lia]]|].
    intros _ w2 [(Hev2 & Hok2 & Hsp2 & _ & _ & _ & He2 & _) [Hstep2 Hwr2]].
    wp_steps. rewrite arith_u_fits.
    2:{ destruct Hok1 as [[_ Hx _ _ _] _]. simpl in Hx. rewrite length_drop in Hx.
        unfold in_u. lia. }
    simpl. rewrite <- Nat2Z.inj_add. pose proof (sp_supply _ _ _ _ _ _ Hsp2).
    eapply wp_mono; [apply IH; [apply Hev2|done|simpl in *; lia|lia|lia|exact Hwr2]|].
    intros n w' (w3 & -> & Hq3 & He3 & Hstep3). exists w3. split_and!; [done..|].
    etransitivity; [exact Hstep1|]. etransitivity; [exact Hstep2|].
    eapply rtc_l; [right; right; right; right; apply process_next|exact Hstep3].
Qed.

(** The last step of [process_wake], from the state before the event descriptor is
    read. *)
Lemma finish_refines n (w : W) :
  wake_queue (engine w) = [] → 0 ≤ n → 0 < event_fd (engine w) →
  open_polls event_request w = 0 → n ≤ expected_wakes (engine w) →
  let left := expected_wakes (engine w) - n in
  process_step (abs (Looping (Z.to_nat n)) w)
    (mkWakes [] 0 0 (Z.to_nat left) (Z.to_nat left) (if left =? 0 then Unarmed else Armed) Outside
      (woken_log w)).
Proof.
  intros Hq Hn He Ho Hx left. unfold abs. rewrite Hq, Ho. simpl.
  replace (Z.to_nat left) with (Z.to_nat (expected_wakes (engine w)) - Z.to_nat n)%nat
    by (unfold left; lia).
  replace (if left =? 0 then Unarmed else Armed) with
    (poll_again (Z.to_nat (expected_wakes (engine w)) - Z.to_nat n) Unarmed).
  - rewrite Nat.sub_0_r. by eapply process_finish, eventfd_read_ok.
  - unfold poll_again, left. destruct (Nat.eqb_spec (Z.to_nat (expected_wakes (engine w)) - Z.to_nat n) 0),
      (Z.eqb_spec (expected_wakes (engine w) - n) 0); (done || lia).
Qed.

(** The whole of [process_wake]: its last step reads the event descriptor, counts the
    wakes off and polls again when more are expected. *)
Lemma process_wake_refines (w : W) :
  inv w → wake_ok true 0 w → wake_queue (engine w) ≠ [] → (supply w < wake_fuel)%nat →
  written (Looping 0) w →
  wp fatal (process_wake PollIn) w (λ _ w',
    rtc wake_step (abs (Looping 0) w) (abs Outside w') ∧ written Outside w').
Proof.
  intros Hw Hok Hq Hf Hwr. assert (0 < event_fd (engine w)) as He by by apply Hok.
  unfold Uring.process_wake. simpl. wp_steps.
  eapply wp_mono; [apply wp_conj;
    [by eapply (process_wake_loop_spec NO_OP event_request event_fd_raw fatal submit_all
       io_uring_enter Hkernel default_entry big_endian Hdefault syscall Hdistinct Hsyscall
       wake_complete R budget starts Hwake _ 0)
    |apply (process_wake_loop_refines _ 0); [done..|lia|done]]|].
  intros n w1 [((Hev & _) & _ & Hn & Hok1 & _) (w0 & -> & Hq0 & He0 & Hstep)].
  unfold gets_engine, modify_engine. wp_steps.
  pose proof (wake_ok_count event_request _ _ Hok1) as [Hleft Hst].
  rewrite Z2Nat.id in Hleft, Hst by done. simpl in Hleft.
  rewrite arith_u_fits by done. simpl. wp_steps.
  set (left := expected_wakes (engine w0) - n) in *.
  assert (rtc wake_step (abs (Looping 0) w)
    (mkWakes [] 0 0 (Z.to_nat left) (Z.to_nat left) (if left =? 0 then Unarmed else Armed) Outside
      (woken_log w0))) as Hfin.
  { eapply rtc_r; [exact Hstep|]. right. right. right. right.
    apply finish_refines; [done|lia|done|exact (wk_open _ _ _ _ (proj1 Hok1))|unfold left in *; lia]. }
  assert (∀ w', wake_queue (engine w') = [] → event_fd (engine w') = 0 → written Outside w') as Hwr'
    by (intros w' E1 E2; unfold written; rewrite E1, E2; simpl; lia).
  set (w2 := upd (set_expected_wakes left) _).
  assert (open_polls event_request w2 = 0) as Ho2 by exact (wk_open _ _ _ _ Hst).
  destruct (Z.eqb_spec left 0) as [Hz|Hz]; simpl.
  - wp_steps. split; [|by apply Hwr']. unfold abs at 2. rewrite Ho2. simpl.
    rewrite Hq0. simpl. by rewrite !Nat.sub_0_r.
  - eapply wp_mono; [eapply poll_wake_spec; [done..|]|].
    { apply (wake_fields_behave submit_all (set_expected_wakes left)); [apply Hev|done]. }
    intros _ w' [_ (e & _ & Hu & Hp)]. pose proof (pu_frame _ _ _ _ _ _ Hp) as [= F1 F2 F3 F4 _].
    pose proof (open_polls_push _ _ _ Hp) as Hop. cbn [fmap list_fmap] in Hop.
    rewrite Hu, polls_in_own, Ho2 in Hop. split; [|apply Hwr'; [by rewrite F2|by rewrite F3]].
    unfold abs at 2. rewrite F1, F2, F3, F4, Hop. simpl. rewrite Hq0. simpl. by rewrite !Nat.sub_0_r.
Qed.
(** ** A unit of work *)

Local Abbreviation deliverable := (deliverable event_request R wake_fuel budget starts).
Local Abbreviation engine_ok := (engine_ok event_request submit_all).
Local Abbreviation request_complete := (request_complete false default_entry big_endian
  io_uring_enter syscall_result NO_OP event_request event_fd_raw user_complete wake_complete
  wake_fuel).
Local Abbreviation uring_work := (uring_work false default_entry big_endian io_uring_enter
  syscall_result NO_OP event_request event_fd_raw timespec_at user_complete wake_complete
  wake_fuel).

(** The completion of the poll: the kernel posts it and [process_wake] is entered. *)
Lemma delivered_refines e l (w : W) :
  inv w → wake_ok false 0 w → owed w (e :: l) → cqe_user_data e = event_request →
  rtc wake_step (abs Outside w)
    (abs (Looping 0) (log_delivered (cqe_user_data e) (cqe_result e) w)).
Proof.
  intros Hw Hok Ho Hu.
  destruct (wake_ok_poll event_request submit_all e l w Hw Hok Ho Hu) as (_ & Hq & Hok1).
  pose proof Hok1 as [[Ho1 _ _ _ _] Hx]. unfold open_for in Ho1. simpl in Ho1, Hx.
  destruct Hok as [[Ho0 _ _ Hs _] _]. unfold open_for in Ho0. simpl in Ho0.
  destruct (Z.eqb_spec (expected_wakes (engine w)) 0); [lia|].
  unfold abs. rewrite Ho0, Ho1. simpl.
  eapply rtc_l; [right; right; right; left; apply poll_completes; by apply Hs|].
  apply rtc_once. right. right. right. left. apply poll_delivered.
Qed.

Lemma request_complete_refines w0 e l (w : W) :
  inv w → deliverable w0 (e :: l) w → written Outside w →
  wp fatal (request_complete (cqe_user_data e) (cqe_result e)) w (λ _ w',
    rtc wake_step (abs Outside w) (abs Outside w') ∧ written Outside w').
Proof.
  intros Hw (Hok & [more Ho] & Hf & _) Hwr. unfold Uring.request_complete. wp_steps.
  set (w1 := log_delivered _ _ w). assert (inv w1) as Hw1 by by apply inv_log.
  assert (owed w1 (l ++ more)) as Ho1 by by apply owed_deliver.
  assert (cqe_user_data e ≠ event_request → wake_ok false 0 w1 ∧ abs Outside w1 = abs Outside w)
    as Hother.
  { intros Hne. split; [apply wake_ok_deliver; [done|by eexists|done]|].
    apply abs_frame; [done|]. unfold open_polls. simpl. rewrite fmap_app, polls_in_app. simpl.
    rewrite (polls_in_other _ [_]) by by constructor. by rewrite Z.add_0_r. }
  destruct (Z.eqb_spec (cqe_user_data e) NO_OP) as [Hn|_].
  { wp_steps. destruct Hother as [_ E]; [congruence|]. by apply (same_abs Outside w w1). }
  destruct (Z.eqb_spec (cqe_user_data e) event_request) as [He|He].
  - destruct (wake_ok_poll event_request submit_all e (l ++ more) w Hw Hok Ho He)
      as (Hres & Hq & Hok1).
    pose proof (delivered_refines e (l ++ more) w Hw Hok Ho He) as Hstep.
    fold w1 in Hok1, Hstep. rewrite Hres.
    eapply wp_mono; [apply (process_wake_refines w1); done|]. intros _ w' [Hs Hwr'].
    split; [by etransitivity|done].
  - destruct (Hother He) as [Hok1 E]. rewrite <- E.
    eapply wp_mono; [by apply (Huser _ _ false 0%nat)|]. intros _ w' (Hsteps & _ & _).
    by apply (api_steps_refine Outside w1 w').
Qed.

Lemma uring_work_refines timeout (w : W) :
  engine_ok w → 0 ≤ timeout → (supply w < wake_fuel)%nat → written Outside w →
  wp fatal (uring_work timeout) w (λ r w',
    match r with
    | Ok _ => rtc wake_step (abs Outside w) (abs Outside w') ∧ written Outside w'
    | Err _ => fatal
    end).
Proof.
  intros Hok Ht Hf Hwr. unfold Uring.uring_work. wp_steps.
  eapply wp_mono; [by apply submit_and_wait_ok|].
  intros [ring|e] w1 Hsw; [|done]. destruct Hsw as (-> & Hok1 & Hz & l & Hl & Hp). apply wp_bind.
  assert (abs Outside w1 = abs Outside w) as E1
    by (apply (abs_pushes Outside l); [done|by eapply timer_only_other]).
  destruct (same_abs Outside w w1 E1 Hwr) as [_ Hwr1]. rewrite <- E1.
  pose proof (sp_supply _ _ _ _ _ _ (pushes_spends event_request R budget starts _ _ _ Hp)).
  set (J := λ l w', deliverable w1 l w' ∧ rtc wake_step (abs Outside w1) (abs Outside w') ∧
    written Outside w').
  assert (∀ l f w2, J l w2 →
    (∀ e, submission (queue (f e)) = submission (queue e) ∧
      (expected_wakes (f e), wake_queue (f e), event_fd (f e)) =
      (expected_wakes e, wake_queue e, event_fd e) ∧ features (f e) = features e) →
    J l (upd f w2)) as HJ.
  { intros l' f w2 (H1 & H2 & H3) Hfr. split; [by apply deliverable_upd|].
    destruct (Hfr (engine w2)) as (E2 & [= E3 E4 E5] & _).
    assert (abs Outside (upd f w2) = abs Outside w2) as E.
    { apply abs_frame; [simpl; by rewrite E3, E4, E5|]. unfold open_polls, history. simpl.
      by rewrite E2. }
    destruct (same_abs _ _ _ E H3) as [? ?]. split; [by etransitivity|done]. }
  eapply wp_mono; [apply (run_events_spec fatal submit_all J);
    [intros; by apply HJ|intros; by apply HJ| |apply Hok1|apply Hok1|]|].
  - intros e l' w2 Hw2 (H1 & H2 & H3).
    eapply wp_mono; [apply wp_conj; [by eapply request_complete_spec
      |by apply (request_complete_refines w1 e l')]|].
    intros _ w3 [[Hev Hd] [Hs Hwr3]]. split; [done|]. split; [done|]. split; [by etransitivity|done].
  - split; [|by split]. apply (batch_deliverable event_request submit_all); [done..|lia].
  - intros _ w' (_ & _ & _ & _ & _ & Hs & Hwr'). by apply wp_ret.
Qed.
(** ** Runs of the engine *)

(** A use of the engine, or a unit of work in which no more wakes are processed than
    it has rounds for. *)
Inductive engine_step : relation W :=
| step_api w w' : api_step 0 w w' → engine_step w w'
| step_work timeout w w' :
    0 ≤ timeout → (supply w < wake_fuel)%nat → uring_work timeout w = Ret (Ok tt, w') →
    engine_step w w'.

Lemma engine_step_refines (w w' : W) :
  engine_step w w' → engine_ok w → written Outside w →
  rtc wake_step (abs Outside w) (abs Outside w') ∧ engine_ok w' ∧ written Outside w'.
Proof.
  intros Hs. destruct Hs as [w1 w2 Hs|timeout w1 w2 Ht Hf E]; intros Hok Hwr.
  - destruct (api_step_refines Outside w1 w2) as [H1 H2]; [apply Hok..|done|done|done|done|].
    split_and!; [done| |done]. apply (engine_ok_behaves event_request submit_all w1); [done|].
    eapply api_step_behaves; [done..|apply Hok|done].
  - pose proof (uring_work_refines timeout w1 Hok Ht Hf Hwr) as H1.
    apply (wp_Ret fatal _ _ _ _ _ E) in H1 as [H1 H2]. split_and!; [done| |done].
    assert (wp fatal (uring_work timeout) w1 (λ r w',
      match r with Ok _ => engine_ok w' | Err _ => fatal end)) as H3.
    { eapply wp_mono; [by eapply (uring_work_spec NO_OP event_request event_fd_raw fatal submit_all
        io_uring_enter Hkernel default_entry big_endian Hdefault syscall syscall_result timespec_at
        Hdistinct Hsyscall user_complete wake_complete R wake_fuel budget starts Huser Hwake)|].
      intros [u|e] w' H; [|done]. destruct H as [w3 (_ & _ & _ & ? & _)]. done. }
    by apply (wp_Ret fatal _ _ _ _ _ E) in H3.
Qed.

Lemma engine_steps_refine (w w' : W) :
  engine_ok w → abs Outside w = initial → rtc engine_step w w' →
  rtc wake_step initial (abs Outside w') ∧ engine_ok w' ∧ written Outside w'.
Proof.
  intros Hok Hinit Hs. rewrite <- Hinit.
  assert (written Outside w) as Hwr.
  { unfold abs, initial in Hinit. injection Hinit as E1 E2 _ _ _ _. unfold written.
    rewrite E1, E2. simpl. lia. }
  clear Hinit. induction Hs as [w|w1 w2 w3 H1 _ IH]; [by split; [apply rtc_refl|]|].
  destruct (engine_step_refines w1 w2 H1 Hok Hwr) as (Hr & Hok2 & Hwr2).
  destruct (IH Hok2 Hwr2) as (Hr3 & Hok3 & Hwr3). split_and!; [by etransitivity|done|done].
Qed.

(** C3: the engine implements the wake protocol: in any run that starts with no wake
    announced, with the engine used in any way, other threads waking it at any time and
    units of work in between, the wakes move by steps of the protocol only.  So no wake
    is lost, resumed twice or out of order in the engine itself. *)
Theorem engine_refines_protocol (w w' : W) :
  engine_ok w → abs Outside w = initial → rtc engine_step w w' →
  engine_ok w' ∧ rtc wake_step initial (abs Outside w').
Proof. intros Hok Hinit Hs. by destruct (engine_steps_refine w w' Hok Hinit Hs) as (? & ? & _). Qed.

Context (submit_direct : Work W → ReqPtr → M W CancelWork) (cancel_direct : CancelWork → M W unit).
Local Abbreviation uring := (uring_engine false default_entry big_endian io_uring_enter syscall
  syscall_result NO_OP event_request event_fd_raw timespec_at user_complete wake_complete
  wake_fuel submit_direct cancel_direct).

(** C27: the waker never ends the process.  [Driver::wake] aborts when the engine's
    [wake] fails, and that fails when the counter of the event descriptor is full; in
    any run that starts with no wake announced, a wake that was announced returns, with
    its request queued behind the others, the descriptor written just when the queue was
    empty, and nothing else changed. *)
Theorem announced_wake_never_aborts (w w' : W) r :
  engine_ok w → abs Outside w = initial → rtc engine_step w w' →
  Z.of_nat (length (wake_queue (engine w'))) < expected_wakes (engine w') →
  waker_wake (io_engine := uring) r w' =
  Ret (tt, upd (λ e, set_event_fd (event_fd e + match wake_queue e with [] => 1 | _ => 0 end)
    (set_wake_queue (wake_queue e ++ [r]) e)) w').
Proof.
  intros Hok Hinit Hs Hann.
  destruct (engine_steps_refine w w' Hok Hinit Hs) as (_ & Hok' & Hwr).
  destruct w' as [e k u d l]. unfold written in Hwr.
  unfold waker_wake, mbind, M_bind. simpl in *.
  unfold uring_wake, gets_engine, gets, modify_engine, modify, mbind, M_bind. simpl.
  destruct (wake_queue e) as [|x q] eqn:Eq; simpl in *.
  - rewrite eventfd_write_ok by lia. unfold upd. simpl. rewrite Eq. done.
  - unfold upd. simpl. rewrite Eq, Z.add_0_r. by destruct e.
Qed.
End Refine.

(** ** A run on which the theorem applies *)

(** Wakes are announced and requested, and a unit of work resumes them. *)
Definition woken_up : World Sim.Kernel nat :=
  Eval vm_compute in
  match uring_work false zero_entry false Sim.enter (λ v, Ok v) 77 Sim.event_request 10 (λ n, n)
    (λ _ _, mret tt) (λ _, mret tt) 8 1000 waking with
  | Ret (Ok _, w) => w
  | _ => idle
  end.

Lemma woken_up_run :
  rtc (engine_step 77 Sim.event_request 10 Sim.enter zero_entry false sim_syscall (λ v, Ok v)
    (λ n, n) (λ _ _, mret tt) (λ _, mret tt) 8 id) idle woken_up.
Proof.
  eapply rtc_l; [apply step_api; eapply (api_start _ _ _ _ _ _ _ _ (Oread 5 4096 512 0) 1001);
    [by repeat split|done|vm_compute; reflexivity]|].
  eapply rtc_l; [apply step_api; eapply (api_start _ _ _ _ _ _ _ _ (Ofsync 5) 1002);
    [by repeat split|done|vm_compute; reflexivity]|].
  do 3 (eapply rtc_l; [apply step_api; eapply api_prepare; [reflexivity|vm_compute; reflexivity]|]).
  eapply rtc_l; [apply step_api, (api_wake _ _ _ _ _ _ _ _ 2001 (Ok tt));
    [reflexivity|vm_compute; reflexivity]|].
  eapply rtc_l; [apply step_api, (api_wake _ _ _ _ _ _ _ _ 2002 (Ok tt));
    [reflexivity|vm_compute; reflexivity]|].
  apply rtc_once. eapply step_work with (timeout := 1000);
    [done|vm_compute; lia|vm_compute; reflexivity].
Qed.

Lemma engine_refines_protocol_witness :
  woken_log woken_up = [2001; 2002] ∧
  engine_ok Sim.event_request true woken_up ∧
  rtc wake_step initial (abs Sim.event_request Outside woken_up).
Proof.
  split; [reflexivity|].
  apply (engine_refines_protocol 77 Sim.event_request 10 False true Sim.enter (Sim.kernel_ok true)
    zero_entry false ltac:(repeat split) sim_syscall (λ v, Ok v) (λ n, n) ltac:(done)
    sim_syscall_rest (λ _ _, mret tt) (λ _, mret tt) eq 8 id id
    ltac:(intros r v; by apply idle_callback) ltac:(intros r; by apply idle_callback)
    ltac:(reflexivity) idle).
  - apply idle_ok.
  - reflexivity.
  - apply woken_up_run.
Defined.

(** The third announced wake. *)
Lemma announced_wake_never_aborts_witness :
  waker_wake (io_engine := uring_engine false zero_entry false Sim.enter sim_syscall (λ v, Ok v) 77
      Sim.event_request 10 (λ n, n) (λ _ _, mret tt) (λ _, mret tt) 8 (λ work _, work;; mret 0)
      (λ _, mret tt)) 2003 woken_up =
  Ret (tt, upd (λ e, set_event_fd 1 (set_wake_queue [2003] e)) woken_up).
Proof.
  apply (announced_wake_never_aborts 77 Sim.event_request 10 False true Sim.enter
    (Sim.kernel_ok true) zero_entry false ltac:(repeat split) sim_syscall (λ v, Ok v) (λ n, n)
    ltac:(done) sim_syscall_rest (λ _ _, mret tt) (λ _, mret tt) eq 8 id id
    ltac:(intros r v; by apply idle_callback) ltac:(intros r; by apply idle_callback)
    ltac:(reflexivity) (λ work _, work;; mret 0) (λ _, mret tt) idle).
  - apply idle_ok.
  - reflexivity.
  - apply woken_up_run.
  - reflexivity.
Defined.
