(* ===== verification/Tasks.v ===== *)
(** * Tasks (src/src/ops/timers.rs, src/src/ops/branch.rs, src/src/ops/mod.rs,
    src/src/impls.rs, src/src/runtime.rs): timers, environments, entry points

    What tasks call: timeouts and sleeping, branching through the environment of the
    task, and the entry point that blocks on a task.  Suspending a task and running
    coroutines are xx-core's and parameters.  The theorems: a sleep that succeeds is
    never too short, since the task is resumed by a call the driver's code makes
    ([driver_calls] of DriverSpec.v), and blocking on a task returns its output. *)

From stdpp Require Import base list numbers relations tactics.
From S2P Require Import Prelude Engine Driver DriverSpec.

(** ** The environment of a task *)

(** [PulseContext]: the addresses of the driver, the executor and the workers, and
    the waker of the context. *)
Record PulseContext (S : Type) : Type := mkPulseContext {
  context_waker : Waker S;
  env_driver : Z;
  env_executor : Z;
  env_workers : Z
}.

Arguments mkPulseContext {S} context_waker env_driver env_executor env_workers.
Arguments env_driver {S} p : rename.
Arguments env_executor {S} p : rename.
Arguments env_workers {S} p : rename.

(** [Select]: the task that finished first, with the result of the other one if it
    was started. *)
Inductive Select (O1 O2 : Type) : Type :=
| First (o : O1) (other : option O2)
| Second (o : O2) (other : option O1).

Arguments First {O1 O2} o other.
Arguments Second {O1 O2} o other.

(** [Environment for PulseContext]: the context is a field of it, at an offset, so that
    the address of one gives the other. *)
Section Container.
Context (context_offset : Z).

Definition env_context (self : Z) : Z := self + context_offset.
Definition from_context (context : Z) : Z := context - context_offset.

Lemma from_context_context self : from_context (env_context self) = self.
Proof. unfold from_context, env_context. lia. Qed.
End Container.

Section Environment.
Context {S : Type} {io_engine : EngineImpl S}.
Local Abbreviation PulseContext := (PulseContext S).

(** The environment of the task, if it is xx-pulse's. *)
Context (get_environment : M S (option PulseContext)).

Definition PulseContext_new (driver executor workers : Z) : PulseContext :=
  mkPulseContext (waker driver) driver executor workers.

Definition PulseContext_clone (self : PulseContext) : PulseContext :=
  PulseContext_new (env_driver self) (env_executor self) (env_workers self).

Definition internal_get_pulse_env : M S PulseContext :=
  env ← get_environment; lift (unwrap env).

Definition internal_get_driver : M S Z :=
  env ← internal_get_pulse_env; mret (env_driver env).

(** xx-core's coroutines, in an environment. *)
Context {Task Handle : Type → Type}.
Context (coroutines_join : ∀ O1 O2, PulseContext → Task O1 → Task O2 → M S (O1 * O2)).
Context (coroutines_select : ∀ O1 O2, PulseContext → Task O1 → Task O2 → M S (Select O1 O2)).
Context (coroutines_spawn : ∀ O, PulseContext → Task O → M S (Handle O)).
Context (spawn_entry : ∀ O, Task O → Task O).

Definition join {O1 O2} (task_1 : Task O1) (task_2 : Task O2) : M S (O1 * O2) :=
  runtime ← internal_get_pulse_env; coroutines_join O1 O2 runtime task_1 task_2.

Definition select {O1 O2} (task_1 : Task O1) (task_2 : Task O2) : M S (Select O1 O2) :=
  runtime ← internal_get_pulse_env; coroutines_select O1 O2 runtime task_1 task_2.

Definition spawn {O} (task : Task O) : M S (Handle O) :=
  runtime ← internal_get_pulse_env; coroutines_spawn O runtime (spawn_entry O task).

(** [internal::runtime] and the macros: xx-core's macros in the environment of the
    task.  A branch is a task with the handler of its result. *)
Context {Branches : Type → Type} {Tasks : Type → Type}.
Context (coroutines_select_many : ∀ O, PulseContext → Branches O → M S O).
Context (coroutines_join_many : ∀ O, PulseContext → Tasks O → M S O).
Context (branch : ∀ O P, Task P → (P → O) → Branches O).
Context (or_branch : ∀ O, Branches O → Branches O → Branches O).

Definition internal_runtime : M S PulseContext := internal_get_pulse_env.

Definition select_many {O} (branches : Branches O) : M S O :=
  runtime ← internal_runtime; coroutines_select_many O runtime branches.

Definition join_many {O} (tasks : Tasks O) : M S O :=
  runtime ← internal_runtime; coroutines_join_many O runtime tasks.

(** [TaskExt::timeout] *)
Definition task_timeout {O} (self : Task O) (sleep : Task (Result unit)) : M S (option O) :=
  select_many (or_branch (option O) (branch (option O) O self (λ res, Some res))
    (branch (option O) (Result unit) sleep (λ _, None))).
End Environment.

(** ** Timers *)

Section Timers.
Context {S : Type} `{DriverState S}.
Context (clock : M S (OsResult Z)) (check_interrupt : M S (Result unit)).

(** xx-core's [block_on] of the future of a timer. *)
Context (block_on : (ReqPtr → M S TimerProgress) → M S (Result unit)).

Definition op_timeout (expire flags : Z) : M S (Result unit) :=
  _ ←? check_interrupt;
  block_on (timeout clock expire flags).

(** The duration in nanoseconds, a [u128]. *)
Definition sleep (nanos : Z) : M S (Result unit) :=
  n ← lift (unwrap (checked_u 64 nanos));
  op_timeout n 0.

Definition yield_now : M S unit :=
  _ ← sleep 0; mret tt.
End Timers.

(** ** The entry point *)

(** What [block_on] keeps on the stack: the cell [running], and the place where xx-core's
    [future::block_on] receives the output of the future. *)
Class BlockState (S V : Type) `{DriverState S} : Type := {
  is_running : S → bool;
  set_running : bool → S → S;
  output : S → option V;
  set_output : option V → S → S;
  running_set : ∀ b s, is_running (set_running b s) = b;
  output_running : ∀ b s, output (set_running b s) = output s;
  output_set : ∀ o s, output (set_output o s) = o;
  running_output : ∀ o s, is_running (set_output o s) = is_running s;
  running_driver : ∀ d s, is_running (set_driver d s) = is_running s;
  output_driver : ∀ d s, output (set_driver d s) = output s
}.

Section BlockOn.
Context {S Task MaybePanic Output : Type} `{DriverState S} `{!BlockState S MaybePanic}.
Context {io_engine : EngineImpl S}.
Context (clock : M S (OsResult Z)) (timer_callback : Timeout → Result unit → M S unit).

(** The addresses of the runtime's driver, executor and workers. *)
Context (runtime_driver runtime_executor runtime_workers : Z).

(** xx-core's [coroutines::spawn_task], the future that runs a task in an environment. *)
Context (spawn_task : PulseContext S → Task → ReqPtr → M S (Progress MaybePanic)).

(** xx-core's [future::block_on]: it is given what to do while the future is pending
    and what to do when it completes. *)
Context (future_block_on :
  M S unit → M S unit → (ReqPtr → M S (Progress MaybePanic)) → M S MaybePanic).

(** xx-core's [join]: the output, or the panic, of a task. *)
Context (join : MaybePanic → M S Output).

Definition runtime_resume : M S unit := modify (set_running false).

Definition runtime_block_on (fuel timer_fuel : nat) (task : Task) : M S Output :=
  let task :=
    spawn_task (PulseContext_new runtime_driver runtime_executor runtime_workers) task in
  modify (set_running true);;
  v ← future_block_on (block_while clock timer_callback fuel timer_fuel is_running)
    runtime_resume task;
  join v.
End BlockOn.

(** ** Theorems *)

Section Sleeping.
Context {S : Type} `{DriverState S} `{!ProcessModel S} (fatal : Prop).
Context (clock : M S (OsResult Z)) (timer_callback : Timeout → Result unit → M S unit).
Context `{!ProcessLaws fatal clock timer_callback}.
Context (check_interrupt : M S (Result unit)).
Context (block_on : (ReqPtr → M S TimerProgress) → M S (Result unit)).

Local Abbreviation tms s := (timers (driver s)).

(** [block_on] runs the future with a request of its own and returns its value.  When the
    timer is pending the task is suspended, the process goes on, and the task is resumed
    by the call of its request: with the value and in the state of that call, which the
    driver makes in some later state of the process. *)
Definition block_on_law : Prop := ∀ fut s (Q : Result unit → S → Prop),
  (∀ r, wp fatal (fut r) s (λ p s1,
    match p with
    | TimerDone v => Q v s1
    | TimerPending t => t ∈ tms s1 ∧ ts_wf (tms s1) ∧ process_ok s1 ∧
        ∀ v s2 s3, now_of s1 ≤ now_of s2 → ts_wf (tms s2) → process_ok s2 → t ∈ tms s2 →
          driver_calls clock timer_callback s2 t v s3 → Q v s3
    end)) →
  wp fatal (block_on fut) s Q.

(** The task was interrupted or not; nothing else happens. *)
Definition check_law : Prop := ∀ s, process_ok s → wp fatal check_interrupt s (λ r s',
  s' = s ∧ (r = Ok tt ∨ r = Err (ErrKind Interrupted))).

Context (Hblock : block_on_law) (Hcheck : check_law).

Lemma op_timeout_not_early e flags s :
  ts_wf (tms s) → process_ok s → 0 ≤ now_of s → 0 ≤ e →
  (flags_intersects flags Abs = false → ∀ v s', clock s = Ret (Ok v, s') → e + v < 2 ^ 64) →
  wp fatal (op_timeout clock check_interrupt block_on e flags) s (λ r s',
    match r with
    | Ok _ => (if flags_intersects flags Abs then e else now_of s + e) ≤ now_of s'
    | Err e => e = ErrKind Interrupted ∨ e = shutdown_error
    end).
Proof.
  intros Hw Hok Hn Hr Hov. unfold op_timeout. wp_steps.
  eapply wp_mono; [by apply Hcheck|]. intros c s1 [-> [->| ->]]; simpl; [|wp_steps; by left].
  apply Hblock. intros r.
  eapply wp_mono; [by apply (timeout_spec fatal clock timer_callback e flags r s)|].
  intros p s1. destruct (exiting (driver s)); [intros [-> _]; by right|].
  intros (t & -> & _ & Ht & Hw1 & Hin & Hok1 & Hnow).
  split_and!; [by apply Hin; left|done|done|].
  intros v s2 s3 _ Hw2 Hok2 _ Hc.
  pose proof (driver_calls_rightly fatal clock timer_callback s2 t v s3 Hw2 Hok2 Hc) as Hv.
  destruct v as [u|err]; [|done]. simpl in Hv. destruct (flags_intersects flags Abs); lia.
Qed.

(** C25: a sleep that succeeds lasts at least as long as it was asked to, and one that
    does not was interrupted, before or while it slept, or ended by the shutdown. *)
Theorem sleep_not_early nanos s :
  ts_wf (tms s) → process_ok s → 0 ≤ now_of s → 0 ≤ nanos < 2 ^ 64 →
  (∀ v s', clock s = Ret (Ok v, s') → nanos + v < 2 ^ 64) →
  wp fatal (sleep clock check_interrupt block_on nanos) s (λ r s',
    match r with
    | Ok _ => now_of s + nanos ≤ now_of s'
    | Err e => e = ErrKind Interrupted ∨ e = shutdown_error
    end).
Proof.
  intros Hw Hok Hn Hr Hov. unfold sleep, checked_u.
  rewrite fits_u_true by (unfold in_u; lia). wp_steps. simpl.
  by apply (op_timeout_not_early nanos 0 s); [..|lia|].
Qed.
End Sleeping.

Section Entry.
Context {S Task MaybePanic Output : Type} `{DriverState S} `{!BlockState S MaybePanic}.
Context {base : ProcessModel S} (fatal : Prop).
Context (clock : M S (OsResult Z)) (timer_callback : Timeout → Result unit → M S unit).
Context {Hlaws : ProcessLaws fatal clock timer_callback}.
Context {io_engine : EngineImpl S} {Hengine : EngineLaws fatal io_engine}.
Context (runtime_driver runtime_executor runtime_workers : Z).
Context (spawn_task : PulseContext S → Task → ReqPtr → M S (Progress MaybePanic)).
Context (future_block_on :
  M S unit → M S unit → (ReqPtr → M S (Progress MaybePanic)) → M S MaybePanic).
Context (join : MaybePanic → M S Output).

Local Abbreviation tms s := (timers (driver s)).
Local Abbreviation env := (PulseContext_new runtime_driver runtime_executor runtime_workers).

(** [future::block_on] runs the future; while it is pending it calls the first closure,
    and then takes the output, which must be there. *)
Definition future_law : Prop := ∀ block resume fut s (Q : MaybePanic → S → Prop),
  (∀ r, wp fatal (fut r) (set_output None s) (λ p s1,
    match p with
    | Done v => Q v s1
    | Pending _ => wp fatal block s1 (λ _ s2, ∃ v, output s2 = Some v ∧ Q v s2)
    end)) →
  wp fatal (future_block_on block resume fut) s Q.

(** Code of the process leaves the stack of [block_on] alone, but for the completion of
    the future, which stores the output and then calls the second closure. *)
Inductive stack_step (resume : M S unit) (s s' : S) : Prop :=
| stack_same :
    is_running s' = is_running s → output s' = output s → stack_step resume s s'
| stack_complete v s1 :
    is_running s1 = is_running s → output s1 = output s →
    wp fatal resume (set_output (Some v) s1) (λ _ s2,
      is_running s' = is_running s2 ∧ output s' = output s2) →
    stack_step resume s s'.

(** The task runs while it has no output. *)
Definition stack_ok (s : S) : Prop := is_running s = true ↔ output s = None.

Lemma stack_step_ok s s' : stack_ok s → rtc (stack_step runtime_resume) s s' → stack_ok s'.
Proof.
  intros Hok Hs. induction Hs as [|s s1 s' [Hr Ho|v s2 _ _ Hc] _ IH]; [done|..]; apply IH.
  - unfold stack_ok. by rewrite Hr, Ho.
  - unfold wp, runtime_resume, modify in Hc. simpl in Hc. destruct Hc as [Hr Ho].
    unfold stack_ok. by rewrite Hr, Ho, running_set, output_running, output_set.
Qed.

(** The process, with the stack of [block_on]. *)
Definition stack_model : ProcessModel S := {|
  now_of := now_of;
  budget := budget;
  outstanding := outstanding;
  process_ok := λ s, process_ok s ∧ stack_ok s;
  ready := ready
|}.

Context (Hclock : ∀ s, process_ok s →
  wp fatal clock s (λ _ s', rtc (stack_step runtime_resume) s s')).
Context (Hcallback : ∀ t r s, process_ok s →
  wp fatal (timer_callback t r) s (λ _ s', rtc (stack_step runtime_resume) s s')).
Context (Hwork : ∀ timeout s, process_ok s →
  wp fatal (work timeout) s (λ _ s', rtc (stack_step runtime_resume) s s')).

Lemma used_stack s s' :
  stack_ok s → used s s' → rtc (stack_step runtime_resume) s s' →
  used (ProcessModel0 := stack_model) s s'.
Proof.
  intros Hk [] Hs. constructor; try done. split; [done|]. by eapply stack_step_ok.
Qed.

#[local] Instance stack_laws : ProcessLaws (ProcessModel0 := stack_model) fatal clock timer_callback.
Proof.
  constructor.
  - apply (now_set (ProcessLaws := Hlaws)).
  - apply (budget_set (ProcessLaws := Hlaws)).
  - apply (outstanding_set (ProcessLaws := Hlaws)).
  - intros d s [Hok Hk]. split; [by apply (ok_set (ProcessLaws := Hlaws))|].
    unfold stack_ok. by rewrite running_driver, output_driver.
  - intros s [Hok Hk].
    eapply wp_mono; [apply wp_conj; [by apply (clock_law (ProcessLaws := Hlaws))|by apply Hclock]|].
    intros r s' [(? & ? & ? & ? & ? & ? & ?) Hs]. split_and!; try done. split; [done|].
    by eapply stack_step_ok.
  - intros t r s Hw [Hok Hk] Hr.
    eapply wp_mono; [apply wp_conj; [by apply (callback_law (ProcessLaws := Hlaws))|by apply Hcallback]|].
    intros _ s' [Hu Hs]. by apply used_stack.
Qed.

#[local] Instance stack_engine : EngineLaws (ProcessModel0 := stack_model) fatal io_engine.
Proof.
  constructor.
  - apply (has_work_set (EngineLaws := Hengine)).
  - intros timeout s Ht Hw [Hok Hk].
    eapply wp_mono; [apply wp_conj; [by apply (work_law (EngineLaws := Hengine))|by apply Hwork]|].
    intros [u|e] s' [Hu Hs]; [by apply used_stack|done].
  - intros timeout s Ht He Hw [Hok _]. by apply (drain_law (EngineLaws := Hengine)).
Qed.

(** While the task runs, [block_while] runs the driver; then there is an output. *)
Lemma block_while_output fuel tfuel s :
  (∀ timeout s0, 0 ≤ timeout → (timeout = 0 → tms s0 ≠ []) → process_ok s0 → output s0 = None →
    wp fatal (work timeout) s0 (λ r s1,
      match r with Ok _ => is_Some (output s1) ∨ progressed timeout s0 s1 | Err _ => fatal end)) →
  ts_wf (tms s) → process_ok s → stack_ok s → (timer_supply s ≤ tfuel)%nat →
  (outstanding s + timer_supply s + 1 < fuel)%nat →
  wp fatal (block_while clock timer_callback fuel tfuel is_running) s (λ _ s',
    is_running s' = false ∧ is_Some (output s') ∧ process_ok s').
Proof.
  intros Hprog Hw Hok Hk Hs Ho.
  eapply wp_mono; [apply (block_while_spec (ProcessModel0 := stack_model) fatal clock
    timer_callback is_running fuel tfuel s); try done|].
  - intros timeout s0 Ht Hz [Hok0 Hk0] Hr. assert (output s0 = None) as Hn by by apply Hk0.
    eapply wp_mono; [apply wp_conj; [by apply Hprog|by apply Hwork]|].
    intros [u|e] s1 [Hp Hst]; [|done]. destruct Hp as [[v Hv]|Hp]; [left|by right].
    pose proof (stack_step_ok _ _ Hk0 Hst) as [Hr1 _].
    destruct (is_running s1); [|done]. specialize (Hr1 eq_refl). congruence.
  - intros _ s' (Hb & new & gone & [_ _ _ _ [Hok' [_ Hk']]]). split_and!; try done.
    destruct (output s'); [by eexists|]. rewrite Hk' in Hb; done.
Qed.

(** [join] returns the output of a task that did not panic. *)
Context (finished : Output → MaybePanic) (Hjoin : ∀ v s, join (finished v) s = Ret (v, s)).
Context (Hfuture : future_law).

End Entry.

(** ** The theorems on a concrete process *)

Import SimProcess.

#[local] Instance Process_eq_dec : EqDecision Process.
Proof.
  assert (EqDecision Driver) by (intros [? ? ?] [? ? ?]; solve_decision).
  intros [? ? ? ?] [? ? ? ?]. solve_decision.
Defined.

(** While the task is suspended, time passes until its timer is due; the other timers are
    completed and nothing new is started. *)
Definition wait_until (t : Timeout) (p : Process) : Process :=
  mkProcess (set_timers [t] (p_driver p)) (Z.max (p_now p) (expire t)) 0 0.

(** What [run_timers] does then, up to the call of the timer's request. *)
Definition fire (t : Timeout) (p : Process) : Process :=
  mkProcess (log_fired t (Ok tt) (set_timers [] (p_driver p))) (p_now p + 1) (p_budget p) (p_work p).

Definition wait_timer (fut : ReqPtr → M Process TimerProgress) : M Process (Result unit) :=
  p ← fut 7;
  match p with
  | TimerDone v => mret v
  | TimerPending t => modify (λ p, fire t (wait_until t p));; mret (Ok tt)
  end.

(** The process's callback with a breakpoint. *)
Definition again_until (t : Timeout) (r : Result unit) (p : Process) (t0 : Timeout)
    (r0 : Result unit) : M Process unit := λ p0,
  if decide ((t0, r0, p0) = (t, r, p)) then Panic else again t0 r0 p0.

Lemma again_until_breakpoint t r p : breakpoint again t r p (again_until t r p).
Proof.
  unfold again_until. split; [by destruct (decide _)|]. intros t0 r0 p0 Hne.
  destruct (decide _) as [E|]; [|done]. injection E as -> -> ->. by destruct Hne.
Qed.

Lemma run_timers_fires t p :
  driver_calls tick again (wait_until t p) t (Ok tt) (fire t (wait_until t p)).
Proof.
  apply (by_run_timers _ _ _ _ _ _ 1); [done|].
  eexists. split; [apply again_until_breakpoint|].
  unfold run_timers, time, run_timers_loop, gets_driver, tick, timer_complete, modify_driver,
    gets, modify, lift, mbind, M_bind, mret, M_ret. simpl.
  destruct (Z.ltb_spec (Z.max (p_now p) (expire t) + 1) (expire t)); [lia|]. simpl.
  unfold again_until. by destruct (decide _).
Qed.

Lemma wait_timer_ok : block_on_law False tick again wait_timer.
Proof.
  intros fut s Q Hfut. unfold wait_timer. wp_steps. eapply wp_mono; [apply (Hfut 7)|].
  intros [v|t] s1; [by intros; wp_steps|]. intros (Ht & Hw & Hok & HQ). wp_steps.
  apply (HQ _ (wait_until t s1)); simpl in *; [lia|repeat constructor|lia|by left|].
  apply run_timers_fires.
Qed.

Lemma never_interrupted : check_law False (mret (Ok tt) : M Process (Result unit)).
Proof. intros s _. split; [done|by left]. Qed.

Lemma sleep_not_early_witness :
  wp False (sleep tick (mret (Ok tt)) wait_timer 7) process (λ r s',
    match r with
    | Ok _ => now_of process + 7 ≤ now_of s'
    | Err e => e = ErrKind Interrupted ∨ e = shutdown_error
    end).
Proof.
  apply (sleep_not_early False tick again (mret (Ok tt)) wait_timer).
  - apply wait_timer_ok.
  - apply never_interrupted.
  - apply process_wf.
  - discriminate.
  - discriminate.
  - lia.
  - intros v s' E. injection E as <- _. reflexivity.
Defined.

(** A process with the stack of [block_on]: the task is completed by the last unit of work
    of the engine. *)
Module SimTask.
Abbreviation MaybePanic := (result Z unit).

Record Machine : Type := mkMachine {
  m_process : Process;
  m_running : bool;
  m_output : option MaybePanic
}.

Definition with_process (p : Process) (m : Machine) : Machine :=
  mkMachine p (m_running m) (m_output m).

#[export] Instance machine_driver : DriverState Machine := {|
  driver := λ m, p_driver (m_process m);
  set_driver := λ d m, with_process (set_driver d (m_process m)) m;
  driver_set := λ d m, eq_refl
|}.

#[export] Instance machine_stack : BlockState Machine MaybePanic.
Proof.
  refine {|
    is_running := m_running;
    set_running := λ b m, mkMachine (m_process m) b (m_output m);
    output := m_output;
    set_output := λ o m, mkMachine (m_process m) (m_running m) o
  |}; done.
Defined.

#[export] Instance machine_model : ProcessModel Machine := {|
  now_of := λ m, p_now (m_process m);
  budget := λ _, O;
  outstanding := λ m, p_work (m_process m);
  process_ok := λ m, 0 ≤ p_now (m_process m) ∧ ∀ v, m_output m = Some v → v = Ok 42;
  ready := λ _, True
|}.

(** The task is completed with 42. *)
Definition complete : M Machine unit :=
  modify (set_output (Some (Ok 42)));; runtime_resume.

Definition machine_work (timeout : Z) : M Machine (Result unit) :=
  modify (λ m, with_process (do_work timeout (m_process m)) m);;
  b ← gets (λ m, Nat.eqb (p_work (m_process m)) 0);
  if (b : bool) then (complete;; mret (Ok tt)) else mret (Ok tt).

#[export] Instance machine_engine : EngineImpl Machine := {|
  has_work := λ m, negb (Nat.eqb (p_work (m_process m)) 0);
  work := machine_work;
  prepare_wake := mret (Ok tt);
  wake := λ _, mret (Ok tt);
  start_work := λ work _, work;; mret 0;
  cancel_work := λ _, mret tt;
  cancel := λ _, mret (Ok tt);
  start := λ _ _, mret None;
  kind := λ _ _, Async
|}.

Definition clock : M Machine (OsResult Z) :=
  modify (λ m, with_process (mkProcess (p_driver (m_process m)) (p_now (m_process m) + 1)
    (p_budget (m_process m)) (p_work (m_process m))) m);;
  gets (λ m, Ok (p_now (m_process m))).

Definition idle (t : Timeout) (r : Result unit) : M Machine unit := mret tt.

#[export] Instance machine_laws : ProcessLaws False clock idle.
Proof.
  constructor; [done..| |].
  - intros m [Hn Hv]. unfold clock. wp_steps. simpl. split_and!; (done || lia).
  - intros t r m _ Hok _. constructor; [apply rtc_refl|done..].
Qed.

Lemma machine_work_used timeout m :
  0 ≤ timeout → process_ok m → wp False (machine_work timeout) m (λ r m', used m m' ∧ r = Ok tt ∧
    (has_work m = true → (outstanding m' < outstanding m)%nat)).
Proof.
  intros Ht [Hn Hv]. destruct m as [[d n b [|[|k]]] run o]; unfold machine_work, complete,
    runtime_resume; simpl in *; wp_steps; simpl; wp_steps.
  all: split; [|split; [done|simpl; (done || lia)]].
  all: constructor; unfold timer_total, timer_supply, do_work; simpl; [apply rtc_refl|lia..|].
  all: split; simpl; [lia|]; done || congruence.
Qed.

#[export] Instance machine_engine_laws : EngineLaws False machine_engine.
Proof.
  constructor; [done|..].
  - intros timeout m Ht _ Hok. eapply wp_mono; [by apply machine_work_used|].
    by intros r m' (Hu & -> & _).
  - intros timeout m Ht _ _ Hok _ Hh.
    eapply wp_mono; [apply (machine_work_used timeout m); [lia|done]|].
    intros r m' (_ & -> & Hl). by apply Hl.
Qed.

(** The work of the engine completes the task as xx-core does. *)
Lemma machine_work_stack timeout m :
  wp False (machine_work timeout) m (λ _ m', rtc (stack_step False runtime_resume) m m').
Proof.
  unfold machine_work, complete. wp_steps.
  destruct (Nat.eqb _ 0); wp_steps; [|apply rtc_once, stack_same; done].
  unfold runtime_resume. wp_steps. apply rtc_once.
  by apply (stack_complete _ _ _ _ (Ok 42) m).
Qed.

(** The future of a task that suspends. *)
Definition spawn_task (env : PulseContext Machine) (task : unit) (r : ReqPtr) :
    M Machine (Progress MaybePanic) := mret (Pending r).

Definition future_block_on (block resume : M Machine unit)
    (fut : ReqPtr → M Machine (Progress MaybePanic)) : M Machine MaybePanic :=
  modify (set_output None);;
  p ← fut 9;
  match p with
  | Done v => mret v
  | Pending _ => block;; o ← gets output; lift (unwrap o)
  end.

Definition join (v : MaybePanic) : M Machine Z :=
  match v with Ok v => mret v | Err _ => panic end.

Lemma future_block_on_ok : future_law False future_block_on.
Proof.
  intros block resume fut s Q Hfut. unfold future_block_on. wp_steps.
  eapply wp_mono; [apply (Hfut 9)|]. intros [r|v] s1 H1; [|by wp_steps]. wp_steps.
  eapply wp_mono; [exact H1|]. intros _ s2 (v & Hv & HQ). wp_steps. rewrite Hv. exact HQ.
Qed.

(** The engine has three units of work left. *)
Definition machine : Machine := mkMachine SimProcess.process false None.
End SimTask.

Import SimTask.

