(* ===== verification/Interval.v ===== *)
(** * Periodic timers (src/src/interval.rs)

    [schedule] is the part of [Interval::next] between reading the clock and
    waiting.  The theorems: a skipping interval stays on the grid of its first
    tick and picks the next grid point, a bursting one owes every tick exactly
    once, the arithmetic of both cannot wrap, and on the driver no tick is early. *)

From Stdlib Require Import Sorted.
From stdpp Require Import base list numbers relations tactics.
From S2P Require Import Prelude Engine Driver DriverSpec Tasks.

Inductive MissedTickBehavior : Type := Burst | Delay | Skip.

Record Interval : Type := mkInterval {
  tick_expire : Z;
  delay : Z;
  missed_tick_behavior : MissedTickBehavior
}.

Definition set_expire (v : Z) (i : Interval) : Interval :=
  mkInterval v (delay i) (missed_tick_behavior i).

(** [Interval::new]; the nanoseconds of a [Duration] are a u128. *)
Definition Interval_new (nanos : Z) : outcome Interval :=
  d ← unwrap (checked_u 64 nanos);
  Ret (mkInterval 0 d Burst).

Definition set_missed_tick_behavior (b : MissedTickBehavior) (self : Interval) : Interval :=
  mkInterval (tick_expire self) (delay self) b.

(** The next expiry, from the current time and the last expiry. *)
Definition next_expire (overflow_checks : bool) (now : Z) (self : Interval) : outcome Z :=
  match missed_tick_behavior self with
  | Burst => unwrap (checked_u 64 (tick_expire self + delay self))
  | Delay => unwrap (checked_u 64 (now + delay self))
  | Skip =>
      next ← unwrap (checked_u 64 (tick_expire self + delay self));
      if next <? now then
        next ← unwrap (checked_u 64 (now + delay self));
        d ← arith_u overflow_checks 64 (now - tick_expire self);
        let align := d mod delay self in
        arith_u overflow_checks 64 (next - align)
      else Ret next
  end.

Definition schedule (overflow_checks : bool) (now : Z) (self : Interval) : outcome Interval :=
  let self := if tick_expire self =? 0 then set_expire now self else self in
  e ← next_expire overflow_checks now self;
  Ret (set_expire e self).

(** [Interval::next]: the clock and the absolute timeout are parameters; an
    interval of zero length does not wait. *)
Definition next {S} (overflow_checks : bool) (nanotime : M S Z)
    (timeout_abs : Z → M S (Result unit)) (self : Interval) : M S (Result unit * Interval) :=
  if delay self =? 0 then mret (Ok tt, self)
  else
    now ← nanotime;
    self ← lift (schedule overflow_checks now self);
    if now <? tick_expire self then
      r ← timeout_abs (tick_expire self);
      mret (r, self)
    else mret (Ok tt, self).

(** A run of an interval: the times at which [next] is called, and the expiries
    it schedules. *)
Fixpoint run (overflow_checks : bool) (times : list Z) (self : Interval) : outcome (list Z) :=
  match times with
  | [] => Ret []
  | now :: times =>
      self ← schedule overflow_checks now self;
      l ← run overflow_checks times self;
      Ret (tick_expire self :: l)
  end.

(** ** Skipping *)

(** The state of an interval between two calls. *)
Definition running (i : Interval) : Prop :=
  0 < delay i < 2 ^ 64 ∧ 0 < tick_expire i < 2 ^ 64.

Lemma checked_u_fits w x : in_u w x → unwrap (checked_u w x) = Ret x.
Proof. intros. unfold checked_u. by rewrite fits_u_true. Qed.

Lemma checked_u_overflow w x : ¬ in_u w x → unwrap (checked_u w x) = Panic.
Proof. intros. unfold checked_u. by rewrite fits_u_false. Qed.

(** The grid point chosen: the next one, or the first after [now]. *)
Definition grid_next (e d now : Z) : Z :=
  if e + d <? now then now + d - (now - e) mod d else e + d.

Lemma grid_next_spec e d now :
  0 < d →
  let n := grid_next e d now in
  (∃ k, 0 < k ∧ n = e + k * d) ∧ now ≤ n ∧
  (∀ k, 0 < k → now < e + k * d → n ≤ e + k * d).
Proof.
  intros Hd. unfold grid_next. destruct (Z.ltb_spec (e + d) now) as [Hlt|Hge]; cbn zeta.
  - pose proof (Z.mod_pos_bound (now - e) d Hd) as Hm.
    pose proof (Z.div_mod (now - e) d ltac:(lia)) as Hq.
    set (q := (now - e) `div` d) in *. set (m := (now - e) `mod` d) in *.
    split_and!.
    + exists (q + 1). split; [nia|lia].
    + lia.
    + intros k Hk Hnow. assert (q < k) by nia. nia.
  - split_and!; [exists 1; lia|lia|]. intros k Hk _. nia.
Qed.

Lemma next_expire_skip oc now i :
  0 < delay i → 0 ≤ tick_expire i → missed_tick_behavior i = Skip → 0 ≤ now →
  tick_expire i + delay i < 2 ^ 64 → now + delay i < 2 ^ 64 →
  next_expire oc now i = Ret (grid_next (tick_expire i) (delay i) now).
Proof.
  intros Hd He Hb Hn H1 H2. unfold next_expire, grid_next. rewrite Hb.
  rewrite !checked_u_fits by (unfold in_u; lia). simpl.
  destruct (Z.ltb_spec (tick_expire i + delay i) now) as [Hlt|]; [|done].
  pose proof (Z.mod_pos_bound (now - tick_expire i) (delay i) ltac:(lia)).
  rewrite arith_u_fits by (unfold in_u; lia). simpl.
  by rewrite arith_u_fits by (unfold in_u; lia).
Qed.

(** When a skipping interval is asked for its next tick, in either build
    profile, it schedules the tick after the last one if that is not overdue,
    and otherwise the first point of its grid that lies after the current time;
    no arithmetic overflows on the way. *)
Theorem skip_picks_next_grid_point oc now i :
  running i → missed_tick_behavior i = Skip → 0 ≤ now →
  tick_expire i + delay i < 2 ^ 64 → now + delay i < 2 ^ 64 →
  ∃ n, schedule oc now i = Ret (set_expire n i) ∧ now ≤ n ≤ Z.max now (tick_expire i) + delay i ∧
    (∃ k, 0 < k ∧ n = tick_expire i + k * delay i) ∧
    (now ≤ tick_expire i + delay i → n = tick_expire i + delay i) ∧
    (∀ k, 0 < k → now < tick_expire i + k * delay i → n ≤ tick_expire i + k * delay i).
Proof.
  intros Hr Hb Hn H1 H2. exists (grid_next (tick_expire i) (delay i) now).
  destruct (grid_next_spec (tick_expire i) (delay i) now) as (Hk & Hge & Hleast); [apply Hr|].
  unfold schedule. destruct Hr as [Hd He] eqn:E. clear E.
  destruct (Z.eqb_spec (tick_expire i) 0) as [?|_]; [lia|].
  rewrite next_expire_skip by (done || lia). simpl. split_and!; try done.
  - unfold grid_next. pose proof (Z.mod_pos_bound (now - tick_expire i) (delay i) ltac:(lia)).
    destruct (_ <? _); lia.
  - intros Hle. unfold grid_next. destruct (Z.ltb_spec (tick_expire i + delay i) now); lia.
Qed.

Lemma skip_picks_next_grid_point_witness :
  ∃ n, schedule true 1037 (mkInterval 1000 10 Skip) = Ret (set_expire n (mkInterval 1000 10 Skip)) ∧
    1037 ≤ n ≤ 1047 ∧ (∃ k, 0 < k ∧ n = 1000 + k * 10) ∧ (1037 ≤ 1010 → n = 1010) ∧
    (∀ k, 0 < k → 1037 < 1000 + k * 10 → n ≤ 1000 + k * 10).
Proof.
  apply (skip_picks_next_grid_point true 1037 (mkInterval 1000 10 Skip)); simpl; try lia.
  - split; simpl; lia.
  - reflexivity.
Defined.

(** ** Runs *)

(** From a running interval, [n] calls at times up to [T] stay below 2^64. *)
Definition in_range (i : Interval) (T : Z) (n : nat) : Prop :=
  Z.max (tick_expire i) T + (Z.of_nat n + 1) * delay i < 2 ^ 64.

Lemma skip_run oc i T times :
  running i → missed_tick_behavior i = Skip → Forall (λ t, 0 < t ≤ T) times →
  in_range i T (length times) →
  ∃ l, run oc times i = Ret l ∧ Forall2 Z.le times l ∧
    Forall (λ e, ∃ k, 0 < k ∧ e = tick_expire i + k * delay i) l ∧
    StronglySorted Z.lt (tick_expire i :: l).
Proof.
  intros Hr Hb Ht. revert i Hr Hb. induction Ht as [|now times Hnow Ht IH]; intros i Hr Hb Hrange.
  { exists []. split_and!; try done. repeat constructor. }
  destruct Hr as [Hd He] eqn:E. clear E. unfold in_range in Hrange. simpl in Hrange.
  cbn [run]. unfold schedule. destruct (Z.eqb_spec (tick_expire i) 0) as [?|_]; [lia|].
  rewrite next_expire_skip by (done || nia). simpl.
  destruct (grid_next_spec (tick_expire i) (delay i) now) as ((k & Hk & Hgrid) & Hge & _); [lia|].
  assert (grid_next (tick_expire i) (delay i) now ≤ Z.max (tick_expire i) T + delay i) as Hle.
  { unfold grid_next. pose proof (Z.mod_pos_bound (now - tick_expire i) (delay i) ltac:(lia)).
    destruct (_ <? _); lia. }
  set (n := grid_next _ _ _) in *.
  assert (tick_expire i < n) as Hlt by nia.
  destruct (IH (set_expire n i)) as (l & El & Hl1 & Hl2 & Hl3); simpl in *.
  { split; simpl; nia. }
  { done. }
  { unfold in_range. simpl. nia. }
  rewrite El. simpl. exists (n :: l). split_and!; [done|by constructor| |].
  - constructor; [by exists k|]. eapply list.Forall_impl; [exact Hl2|].
    intros e (k' & Hk' & ->). exists (k + k'). split; [lia|]. rewrite Hgrid. lia.
  - constructor; [done|]. inversion Hl3; subst. constructor; [done|].
    eapply list.Forall_impl; [done|]. simpl. lia.
Qed.

(** C29: over any sequence of calls, the ticks of a skipping interval all lie on
    the grid of its first call, never go back or repeat, and none is scheduled
    before the call that asked for it. *)
Theorem skip_ticks_on_grid oc t0 times d T :
  0 < d → Forall (λ t, 0 < t ≤ T) (t0 :: times) →
  T + (Z.of_nat (length times) + 2) * d < 2 ^ 64 →
  ∃ l, run oc (t0 :: times) (mkInterval 0 d Skip) = Ret l ∧ Forall2 Z.le (t0 :: times) l ∧
    Forall (λ e, ∃ k, 0 < k ∧ e = t0 + k * d) l ∧ StronglySorted Z.lt l.
Proof.
  intros Hd Ht Hmax. assert (0 < t0 ≤ T) as Ht0 by (by inversion Ht).
  destruct (skip_run oc (mkInterval t0 d Skip) T (t0 :: times)) as (l & E & H1 & H2 & H3); try done.
  - split; simpl; nia.
  - unfold in_range. simpl. nia.
  - exists l. split_and!; try done; [|by inversion H3].
    cbn [run] in *. unfold schedule in *. simpl in *.
    destruct (Z.eqb_spec t0 0) as [?|_]; [lia|]. done.
Qed.

Lemma skip_ticks_on_grid_witness :
  ∃ l, run true [1000; 1010; 1047] (mkInterval 0 10 Skip) = Ret l ∧
    Forall2 Z.le [1000; 1010; 1047] l ∧
    Forall (λ e, ∃ k, 0 < k ∧ e = 1000 + k * 10) l ∧ StronglySorted Z.lt l.
Proof.
  apply (skip_ticks_on_grid true 1000 [1010; 1047] 10 1047); [lia| |reflexivity].
  repeat (constructor; [split; reflexivity || discriminate|]). constructor.
Defined.

(** A bursting interval owes every tick exactly once: whenever it is called,
    its [k]-th call schedules the [k]-th multiple of its length after the first
    call. *)
Theorem burst_ticks_exact oc t0 times d :
  0 < d → 0 < t0 → t0 + (Z.of_nat (length times) + 2) * d < 2 ^ 64 →
  run oc (t0 :: times) (mkInterval 0 d Burst) =
  Ret (map (λ k, t0 + Z.of_nat k * d) (seq 1 (length (t0 :: times)))).
Proof.
  intros Hd Ht0 Hmax.
  assert (∀ ts e j, 0 < e → e + (Z.of_nat (length ts) + 1) * d < 2 ^ 64 → e = t0 + Z.of_nat j * d →
    run oc ts (mkInterval e d Burst) =
    Ret (map (λ k, t0 + Z.of_nat k * d) (seq (S j) (length ts)))) as Hrun.
  { induction ts as [|now ts IH]; intros e j He Hm Hj; [done|].
    cbn [run length] in *. unfold schedule, next_expire. cbn [tick_expire delay missed_tick_behavior].
    destruct (Z.eqb_spec e 0) as [?|_]; [lia|]. cbn [tick_expire delay missed_tick_behavior].
    rewrite checked_u_fits by (unfold in_u; nia). unfold set_expire. simpl.
    rewrite (IH _ (S j)) by (simpl; nia). simpl. do 2 f_equal. lia. }
  rewrite <- (Hrun (t0 :: times) t0 0%nat) by (simpl; lia).
  cbn [run]. unfold schedule. simpl. by destruct (Z.eqb_spec t0 0) as [?|_]; [lia|].
Qed.

Lemma burst_ticks_exact_witness :
  run true [1000; 1055; 1056] (mkInterval 0 10 Burst) =
  Ret (map (λ k, 1000 + Z.of_nat k * 10) (seq 1 (length [1000; 1055; 1056]))).
Proof. apply (burst_ticks_exact true 1000 [1055; 1056] 10); (lia || reflexivity). Defined.

(** A tick that cannot be represented in 64 bits panics, with any behavior,
    instead of wrapping to the past. *)
Theorem interval_overflow_panics oc now i :
  0 < tick_expire i →
  match missed_tick_behavior i with
  | Burst => 2 ^ 64 ≤ tick_expire i + delay i
  | Delay => 2 ^ 64 ≤ now + delay i
  | Skip => 2 ^ 64 ≤ tick_expire i + delay i ∨
      (tick_expire i + delay i < now ∧ 2 ^ 64 ≤ now + delay i)
  end →
  schedule oc now i = Panic.
Proof.
  intros He Hov. unfold schedule. destruct (Z.eqb_spec (tick_expire i) 0) as [?|_]; [lia|].
  unfold next_expire. destruct (missed_tick_behavior i).
  - by rewrite checked_u_overflow by (unfold in_u; lia).
  - by rewrite checked_u_overflow by (unfold in_u; lia).
  - destruct (decide (2 ^ 64 ≤ tick_expire i + delay i)).
    + by rewrite (checked_u_overflow 64 (tick_expire i + delay i)) by (unfold in_u; lia).
    + destruct Hov as [|[Hlt Hov]]; [done|].
      destruct (checked_u 64 (tick_expire i + delay i)) as [x|] eqn:E; [|done].
      unfold checked_u in E. destruct (fits_u _ _); [|done]. injection E as <-. simpl.
      destruct (Z.ltb_spec (tick_expire i + delay i) now); [|lia].
      by rewrite checked_u_overflow by (unfold in_u; lia).
Qed.

Lemma interval_overflow_panics_witness :
  schedule false (2 ^ 64 - 5) (mkInterval 1 10 Skip) = Panic.
Proof.
  apply (interval_overflow_panics false (2 ^ 64 - 5) (mkInterval 1 10 Skip)); simpl; lia.
Defined.

(** ** On the driver *)

Lemma schedule_ok oc now i :
  0 < delay i → 0 ≤ tick_expire i → 0 ≤ now → Z.max (tick_expire i) now + delay i < 2 ^ 64 →
  ∃ e, schedule oc now i = Ret (set_expire e i) ∧ 0 ≤ e.
Proof.
  intros Hd He Hn Hmax. unfold schedule.
  set (j := if tick_expire i =? 0 then set_expire now i else i).
  assert (0 ≤ tick_expire j ≤ Z.max (tick_expire i) now ∧ delay j = delay i ∧
    missed_tick_behavior j = missed_tick_behavior i) as (Hj & Hdj & Hbj)
    by (unfold j; destruct (Z.eqb_spec (tick_expire i) 0); simpl; split_and!; lia || done).
  assert (∀ e, set_expire e j = set_expire e i) as Hset
    by (intros e; unfold j; by destruct (tick_expire i =? 0)).
  destruct (missed_tick_behavior i) eqn:Eb; [| |rewrite next_expire_skip by (lia || done)].
  - unfold next_expire. rewrite Hbj, checked_u_fits by (unfold in_u; lia). simpl.
    rewrite Hset. eexists; split; [done|lia].
  - unfold next_expire. rewrite Hbj, checked_u_fits by (unfold in_u; lia). simpl.
    rewrite Hset. eexists; split; [done|lia].
  - simpl. rewrite Hset. eexists; split; [done|].
    destruct (grid_next_spec (tick_expire j) (delay j) now) as (_ & ? & _); lia.
Qed.

Section OnDriver.
Context {S : Type} `{DriverState S} `{!ProcessModel S} (fatal : Prop).
Context (clock : M S (OsResult Z)) (timer_callback : Timeout → Result unit → M S unit).
Context `{!ProcessLaws fatal clock timer_callback}.
Context (check_interrupt : M S (Result unit)).
Context (block_on : (ReqPtr → M S TimerProgress) → M S (Result unit)).
Context (Hblock : block_on_law fatal clock timer_callback block_on) (Hcheck : check_law fatal check_interrupt).

(** C28: no tick is early.  Asked for its next tick, an interval on the driver schedules it
    from a time read during the call, and a call that succeeds does not return before
    the tick is due; one that fails was interrupted, or ended by the shutdown, and has
    scheduled the tick all the same. *)
Theorem tick_not_early oc i s :
  ts_wf (timers (driver s)) → process_ok s → 0 ≤ now_of s →
  0 < delay i → 0 ≤ tick_expire i →
  (∀ v s', clock s = Ret (Ok v, s') → Z.max (tick_expire i) v + delay i < 2 ^ 64) →
  wp fatal (next oc (nanotime clock) (λ e, op_timeout clock check_interrupt block_on e Abs) i) s
    (λ p s', (∃ now, now_of s ≤ now ∧ schedule oc now i = Ret p.2) ∧
      match p.1 with
      | Ok _ => tick_expire p.2 ≤ now_of s'
      | Err e => e = ErrKind Interrupted ∨ e = shutdown_error
      end).
Proof.
  intros Hw Hok Hn Hd He Hov. unfold next. destruct (Z.eqb_spec (delay i) 0) as [?|_]; [lia|].
  unfold nanotime. wp_steps. eapply wp_mono; [apply wp_eq, clock_law, Hok|].
  intros c s1 [E (-> & Hle & Hdr & _ & _ & Hok1 & _)]. wp_steps. specialize (Hov _ _ E).
  destruct (schedule_ok oc (now_of s1) i) as (e & Es & Hpos); [lia..|].
  rewrite Es. simpl. wp_steps.
  destruct (Z.ltb_spec (now_of s1) e) as [Hlt|Hge]; wp_steps.
  - eapply wp_mono; [apply (op_timeout_not_early fatal clock timer_callback check_interrupt block_on
      Hblock Hcheck e Abs s1); [by rewrite Hdr|done|lia|done|done]|].
    intros r s2 Hr. wp_steps. split; [by exists (now_of s1)|]. by destruct r.
  - split; [by exists (now_of s1)|done].
Qed.
End OnDriver.

Import SimProcess.

Lemma tick_not_early_witness :
  wp False (next true (nanotime SimProcess.tick)
      (λ e, op_timeout SimProcess.tick (mret (Ok tt)) wait_timer e Abs) (mkInterval 95 10 Skip))
    SimProcess.process (λ p s',
      (∃ now, 100 ≤ now ∧ schedule true now (mkInterval 95 10 Skip) = Ret p.2) ∧
      match p.1 with
      | Ok _ => tick_expire p.2 ≤ now_of s'
      | Err e => e = ErrKind Interrupted ∨ e = shutdown_error
      end).
Proof.
  apply (tick_not_early False SimProcess.tick SimProcess.again (mret (Ok tt)) wait_timer
    wait_timer_ok never_interrupted true (mkInterval 95 10 Skip)
    SimProcess.process).
  - apply SimProcess.process_wf.
  - discriminate.
  - discriminate.
  - reflexivity.
  - discriminate.
  - intros v s' E. injection E as <- _. reflexivity.
Defined.
