(* ===== verification/IoOps.v ===== *)
(** * I/O operations (src/src/ops/io.rs)

    The asynchronous wrappers of the engine's operations: [raw_op] is what
    [async_engine_task!] generates, the others pass their arguments on.  The
    coroutine runtime ([block_on], [check_interrupt]) is xx-core's and a
    parameter, as are the conversion of a path and std's [OwnedFd]. *)

From stdpp Require Import base list numbers tactics.
From S2P Require Import Prelude Op Queue Engine Uring UringSpec UringEngine UringSim.
From S2P Require Import Driver DriverSpec.

(** ** Data *)

(** A buffer: its address and length. *)
Record Buf : Type := mkBuf { buf_ptr : Z; buf_len : Z }.

(** A value in memory: its address and the size of its type. *)
Record Ref : Type := mkRef { ref_addr : Z; ref_size : Z }.

(** [Address]: a socket address of either family. *)
Inductive Address : Type := V4 (addr : Ref) | V6 (addr : Ref).

Inductive ShutdownHow : Type := ShutRead | ShutWrite | ShutBoth.

Definition how_value (how : ShutdownHow) : Z :=
  match how with ShutRead => 0 | ShutWrite => 1 | ShutBoth => 2 end.

(** [AtFlag::EmptyPath] *)
Definition EmptyPath : Z := 4096.

Section IoOps.
Context {S : Type} `{DriverState S} {io_engine : EngineImpl S}.

(** xx-core: awaiting a future, the interrupt check of a task, the conversion of
    a return value; std: closing a descriptor when its owner is dropped. *)
Context (block_on : (ReqPtr → M S (Progress Z)) → M S Z).
Context (check_interrupt : M S (Result unit)).
Context (syscall_result : Z → OsResult Z).
Context (drop_fd : Z → M S unit).

(** A path as a C string, which fails on an embedded zero byte; the empty C
    string; [into_raw_dirfd]; the bits of [PollFlag]. *)
Context (path_as_cstr : Z → Result Z) (EMPTY_PATH : Z) (into_raw_dirfd : option Z → Z).
Context (poll_flag_bits : Z).

(** Memory: an i32 at an address. *)
Context (store_i32 : Z → Z → M S unit) (load_i32 : Z → M S Z).

Definition from_os (r : OsResult Z) : Result Z :=
  match r with Ok v => Ok v | Err e => Err (ErrOs e) end.

(** [async_engine_task!] *)
Definition raw_op (force : bool) (op : Operation) : M S (Result Z) :=
  _ ←? (if negb force then
          _ ←? check_interrupt;
          check_exiting
        else mret (Ok tt));
  result ← block_on (driver_task op);
  mret (from_os (result_for syscall_result result)).

(** The functions of the module [raw]; only [close] is forced. *)
Definition raw_open (path flags mode : Z) : M S (Result Z) :=
  raw_op false (Oopen path flags mode).
Definition raw_close (fd : Z) : M S (Result Z) := raw_op true (Oclose fd).
Definition raw_read (fd buf len offset : Z) : M S (Result Z) :=
  raw_op false (Oread fd buf len offset).
Definition raw_write (fd buf len offset : Z) : M S (Result Z) :=
  raw_op false (Owrite fd buf len offset).
Definition raw_socket (domain socket_type protocol : Z) : M S (Result Z) :=
  raw_op false (Osocket domain socket_type protocol).
Definition raw_accept (socket addr addrlen : Z) : M S (Result Z) :=
  raw_op false (Oaccept socket addr addrlen).
Definition raw_connect (socket addr addrlen : Z) : M S (Result Z) :=
  raw_op false (Oconnect socket addr addrlen).
Definition raw_recv (socket buf len flags : Z) : M S (Result Z) :=
  raw_op false (Orecv socket buf len flags).
Definition raw_recvmsg (socket header flags : Z) : M S (Result Z) :=
  raw_op false (Orecvmsg socket header flags).
Definition raw_send (socket buf len flags : Z) : M S (Result Z) :=
  raw_op false (Osend socket buf len flags).
Definition raw_sendmsg (socket header flags : Z) : M S (Result Z) :=
  raw_op false (Osendmsg socket header flags).
Definition raw_shutdown (socket how : Z) : M S (Result Z) := raw_op false (Oshutdown socket how).
Definition raw_bind (socket addr addrlen : Z) : M S (Result Z) :=
  raw_op false (Obind socket addr addrlen).
Definition raw_listen (socket backlog : Z) : M S (Result Z) :=
  raw_op false (Olisten socket backlog).
Definition raw_fsync (file : Z) : M S (Result Z) := raw_op false (Ofsync file).
Definition raw_statx (dirfd path flags mask statx : Z) : M S (Result Z) :=
  raw_op false (Ostatx dirfd path flags mask statx).
Definition raw_poll (fd mask : Z) : M S (Result Z) := raw_op false (Opoll fd mask).

(** The function of the module for each operation. *)
Definition issue (op : Operation) : M S (Result Z) :=
  match op with
  | Oopen path flags mode => raw_open path flags mode
  | Oclose fd => raw_close fd
  | Oread fd buf len offset => raw_read fd buf len offset
  | Owrite fd buf len offset => raw_write fd buf len offset
  | Osocket domain socket_type protocol => raw_socket domain socket_type protocol
  | Oaccept socket addr addrlen => raw_accept socket addr addrlen
  | Oconnect socket addr addrlen => raw_connect socket addr addrlen
  | Orecv socket buf len flags => raw_recv socket buf len flags
  | Orecvmsg socket header flags => raw_recvmsg socket header flags
  | Osend socket buf len flags => raw_send socket buf len flags
  | Osendmsg socket header flags => raw_sendmsg socket header flags
  | Oshutdown socket how => raw_shutdown socket how
  | Obind socket addr addrlen => raw_bind socket addr addrlen
  | Olisten socket backlog => raw_listen socket backlog
  | Ofsync file => raw_fsync file
  | Ostatx dirfd path flags mask statx => raw_statx dirfd path flags mask statx
  | Opoll fd mask => raw_poll fd mask
  end.

Definition with_path_as_cstr (path : Z) (func : Z → M S (Result Z)) : M S (Result Z) :=
  match path_as_cstr path with
  | Ok cstr => func cstr
  | Err e => mret (Err e)
  end.

Definition io_open (path flags mode : Z) : M S (Result Z) :=
  with_path_as_cstr path (λ path, raw_open path flags mode).

(** The owned descriptor is dropped when the function returns. *)
Definition io_close (fd : Z) : M S (Result Z) :=
  r ← raw_close fd;
  drop_fd fd;;
  mret r.

Definition io_read (fd : Z) (buf : Buf) (offset : Z) : M S (Result Z) :=
  raw_read fd (buf_ptr buf) (buf_len buf) offset.

Definition io_write (fd : Z) (buf : Buf) (offset : Z) : M S (Result Z) :=
  raw_write fd (buf_ptr buf) (buf_len buf) offset.

Definition io_socket (domain socket_type protocol : Z) : M S (Result Z) :=
  raw_socket domain socket_type protocol.

(** [addrlen] is the address of the local variable that holds the length. *)
Definition io_accept (socket : Z) (addr : Ref) (addrlen : Z) : M S (Result (Z * Z)) :=
  len ← lift (unwrap (if fits_i 32 (ref_size addr) then Some (ref_size addr) else None));
  store_i32 addrlen len;;
  fd ←? raw_accept socket (ref_addr addr) addrlen;
  len ← load_i32 addrlen;
  mret (Ok (fd, len)).

Definition io_connect (socket : Z) (addr : Ref) : M S (Result Z) :=
  len ← lift (unwrap (if fits_i 32 (ref_size addr) then Some (ref_size addr) else None));
  raw_connect socket (ref_addr addr) len.

Definition io_connect_addr (socket : Z) (addr : Address) : M S (Result Z) :=
  match addr with
  | V4 addr => io_connect socket addr
  | V6 addr => io_connect socket addr
  end.

Definition io_recv (socket : Z) (buf : Buf) (flags : Z) : M S (Result Z) :=
  raw_recv socket (buf_ptr buf) (buf_len buf) flags.

Definition io_recvmsg (socket header flags : Z) : M S (Result Z) :=
  raw_recvmsg socket header flags.

Definition io_send (socket : Z) (buf : Buf) (flags : Z) : M S (Result Z) :=
  raw_send socket (buf_ptr buf) (buf_len buf) flags.

Definition io_sendmsg (socket header flags : Z) : M S (Result Z) :=
  raw_sendmsg socket header flags.

Definition io_shutdown (socket : Z) (how : ShutdownHow) : M S (Result Z) :=
  raw_shutdown socket (how_value how).

Definition io_bind (socket : Z) (addr : Ref) : M S (Result Z) :=
  len ← lift (unwrap (if fits_i 32 (ref_size addr) then Some (ref_size addr) else None));
  raw_bind socket (ref_addr addr) len.

Definition io_bind_addr (socket : Z) (addr : Address) : M S (Result Z) :=
  match addr with
  | V4 addr => io_bind socket addr
  | V6 addr => io_bind socket addr
  end.

Definition io_listen (socket backlog : Z) : M S (Result Z) :=
  raw_listen socket backlog.

Definition io_fsync (file : Z) : M S (Result Z) := raw_fsync file.

Definition io_statx (dirfd : option Z) (path flags mask statx : Z) : M S (Result Z) :=
  let dirfd := into_raw_dirfd dirfd in
  with_path_as_cstr path (λ path, raw_statx dirfd path flags mask statx).

Definition io_statx_fd (fd flags mask statx : Z) : M S (Result Z) :=
  let flags := flags_insert flags EmptyPath in
  raw_statx fd EMPTY_PATH flags mask statx.

(** [BitFlags::from_bits_truncate] *)
Definition io_poll (fd mask : Z) : M S (Result Z) :=
  bits ←? raw_poll fd mask;
  mret (Ok (Z.land bits poll_flag_bits)).
End IoOps.

(** ** Theorems *)

Section Reach.
Context {K U : Type} `{!KernelView K}.
Context (NO_OP event_request event_fd_raw : Z) (fatal : Prop) (submit_all : bool).
Context (io_uring_enter : EnterArgs → Z → K → Queue → OsResult Z * K * Queue).
Context (Hkernel : kernel_spec event_request fatal submit_all io_uring_enter).
Context (default_entry : SubmissionEntry) (big_endian : bool).
Context (Hdefault : zeroed default_entry).
Context (syscall : SysCall → M (World K U) (OsResult Z)) (syscall_result : Z → OsResult Z).
Context (timespec_at : Z → Z).
Context (user_complete : ReqPtr → Z → M (World K U) unit).
Context (wake_complete : ReqPtr → M (World K U) unit) (wake_fuel : nat).
Context (submit_direct : Work (World K U) → ReqPtr → M (World K U) CancelWork).
Context (cancel_direct : CancelWork → M (World K U) unit).

Local Abbreviation engine := (uring_engine false default_entry big_endian io_uring_enter syscall
  syscall_result NO_OP event_request event_fd_raw timespec_at user_complete wake_complete
  wake_fuel submit_direct cancel_direct).

(** Running the future of a supported operation leaves it pending with one
    request submitted to the kernel, which reads it as that operation; cancelling
    the future submits a cancellation of exactly that request. *)
Theorem operation_reaches_kernel op r k w :
  inv submit_all w → op_ok op → op_request op = Some k →
  op_supported (features (Uring.engine w)) op = true →
  wp fatal (driver_task (io_engine := engine) op r) w (λ p w',
    p = Pending r ∧ inv submit_all w' ∧
    requested event_request big_endian r k w w' ∧
    wp fatal (engine_task_cancel (inner := engine) r) w' (λ res w'',
      res = Ok tt ∧ inv submit_all w'' ∧
      requested event_request big_endian NO_OP (KCancel r 0 0) w' w'')).
Proof.
  intros Hw Hok Hk Hs. unfold driver_task, engine_task. wp_steps.
  eapply wp_mono; [by eapply uring_start_async|]. intros res w' (-> & Hinv & Hreq).
  wp_steps. split_and!; try done. by eapply uring_cancel_spec.
Qed.
End Reach.

Section Close.
Context {S F : Type} `{DriverState S} {io_engine : EngineImpl S}.
Context (block_on : (ReqPtr → M S (Progress Z)) → M S Z) (check_interrupt : M S (Result unit)).
Context (syscall_result : Z → OsResult Z) (drop_fd : Z → M S unit).

(** The file that a descriptor stands for. *)
Context (open_file : S → Z → option F).

(** std: dropping an [OwnedFd] closes the descriptor. *)
Context (Hdrop : ∀ fd s, ∃ s', drop_fd fd s = Ret (tt, s') ∧ open_file s' fd = None).

(** C39: [close] closes its descriptor twice, once by the operation and once by
    dropping the [OwnedFd] it was given: a file that got the number in between
    (opened by another task or thread) is closed behind its owner's back. *)
Theorem close_closes_successor fd f s r s1 :
  raw_op block_on check_interrupt syscall_result true (Oclose fd) s = Ret (r, s1) →
  open_file s1 fd = Some f →
  ∃ s2, io_close block_on check_interrupt syscall_result drop_fd fd s = Ret (r, s2) ∧
    open_file s2 fd = None.
Proof.
  intros Hraw _. destruct (Hdrop fd s1) as (s2 & Hd & Hf). exists s2.
  unfold io_close, raw_close, mbind, M_bind. by rewrite Hraw, Hd.
Qed.
End Close.

(** ** The theorems on concrete processes *)

Lemma operation_reaches_kernel_witness :
  let eng := uring_engine (K := Sim.Kernel) (U := nat) false zero_entry false Sim.enter sim_syscall
    (λ v, Ok v) 77 Sim.event_request 10 (λ n, n) (λ _ _, mret tt) (λ _, mret tt) 8
    (λ work _, work;; mret 0) (λ _, mret tt) in
  wp False (driver_task (io_engine := eng) (Osend 6 4096 100 0) 1005) busy (λ p w',
    p = Pending 1005 ∧ inv true w' ∧
    requested Sim.event_request false 1005 (KSendRecv Send 6 4096 100 0) busy w' ∧
    wp False (engine_task_cancel (inner := eng) 1005) w' (λ res w'',
      res = Ok tt ∧ inv true w'' ∧
      requested Sim.event_request false 77 (KCancel 1005 0 0) w' w'')).
Proof.
  apply (operation_reaches_kernel 77 Sim.event_request 10 False true Sim.enter
    (Sim.kernel_ok true) zero_entry false); try reflexivity; try apply busy_inv.
  repeat split.
Defined.

(** A process with a table of descriptors, in which another task opens a file
    (number 9) as soon as a descriptor is free. *)
Module SimFiles.
Record Process : Type := mkProcess { p_driver : Driver; p_files : Z → option Z }.

#[export] Instance files_driver : DriverState Process := {|
  driver := p_driver;
  set_driver := λ d p, mkProcess d (p_files p);
  driver_set := λ d p, eq_refl
|}.

#[export] Instance files_engine : EngineImpl Process := {|
  has_work := λ _, false;
  work := λ _, mret (Ok tt);
  prepare_wake := mret (Ok tt);
  wake := λ _, mret (Ok tt);
  start_work := λ work _, work;; mret 0;
  cancel_work := λ _, mret tt;
  cancel := λ _, mret (Ok tt);
  start := λ _ _, mret None;
  kind := λ _ _, Async
|}.

Definition set_file (fd : Z) (f : option Z) (p : Process) : Process :=
  mkProcess (p_driver p) (λ n, if n =? fd then f else p_files p n).

(** While the task waits for the close of descriptor 5, another one opens. *)
Definition await_close (_ : ReqPtr → M Process (Progress Z)) : M Process Z :=
  modify (set_file 5 None);;
  modify (set_file 5 (Some 9));;
  mret 0.

Definition drop (fd : Z) : M Process unit := modify (set_file fd None).

Definition process : Process := mkProcess (mkDriver [] false []) (λ n, if n =? 5 then Some 1 else None).
End SimFiles.

#[local] Existing Instances SimFiles.files_driver SimFiles.files_engine.

Lemma close_closes_successor_witness :
  ∃ s2, io_close SimFiles.await_close (mret (Ok tt)) sample_syscall_result SimFiles.drop 5
      SimFiles.process = Ret (Ok 0, s2) ∧ SimFiles.p_files s2 5 = None.
Proof.
  apply (close_closes_successor SimFiles.await_close (mret (Ok tt)) sample_syscall_result
    SimFiles.drop SimFiles.p_files) with (f := 9)
    (s1 := SimFiles.set_file 5 (Some 9) (SimFiles.set_file 5 None SimFiles.process)).
  - intros fd s. eexists. split; [reflexivity|]. simpl. by rewrite Z.eqb_refl.
  - reflexivity.
  - reflexivity.
Defined.
