(* ===== verification/Tracing.v ===== *)
(** * The tracing of I/O operations (src/src/ops/io.rs, feature "tracing")

    With the feature each operation of the module [raw] logs a line with its
    arguments and its result.  Text is a string that is appended to, which cannot
    fail.  Writing the line to the log, the names of flags and enum values, the
    formatting of pointers and of error numbers, and the bytes of a C string in memory
    are parameters.  The theorems: tracing changes no result, and the formatting
    of flags hides the known ones as soon as there is an unknown one. *)

From Stdlib Require Import Ascii.
From stdpp Require Import base list numbers strings pretty tactics.
From S2P Require Import Prelude Engine Driver IoOps.

(** ** Numbers *)

Definition digit (d : Z) : ascii :=
  ascii_of_nat (Z.to_nat (if d <? 10 then 48 + d else 87 + d)).

(** The digits of a [u32] in a base; 32 rounds are enough for any base. *)
Fixpoint digits (base : Z) (fuel : nat) (x : Z) (rest : string) : string :=
  match fuel with
  | O => rest
  | S fuel =>
      let rest := String (digit (x mod base)) rest in
      if x <? base then rest else digits base fuel (x / base) rest
  end.

(** [{:x}] and [{:o}] *)
Definition lower_hex (x : Z) : string := digits 16 32 x EmptyString.
Definition octal (x : Z) : string := digits 8 32 x EmptyString.

Example lower_hex_sample : lower_hex 0 = "0"%string ∧ lower_hex 0xdeadbe0f = "deadbe0f"%string ∧
  octal 420 = "644"%string.
Proof. by vm_compute. Qed.

(** ** Strings *)

Definition continuation (b lo hi : Z) : bool := (lo <=? b) && (b <=? hi).

(** Whether bytes are UTF-8, as [CStr::to_str] requires. *)
Fixpoint utf8_valid (s : list Z) : bool :=
  match s with
  | [] => true
  | b :: s =>
      if b <? 0x80 then utf8_valid s
      else match s with
      | [] => false
      | c :: s =>
          if continuation b 0xc2 0xdf then continuation c 0x80 0xbf && utf8_valid s
          else match s with
          | [] => false
          | d :: s =>
              if continuation b 0xe0 0xef then
                continuation c (if b =? 0xe0 then 0xa0 else 0x80) (if b =? 0xed then 0x9f else 0xbf) &&
                continuation d 0x80 0xbf && utf8_valid s
              else match s with
              | [] => false
              | e :: s =>
                  continuation b 0xf0 0xf4 &&
                  continuation c (if b =? 0xf0 then 0x90 else 0x80) (if b =? 0xf4 then 0x8f else 0xbf) &&
                  continuation d 0x80 0xbf && continuation e 0x80 0xbf && utf8_valid s
              end
          end
      end
  end.

Definition text_of (s : list Z) : string :=
  String.string_of_list_ascii ((λ b, ascii_of_nat (Z.to_nat b)) <$> s).

#[local] Open Scope string_scope.

Section Display.

(** The bytes of a C string, up to its terminator. *)
Context (cstr_at : Z → list Z).

Definition get_cstr_as_str (cstr : Z) : string :=
  let cstr := cstr_at cstr in
  if utf8_valid cstr then text_of cstr else "<error>".

(** [EnumDisplay]: [from_u32] is derived, with the text of the value it finds. *)
Definition EnumDisplay (from_u32 : Z → option string) (value : Z) : string :=
  match from_u32 value with
  | Some val => val
  | None => pretty value
  end.

(** A set of flags: the bits that have a name, and the text of a value that has only
    such bits. *)
Record FlagSet : Type := mkFlagSet { all_bits : Z; display_flags : Z → string }.

(** [BitFlags::from_bits], whose error has the known part and the unknown one. *)
Definition from_bits (T : FlagSet) (bits : Z) : result Z (Z * Z) :=
  let unknown := Z.ldiff bits (all_bits T) in
  if (unknown =? 0)%Z then Ok bits else Err (Z.land bits (all_bits T), unknown).

Definition FlagsDisplay (T : FlagSet) (value : Z) : string :=
  let '(flags, invalid) :=
    match from_bits T value with
    | Ok flags => (flags, None)
    | Err (truncate, invalid_bits) => (truncate, Some invalid_bits)
    end in
  match (flags =? 0)%Z, invalid with
  | _, None => display_flags T flags
  | false, Some invalid => lower_hex invalid
  | true, Some invalid => display_flags T flags ++ " + " ++ lower_hex invalid
  end.

(** ** The lines *)

Context (OpenFlag MessageFlag AtFlag StatxMask PollFlag : FlagSet).
Context (AddressFamily SocketType IpProtocol Shutdown : Z → option string).
Context (debug_ptr : Z → string) (debug_os_error : Z → string).

(** The arguments of an operation. *)
Definition trace_call (op : Operation) : string :=
  match op with
  | Oopen path flags mode =>
      "## open(path = " ++ get_cstr_as_str path ++ ", flags = " ++ FlagsDisplay OpenFlag flags ++
      ", mode = " ++ octal mode ++ ")"
  | Oclose fd => "## close(fd = " ++ pretty fd ++ ")"
  | Oread fd buf len offset =>
      "## read(fd = " ++ pretty fd ++ ", buf = &mut [u8; " ++ pretty len ++ "], offset = " ++
      pretty offset ++ ")"
  | Owrite fd buf len offset =>
      "## write(fd = " ++ pretty fd ++ ", buf = &[u8; " ++ pretty len ++ "], offset = " ++
      pretty offset ++ ")"
  | Osocket domain socket_type protocol =>
      "## socket(domain = " ++ EnumDisplay AddressFamily domain ++ ", socket_type = " ++
      EnumDisplay SocketType socket_type ++ ", protocol = " ++ EnumDisplay IpProtocol protocol ++ ")"
  | Oaccept socket addr addrlen =>
      "## accept(fd = " ++ pretty socket ++ ", addr = " ++ debug_ptr addr ++ ", addrlen = " ++
      debug_ptr addrlen ++ ")"
  | Oconnect socket addr addrlen =>
      "## connect(fd = " ++ pretty socket ++ ", addr = " ++ debug_ptr addr ++ ", addrlen = " ++
      pretty addrlen ++ ")"
  | Orecv socket buf len flags =>
      "## recv(fd = " ++ pretty socket ++ ", buf = &mut [u8; " ++ pretty len ++ "], flags = " ++
      FlagsDisplay MessageFlag flags ++ ")"
  | Orecvmsg socket header flags =>
      "## recvmsg(fd = " ++ pretty socket ++ ", header = " ++ debug_ptr header ++ ", flags = " ++
      FlagsDisplay MessageFlag flags ++ ")"
  | Osend socket buf len flags =>
      "## send(fd = " ++ pretty socket ++ ", buf = &[u8; " ++ pretty len ++ "], flags = " ++
      FlagsDisplay MessageFlag flags ++ ")"
  | Osendmsg socket header flags =>
      "## sendmsg(fd = " ++ pretty socket ++ ", header = " ++ debug_ptr header ++ ", flags = " ++
      FlagsDisplay MessageFlag flags ++ ")"
  | Oshutdown socket how =>
      "## shutdown(fd = " ++ pretty socket ++ ", how = " ++ EnumDisplay Shutdown how ++ ")"
  | Obind socket addr addrlen =>
      "## bind(fd = " ++ pretty socket ++ ", addr = " ++ debug_ptr addr ++ ", addrlen = " ++
      pretty addrlen ++ ")"
  | Olisten socket backlog =>
      "## listen(fd = " ++ pretty socket ++ ", backlog = " ++ pretty backlog ++ ")"
  | Ofsync file => "## fsync(fd = " ++ pretty file ++ ")"
  | Ostatx dirfd path flags mask statx =>
      "## statx(dirfd = " ++ pretty dirfd ++ ", path = " ++ get_cstr_as_str path ++ ", flags = " ++
      FlagsDisplay AtFlag flags ++ ", mask = " ++ FlagsDisplay StatxMask mask ++ ", statx = " ++
      debug_ptr statx ++ ")"
  | Opoll fd mask => "## poll(fd = " ++ pretty fd ++ ", mask = " ++ FlagsDisplay PollFlag mask ++ ")"
  end.

(** [{:?}] of what an operation yields: a new descriptor, a length, the events of a
    poll, or nothing. *)
Definition trace_value (op : Operation) (v : Z) : string :=
  match op with
  | Oopen _ _ _ | Osocket _ _ _ | Oaccept _ _ _ => "OwnedFd { fd: " ++ pretty v ++ " }"
  | Oread _ _ _ _ | Owrite _ _ _ _ | Orecv _ _ _ _ | Orecvmsg _ _ _ | Osend _ _ _ _
  | Osendmsg _ _ _ => pretty v
  | Opoll _ _ => FlagsDisplay PollFlag v
  | _ => "()"
  end.

Definition trace_line (op : Operation) (result : OsResult Z) : string :=
  trace_call op ++ " = " ++
  match result with
  | Ok v => "Ok(" ++ trace_value op v ++ ")"
  | Err e => "Err(" ++ debug_os_error e ++ ")"
  end.

(** [async_engine_task!] with the feature; [trace] is xx-core's macro. *)
Section Traced.
Context {S : Type} `{DriverState S} {io_engine : EngineImpl S}.
Context (block_on : (ReqPtr → M S (Progress Z)) → M S Z) (check_interrupt : M S (Result unit)).
Context (syscall_result : Z → OsResult Z) (trace : string → M S unit).

Definition raw_op_traced (force : bool) (op : Operation) : M S (Result Z) :=
  _ ←? (if negb force then
          _ ←? check_interrupt;
          check_exiting
        else mret (Ok tt));
  value ← block_on (driver_task op);
  let result := result_for syscall_result value in
  trace (trace_line op result);;
  mret (from_os result).
End Traced.
End Display.

(** ** Theorems *)

Example utf8_sample :
  utf8_valid [0x2f; 0xc3; 0xa9; 0xe2; 0x82; 0xac; 0xf0; 0x9f; 0xa6; 0x80] = true ∧
  utf8_valid [0xc0; 0x80] = false ∧ utf8_valid [0xed; 0xa0; 0x80] = false ∧
  utf8_valid [0x80] = false.
Proof. by vm_compute. Qed.

(** Tracing is transparent: an operation that returns does so with the feature too, with
    the same result, and at most one line is logged, at the end. *)
Lemma traced_same_result {S : Type} `{DriverState S} {io_engine : EngineImpl S} cstr_at
    OpenFlag MessageFlag AtFlag StatxMask PollFlag AddressFamily SocketType IpProtocol Shutdown
    debug_ptr debug_os_error (block_on : (ReqPtr → M S (Progress Z)) → M S Z) check_interrupt
    syscall_result (trace : string → M S unit) force op s r s1 :
  (∀ line s, ∃ s', trace line s = Ret (tt, s')) →
  raw_op block_on check_interrupt syscall_result force op s = Ret (r, s1) →
  ∃ s2,
    raw_op_traced cstr_at OpenFlag MessageFlag AtFlag StatxMask PollFlag AddressFamily SocketType
      IpProtocol Shutdown debug_ptr debug_os_error block_on check_interrupt syscall_result trace
      force op s = Ret (r, s2) ∧
    (s2 = s1 ∨ ∃ line, trace line s1 = Ret (tt, s2)).
Proof.
  intros Htrace. unfold raw_op, raw_op_traced.
  set (guard := if negb force then _ else _). clearbody guard. unfold bind_ok, mbind, M_bind.
  destruct (guard s) as [[[u|e] s0]| | | |]; try done; simpl;
    [|intros Hr; injection Hr as <- <-; eauto].
  destruct (block_on _ _) as [[v s3]| | | |]; try done. simpl.
  intros Hr. injection Hr as <- <-.
  match goal with |- context [trace ?l s3] => destruct (Htrace l s3) as [s4 E] end.
  rewrite E. simpl. exists s4. eauto.
Qed.

(** C40: as soon as flags have a bit without a name, the text of the flags omits all those
    that have a name: the condition of [FlagsDisplay] is inverted.  Two sets of flags with the same
    unknown bits get the same text, so a trace of [recv] does not tell them apart, while
    the empty set, which has nothing to show, is shown. *)
Theorem unknown_bit_hides_flags cstr_at OpenFlag T AtFlag StatxMask PollFlag AddressFamily
    SocketType IpProtocol Shutdown debug_ptr debug_os_error a b socket buf len result :
  Z.land a (all_bits T) ≠ 0 → Z.land b (all_bits T) ≠ 0 →
  Z.ldiff a (all_bits T) ≠ 0 → Z.ldiff a (all_bits T) = Z.ldiff b (all_bits T) →
  let line flags := trace_line cstr_at OpenFlag T AtFlag StatxMask PollFlag AddressFamily
    SocketType IpProtocol Shutdown debug_ptr debug_os_error (Orecv socket buf len flags) result in
  let unknown := Z.ldiff a (all_bits T) in
  FlagsDisplay T a = lower_hex unknown ∧ line a = line b ∧
  FlagsDisplay T unknown = display_flags T 0 ++ " + " ++ lower_hex unknown.
Proof.
  intros Ha Hb Hu Hab line unknown.
  assert (∀ c, Z.land c (all_bits T) ≠ 0 → Z.ldiff c (all_bits T) = unknown →
    FlagsDisplay T c = lower_hex unknown) as Hhex.
  { intros c Hc Hcu. unfold FlagsDisplay, from_bits. rewrite Hcu.
    destruct (Z.eqb_spec unknown 0); [done|]. by destruct (Z.eqb_spec (Z.land c (all_bits T)) 0). }
  split_and!; [by apply Hhex| |].
  - unfold line, trace_line, trace_call. by rewrite !Hhex.
  - assert (Z.land unknown (all_bits T) = 0 ∧ Z.ldiff unknown (all_bits T) = unknown) as [E1 E2].
    { unfold unknown. split; apply Z.bits_inj_iff; intros n;
        rewrite ?Z.land_spec, ?Z.ldiff_spec, ?Z.bits_0;
        destruct (Z.testbit a n), (Z.testbit (all_bits T) n); done. }
    unfold FlagsDisplay, from_bits. rewrite E1, E2. simpl.
    by destruct (Z.eqb_spec unknown 0).
Qed.

(** [MSG_PEEK] and [MSG_WAITALL] with a bit that has no name. *)
Definition sample_flags : FlagSet :=
  mkFlagSet (Z.lor 2 256) (λ v,
    if (v =? 2)%Z then "Peek" else if (v =? 256)%Z then "WaitAll"
    else if (v =? 0)%Z then "<empty>" else "Peek | WaitAll").

Lemma unknown_bit_hides_flags_witness :
  FlagsDisplay sample_flags (Z.lor 2 0x8000) = "8000" ∧
  trace_line (λ _, []) sample_flags sample_flags sample_flags sample_flags sample_flags
    (λ _, None) (λ _, None) (λ _, None) (λ _, None) pretty pretty
    (Orecv 5 4096 512 (Z.lor 2 0x8000)) (Ok 16) =
  trace_line (λ _, []) sample_flags sample_flags sample_flags sample_flags sample_flags
    (λ _, None) (λ _, None) (λ _, None) (λ _, None) pretty pretty
    (Orecv 5 4096 512 (Z.lor 256 0x8000)) (Ok 16) ∧
  FlagsDisplay sample_flags 0x8000 = "<empty> + 8000".
Proof.
  apply (unknown_bit_hides_flags (λ _, []) sample_flags sample_flags sample_flags sample_flags
    sample_flags (λ _, None) (λ _, None) (λ _, None) (λ _, None) pretty pretty (Z.lor 2 0x8000)
    (Z.lor 256 0x8000) 5 4096 512 (Ok 16)); (discriminate || reflexivity).
Defined.
