(* ===== verification/EndToEnd.v ===== *)
(** * An operation from the task to the kernel and back

    [raw_op] of ops/io.rs on the driver and on the io_uring engine: what a task gets
    back is the conversion of what the kernel answered to the one entry that was
    submitted for it, and which of the functions of the module [raw] are started in a task
    that was interrupted.  xx-core's [block_on] is a parameter; what is assumed of it is
    [block_on_law]. *)

From stdpp Require Import base list numbers relations tactics.
From S2P Require Import Prelude Op Queue Engine Uring UringSpec UringEngine UringProcess UringWork UringSim.
From S2P Require Import Driver DriverSpec System IoOps.

(** ** Counting *)

Definition occurrences (r : Z) (l : list Z) : nat := length (filter (λ x, x = r) l).

Lemma filter_occurrences {A} (f : A → Z) r l :
  length (filter (λ x, f x = r) l) = occurrences r (f <$> l).
Proof.
  unfold occurrences. induction l as [|x l IH]; [done|].
  cbn [fmap list_fmap]. rewrite !filter_cons. destruct (decide (f x = r)); simpl; lia.
Qed.

Lemma occurrences_submseteq r l k : l ⊆+ k → (occurrences r l ≤ occurrences r k)%nat.
Proof.
  intros [m Hm]%submseteq_Permutation. unfold occurrences.
  rewrite Hm, list.filter_app, length_app. lia.
Qed.

Lemma filter_none {A} (P : A → Prop) `{∀ x, Decision (P x)} l :
  (∀ x, x ∈ l → ¬ P x) → filter P l = [].
Proof.
  intros Hl. destruct (filter P l) as [|x l'] eqn:E; [done|]. exfalso.
  assert (x ∈ filter P l) as [? ?]%list_elem_of_filter by (rewrite E; left). by apply (Hl x).
Qed.

Section EndToEnd.
Context {K U : Type} `{!KernelView K} `{!DriverState (World K U)}.
Context (NO_OP event_request event_fd_raw : Z) (fatal : Prop) (submit_all : bool).
Context (io_uring_enter : EnterArgs → Z → K → Queue → OsResult Z * K * Queue).
Context (Hkernel : kernel_spec event_request fatal submit_all io_uring_enter).
Context (default_entry : SubmissionEntry) (big_endian : bool).
Context (Hdefault : zeroed default_entry).
Context (syscall : SysCall → M (World K U) (OsResult Z)) (syscall_result : Z → OsResult Z).
Context (timespec_at : Z → Z).
Context (user_complete : ReqPtr → Z → M (World K U) unit).
Context (wake_complete : ReqPtr → M (World K U) unit) (wake_fuel : nat).
Context (submit_direct : Work (World K U) → ReqPtr → M (World K U) CancelWork).
Context (cancel_direct : CancelWork → M (World K U) unit).

Local Abbreviation W := (World K U).
Local Abbreviation uring := (uring_engine false default_entry big_endian io_uring_enter syscall
  syscall_result NO_OP event_request event_fd_raw timespec_at user_complete wake_complete
  wake_fuel submit_direct cancel_direct).

(** ** The life of a request *)

(** The entries submitted for a request, the completions the kernel posted for it, and
    those it was called with. *)
Definition requests_of (r : ReqPtr) (w : W) : list SubmissionEntry :=
  filter (λ e, user_data e = r) (history w).
Definition answers_to (r : ReqPtr) (w : W) : list (ReqPtr * Z) :=
  filter (λ p, p.1 = r) (cqe_event <$> posted (kernel w)).
Definition delivered_to (r : ReqPtr) (w : W) : list (ReqPtr * Z) :=
  filter (λ p, p.1 = r) (delivered w).

(** What holds of the engine at any time, also in the middle of a unit of work. *)
Definition consistent (w : W) : Prop := inv submit_all w ∧ ∃ l, owed w l.

(** No operation of the request is under way, or [n] are. *)
Definition under_way (n : nat) (r : ReqPtr) (w : W) : Prop :=
  (length (requests_of r w) = length (delivered_to r w) + n)%nat.

Definition free (r : ReqPtr) (w : W) : Prop :=
  r ≠ NO_OP ∧ r ≠ event_request ∧ under_way 0 r w.

Lemma answers_bound r w :
  consistent w → (length (answers_to r w) ≤ length (requests_of r w))%nat.
Proof.
  intros [([_ _ _ _ _ Ha _] & _) _]. unfold answers_to, requests_of, history.
  rewrite (filter_occurrences fst), (filter_occurrences user_data), <- list_fmap_compose.
  apply occurrences_submseteq. rewrite fmap_app. etransitivity; [exact Ha|].
  apply submseteq_inserts_r. done.
Qed.

Lemma answers_delivered r w :
  consistent w → ∃ l, answers_to r w ≡ₚ delivered_to r w ++ l.
Proof.
  intros [_ [l Ho]]. exists (filter (λ p, p.1 = r) (cqe_event <$> l)).
  unfold answers_to, delivered_to. by rewrite Ho, list.filter_app.
Qed.

(** What a request was called with is all that the kernel answered, when nothing is
    under way. *)
Lemma answers_exact r w : consistent w → under_way 0 r w → answers_to r w ≡ₚ delivered_to r w.
Proof.
  intros Hw Hu. destruct (answers_delivered r w Hw) as [l Hl].
  pose proof (answers_bound r w Hw) as Hb. rewrite Hl, length_app in Hb.
  unfold under_way in Hu. destruct l; [by rewrite Hl, app_nil_r|simpl in Hb; lia].
Qed.

(** The task that waits for the request is resumed with [v]: the request was called
    with it last, and nothing else was submitted for it in the meantime. *)
Record resumed (r : ReqPtr) (v : Z) (w w' : W) : Prop := {
  re_consistent : consistent w';
  re_delivered : ∃ mid, delivered w' = delivered w ++ mid ++ [(r, v)];
  re_requests : requests_of r w' = requests_of r w
}.

(** That is the state in which the engine calls a request. *)
Lemma request_complete_resumes e l w :
  inv submit_all w → owed w (e :: l) →
  cqe_user_data e ≠ NO_OP → cqe_user_data e ≠ event_request →
  let w' := log_delivered (cqe_user_data e) (cqe_result e) w in
  request_complete false default_entry big_endian io_uring_enter syscall_result NO_OP
    event_request event_fd_raw user_complete wake_complete wake_fuel (cqe_user_data e)
    (cqe_result e) w = user_complete (cqe_user_data e) (cqe_result e) w' ∧
  resumed (cqe_user_data e) (cqe_result e) w w'.
Proof.
  intros Hw Ho Hn He w'. split.
  - unfold request_complete, modify, mbind, M_bind. cbn beta iota.
    destruct (Z.eqb_spec (cqe_user_data e) NO_OP); [done|].
    by destruct (Z.eqb_spec (cqe_user_data e) event_request).
  - constructor; [|by exists []|done].
    split; [by apply inv_log|]. exists l. by apply owed_deliver.
Qed.

(** The answer to an operation: if the request was free and one entry was submitted for
    it, then it is called once only, with the one answer of the kernel. *)
Lemma own_answer r v e w w1 w2 :
  consistent w → under_way 0 r w →
  requests_of r w1 = requests_of r w ++ [e] → delivered w1 = delivered w →
  resumed r v w1 w2 →
  answers_to r w2 ≡ₚ answers_to r w ++ [(r, v)] ∧ under_way 0 r w2.
Proof.
  intros Hw Hu Hreq Hd [Hw2 [mid Hmid] Hr2].
  assert (delivered_to r w2 = delivered_to r w ++ filter (λ p, p.1 = r) mid ++ [(r, v)]) as Hd2.
  { unfold delivered_to. rewrite Hmid, Hd, !list.filter_app, (filter_cons_True _ (r, v)) by done. done. }
  destruct (answers_delivered r w2 Hw2) as [l Hl]. pose proof (answers_bound r w2 Hw2) as Hb.
  rewrite Hl, Hr2, Hreq, Hd2, !length_app in Hb. simpl in Hb. unfold under_way in Hu.
  destruct (filter _ mid) eqn:Em, l as [|x l]; simpl in Hb; try lia.
  split.
  - rewrite Hl, Hd2, app_nil_r. simpl. by rewrite (answers_exact r w Hw Hu).
  - unfold under_way. rewrite Hr2, Hreq, Hd2, !length_app. simpl. lia.
Qed.

(** ** The task *)

(** xx-core: [block_on] runs the future with a request of its own; if that is pending
    the task is suspended until the request is called. *)
Definition block_on_law (block_on : (ReqPtr → M W (Progress Z)) → M W Z) : Prop :=
  ∀ fut w (Q : Z → W → Prop),
    (∀ r, free r w → wp fatal (fut r) w (λ p w1,
      match p with
      | Done v => Q v w1
      | Pending _ => consistent w1 ∧ under_way 1 r w1 ∧ delivered w1 = delivered w ∧
          ∀ v w2, resumed r v w1 w2 → Q v w2
      end)) →
    wp fatal (block_on fut) w Q.

Context (block_on : (ReqPtr → M W (Progress Z)) → M W Z) (Hblock : block_on_law block_on).
Context (check_interrupt : M W (Result unit)).
Context (Hcheck : ∀ w, wp fatal check_interrupt w (λ r w',
  w' = w ∧ (r = Ok tt ∨ r = Err (ErrKind Interrupted)))).

(** What a started operation yields: one entry was submitted for it, which the kernel
    reads as [k], and the kernel's one answer to that entry is what the task gets. *)
Definition answered (k : KernelOp) (w : W) (res : Result Z) (w' : W) : Prop :=
  ∃ r e v, decode big_endian e = Some k ∧
    requests_of r w' = requests_of r w ++ [e] ∧
    answers_to r w' ≡ₚ answers_to r w ++ [(r, v)] ∧
    under_way 0 r w' ∧ res = from_os (result_for syscall_result v).

Lemma started_answered op k w :
  consistent w → op_ok op → op_request op = Some k →
  op_supported (features (engine w)) op = true →
  wp fatal (block_on (driver_task (io_engine := uring) op)) w (λ v w',
    answered k w (from_os (result_for syscall_result v)) w').
Proof.
  intros Hw Hok Hk Hs. apply Hblock. intros r (Hr1 & Hr2 & Hu). unfold driver_task, engine_task.
  wp_steps. eapply wp_mono; [eapply uring_start_async; try done; apply Hw|].
  intros res w1 (-> & Hinv & (e & He & Hue & Hp)). wp_steps.
  assert (requests_of r w1 = requests_of r w ++ [e]) as Hreq.
  { unfold requests_of. rewrite (pu_history _ _ _ _ _ _ Hp), list.filter_app.
    by rewrite (filter_cons_True _ e) by done. }
  pose proof (ex_delivered _ _ _ _ (pu_extends _ _ _ _ _ _ Hp)) as Hd.
  split_and!; [split; [done|]| |done|].
  - destruct Hw as [_ [l Ho]].
    destruct (ex_view _ _ _ _ (pu_extends _ _ _ _ _ _ Hp)) as (new & _ & Hpo).
    exists (l ++ new). by apply (owed_posts l new w).
  - unfold under_way, delivered_to in *. rewrite Hreq, Hd, length_app, Hu. simpl. lia.
  - intros v w2 Hre. destruct (own_answer r v e w w1 w2) as [Ha Hu2]; try done.
    exists r, e, v. split_and!; try done. rewrite (re_requests _ _ _ _ Hre). done.
Qed.

(** C4: an operation that the kernel supports returns the conversion of the kernel's
    answer to it.  One entry is submitted for it, which the kernel reads as the
    operation; the kernel posts exactly one completion for that entry, and its value
    is what the task gets, whatever else runs in the meantime.  Otherwise the
    operation was refused because of an interrupt or the shutdown, and nothing was
    done. *)
Theorem operation_returns_its_answer force op k w :
  consistent w → op_ok op → op_request op = Some k →
  op_supported (features (engine w)) op = true →
  wp fatal (raw_op (io_engine := uring) block_on check_interrupt syscall_result force op) w
    (λ res w',
      (∃ r e v, decode big_endian e = Some k ∧
        requests_of r w' = requests_of r w ++ [e] ∧
        answers_to r w' ≡ₚ answers_to r w ++ [(r, v)] ∧
        under_way 0 r w' ∧ res = from_os (result_for syscall_result v)) ∨
      (force = false ∧ w' = w ∧ (res = Err (ErrKind Interrupted) ∨ res = Err shutdown_error))).
Proof.
  intros Hw Hok Hk Hs. pose proof (started_answered op k w Hw Hok Hk Hs) as Hrun. unfold raw_op.
  destruct force; simpl; wp_steps.
  { eapply wp_mono; [exact Hrun|]. intros v w' Hv. wp_steps. by left. }
  eapply wp_mono; [apply Hcheck|]. intros c w0 [-> [->| ->]]; wp_steps; [|right; eauto].
  unfold check_exiting, gets_driver. wp_steps.
  destruct (exiting (driver w)); simpl; wp_steps; [right; eauto|].
  eapply wp_mono; [exact Hrun|]. intros v w' Hv. wp_steps. by left.
Qed.

(** ** Which operations are started *)

(** The task was interrupted, or the driver shuts down; or neither. *)
Definition refused (e : Error) (w : W) : Prop :=
  check_interrupt w = Ret (Err e, w) ∨
  (check_interrupt w = Ret (Ok tt, w) ∧ exiting (driver w) = true ∧ e = shutdown_error).

Definition admitted (w : W) : Prop :=
  check_interrupt w = Ret (Ok tt, w) ∧ exiting (driver w) = false.

Lemma raw_op_refused op e w :
  refused e w →
  raw_op (io_engine := uring) block_on check_interrupt syscall_result false op w = Ret (Err e, w).
Proof.
  intros Hr. unfold raw_op, bind_ok, mbind, M_bind. simpl. destruct Hr as [->|(-> & He & ->)]; [done|].
  unfold check_exiting, gets_driver, gets, mbind, M_bind. by rewrite He.
Qed.

Lemma raw_op_answered force op k w :
  consistent w → op_ok op → op_request op = Some k →
  op_supported (features (engine w)) op = true → force = true ∨ admitted w →
  wp fatal (raw_op (io_engine := uring) block_on check_interrupt syscall_result force op) w
    (answered k w).
Proof.
  intros Hw Hok Hk Hs Hgo. pose proof (started_answered op k w Hw Hok Hk Hs) as Hrun.
  unfold raw_op. destruct force; simpl; wp_steps.
  { eapply wp_mono; [exact Hrun|]. intros v w' Hv. by wp_steps. }
  destruct Hgo as [|[Hc He]]; [done|].
  assert (wp fatal check_interrupt w (λ r w', r = Ok tt ∧ w' = w)) as Hc' by (unfold wp; by rewrite Hc).
  eapply wp_mono; [exact Hc'|]. intros r w' [-> ->]. wp_steps.
  unfold check_exiting, gets_driver. wp_steps. rewrite He. simpl. wp_steps.
  eapply wp_mono; [exact Hrun|]. intros v w' Hv. by wp_steps.
Qed.

(** C36: what the functions of the module [raw] do in a task that was interrupted, or in any
    task while the driver shuts down.  Every operation but closing fails with that error and
    nothing has happened: no entry was submitted, no state changed.  Closing a descriptor is
    started all the same, and any operation is when there is no reason to refuse it: one
    entry is submitted, which the kernel reads as the operation with its arguments, and the
    kernel's one answer to it is returned. *)
Theorem refused_not_started :
  (∀ op e w, (∀ fd, op ≠ Oclose fd) → refused e w →
    issue (io_engine := uring) block_on check_interrupt syscall_result op w = Ret (Err e, w)) ∧
  (∀ op k w, consistent w → op_ok op → op_request op = Some k →
    op_supported (features (engine w)) op = true → (∃ fd, op = Oclose fd) ∨ admitted w →
    wp fatal (issue (io_engine := uring) block_on check_interrupt syscall_result op) w
      (answered k w)).
Proof.
  split.
  - intros op e w Hop Hr. destruct op; try exact (raw_op_refused _ e w Hr). by destruct (Hop fd).
  - intros op k w Hw Hok Hk Hs Hgo.
    destruct op; try (apply raw_op_answered; [done..|]; destruct Hgo as [[? ?]|?]; [done|by right]).
    apply raw_op_answered; [done..|by left].
Qed.
End EndToEnd.

(** ** A task on the concrete kernel *)

Module SimBlock.
Section Block.
Context {U : Type}.
Local Abbreviation W := (World Sim.Kernel U).

(** A request that was never used. *)
Definition fresh (w : W) : ReqPtr :=
  foldr Z.max 100 ((user_data <$> history w) ++ (fst <$> delivered w)) + 1.

(** The kernel answers a request. *)
Definition answer (r : ReqPtr) (v : Z) (w : W) : W :=
  let k := kernel w in
  mkWorld (engine w) (Sim.mkKernel (Sim.accepted k) (Sim.completed k ++ [mkCqe r v]) (Sim.vain k))
    (rest w) (delivered w) (woken_log w).

(** While the task is suspended everything is submitted, and the request is called with
    the kernel's answer. *)
Definition block_on (fut : ReqPtr → M W (Progress Z)) : M W Z :=
  r ← gets fresh;
  p ← fut r;
  match p with
  | Done v => mret v
  | Pending _ =>
      flush false Sim.enter;;
      l ← gets (answers_to r);
      match l with
      | (_, v) :: _ => modify (log_delivered r v);; mret v
      | [] => modify (λ w, log_delivered r 0 (answer r 0 w));; mret 0
      end
  end.

Lemma foldr_max_le x b l : x ∈ l → x ≤ foldr Z.max b l.
Proof. induction 1; simpl; lia. Qed.

Lemma foldr_max_base b l : b ≤ foldr Z.max b l.
Proof. induction l; simpl; lia. Qed.

Lemma fresh_above (x : Z) w : x ∈ (user_data <$> history w) ++ (fst <$> delivered w) → x ≠ fresh w.
Proof. intros Hx%(foldr_max_le _ 100) E. unfold fresh, ReqPtr in *. lia. Qed.

Lemma fresh_new w : requests_of (fresh w) w = [] ∧ delivered_to (fresh w) w = [].
Proof.
  unfold requests_of, delivered_to.
  split; apply filter_none; intros x Hx; apply fresh_above, elem_of_app;
    [left|right]; by apply list_elem_of_fmap_2.
Qed.

Lemma fresh_free w : free 77 Sim.event_request (fresh w) w.
Proof.
  destruct (fresh_new w) as [E1 E2].
  pose proof (foldr_max_base 100 ((user_data <$> history w) ++ (fst <$> delivered w))).
  unfold free, under_way. rewrite E1, E2. unfold fresh, Sim.event_request. split_and!; [lia..|done].
Qed.

(** The kernel can answer a request it holds. *)
Lemma answer_inv r v (w : W) l :
  inv true w → sq_view (submission (queue (engine w))) = [] → requests_of r w ≠ [] →
  answers_to r w = [] → owed w l →
  inv true (answer r v w) ∧ owed (answer r v w) (l ++ [mkCqe r v]).
Proof.
  intros ([H1 H2 H3 H4 H5 Ha H7] & Hroom & Hf) Hv Hreq Hno Ho. split.
  - split; [|done]. constructor; try done. unfold answers in *. simpl in *.
    apply submseteq_Permutation in Ha as [m Hm].
    assert (r ∈ user_data <$> Sim.accepted (kernel w)) as Hr.
    { destruct (requests_of r w) as [|e es] eqn:E; [done|].
      assert (e ∈ requests_of r w) as [<- He]%list_elem_of_filter by (rewrite E; left).
      unfold history in He. rewrite Hv, app_nil_r in He. by apply list_elem_of_fmap_2. }
    rewrite Hm in Hr. apply elem_of_app in Hr as [Hr|Hr].
    { apply list_elem_of_fmap in Hr as (c & -> & Hc). exfalso.
      assert (cqe_event c ∈ answers_to (cqe_user_data c) w) as Hin.
      { apply list_elem_of_filter. split; [done|]. by apply list_elem_of_fmap_2. }
      rewrite Hno in Hin. by apply not_elem_of_nil in Hin. }
    apply elem_of_Permutation in Hr as [m' Hm']. rewrite Hm, fmap_app. simpl.
    apply submseteq_app; [done|]. rewrite Hm'. apply submseteq_skip, submseteq_nil_l.
  - apply (owed_posts l [mkCqe r v] w); done.
Qed.

(** An answer that was not delivered is owed. *)
Lemma answered_owed r r0 v rs (w : W) l :
  owed w l → delivered_to r w = [] → answers_to r w = (r0, v) :: rs →
  ∃ c l', r = cqe_user_data c ∧ cqe_result c = v ∧ owed w (c :: l').
Proof.
  intros Ho Hno Ea. assert ((r0, v) ∈ answers_to r w) as [Hr Hin]%list_elem_of_filter
    by (rewrite Ea; left). simpl in Hr. subst r0.
  unfold owed in Ho. rewrite Ho in Hin. apply elem_of_app in Hin as [Hin|Hin].
  { assert ((r, v) ∈ delivered_to r w) as Hn by (by apply list_elem_of_filter).
    rewrite Hno in Hn. by apply not_elem_of_nil in Hn. }
  apply list_elem_of_fmap in Hin as (c & Ec & [l' Hl']%elem_of_Permutation).
  unfold cqe_event in Ec. injection Ec as -> ->. exists c, l'. split_and!; [done..|].
  unfold owed. by rewrite Ho, Hl'.
Qed.

Lemma block_on_ok : block_on_law 77 Sim.event_request False true block_on.
Proof.
  intros fut w Q Hfut. unfold block_on. wp_steps.
  destruct (fresh_new w) as [Hreq Hdel]. set (r := fresh w) in *.
  eapply wp_mono; [apply Hfut, fresh_free|]. intros [r'|v] w1 Hp; [|by wp_steps].
  destruct Hp as ([Hw1 [l Ho]] & Hu & Hd & HQ). wp_steps.
  eapply wp_mono; [eapply flush_spec; [apply (Sim.kernel_ok true)|apply Hw1..]|].
  intros [u|e] w2; [|done]. intros (Hw2 & Hz & Hp). wp_steps.
  assert (requests_of r w2 = requests_of r w1) as Hr2.
  { unfold requests_of. by rewrite (pu_history _ _ _ _ _ _ Hp), app_nil_r. }
  pose proof (ex_delivered _ _ _ _ (pu_extends _ _ _ _ _ _ Hp)) as Hd2.
  destruct (ex_view _ _ _ _ (pu_extends _ _ _ _ _ _ Hp)) as (new & _ & Hpo).
  pose proof (owed_posts l new w1 w2 Ho Hpo Hd2) as Ho2.
  assert (delivered_to r w1 = []) as Hno1 by (unfold delivered_to; rewrite Hd; exact Hdel).
  assert (delivered_to r w2 = []) as Hno by (unfold delivered_to; rewrite Hd2; exact Hno1).
  unfold under_way in Hu. rewrite Hno1 in Hu. simpl in Hu.
  assert (sq_view (submission (queue (engine w2))) = []) as Hv.
  { apply nil_length_inv. destruct Hw2 as ([Hsq _ Hst _ _ _ _] & _).
    pose proof (length_sq_view _ Hsq). lia. }
  destruct (answers_to r w2) as [|[r0 v] rs] eqn:Ea; wp_steps; apply HQ.
  - destruct (answer_inv r 0 w2 (l ++ new)) as [Hi Hoi]; try done.
    { rewrite Hr2. by destruct (requests_of r w1). }
    constructor; [|exists []; simpl; by rewrite Hd2|done].
    split; [by apply inv_log|]. exists (l ++ new). apply (owed_deliver (mkCqe r 0)).
    unfold owed in *. by rewrite Hoi, fmap_app, (Permutation_app_comm (_ <$> _)).
  - destruct (answered_owed r r0 v rs w2 (l ++ new)) as (c & l' & -> & <- & Hc); [done..|].
    constructor; [|exists []; simpl; by rewrite Hd2|done].
    split; [by apply inv_log|]. exists l'. by apply owed_deliver.
Qed.

Lemma not_interrupted (w : W) :
  wp False (mret (Ok tt)) w (λ r w', w' = w ∧ (r = Ok tt ∨ r = Err (ErrKind Interrupted))).
Proof. split; [done|by left]. Qed.
End Block.
End SimBlock.

Import SimSystem.

#[local] Existing Instance world_driver.

Lemma operation_returns_its_answer_witness :
  wp False (raw_op (io_engine := SimSystem.uring) SimBlock.block_on (mret (Ok tt)) (λ v, Ok v) false
      (Orecv 9 8192 512 0)) SimSystem.process (λ res w',
    (∃ r e v, decode false e = Some (KSendRecv Recv 9 8192 512 0) ∧
      requests_of r w' = requests_of r SimSystem.process ++ [e] ∧
      answers_to r w' ≡ₚ answers_to r SimSystem.process ++ [(r, v)] ∧
      under_way 0 r w' ∧ res = Ok v) ∨
    (false = false ∧ w' = SimSystem.process ∧
      (res = Err (ErrKind Interrupted) ∨ res = Err shutdown_error))).
Proof.
  apply (operation_returns_its_answer 77 Sim.event_request 10 False true Sim.enter
    (Sim.kernel_ok true) zero_entry false ltac:(repeat split) sim_syscall (λ v, Ok v) (λ n, n)
    (λ _ _, mret tt) (λ _, mret tt) 8 (λ work _, work;; mret 0) (λ _, mret tt)
    SimBlock.block_on SimBlock.block_on_ok (mret (Ok tt))
    SimBlock.not_interrupted false (Orecv 9 8192 512 0)
    (KSendRecv Recv 9 8192 512 0) SimSystem.process).
  - destruct process_system_ok as [(Hi & _ & Ho & _) _ _]. split; [exact Hi|]. by eexists.
  - by repeat split.
  - reflexivity.
  - reflexivity.
Defined.

(** In a task that was interrupted, [fsync] is refused and [close] is not. *)
Lemma refused_not_started_witness :
  let interrupted : M (World Sim.Kernel Rest) (Result unit) := mret (Err (ErrKind Interrupted)) in
  issue (io_engine := SimSystem.uring) SimBlock.block_on interrupted (λ v, Ok v) (Ofsync 5)
    SimSystem.process = Ret (Err (ErrKind Interrupted), SimSystem.process) ∧
  wp False (issue (io_engine := SimSystem.uring) SimBlock.block_on interrupted (λ v, Ok v) (Oclose 5))
    SimSystem.process (answered false (λ v, Ok v) (KClose 5 0) SimSystem.process).
Proof.
  destruct (refused_not_started 77 Sim.event_request 10 False true Sim.enter
    (Sim.kernel_ok true) zero_entry false ltac:(repeat split) sim_syscall (λ v, Ok v) (λ n, n)
    (λ _ _, mret tt) (λ _, mret tt) 8 (λ work _, work;; mret 0) (λ _, mret tt)
    SimBlock.block_on SimBlock.block_on_ok (mret (Err (ErrKind Interrupted)))) as [H1 H2].
  split.
  - apply H1; [discriminate|]. left. reflexivity.
  - apply H2.
    + destruct process_system_ok as [(Hi & _ & Ho & _) _ _]. split; [exact Hi|]. by eexists.
    + by repeat split.
    + reflexivity.
    + reflexivity.
    + left. by exists 5.
Defined.
