(* ===== verification/File.v ===== *)
(** * Files (src/src/fs/file.rs)

    A file keeps its own position and reads and writes at it with the operations
    of IoOps.v.  The theorems: successive reads deliver the bytes of the file
    without gap or repetition, failed calls leave the position alone (which is
    what makes them safe to cancel), and reads after a seek deliver the bytes from
    the place that was sought. *)

From stdpp Require Import base list numbers tactics.
From S2P Require Import Prelude Engine Driver DriverSpec IoOps.

Record File : Type := mkFile {
  file_fd : Z;
  offset : Z
}.

Definition set_offset (v : Z) (f : File) : File := mkFile (file_fd f) v.

Inductive SeekFrom : Type := Start (pos : Z) | Current (rel : Z) | End_ (rel : Z).

(** The fields of [Statx] that are used, and [StatxMask::Size]. *)
Record Statx : Type := mkStatx { stat_mask : Z; stat_size : Z }.
Definition StatxSize : Z := 512.

(** [OpenFlag::Create | OpenFlag::WriteOnly] *)
Definition CreateWriteOnly : Z := 65.

(** [u64::checked_add_signed] *)
Definition checked_add_signed (a rel : Z) : option Z := checked_u 64 (a + rel).

(** [u64::try_into::<i64>] *)
Definition to_i64 (v : Z) : option Z := if fits_i 64 v then Some v else None.

Section File.
Context {S : Type} `{DriverState S} {io_engine : EngineImpl S} (overflow_checks : bool).
Context (block_on : (ReqPtr → M S (Progress Z)) → M S Z).
Context (check_interrupt : M S (Result unit)) (syscall_result : Z → OsResult Z).
Context (drop_fd : Z → M S unit) (path_as_cstr : Z → Result Z) (EMPTY_PATH : Z).

(** xx-core: [read_into!] and [write_from!] may return early on a buffer;
    [check_interrupt_if_zero]. *)
Context (early_return : Buf → option (Result Z)).
Context (check_interrupt_if_zero : Z → M S (Result Z)).

(** The [Statx] on the stack: its address, and what the call stored in it. *)
Context (statx_ptr : Z) (load_statx : M S Statx).

Local Abbreviation io_open := (io_open block_on check_interrupt syscall_result path_as_cstr).
Local Abbreviation io_read := (io_read block_on check_interrupt syscall_result).
Local Abbreviation io_write := (io_write block_on check_interrupt syscall_result).

Definition File_open (path : Z) : M S (Result File) :=
  fd ←? io_open path 0 0;
  mret (Ok (mkFile fd 0)).

Definition File_create (path : Z) : M S (Result File) :=
  fd ←? io_open path CreateWriteOnly 0;
  mret (Ok (mkFile fd 0)).

(** The common body of [read] and [write]. *)
Definition transfer (op : Z → Buf → Z → M S (Result Z)) (buf : Buf) (self : File) :
    M S (Result Z * File) :=
  match early_return buf with
  | Some r => mret (r, self)
  | None =>
      off ← lift (unwrap (to_i64 (offset self)));
      r ← (n ←? op (file_fd self) buf off; check_interrupt_if_zero n);
      match r with
      | Ok n =>
          o ← lift (arith_u overflow_checks 64 (offset self + n));
          mret (Ok n, set_offset o self)
      | Err e => mret (Err e, self)
      end
  end.

Definition File_read (buf : Buf) (self : File) : M S (Result Z * File) :=
  transfer io_read buf self.

Definition File_write (buf : Buf) (self : File) : M S (Result Z * File) :=
  transfer io_write buf self.

Definition File_flush (self : File) : M S (Result Z) :=
  io_fsync block_on check_interrupt syscall_result (file_fd self).

Definition File_close (self : File) : M S (Result Z) :=
  io_close block_on check_interrupt syscall_result drop_fd (file_fd self).

Definition pos (self : File) : Z := offset self.

Definition File_metadata (self : File) : M S (Result Statx) :=
  _ ←? io_statx_fd block_on check_interrupt syscall_result EMPTY_PATH (file_fd self) 0 0 statx_ptr;
  st ← load_statx;
  mret (Ok st).

Definition stream_len (self : File) : M S (Result Z) :=
  st ←? File_metadata self;
  if flags_intersects (stat_mask st) StatxSize then mret (Ok (stat_size st))
  else mret (Err (ErrKind OtherKind)).

(** [Seek]: the position is known without asking. *)
Definition stream_position_fast (self : File) : bool := true.
Definition stream_position (self : File) : M S (Result Z) := mret (Ok (pos self)).

Definition File_seek (seek : SeekFrom) (self : File) : M S (Result Z * File) :=
  r ← match seek with
      | Start pos => mret (Ok pos)
      | Current rel => o ← lift (unwrap (checked_add_signed (offset self) rel)); mret (Ok o)
      | End_ rel =>
          len ←? stream_len self;
          o ← lift (unwrap (checked_add_signed len rel));
          mret (Ok o)
      end;
  match r with
  | Ok o => mret (Ok o, set_offset o self)
  | Err e => mret (Err e, self)
  end.

(** A sequence of reads. *)
Fixpoint read_all (bufs : list Buf) (self : File) : M S (list (Result Z) * File) :=
  match bufs with
  | [] => mret ([], self)
  | buf :: bufs =>
      r ← File_read buf self;
      rs ← read_all bufs r.2;
      mret (r.1 :: rs.1, rs.2)
  end.
End File.

(** The bytes transferred by a sequence of calls. *)
Definition transferred (rs : list (Result Z)) : Z :=
  foldr (λ r n, match r with Ok k => k + n | Err _ => n end) 0 rs.

(** ** Reading *)

Section Reading.
Context {S : Type} `{DriverState S} {io_engine : EngineImpl S} (overflow_checks : bool).
Context (fatal : Prop).
Context (block_on : (ReqPtr → M S (Progress Z)) → M S Z).
Context (check_interrupt : M S (Result unit)) (syscall_result : Z → OsResult Z).
Context (early_return : Buf → option (Result Z)).
Context (check_interrupt_if_zero : Z → M S (Result Z)).

Local Abbreviation io_read := (io_read block_on check_interrupt syscall_result).
Local Abbreviation File_read := (File_read overflow_checks block_on check_interrupt syscall_result
  early_return check_interrupt_if_zero).
Local Abbreviation read_all := (read_all overflow_checks block_on check_interrupt syscall_result
  early_return check_interrupt_if_zero).

(** The bytes of the file, and the bytes stored in buffers so far. *)
Context (contents received : S → list Z).

(** [pread(2)]: the bytes at the offset, possibly fewer than asked for. *)
Context (Hread : ∀ fd buf off s, 0 ≤ off → 0 ≤ buf_len buf → wp fatal (io_read fd buf off) s (λ r s',
  contents s' = contents s ∧
  match r with
  | Ok n => 0 ≤ n ≤ buf_len buf ∧ (n = 0 ∨ off + n ≤ Z.of_nat (length (contents s))) ∧
      received s' = received s ++ take (Z.to_nat n) (drop (Z.to_nat off) (contents s))
  | Err _ => received s' = received s
  end)).

(** An early return has read nothing; the check after an empty read may fail. *)
Context (Hearly : ∀ buf r, early_return buf = Some r → r = Ok 0).
Context (Hzero : ∀ n s, wp fatal (check_interrupt_if_zero n) s (λ r s',
  contents s' = contents s ∧ received s' = received s ∧
  (r = Ok n ∨ (n = 0 ∧ ∃ e, r = Err e)))).

(** One call: what was stored is what the position advanced over. *)
Lemma File_read_spec buf f s :
  0 ≤ offset f < 2 ^ 63 → Z.of_nat (length (contents s)) < 2 ^ 63 → 0 ≤ buf_len buf →
  wp fatal (File_read buf f) s (λ p s', contents s' = contents s ∧
    0 ≤ transferred [p.1] ∧ p.2 = set_offset (offset f + transferred [p.1]) f ∧
    offset f + transferred [p.1] < 2 ^ 63 ∧
    received s' = received s ++
      take (Z.to_nat (transferred [p.1])) (drop (Z.to_nat (offset f)) (contents s))).
Proof.
  intros Ho Hlen Hb. unfold File.File_read, transfer.
  assert (∀ e : Result Z, transferred [e] = match e with Ok k => k + 0 | _ => 0 end) as Ht by done.
  assert (∀ z, z = 0 → f = set_offset (offset f + z) f) as Hf0.
  { intros z ->. unfold set_offset. rewrite Z.add_0_r. by destruct f. }
  destruct (early_return buf) as [r|] eqn:Er.
  { apply Hearly in Er as ->. wp_steps. simpl. rewrite app_nil_r. split_and!; (by apply Hf0 || done || lia). }
  wp_steps. unfold to_i64, fits_i. destruct (andb _ _) eqn:Eb; [|exfalso; lia]. simpl. wp_steps.
  eapply wp_mono; [by apply Hread; lia|]. intros [n|e] s1 [Hc Hr].
  - destruct Hr as (Hn & Hmax & Hr). eapply wp_mono; [apply Hzero|].
    intros r s2 (Hc2 & Hr2 & Hres).
    destruct Hres as [->|(-> & e & ->)]; wp_steps.
    + rewrite arith_u_fits by (unfold in_u; lia). simpl. wp_steps. simpl.
      rewrite Hr2, Hr, Hc2, Z.add_0_r. split_and!; (done || lia).
    + simpl. rewrite Hr2, Hr, Hc2. split_and!; (by apply Hf0 || done || lia).
  - wp_steps. simpl. rewrite Hr, app_nil_r. split_and!; (by apply Hf0 || done || lia).
Qed.

Lemma transferred_cons r rs : transferred (r :: rs) = transferred [r] + transferred rs.
Proof. destruct r; simpl; lia. Qed.

Lemma read_all_spec bufs f s :
  0 ≤ offset f < 2 ^ 63 → Z.of_nat (length (contents s)) < 2 ^ 63 →
  Forall (λ buf, 0 ≤ buf_len buf) bufs →
  wp fatal (read_all bufs f) s (λ p s', contents s' = contents s ∧
    0 ≤ transferred p.1 ∧ pos p.2 = offset f + transferred p.1 ∧
    received s' = received s ++
      take (Z.to_nat (transferred p.1)) (drop (Z.to_nat (offset f)) (contents s))).
Proof.
  intros Ho Hlen Hbufs. revert f s Ho Hlen.
  induction Hbufs as [|buf bufs Hb _ IH]; intros f s Ho Hlen; cbn [File.read_all].
  { wp_steps. simpl. rewrite app_nil_r. split_and!; (done || unfold pos; lia). }
  wp_steps. eapply wp_mono; [by apply File_read_spec|]. intros [r f1] s1 (Hc & Ht & Hf & Hm & Hr).
  cbn [fst snd] in *. subst f1. wp_steps.
  eapply wp_mono; [apply IH; cbn [offset set_offset]; [lia|by rewrite Hc]|].
  intros [rs f2] s2 (Hc2 & Ht2 & Hp & Hr2). wp_steps. cbn [fst snd offset set_offset] in *.
  rewrite (transferred_cons r rs). split_and!; [congruence|lia|lia|].
  rewrite Hr2, Hr, Hc, <- app_assoc. f_equal. rewrite !Z2Nat.inj_add by lia.
  rewrite <- drop_drop. apply take_take_drop.
Qed.

(** C17: successive reads of a file deliver its bytes from the position on,
    contiguously and in order: whatever the sizes of the buffers, however short
    the reads, and whatever calls fail or are interrupted in between, no byte is
    skipped and none is delivered twice. *)
Theorem reads_contiguous bufs f s :
  0 ≤ offset f < 2 ^ 63 → Z.of_nat (length (contents s)) < 2 ^ 63 →
  Forall (λ buf, 0 ≤ buf_len buf) bufs →
  wp fatal (read_all bufs f) s (λ p s', contents s' = contents s ∧
    0 ≤ transferred p.1 ∧ pos p.2 = offset f + transferred p.1 ∧
    received s' = received s ++
      take (Z.to_nat (transferred p.1)) (drop (Z.to_nat (offset f)) (contents s))).
Proof. apply read_all_spec. Qed.

(** ** Seeking *)

(** The empty path, the place of the [Statx] and what is in memory there. *)
Context (EMPTY_PATH statx_ptr : Z) (stat_at : S → Z → Statx).

Local Abbreviation File_seek := (File_seek block_on check_interrupt syscall_result EMPTY_PATH
  statx_ptr (gets (λ s, stat_at s statx_ptr))).

(** [statx(2)] with an empty path and [AT_EMPTY_PATH] is about the descriptor: the size, if
    it is reported, is that of the file. *)
Context (Hstatx : ∀ fd mask s,
  wp fatal (raw_op block_on check_interrupt syscall_result false
    (Ostatx fd EMPTY_PATH EmptyPath mask statx_ptr)) s (λ r s',
      contents s' = contents s ∧ received s' = received s ∧
      match r with
      | Ok _ => flags_intersects (stat_mask (stat_at s' statx_ptr)) StatxSize = true →
          stat_size (stat_at s' statx_ptr) = Z.of_nat (length (contents s))
      | Err _ => True
      end)).

(** The place that is sought. *)
Definition target (seek : SeekFrom) (f : File) (s : S) : Z :=
  match seek with
  | Start p => p
  | Current rel => offset f + rel
  | End_ rel => Z.of_nat (length (contents s)) + rel
  end.

Lemma File_seek_spec seek f s :
  0 ≤ target seek f s < 2 ^ 64 →
  wp fatal (File_seek seek f) s (λ p s', contents s' = contents s ∧ received s' = received s ∧
    match p.1 with
    | Ok o => o = target seek f s ∧ p.2 = set_offset o f
    | Err _ => p.2 = f ∧ ∃ rel, seek = End_ rel
    end).
Proof.
  intros Ht. unfold File.File_seek.
  assert (checked_add_signed (offset f) (target seek f s - offset f) = Some (target seek f s)) as E
    by (unfold checked_add_signed, checked_u; rewrite fits_u_true; [f_equal|unfold in_u]; lia).
  destruct seek as [p|rel|rel]; simpl in *; wp_steps; [done| |].
  - replace (offset f + rel - offset f) with rel in E by lia. rewrite E. simpl. by wp_steps.
  - unfold stream_len, File_metadata, io_statx_fd, raw_statx. wp_steps.
    eapply wp_mono; [apply Hstatx|]. intros [v|e] s1 (Hc & Hr & Hsize); wp_steps; simpl; [|eauto].
    destruct (flags_intersects _ _); simpl; wp_steps; simpl; [|eauto].
    rewrite Hsize by done. unfold checked_add_signed, checked_u.
    rewrite fits_u_true by (unfold in_u; lia). simpl. by wp_steps.
Qed.

(** C37: reading after a seek delivers the bytes of the file from the place that was sought,
    counted from the start, from the position or from the end of the file.  A seek fails
    only when the size of the file cannot be found out; the reads then go on where they
    were, with nothing skipped or repeated.  A relative seek to before the start panics. *)
Theorem seek_then_read seek bufs f s :
  0 ≤ offset f < 2 ^ 63 → 0 ≤ target seek f s < 2 ^ 63 →
  Z.of_nat (length (contents s)) < 2 ^ 63 → Forall (λ buf, 0 ≤ buf_len buf) bufs →
  wp fatal (p ← File_seek seek f; q ← read_all bufs p.2; mret (p.1, q.1, q.2)) s
    (λ '(r, rs, f') s', contents s' = contents s ∧ 0 ≤ transferred rs ∧
      let start := match r with Ok _ => target seek f s | Err _ => offset f end in
      (∀ o, r = Ok o → o = start) ∧ (∀ e, r = Err e → ∃ rel, seek = End_ rel) ∧
      pos f' = start + transferred rs ∧
      received s' = received s ++
        take (Z.to_nat (transferred rs)) (drop (Z.to_nat start) (contents s))) ∧
  ∀ rel, offset f + rel < 0 → File_seek (Current rel) f s = Panic.
Proof.
  intros Ho Ht Hlen Hbufs. split.
  - wp_steps. eapply wp_mono; [apply File_seek_spec; lia|].
    intros [r f1] s1 (Hc & Hr & Hp). simpl in Hp. wp_steps.
    assert (offset f1 = match r with Ok _ => target seek f s | Err _ => offset f end) as E
      by (destruct r; [by destruct Hp as [-> ->]|by destruct Hp as [-> _]]).
    eapply wp_mono; [apply read_all_spec; [simpl; rewrite E; destruct r; lia|by rewrite Hc|done]|].
    intros [rs f2] s2 (Hc2 & Hn & Hpos & Hrec). wp_steps. simpl in *. rewrite E in Hpos, Hrec.
    rewrite Hc in Hrec, Hc2. rewrite Hr in Hrec. split_and!; try done.
    + intros o ->. apply Hp.
    + intros e ->. apply Hp.
  - intros rel Hneg. unfold File.File_seek, lift, mbind, M_bind, checked_add_signed, checked_u.
    by rewrite fits_u_false by (unfold in_u; lia).
Qed.
End Reading.

Section Seeking.
Context {S : Type} `{DriverState S} {io_engine : EngineImpl S} (overflow_checks : bool).
Context (block_on : (ReqPtr → M S (Progress Z)) → M S Z).
Context (check_interrupt : M S (Result unit)) (syscall_result : Z → OsResult Z) (EMPTY_PATH : Z).
Context (early_return : Buf → option (Result Z)).
Context (check_interrupt_if_zero : Z → M S (Result Z)).
Context (statx_ptr : Z) (load_statx : M S Statx).

Local Abbreviation File_seek := (File_seek block_on check_interrupt syscall_result EMPTY_PATH
  statx_ptr load_statx).
Local Abbreviation File_read := (File_read overflow_checks block_on check_interrupt syscall_result
  early_return check_interrupt_if_zero).

(** A seek beyond 2^63 - 1 is accepted, but every read of a non-empty buffer
    after it panics. *)
Theorem seek_far_read_panics p buf f s :
  2 ^ 63 ≤ p → early_return buf = None →
  (r ← File_seek (Start p) f; File_read buf r.2) s = Panic.
Proof.
  intros Hp He. unfold mbind, M_bind. simpl. unfold File.File_read, transfer. rewrite He.
  assert (fits_i 64 p = false) as Hf.
  { unfold fits_i. apply andb_false_iff. right. by apply Z.ltb_ge. }
  unfold lift, to_i64, mbind, M_bind. cbn [set_offset offset snd]. by rewrite Hf.
Qed.
End Seeking.

(** ** A file on which the theorems apply *)

Module SimDisk.
(** The file's bytes, the bytes delivered so far and the requested range. *)
Record Process : Type := mkProcess {
  p_driver : Driver;
  p_contents : list Z;
  p_received : list Z
}.

#[export] Instance disk_driver : DriverState Process := {|
  driver := p_driver;
  set_driver := λ d p, mkProcess d (p_contents p) (p_received p);
  driver_set := λ d p, eq_refl
|}.

(** The device completes a read at once, with at most three bytes. *)
Definition device (op : Operation) : M Process (option Z) := λ p,
  match op with
  | Oread _ _ len off =>
      let rest := drop (Z.to_nat off) (p_contents p) in
      let n := Z.max 0 (Z.min (Z.min len 3) (Z.of_nat (length rest))) in
      Ret (Some n, mkProcess (p_driver p) (p_contents p) (p_received p ++ take (Z.to_nat n) rest))
  | _ => Ret (Some 0, p)
  end.

#[export] Instance disk_engine : EngineImpl Process := {|
  has_work := λ _, false;
  work := λ _, mret (Ok tt);
  prepare_wake := mret (Ok tt);
  wake := λ _, mret (Ok tt);
  start_work := λ work _, work;; mret 0;
  cancel_work := λ _, mret tt;
  cancel := λ _, mret (Ok tt);
  start := λ op _, device op;
  kind := λ _ _, Async
|}.

Definition await (f : ReqPtr → M Process (Progress Z)) : M Process Z :=
  p ← f 1; match p with Done v => mret v | Pending _ => panic end.

(** The second operation of the task is interrupted. *)
Definition interrupt : M Process (Result unit) := λ p,
  if bool_decide (length (p_received p) = 3%nat) then
    Ret (Err (ErrKind Interrupted), mkProcess (p_driver p) (p_contents p) (p_received p))
  else Ret (Ok tt, p).

Definition process : Process :=
  mkProcess (mkDriver [] false []) [10; 11; 12; 13; 14; 15; 16] [].

Lemma disk_read fd buf off p :
  0 ≤ off → 0 ≤ buf_len buf →
  wp False (io_read await interrupt sample_syscall_result fd buf off) p (λ r p',
    p_contents p' = p_contents p ∧
    match r with
    | Ok n => 0 ≤ n ≤ buf_len buf ∧ (n = 0 ∨ off + n ≤ Z.of_nat (length (p_contents p))) ∧
        p_received p' = p_received p ++ take (Z.to_nat n) (drop (Z.to_nat off) (p_contents p))
    | Err _ => p_received p' = p_received p
    end).
Proof.
  intros Hoff Hlen. unfold io_read, raw_read, raw_op, interrupt, wp, bind_ok, mbind, M_bind. simpl.
  case_bool_decide; simpl; [done|]. unfold check_exiting, gets_driver, gets, mbind, M_bind. simpl.
  destruct (exiting (p_driver p)); simpl; [done|].
  unfold result_for, sample_syscall_result. rewrite length_drop.
  set (n := Z.max 0 _). destruct (Z.ltb_spec n 0); [lia|]. simpl. split_and!; try done; lia.
Qed.
End SimDisk.

#[local] Existing Instances SimDisk.disk_driver SimDisk.disk_engine.

Lemma reads_contiguous_witness :
  wp False (read_all true SimDisk.await SimDisk.interrupt sample_syscall_result (λ _, None)
      (λ n, mret (Ok n)) [mkBuf 100 4; mkBuf 200 2; mkBuf 300 8] (mkFile 3 2))
    SimDisk.process (λ p s', SimDisk.p_contents s' = SimDisk.p_contents SimDisk.process ∧
      0 ≤ transferred p.1 ∧ pos p.2 = 2 + transferred p.1 ∧
      SimDisk.p_received s' = SimDisk.p_received SimDisk.process ++
        take (Z.to_nat (transferred p.1)) (drop 2 (SimDisk.p_contents SimDisk.process))).
Proof.
  apply (reads_contiguous true False SimDisk.await SimDisk.interrupt sample_syscall_result
    (λ _, None) (λ n, mret (Ok n)) SimDisk.p_contents SimDisk.p_received) with (f := mkFile 3 2).
  - apply SimDisk.disk_read.
  - discriminate.
  - intros n s. repeat split. by left.
  - split; [discriminate|reflexivity].
  - reflexivity.
  - repeat (constructor; [discriminate|]). constructor.
Defined.

(** The size of the file is reported. *)
Definition disk_stat (p : SimDisk.Process) (_ : Z) : Statx :=
  mkStatx StatxSize (Z.of_nat (length (SimDisk.p_contents p))).

(** From two bytes before the end. *)
Lemma seek_then_read_witness :
  wp False (p ← File_seek SimDisk.await SimDisk.interrupt sample_syscall_result 0 4096
      (gets (λ s, disk_stat s 4096)) (End_ (-2)) (mkFile 3 1);
    q ← read_all true SimDisk.await SimDisk.interrupt sample_syscall_result (λ _, None)
      (λ n, mret (Ok n)) [mkBuf 100 4; mkBuf 200 2] p.2;
    mret (p.1, q.1, q.2)) SimDisk.process
    (λ '(r, rs, f') s', SimDisk.p_contents s' = SimDisk.p_contents SimDisk.process ∧
      0 ≤ transferred rs ∧
      let start := match r with Ok _ => 5 | Err _ => 1 end in
      (∀ o, r = Ok o → o = start) ∧ (∀ e, r = Err e → ∃ rel, End_ (-2) = End_ rel) ∧
      pos f' = start + transferred rs ∧
      SimDisk.p_received s' = SimDisk.p_received SimDisk.process ++
        take (Z.to_nat (transferred rs))
          (drop (Z.to_nat start) (SimDisk.p_contents SimDisk.process))).
Proof.
  apply (seek_then_read true False SimDisk.await SimDisk.interrupt sample_syscall_result
    (λ _, None) (λ n, mret (Ok n)) SimDisk.p_contents SimDisk.p_received) with
    (seek := End_ (-2)) (f := mkFile 3 1).
  - apply SimDisk.disk_read.
  - discriminate.
  - intros n s. repeat split. by left.
  - intros fd mask s. unfold raw_op, SimDisk.interrupt, wp, bind_ok, mbind, M_bind. simpl.
    case_bool_decide; simpl; [done|]. unfold check_exiting, gets_driver, gets, mbind, M_bind. simpl.
    by destruct (exiting (SimDisk.p_driver s)).
  - split; [discriminate|reflexivity].
  - split; [discriminate|reflexivity].
  - reflexivity.
  - repeat (constructor; [discriminate|]). constructor.
Defined.

Lemma seek_far_read_panics_witness :
  (r ← File_seek SimDisk.await SimDisk.interrupt sample_syscall_result 0 0
         (mret (mkStatx 0 0)) (Start (2 ^ 63)) (mkFile 3 0);
   File_read true SimDisk.await SimDisk.interrupt sample_syscall_result (λ _, None)
     (λ n, mret (Ok n)) (mkBuf 100 4) r.2) SimDisk.process = Panic.
Proof. apply seek_far_read_panics; [discriminate|reflexivity]. Defined.
