(* ===== verification/Fs.v ===== *)
(** * File-system functions (src/src/fs/mod.rs)

    The types of files, their metadata, and loading a whole file with [File::read].  The
    loop of [ReadExt::read_to_end] around it and the memory of a vector are the libraries'
    and parameters.  The theorems: a load returns the contents of the file and closes it
    on every path; and the length of a file panics on a kernel that reports only what
    it is asked for. *)

From stdpp Require Import base gmap list numbers tactics.
From S2P Require Import Prelude Engine Driver DriverSpec IoOps File.

(** [dirent::FileType] *)
Inductive DirentType : Type :=
| Unknown | Fifo | Character | Directory | Block | Regular | Link | UnixSocket.

#[export] Instance DirentType_eq_dec : EqDecision DirentType.
Proof. solve_decision. Defined.

(** [FileType] *)
Record FileType : Type := mkFileType { inner_type : DirentType }.

Definition is_dir (self : FileType) : bool := bool_decide (inner_type self = Directory).
Definition is_file (self : FileType) : bool := bool_decide (inner_type self = Regular).
Definition is_symlink (self : FileType) : bool := bool_decide (inner_type self = Link).

(** [Metadata]: a [Statx]; [statx_type] is xx-core's [Statx::file_type]. *)
Definition metadata_file_type (statx_type : Statx → option DirentType) (self : Statx) :
    outcome FileType :=
  t ← unwrap (statx_type self); Ret (mkFileType t).

Definition metadata_len (self : Statx) : outcome Z :=
  if flags_intersects (stat_mask self) StatxSize then Ret (stat_size self) else Panic.

Section Fs.
Context {S : Type} `{DriverState S} {io_engine : EngineImpl S} (overflow_checks : bool).
Context (block_on : (ReqPtr → M S (Progress Z)) → M S Z).
Context (check_interrupt : M S (Result unit)) (syscall_result : Z → OsResult Z).
Context (drop_fd : Z → M S unit) (path_as_cstr : Z → Result Z) (EMPTY_PATH : Z).
Context (early_return : Buf → option (Result Z)).
Context (check_interrupt_if_zero : Z → M S (Result Z)).
Context (statx_ptr : Z) (load_statx : M S Statx).

(** [Vec::reserve]; xx-core's [ReadExt::read_to_end], with the [Read::read] of the reader. *)
Context (reserve : Z → M S unit).
Context (ext_read_to_end : (Buf → File → M S (Result Z * File)) → File → list Z →
  M S (Result Z * File * list Z)).
(** [String::from_utf8] *)
Context (from_utf8 : list Z → option String.string).

Local Abbreviation File_open := (File_open block_on check_interrupt syscall_result path_as_cstr).
Local Abbreviation stream_len := (stream_len block_on check_interrupt syscall_result EMPTY_PATH
  statx_ptr load_statx).
Local Abbreviation File_read := (File_read overflow_checks block_on check_interrupt syscall_result
  early_return check_interrupt_if_zero).

(** The file is dropped when the function returns. *)
Definition fs_read_to_end (path : Z) (vec : list Z) : M S (Result Z * list Z) :=
  file ← File_open path;
  match file with
  | Err e => mret (Err e, vec)
  | Ok file =>
      len ← stream_len file;
      match len with
      | Ok len => n ← lift (unwrap (checked_u 64 len)); reserve n
      | Err _ => mret tt
      end;;
      r ← ext_read_to_end File_read file vec;
      drop_fd (file_fd file);;
      mret (r.1.1, r.2)
  end.

Definition fs_read (path : Z) : M S (Result (list Z)) :=
  r ← fs_read_to_end path [];
  mret (match r.1 with Ok _ => Ok r.2 | Err e => Err e end).

Definition fs_read_to_string (path : Z) : M S (Result String.string) :=
  bytes ←? fs_read path;
  mret (match from_utf8 bytes with Some s => Ok s | None => Err (ErrKind OtherKind) end).
End Fs.

(** ** Loading a file *)

Section Load.
Context {S : Type} `{DriverState S} {io_engine : EngineImpl S} (fatal : Prop).
Context (overflow_checks : bool) (block_on : (ReqPtr → M S (Progress Z)) → M S Z).
Context (check_interrupt : M S (Result unit)) (syscall_result : Z → OsResult Z).
Context (drop_fd : Z → M S unit) (path_as_cstr : Z → Result Z) (EMPTY_PATH : Z).
Context (early_return : Buf → option (Result Z)).
Context (check_interrupt_if_zero : Z → M S (Result Z)).
Context (statx_ptr : Z) (load_statx : M S Statx) (reserve : Z → M S unit).
Context (ext_read_to_end : (Buf → File → M S (Result Z * File)) → File → list Z →
  M S (Result Z * File * list Z)).

(** The open descriptors with the bytes of their files, the files by their paths, and the
    bytes stored in buffers so far. *)
Context (open_fds : S → gmap Z (list Z)) (contents : Z → option (list Z)).
Context (received : S → list Z).

Local Abbreviation raw_op := (raw_op block_on check_interrupt syscall_result).
Local Abbreviation io_read := (io_read block_on check_interrupt syscall_result).
Local Abbreviation File_read := (File_read overflow_checks block_on check_interrupt syscall_result
  early_return check_interrupt_if_zero).
Local Abbreviation fs_read := (fs_read overflow_checks block_on check_interrupt syscall_result
  drop_fd path_as_cstr EMPTY_PATH early_return check_interrupt_if_zero statx_ptr load_statx reserve
  ext_read_to_end).

(** Opening yields a new descriptor for the file, whose size fits; [pread(2)] stores the
    bytes at the offset, possibly fewer than asked for, and none just at the end of the
    file; the rest opens, closes and stores nothing, and dropping a descriptor closes it. *)
Context (Hopen : ∀ path flags mode s, wp fatal (raw_op false (Oopen path flags mode)) s (λ r s',
  match r with
  | Ok fd => open_fds s !! fd = None ∧
      ∃ bytes, contents path = Some bytes ∧ Z.of_nat (length bytes) < 2 ^ 63 ∧
        open_fds s' = <[fd := bytes]> (open_fds s)
  | Err _ => open_fds s' = open_fds s
  end)).
Context (Hread : ∀ fd bytes buf off s, open_fds s !! fd = Some bytes → 0 ≤ off → 0 < buf_len buf →
  wp fatal (io_read fd buf off) s (λ r s', open_fds s' = open_fds s ∧
    match r with
    | Ok n => 0 ≤ n ≤ buf_len buf ∧ n ≤ Z.of_nat (length (drop (Z.to_nat off) bytes)) ∧
        (n = 0 → drop (Z.to_nat off) bytes = []) ∧
        received s' = received s ++ take (Z.to_nat n) (drop (Z.to_nat off) bytes)
    | Err _ => received s' = received s
    end)).
Context (Hstatx : ∀ d p f m st s, wp fatal (raw_op false (Ostatx d p f m st)) s (λ _ s',
  open_fds s' = open_fds s)).
Context (Hload : ∀ s, wp fatal load_statx s (λ st s', in_u 64 (stat_size st) ∧
  open_fds s' = open_fds s)).
Context (Hreserve : ∀ n s, wp fatal (reserve n) s (λ _ s', open_fds s' = open_fds s)).
Context (Hdrop : ∀ fd s, wp fatal (drop_fd fd) s (λ _ s', open_fds s' = delete fd (open_fds s))).

(** Only empty buffers are returned early; an empty read may be an interrupt. *)
Context (Hearly : ∀ buf, 0 < buf_len buf → early_return buf = None).
Context (Hzero : ∀ n s, wp fatal (check_interrupt_if_zero n) s (λ r s',
  open_fds s' = open_fds s ∧ received s' = received s ∧
  (r = Ok n ∨ (n = 0 ∧ result_is_ok r = false)))).

(** A call has stored as many bytes as it returns. *)
Definition stores (r : Result Z) (s s' : S) : Prop :=
  ∃ new, received s' = received s ++ new ∧ ∀ n, r = Ok n → n = Z.of_nat (length new).

(** [ReadExt::read_to_end] calls [read] with non-empty buffers, until it returns 0 or an
    error, and appends what [read] has stored in the buffers.  The rule of the loop: [I]
    holds before and after every call, and [left] bounds the calls that read something. *)
Definition read_to_end_law : Prop :=
  ∀ (read : Buf → File → M S (Result Z * File)) (I : File → S → Prop) (left : File → S → nat),
  (∀ buf f s, 0 < buf_len buf → I f s → wp fatal (read buf f) s (λ p s', I p.2 s' ∧
    stores p.1 s s' ∧ ∀ n, p.1 = Ok n → n ≠ 0 → (left p.2 s' < left f s)%nat)) →
  ∀ f vec s, I f s → wp fatal (ext_read_to_end read f vec) s (λ '(r, f', vec') s', I f' s' ∧
    ∀ n, r = Ok n →
      (∃ new, received s' = received s ++ new ∧ vec' = vec ++ new ∧ n = Z.of_nat (length new)) ∧
      ∃ buf f0 s0, 0 < buf_len buf ∧ I f0 s0 ∧ read buf f0 s0 = Ret ((Ok 0, f'), s')).

Context (Hext : read_to_end_law).

(** While the file is read, what has been stored are its bytes up to the position. *)
Record reading (fd : Z) (bytes : list Z) (s0 : S) (f : File) (s : S) : Prop := {
  rd_fd : file_fd f = fd;
  rd_open : open_fds s = open_fds s0;
  rd_offset : 0 ≤ offset f ≤ Z.of_nat (length bytes);
  rd_received : received s = received s0 ++ take (Z.to_nat (offset f)) bytes
}.

Definition bytes_left (bytes : list Z) (f : File) (s : S) : nat :=
  (length bytes - Z.to_nat (offset f))%nat.

(** One call of [File::read]: it goes on, and returns 0 only at the end. *)
Lemma File_read_goes_on fd bytes s0 buf f s :
  open_fds s0 !! fd = Some bytes → Z.of_nat (length bytes) < 2 ^ 63 → 0 < buf_len buf →
  reading fd bytes s0 f s →
  wp fatal (File_read buf f) s (λ p s', reading fd bytes s0 p.2 s' ∧ stores p.1 s s' ∧
    ∀ n, p.1 = Ok n → if decide (n = 0) then offset p.2 = Z.of_nat (length bytes)
      else (bytes_left bytes p.2 s' < bytes_left bytes f s)%nat).
Proof.
  intros Hopened Hsize Hbuf [Hfd Ho Hoff Hrec]. unfold File.File_read, transfer.
  rewrite Hearly by done. wp_steps. unfold to_i64, fits_i.
  destruct (andb _ _) eqn:Eb; [|exfalso; lia]. simpl. wp_steps.
  eapply wp_mono; [apply (Hread _ bytes); [by rewrite Hfd, Ho|lia|done]|].
  intros [n|e] s1 [E1 H1].
  2:{ wp_steps. split_and!; [constructor; simpl; congruence || lia| |done].
      exists []. by rewrite app_nil_r. }
  destruct H1 as (Hn & Hmax & Hend & E2). rewrite length_drop in Hmax. wp_steps.
  eapply wp_mono; [apply Hzero|]. intros r s2 (E3 & E4 & [->|[-> Hr]]).
  - wp_steps. rewrite arith_u_fits by (unfold in_u; lia). simpl. wp_steps. simpl. split_and!.
    + constructor; simpl; [done|congruence|lia|]. rewrite E4, E2, Hrec, <- app_assoc.
      rewrite Z2Nat.inj_add by lia. by rewrite take_take_drop.
    + eexists. split; [by rewrite E4, E2|]. intros ? [= <-]. rewrite length_take, length_drop. lia.
    + intros ? [= <-]. destruct (decide (n = 0)) as [->|Hne]; simpl.
      * specialize (Hend eq_refl). apply (f_equal length) in Hend. rewrite length_drop in Hend.
        simpl in Hend. lia.
      * unfold bytes_left. simpl. lia.
  - destruct r as [|e]; [done|]. wp_steps. simpl in *. rewrite app_nil_r in E2.
    split_and!; [constructor; simpl; congruence || lia| |done].
    exists []. by rewrite app_nil_r, E4, E2.
Qed.

(** A file that was just opened is read to its end. *)
Lemma read_to_end_contents fd bytes vec s :
  open_fds s !! fd = Some bytes → Z.of_nat (length bytes) < 2 ^ 63 →
  wp fatal (ext_read_to_end File_read (mkFile fd 0) vec) s (λ '(r, _, vec') s',
    open_fds s' = open_fds s ∧ ∀ n, r = Ok n → vec' = vec ++ bytes ∧ n = Z.of_nat (length bytes)).
Proof.
  intros Hopened Hsize.
  eapply wp_mono; [apply (Hext File_read (reading fd bytes s) (bytes_left bytes))|].
  - intros buf f s1 Hbuf Hi. eapply wp_mono; [by eapply File_read_goes_on|].
    intros p s2 (Hi2 & Hst & Hn). split_and!; [done..|]. intros n E Hne. specialize (Hn n E).
    by destruct (decide (n = 0)).
  - constructor; simpl; [done|done|lia|by rewrite app_nil_r].
  - intros [[r f'] vec'] s' [Hi Hok]. split; [apply Hi|]. intros n ->.
    destruct (Hok n eq_refl) as [(new & E1 & -> & ->) (buf & f0 & s0 & Hbuf & Hi0 & Hlast)].
    pose proof (File_read_goes_on fd bytes s buf f0 s0 Hopened Hsize Hbuf Hi0) as Hend.
    unfold wp in Hend. rewrite Hlast in Hend. destruct Hend as (_ & _ & Hend). specialize (Hend 0 eq_refl).
    simpl in Hend. rewrite (rd_received _ _ _ _ _ Hi), Hend, Nat2Z.id, firstn_all in E1.
    apply app_inv_head in E1 as ->. done.
Qed.

Lemma stream_len_opens_nothing file s :
  wp fatal (stream_len block_on check_interrupt syscall_result EMPTY_PATH statx_ptr load_statx
    file) s (λ r s', open_fds s' = open_fds s ∧ match r with Ok n => in_u 64 n | Err _ => True end).
Proof.
  unfold stream_len, File_metadata, io_statx_fd. wp_steps.
  eapply wp_mono; [apply Hstatx|]. intros [v|e] s1 E1; simpl; wp_steps; [|done].
  eapply wp_mono; [apply Hload|]. intros st s2 [Hsz E2]. wp_steps. simpl.
  destruct (flags_intersects _ _); wp_steps; (split; [congruence|done]).
Qed.

(** C34: loading a file returns its contents, all of its bytes in order, however short the
    reads are, and leaves no descriptor open whether it succeeds or fails, at any point. *)
Theorem load_returns_contents path cstr s :
  path_as_cstr path = Ok cstr →
  wp fatal (fs_read path) s (λ r s', open_fds s' = open_fds s ∧
    match r with Ok bytes => contents cstr = Some bytes | Err _ => True end).
Proof.
  intros Hpath. unfold Fs.fs_read, fs_read_to_end, File_open, io_open, with_path_as_cstr.
  rewrite Hpath. wp_steps. eapply wp_mono; [apply Hopen|].
  intros [fd|e] s1 H1; simpl; wp_steps; [|done]. destruct H1 as (Hnew & bytes & Hc & Hsize & E1).
  eapply wp_mono; [apply stream_len_opens_nothing|]. intros len s2 [E2 Hlen]. wp_steps.
  assert (wp fatal (match len with
    | Ok len => n ← lift (unwrap (checked_u 64 len)); reserve n | Err _ => mret tt end) s2
    (λ _ s', open_fds s' = open_fds s2)) as Hres.
  { destruct len as [n|e]; wp_steps; [|done]. unfold checked_u. rewrite fits_u_true by done. simpl.
    apply Hreserve. }
  eapply wp_mono; [exact Hres|]. intros ? s3 E3. wp_steps.
  assert (open_fds s3 !! fd = Some bytes) as Hfd by (by rewrite E3, E2, E1, lookup_insert_eq).
  eapply wp_mono; [by apply read_to_end_contents|]. intros [[r f'] vec] s4 [E4 Hr]. wp_steps.
  eapply wp_mono; [apply Hdrop|]. intros ? s5 E5. wp_steps. simpl in *. split.
  - rewrite E5, E4, E3, E2, E1. by apply delete_insert_id.
  - destruct r as [n|e]; [|done]. destruct (Hr n eq_refl) as [-> _]. exact Hc.
Qed.
End Load.

(** Asking for the metadata of a file asks for no field: on a kernel that fills in
    just what it was asked for, the length of the file panics, always. *)
Theorem metadata_len_unasked {S} `{DriverState S} {io_engine : EngineImpl S}
    block_on check_interrupt syscall_result EMPTY_PATH statx_ptr (stored : S → Statx)
    (known : S → Z) file s st s' :
  (∀ fd path flags mask ptr s1 v s2,
    raw_op block_on check_interrupt syscall_result false (Ostatx fd path flags mask ptr) s1 =
      Ret (Ok v, s2) → stat_mask (stored s2) = Z.land mask (known s2)) →
  File_metadata block_on check_interrupt syscall_result EMPTY_PATH statx_ptr (gets stored) file s =
    Ret (Ok st, s') →
  metadata_len st = Panic.
Proof.
  intros Hkernel. unfold File_metadata, io_statx_fd, raw_statx, bind_ok, mbind, M_bind at 1.
  destruct (raw_op _ _ _ _ _ s) as [[[v|e] s1]| | | |] eqn:E; try done.
  unfold M_bind, gets, mret, M_ret. intros Hst. injection Hst as <- <-.
  apply Hkernel in E. unfold metadata_len, flags_intersects. rewrite E. by rewrite Z.land_0_l.
Qed.

(** ** Files on which the theorems apply *)

Module SimFs.
(** The open descriptors, the metadata last stored and the bytes stored in buffers. *)
Record Process : Type := mkProcess {
  p_driver : Driver;
  p_open : gmap Z (list Z);
  p_stat : Statx;
  p_received : list Z
}.

#[export] Instance fs_driver : DriverState Process := {|
  driver := p_driver;
  set_driver := λ d p, mkProcess d (p_open p) (p_stat p) (p_received p);
  driver_set := λ d p, eq_refl
|}.

Definition files (path : Z) : option (list Z) :=
  if path =? 70 then Some [104; 105] else None.

(** The metadata as a [Statx] holds it, its size in 64 bits. *)
Definition stored (p : Process) : Statx :=
  mkStatx (stat_mask (p_stat p)) (stat_size (p_stat p) mod 2 ^ 64).

Lemma stored_size p : in_u 64 (stat_size (stored p)).
Proof. apply Z.mod_pos_bound. done. Qed.

Definition new_fd (p : Process) : Z :=
  let used := dom (p_open p) in Z.abs (fresh (used ∪ set_map Z.opp used)).

Lemma new_fd_closed p : p_open p !! new_fd p = None.
Proof.
  apply not_elem_of_dom. unfold new_fd. set (used := dom (p_open p)). intros Hin.
  pose proof (is_fresh (used ∪ set_map Z.opp used : gset Z)) as Hf. apply Hf. clear Hf.
  destruct (Z.abs_eq_or_opp (fresh (used ∪ set_map Z.opp used))) as [E|E]; rewrite E in Hin;
    apply elem_of_union; [by left|right].
  apply elem_of_map. eexists. split; [|exact Hin]. lia.
Qed.

(** A read stores one byte; the metadata has what was asked for: of an empty mask, nothing. *)
Definition serve (op : Operation) (p : Process) : Z * Process :=
  match op with
  | Oopen path _ _ =>
      match files path with
      | Some bytes => (new_fd p,
          mkProcess (p_driver p) (<[new_fd p := bytes]> (p_open p)) (p_stat p) (p_received p))
      | None => (-2, p)
      end
  | Oread fd _ _ off =>
      match p_open p !! fd with
      | Some bytes => let got := take 1 (list.drop (Z.to_nat off) bytes) in
          (Z.of_nat (length got),
           mkProcess (p_driver p) (p_open p) (p_stat p) (p_received p ++ got))
      | None => (-9, p)
      end
  | Ostatx _ _ _ mask _ =>
      (0, mkProcess (p_driver p) (p_open p) (mkStatx (Z.land mask 2047) 2) (p_received p))
  | _ => (0, p)
  end.

#[export] Instance fs_engine : EngineImpl Process := {|
  has_work := λ _, false;
  work := λ _, mret (Ok tt);
  prepare_wake := mret (Ok tt);
  wake := λ _, mret (Ok tt);
  start_work := λ work _, work;; mret 0;
  cancel_work := λ _, mret tt;
  cancel := λ _, mret (Ok tt);
  start := λ op _ p, let '(n, p') := serve op p in Ret (Some n, p');
  kind := λ _ _, Async
|}.

Definition await (f : ReqPtr → M Process (Progress Z)) : M Process Z :=
  p ← f 1; match p with Done v => mret v | Pending _ => panic end.

Definition drop (fd : Z) : M Process unit := λ p,
  Ret (tt, mkProcess (p_driver p) (delete fd (p_open p)) (p_stat p) (p_received p)).

(** At most [fuel] reads. *)
Fixpoint read_loop (fuel : nat) (read : Buf → File → M Process (Result Z * File)) (f : File)
    (vec : list Z) (total : Z) : M Process (Result Z * File * list Z) :=
  match fuel with
  | O => mret (Err (ErrKind OtherKind), f, vec)
  | Datatypes.S fuel =>
      before ← gets (λ p, length (p_received p));
      r ← read (mkBuf 100 64) f;
      got ← gets (λ p, list.drop before (p_received p));
      match r.1 with
      | Err e => mret (Err e, r.2, vec ++ got)
      | Ok n =>
          if n =? 0 then mret (Ok total, r.2, vec ++ got)
          else read_loop fuel read r.2 (vec ++ got) (total + n)
      end
  end.

Definition read_rest (read : Buf → File → M Process (Result Z * File)) (f : File) (vec : list Z) :
    M Process (Result Z * File * list Z) := read_loop 10 read f vec 0.

Lemma read_loop_ok fuel read (I : File → Process → Prop) (left : File → Process → nat) f vec total s :
  (∀ buf f s, 0 < buf_len buf → I f s → wp False (read buf f) s (λ p s', I p.2 s' ∧
    stores p_received p.1 s s' ∧ ∀ n, p.1 = Ok n → n ≠ 0 → (left p.2 s' < left f s)%nat)) →
  I f s → wp False (read_loop fuel read f vec total) s (λ '(r, f', vec') s', I f' s' ∧
    ∀ n, r = Ok n →
      (∃ new, p_received s' = p_received s ++ new ∧ vec' = vec ++ new ∧
        n = total + Z.of_nat (length new)) ∧
      ∃ buf f0 s0, 0 < buf_len buf ∧ I f0 s0 ∧ read buf f0 s0 = Ret ((Ok 0, f'), s')).
Proof.
  intros Hread. revert f vec total s. induction fuel as [|fuel IH]; intros f vec total s Hi;
    cbn [read_loop]; wp_steps; [done|].
  eapply wp_mono; [apply wp_eq, (Hread (mkBuf 100 64)); done|].
  intros [r f1] s1 [E (Hi1 & (new & E1 & Hn) & _)]. simpl in *. wp_steps.
  rewrite E1, drop_app_length. destruct r as [n|e]; simpl; [|by wp_steps].
  specialize (Hn n eq_refl). destruct (Z.eqb_spec n 0) as [->|Hne].
  - wp_steps. split; [done|]. intros ? [= <-]. split; [|by exists (mkBuf 100 64), f, s].
    exists new. split_and!; [done..|lia].
  - eapply wp_mono; [by apply IH|]. intros [[r2 f2] vec2] s2 [Hi2 Hr]. split; [done|].
    intros m Hm. destruct (Hr m Hm) as [(new2 & E2 & -> & ->) Hlast]. split; [|done].
    exists (new ++ new2). rewrite E2, E1, length_app, <- !app_assoc. split_and!; [done..|lia].
Qed.

Lemma read_rest_ok : read_to_end_law False read_rest p_received.
Proof. intros read I left Hread f vec s Hi. by eapply (read_loop_ok 10 read I left f vec 0). Qed.

Definition process : Process :=
  mkProcess (mkDriver [] false []) {[ 3 := [1; 2; 3] ]} (mkStatx 0 0) [].

(** An operation is refused with nothing changed, or it is served. *)
Lemma raw_op_served op p (Φ : Result Z → Process → Prop) :
  (∀ e, Φ (Err e) p) →
  (let '(n, p') := serve op p in
   Φ (from_os (if n <? 0 then Err (- n) else Ok n)) p') →
  wp False (raw_op await (mret (Ok tt)) sample_syscall_result false op) p Φ.
Proof.
  intros Hrefused Hserved. unfold raw_op, wp, bind_ok, check_exiting, gets_driver, gets, await,
    driver_task, engine_task, mbind, M_bind. simpl. destruct (exiting (p_driver p)); simpl; [done|].
  by destruct (serve op p).
Qed.
End SimFs.

#[local] Existing Instances SimFs.fs_driver SimFs.fs_engine.

Lemma load_returns_contents_witness :
  wp False (fs_read true SimFs.await (mret (Ok tt)) sample_syscall_result SimFs.drop (λ p, Ok p) 0
      (λ _, None) (λ n, mret (Ok n)) 0 (gets SimFs.stored) (λ _, mret tt) SimFs.read_rest 70)
    SimFs.process (λ r s', SimFs.p_open s' = SimFs.p_open SimFs.process ∧
      match r with Ok bytes => SimFs.files 70 = Some bytes | Err _ => True end).
Proof.
  apply (load_returns_contents False true SimFs.await (mret (Ok tt)) sample_syscall_result SimFs.drop
    (λ p, Ok p) 0 (λ _, None) (λ n, mret (Ok n)) 0 (gets SimFs.stored) (λ _, mret tt)
    SimFs.read_rest SimFs.p_open SimFs.files SimFs.p_received).
  - intros path flags mode s. apply SimFs.raw_op_served; [done|]. simpl.
    destruct (SimFs.files path) as [bytes|] eqn:E; simpl; [|done].
    destruct (Z.ltb_spec (SimFs.new_fd s) 0); [unfold SimFs.new_fd in *; lia|]. simpl.
    split; [apply SimFs.new_fd_closed|]. exists bytes. split_and!; [done| |done].
    unfold SimFs.files in E. destruct (path =? 70); [|done]. by injection E as <-.
  - intros fd bytes buf off s Hfd Hoff Hbuf. apply SimFs.raw_op_served; [done|]. simpl.
    rewrite Hfd. destruct (list.drop (Z.to_nat off) bytes) as [|b rest]; simpl; split_and!; try done; lia.
  - intros d p f m st s. by apply SimFs.raw_op_served.
  - intros s. split; [apply SimFs.stored_size|done].
  - done.
  - done.
  - done.
  - intros n s. split_and!; [done..|by left].
  - apply SimFs.read_rest_ok.
  - reflexivity.
Defined.

Lemma metadata_len_unasked_witness :
  ∃ st s', File_metadata SimFs.await (mret (Ok tt)) sample_syscall_result 0 0 (gets SimFs.stored)
      (mkFile 3 0) SimFs.process = Ret (Ok st, s') ∧ metadata_len st = Panic.
Proof.
  do 2 eexists. split; [reflexivity|].
  eapply (metadata_len_unasked SimFs.await (mret (Ok tt)) sample_syscall_result 0 0 SimFs.stored
    (λ _, 2047) (mkFile 3 0) SimFs.process); [|reflexivity].
  intros fd path flags mask ptr s1 v s2 Hs.
  pose proof (SimFs.raw_op_served (Ostatx fd path flags mask ptr) s1 (λ r s,
    match r with Ok _ => stat_mask (SimFs.stored s) = Z.land mask 2047 | Err _ => True end)) as H.
  unfold wp in H. rewrite Hs in H. by apply H.
Defined.
