(* ===== verification/Socket.v ===== *)
(** * Sockets (src/src/net/socket.rs)

    A socket remembers for which events it was last found ready; a transfer is
    then tried synchronously first ([with_budget]) and handed to the engine
    otherwise.  The theorems: the data of a call are transferred at most once
    and exactly when it succeeds, only the flags of the transfer change, the
    addresses of a name are tried in order up to the first that works, and a
    failed connection leaves no descriptor open. *)

From stdpp Require Import base gmap list numbers tactics.
From S2P Require Import Prelude Engine Driver DriverSpec IoOps.

(** [Socket] and [SocketHalf] (whose descriptor is borrowed) *)
Record Socket : Type := mkSocket {
  sock_fd : Z;
  ready : Z
}.

Definition set_ready (v : Z) (s : Socket) : Socket := mkSocket (sock_fd s) v.

(** [PollFlag::In] and [PollFlag::Out]; [MessageFlag::DontWait] and [NoSignal] *)
Definition In_ : Z := 1.
Definition Out_ : Z := 4.
Definition DontWait : Z := 64.
Definition NoSignal : Z := 16384.

(** [AddressFamily], [SocketType], [IpProtocol] as used *)
Definition INet : Z := 2.
Definition INet6 : Z := 10.
Definition Stream : Z := 1.
Definition Datagram : Z := 2.
Definition ProtoTcp : Z := 6.
Definition ProtoUdp : Z := 17.

(** The system calls that a transfer tries first. *)
Inductive SockCall : Type :=
| sys_recv (fd : Z) (buf : Buf) (flags : Z)
| sys_send (fd : Z) (buf : Buf) (flags : Z)
| sys_recvmsg (fd header flags : Z)
| sys_sendmsg (fd header flags : Z).

Section Socket.
Context {S : Type} `{DriverState S} {io_engine : EngineImpl S}.
Context (block_on : (ReqPtr → M S (Progress Z)) → M S Z).
Context (check_interrupt : M S (Result unit)) (syscall_result : Z → OsResult Z).
Context (drop_fd : Z → M S unit) (poll_flag_bits : Z).

(** xx-core: the budget of a task, the early return on a buffer, the check after
    an empty transfer, and the system calls. *)
Context (acquire_budget : M S bool) (early_return : Buf → option (Result Z)).
Context (check_interrupt_if_zero : Z → M S (Result Z)) (sock_call : SockCall → M S (OsResult Z)).
Context (set_reuse_addr : Z → bool → M S (OsResult unit)).

Local Abbreviation io_recv := (io_recv block_on check_interrupt syscall_result).
Local Abbreviation io_recvmsg := (io_recvmsg block_on check_interrupt syscall_result).
Local Abbreviation io_send := (io_send block_on check_interrupt syscall_result).
Local Abbreviation io_sendmsg := (io_sendmsg block_on check_interrupt syscall_result).
Local Abbreviation io_socket := (io_socket block_on check_interrupt syscall_result).
Local Abbreviation io_connect_addr := (io_connect_addr block_on check_interrupt syscall_result).
Local Abbreviation io_bind_addr := (io_bind_addr block_on check_interrupt syscall_result).
Local Abbreviation io_poll := (io_poll block_on check_interrupt syscall_result poll_flag_bits).
Local Abbreviation io_shutdown := (io_shutdown block_on check_interrupt syscall_result).

(** The synchronous attempt: [inl] is an early return. *)
Definition try_sync (self : Socket) (flags : Z) (sync : M S (OsResult Z)) :
    M S ((Result Z) + Socket) :=
  acquired ← (if flags_contains (ready self) flags then acquire_budget else mret false);
  if acquired : bool then
    c ← check_interrupt;
    match c with
    | Err e => mret (inl (Err e))
    | Ok _ =>
        r ← sync;
        match r with
        | Ok n => mret (inl (Ok n))
        | Err err =>
            if err =? Os.WouldBlock then
              mret (inr (set_ready (flags_remove (ready self) flags) self))
            else mret (inl (Err (ErrOs err)))
        end
    end
  else mret (inr self).

Definition with_budget (self : Socket) (flags : Z) (sync : M S (OsResult Z))
    (suspend : M S (Result Z)) : M S (Result Z * Socket) :=
  t ← try_sync self flags sync;
  match t with
  | inl r => mret (r, self)
  | inr self =>
      result ← suspend;
      mret (result, if result_is_ok result then set_ready (flags_insert (ready self) flags) self
                    else self)
  end.

(** [sync_io!], without its log, and what uses it for a buffer and for a header *)
Definition sync_flags (flags : Z) : Z := flags_insert (flags_insert flags DontWait) NoSignal.

Definition sync_io (func : Z → SockCall) (flags : Z) : M S (OsResult Z) :=
  let flags := sync_flags flags in
  sock_call (func flags).

Definition sync_buf_io (func : Z → Buf → Z → SockCall) (fd : Z) (buf : Buf) (flags : Z) :
    M S (OsResult Z) :=
  sync_io (func fd buf) flags.

Definition sync_hdr_io (func : Z → Z → Z → SockCall) (fd hdr flags : Z) : M S (OsResult Z) :=
  sync_io (func fd hdr) flags.

Definition recv (self : Socket) (buf : Buf) (flags : Z) : M S (Result Z * Socket) :=
  match early_return buf with
  | Some r => mret (r, self)
  | None =>
      with_budget self In_ (sync_buf_io sys_recv (sock_fd self) buf flags)
        (n ←? io_recv (sock_fd self) buf flags; check_interrupt_if_zero n)
  end.

Definition recvmsg (self : Socket) (header flags : Z) : M S (Result Z * Socket) :=
  with_budget self In_ (sync_hdr_io sys_recvmsg (sock_fd self) header flags)
    (n ←? io_recvmsg (sock_fd self) header flags; check_interrupt_if_zero n).

Definition send (self : Socket) (buf : Buf) (flags : Z) : M S (Result Z * Socket) :=
  match early_return buf with
  | Some r => mret (r, self)
  | None =>
      with_budget self Out_ (sync_buf_io sys_send (sock_fd self) buf flags)
        (n ←? io_send (sock_fd self) buf flags; check_interrupt_if_zero n)
  end.

Definition sendmsg (self : Socket) (header flags : Z) : M S (Result Z * Socket) :=
  with_budget self Out_ (sync_hdr_io sys_sendmsg (sock_fd self) header flags)
    (n ←? io_sendmsg (sock_fd self) header flags; check_interrupt_if_zero n).

Definition sock_poll (self : Socket) (flags : Z) : M S (Result Z * Socket) :=
  let self := set_ready (flags_remove (ready self) flags) self in
  r ← io_poll (sock_fd self) flags;
  match r with
  | Ok result => mret (Ok result, set_ready (flags_insert (ready self) result) self)
  | Err e => mret (Err e, self)
  end.

Definition shutdown_flags (how : ShutdownHow) : Z :=
  match how with ShutRead => In_ | ShutWrite => Out_ | ShutBoth => Z.lor In_ Out_ end.

Definition sock_shutdown (self : Socket) (how : ShutdownHow) : M S (Result Z * Socket) :=
  r ← io_shutdown (sock_fd self) how;
  match r with
  | Ok v => mret (Ok v, set_ready (flags_insert (ready self) (shutdown_flags how)) self)
  | Err e => mret (Err e, self)
  end.

(** ** Connecting *)

Definition Socket_new (domain socket_type protocol : Z) : M S (Result Socket) :=
  fd ←? io_socket domain socket_type protocol;
  mret (Ok (mkSocket fd 0)).

Definition new_for_addr (addr : Address) (socket_type protocol : Z) : M S (Result Socket) :=
  match addr with
  | V4 _ => Socket_new INet socket_type protocol
  | V6 _ => Socket_new INet6 socket_type protocol
  end.

Definition sock_connect (self : Socket) (addr : Address) : M S (Result Z) :=
  io_connect_addr (sock_fd self) addr.

(** [foreach_addr]: the addresses are those of [to_socket_addrs]. *)
Fixpoint foreach_loop {A} (f : Address → M S (Result A)) (addrs : list Address)
    (error : option Error) : M S (Result A) :=
  match addrs with
  | [] => mret (Err (default (ErrKind NoAddresses) error))
  | addr :: addrs =>
      r ← f addr;
      match r with
      | Ok out => mret (Ok out)
      | Err err => foreach_loop f addrs (Some err)
      end
  end.

Definition foreach_addr {A} (addrs : Result (list Address)) (f : Address → M S (Result A)) :
    M S (Result A) :=
  match addrs with
  | Ok addrs => foreach_loop f addrs None
  | Err e => mret (Err e)
  end.

(** The socket is dropped, and its descriptor closed, on an early return. *)
Definition keep_or_drop (sock : Socket) (r : Result unit) : M S (Result Socket) :=
  match r with
  | Ok _ => mret (Ok sock)
  | Err e => drop_fd (sock_fd sock);; mret (Err e)
  end.

Definition unit_result {A E} (r : result A E) : result unit E := result_map (λ _, tt) r.

Definition bind_addr (addrs : Result (list Address)) (socket_type protocol : Z) :
    M S (Result Socket) :=
  foreach_addr addrs (λ addr,
    sock ←? new_for_addr addr socket_type protocol;
    r ← set_reuse_addr (sock_fd sock) true;
    match r with
    | Err e => keep_or_drop sock (Err (ErrOs e))
    | Ok _ =>
        r ← io_bind_addr (sock_fd sock) addr;
        keep_or_drop sock (unit_result r)
    end).

Definition connect_addrs (addrs : Result (list Address)) (socket_type protocol : Z) :
    M S (Result Socket) :=
  foreach_addr addrs (λ addr,
    sock ←? new_for_addr addr socket_type protocol;
    r ← sock_connect sock addr;
    keep_or_drop sock (unit_result r)).

(** [MAX_BACKLOG] *)
Context (MAX_BACKLOG : Z).

Definition Tcp_connect (addrs : Result (list Address)) : M S (Result Socket) :=
  connect_addrs addrs Stream ProtoTcp.

Definition Tcp_bind (addrs : Result (list Address)) : M S (Result Socket) :=
  sock ←? bind_addr addrs Stream ProtoTcp;
  r ← io_listen block_on check_interrupt syscall_result (sock_fd sock) MAX_BACKLOG;
  keep_or_drop sock (unit_result r).

Definition Udp_connect (addrs : Result (list Address)) : M S (Result Socket) :=
  connect_addrs addrs Datagram ProtoUdp.

Definition Udp_bind (addrs : Result (list Address)) : M S (Result Socket) :=
  bind_addr addrs Datagram ProtoUdp.
End Socket.

(** ** Flags *)

Lemma flags_insert_contains a b : flags_contains (flags_insert a b) b = true.
Proof.
  unfold flags_contains, flags_insert. apply Z.eqb_eq, Z.bits_inj'. intros i _.
  rewrite Z.land_spec, Z.lor_spec. by destruct (Z.testbit a i), (Z.testbit b i).
Qed.

(** A flag outside [flags] is as it was. *)
Definition same_outside (flags a b : Z) : Prop :=
  ∀ i, Z.testbit flags i = false → Z.testbit a i = Z.testbit b i.

Lemma flags_insert_outside a b : same_outside b (flags_insert a b) a.
Proof. intros i Hi. unfold flags_insert. rewrite Z.lor_spec, Hi. apply orb_false_r. Qed.

Lemma flags_remove_outside a b : same_outside b (flags_remove a b) a.
Proof. intros i Hi. unfold flags_remove. rewrite Z.ldiff_spec, Hi. apply andb_true_r. Qed.

Lemma same_outside_trans f a b c : same_outside f a b → same_outside f b c → same_outside f a c.
Proof. intros H1 H2 i Hi. by rewrite H1, H2. Qed.

(** ** Transfers *)

Section Transfers.
Context {S : Type} (fatal : Prop).
Context (check_interrupt : M S (Result unit)) (acquire_budget : M S bool).

(** The bytes the socket has transferred so far. *)
Context (total : S → Z).

(** A call transfers the number of bytes that it returns, and none if it fails. *)
Definition transfers {E} (m : M S (result Z E)) : Prop :=
  ∀ s, wp fatal m s (λ r s', total s' = total s + match r with Ok n => n | Err _ => 0 end).

Context (Hcheck : ∀ s, wp fatal check_interrupt s (λ _ s', total s' = total s)).
Context (Hbudget : ∀ s, wp fatal acquire_budget s (λ _ s', total s' = total s)).

(** The outcome of a transfer: what is returned was transferred, and only the
    flags of the transfer changed. *)
Definition once (flags : Z) (self : Socket) (s : S) (p : Result Z * Socket) (s' : S) : Prop :=
  total s' = total s + match p.1 with Ok n => n | Err _ => 0 end ∧
  sock_fd p.2 = sock_fd self ∧ same_outside flags (ready p.2) (ready self) ∧
  (result_is_ok p.1 = true → flags_contains (ready p.2) flags = true).

Lemma suspend_once self self' flags suspend s s1 :
  transfers suspend → sock_fd self' = sock_fd self →
  same_outside flags (ready self') (ready self) → total s1 = total s →
  wp fatal suspend s1 (λ result s2, wp fatal (mret (result,
    if result_is_ok result then set_ready (flags_insert (ready self') flags) self' else self'))
    s2 (once flags self s)).
Proof.
  intros Hsusp Hfd Hout Ht. eapply wp_mono; [apply Hsusp|].
  intros [n|e] s2 Ht2; wp_steps; unfold once; simpl; rewrite <- Ht; split_and!; try done.
  - eapply same_outside_trans; [apply flags_insert_outside|done].
  - intros _. apply flags_insert_contains.
Qed.

(** C18: a transfer on a socket is made at most once, synchronously or through the
    engine: what the call returns is what was transferred, and nothing if it
    fails, so that an interrupted or failed call loses no data.  Only the ready
    flags of the transfer change, and they are set when it succeeds. *)
Theorem with_budget_transfers_once self flags sync suspend s :
  transfers sync → transfers suspend →
  wp fatal (with_budget check_interrupt acquire_budget self flags sync suspend) s
    (once flags self s).
Proof.
  intros Hsync Hsusp. unfold with_budget, try_sync. wp_steps.
  destruct (flags_contains (ready self) flags) eqn:Ec; [|wp_steps; by apply suspend_once].
  eapply wp_mono; [apply Hbudget|]. intros [|] s1 Ht1; wp_steps; [|by apply suspend_once].
  eapply wp_mono; [apply Hcheck|]. intros [[]|e] s2 Ht2; wp_steps.
  2:{ unfold once. simpl. split_and!; (done || lia). }
  eapply wp_mono; [apply Hsync|]. intros [n|err] s3 Ht3; [|destruct (_ =? _)]; wp_steps.
  - unfold once. simpl. split_and!; (done || lia).
  - apply suspend_once; [done|done|apply flags_remove_outside|lia].
  - unfold once. simpl. split_and!; (done || lia).
Qed.
End Transfers.

(** ** Addresses *)

(** [f] fails on all of [l], one after the other; the last error is kept. *)
Inductive all_fail {S A} (f : Address → M S (Result A)) :
    list Address → S → option Error → S → option Error → Prop :=
| fail_nil s e : all_fail f [] s e s e
| fail_cons a l s1 e1 s2 err s3 e3 :
    f a s1 = Ret (Err err, s2) → all_fail f l s2 (Some err) s3 e3 →
    all_fail f (a :: l) s1 e1 s3 e3.

Lemma foreach_fail {S A} (f : Address → M S (Result A)) l l2 s e s' e' :
  all_fail f l s e s' e' → foreach_loop f (l ++ l2) e s = foreach_loop f l2 e' s'.
Proof.
  induction 1 as [|a l s1 e1 s2 err s3 e3 Hf _ IH]; [done|].
  simpl. unfold mbind, M_bind at 1. by rewrite Hf.
Qed.

(** The addresses of a name are tried in order: the first that works decides
    the result and those after it are not tried; when none works the error is
    the last one, and a name without addresses is reported as such. *)
Theorem foreach_addr_first_success {S A} (f : Address → M S (Result A)) l s s1 e1 :
  all_fail f l s None s1 e1 →
  foreach_addr (Ok l) f s = Ret (Err (default (ErrKind NoAddresses) e1), s1) ∧
  ∀ a l2 v s2, f a s1 = Ret (Ok v, s2) → foreach_addr (Ok (l ++ a :: l2)) f s = Ret (Ok v, s2).
Proof.
  intros Hf. unfold foreach_addr. split.
  - rewrite <- (app_nil_r l). by rewrite (foreach_fail f l [] _ _ _ _ Hf).
  - intros a l2 v s2 Ha. rewrite (foreach_fail f l _ _ _ _ _ Hf). simpl.
    unfold mbind, M_bind. by rewrite Ha.
Qed.

(** ** Descriptors *)

Section Descriptors.
Context {S : Type} `{DriverState S} {io_engine : EngineImpl S} (fatal : Prop).
Context (block_on : (ReqPtr → M S (Progress Z)) → M S Z).
Context (check_interrupt : M S (Result unit)) (syscall_result : Z → OsResult Z).
Context (drop_fd : Z → M S unit) (set_reuse_addr : Z → bool → M S (OsResult unit)).
Context (MAX_BACKLOG : Z).

(** The descriptors that are open. *)
Context (open_fds : S → gset Z).

Local Abbreviation raw_op := (raw_op block_on check_interrupt syscall_result).

(** [socket(2)] opens one descriptor, the other operations none. *)
Context (Hsocket : ∀ d t p s, wp fatal (raw_op false (Osocket d t p)) s (λ r s',
  match r with
  | Ok fd => (fd ∉ open_fds s) ∧ open_fds s' = ({[ fd ]} ∪ open_fds s)
  | Err _ => open_fds s' = open_fds s
  end)).
Context (Hother : ∀ op s,
  match op with Oconnect _ _ _ | Obind _ _ _ | Olisten _ _ => True | _ => False end →
  wp fatal (raw_op false op) s (λ _ s', open_fds s' = open_fds s)).
Context (Hreuse : ∀ fd b s, wp fatal (set_reuse_addr fd b) s (λ _ s', open_fds s' = open_fds s)).
Context (Hdrop : ∀ fd s, wp fatal (drop_fd fd) s (λ _ s', open_fds s' = open_fds s ∖ {[ fd ]})).

(** A socket is returned with its descriptor, or nothing is left open. *)
Definition no_leak (s : S) (r : Result Socket) (s' : S) : Prop :=
  match r with
  | Ok sock => (sock_fd sock ∉ open_fds s) ∧ open_fds s' = ({[ sock_fd sock ]} ∪ open_fds s)
  | Err _ => open_fds s' = open_fds s
  end.

Lemma new_for_addr_no_leak addr t p s :
  wp fatal (new_for_addr block_on check_interrupt syscall_result addr t p) s (no_leak s).
Proof.
  destruct addr; simpl; unfold Socket_new; wp_steps; (eapply wp_mono; [apply Hsocket|]);
    intros [fd|e] s' Hr; [by wp_steps|done|by wp_steps|done].
Qed.

Lemma keep_or_drop_no_leak sock r s s1 :
  no_leak s (Ok sock) s1 → wp fatal (keep_or_drop drop_fd sock r) s1 (no_leak s).
Proof.
  intros [Hn Ho]. destruct r as [[]|e]; simpl; wp_steps; [done|].
  eapply wp_mono; [apply Hdrop|]. intros ? s2 Ho2. wp_steps. simpl. set_solver.
Qed.

(** The addresses have a size that fits in an i32. *)
Definition address_ok (addr : Address) : Prop :=
  match addr with V4 a | V6 a => fits_i 32 (ref_size a) = true end.

Lemma addr_call_no_leak addr f s (Q : Result Z → S → Prop) :
  fits_i 32 (ref_size addr) = true →
  (∀ len, match f len with Oconnect _ _ _ | Obind _ _ _ | Olisten _ _ => True | _ => False end) →
  (∀ r s', open_fds s' = open_fds s → Q r s') →
  wp fatal (len ← lift (unwrap (if fits_i 32 (ref_size addr) then Some (ref_size addr) else None));
    raw_op false (f len)) s Q.
Proof.
  intros Hfit Hop HQ. rewrite Hfit. wp_steps. simpl. eapply wp_mono; [apply Hother, Hop|]. auto.
Qed.

Lemma foreach_no_leak f :
  (∀ addr s, address_ok addr → wp fatal (f addr) s (no_leak s)) →
  ∀ addrs s, (∀ l, addrs = Ok l → Forall address_ok l) →
    wp fatal (foreach_addr addrs f) s (no_leak s).
Proof.
  intros Hf addrs s Hok. destruct addrs as [l|e]; simpl; [|by wp_steps].
  specialize (Hok l eq_refl). generalize (@None Error). revert s.
  induction Hok as [|addr l Ha _ IH]; intros s err; simpl; wp_steps; [done|].
  eapply wp_mono; [by apply Hf|]. intros [sock|e] s1 Hs1; [by wp_steps|].
  eapply wp_mono; [apply IH|]. simpl in Hs1. intros [sock'|e'] s2; simpl; by rewrite Hs1.
Qed.

(** A call on the new socket, which is kept if the call succeeds. *)
Lemma then_keep_no_leak (sock : Socket) (m : M S (Result Z)) s s1 :
  no_leak s (Ok sock) s1 → wp fatal m s1 (λ _ s2, open_fds s2 = open_fds s1) →
  wp fatal (r ← m; keep_or_drop drop_fd sock (unit_result r)) s1 (no_leak s).
Proof.
  intros [Hn Ho] Hm. wp_steps. eapply wp_mono; [exact Hm|]. intros r s2 Ho2.
  apply keep_or_drop_no_leak. simpl. by rewrite Ho2.
Qed.

Lemma bind_addr_no_leak addrs t p s :
  (∀ l, addrs = Ok l → Forall address_ok l) →
  wp fatal (bind_addr block_on check_interrupt syscall_result drop_fd set_reuse_addr addrs t p) s
    (no_leak s).
Proof.
  intros Hok. apply foreach_no_leak; [|done]. clear s addrs Hok. intros addr s Ha. wp_steps.
  eapply wp_mono; [apply new_for_addr_no_leak|]. intros [sock|e] s1 Hs1; [|done]. wp_steps.
  eapply wp_mono; [apply Hreuse|]. intros [[]|e] s2 Ho2.
  2:{ apply keep_or_drop_no_leak. simpl in *. by rewrite Ho2. }
  apply then_keep_no_leak; [simpl in *; by rewrite Ho2|].
  destruct addr as [a|a]; simpl; (apply addr_call_no_leak; [done|done|auto]).
Qed.

(** C30: a connection or a listening socket that cannot be set up leaves no
    descriptor open, however many addresses were tried and wherever it failed;
    one that is returned is the only descriptor that was opened. *)
Theorem connections_leak_nothing addrs s :
  (∀ l, addrs = Ok l → Forall address_ok l) →
  wp fatal (Tcp_connect block_on check_interrupt syscall_result drop_fd addrs) s (no_leak s) ∧
  wp fatal (Tcp_bind block_on check_interrupt syscall_result drop_fd set_reuse_addr MAX_BACKLOG
    addrs) s (no_leak s).
Proof.
  intros Hok. split.
  - apply foreach_no_leak; [|done]. clear s addrs Hok. intros addr s Ha. wp_steps.
    eapply wp_mono; [apply new_for_addr_no_leak|]. intros [sock|e] s1 Hs1; [|done].
    apply then_keep_no_leak; [done|].
    destruct addr as [a|a]; simpl; (apply addr_call_no_leak; [done|done|auto]).
  - unfold Tcp_bind. wp_step. eapply wp_mono; [by apply bind_addr_no_leak|].
    intros [sock|e] s1 Hs1; [|done]. apply then_keep_no_leak; [done|]. by apply Hother.
Qed.
End Descriptors.

(** ** The theorems on concrete processes *)

Lemma with_budget_transfers_once_witness :
  wp False (with_budget (S := Z) (mret (Ok tt)) (mret true) (mkSocket 7 5) In_
      (mret (Err Os.WouldBlock)) (λ s, Ret (Ok 12, s + 12))) 100
    (once (λ s, s) In_ (mkSocket 7 5) 100).
Proof.
  apply (with_budget_transfers_once False (mret (Ok tt)) (mret true) (λ s, s)).
  - intros s. reflexivity.
  - intros s. reflexivity.
  - intros s. simpl. unfold wp. simpl. lia.
  - intros s. reflexivity.
Defined.

(** The addresses with an odd position in memory answer. *)
Definition answering (addr : Address) : M nat (Result Z) := λ n,
  match addr with
  | V4 a | V6 a => Ret (if Z.odd (ref_addr a) then Ok (ref_addr a) else Err (ErrOs 111), S n)
  end.

Lemma foreach_addr_first_success_witness :
  foreach_addr (Ok [V6 (mkRef 2 28); V4 (mkRef 4 16)]) answering 0%nat = Ret (Err (ErrOs 111), 2%nat) ∧
  ∀ a l2 v s2, answering a 2%nat = Ret (Ok v, s2) →
    foreach_addr (Ok ([V6 (mkRef 2 28); V4 (mkRef 4 16)] ++ a :: l2)) answering 0%nat = Ret (Ok v, s2).
Proof.
  apply (foreach_addr_first_success answering [V6 (mkRef 2 28); V4 (mkRef 4 16)] 0%nat 2%nat
    (Some (ErrOs 111))).
  eapply fail_cons; [reflexivity|]. eapply fail_cons; [reflexivity|]. apply fail_nil.
Defined.

Module SimNet.
Record Process : Type := mkProcess { p_driver : Driver; p_open : gset Z }.

#[export] Instance net_driver : DriverState Process := {|
  driver := p_driver;
  set_driver := λ d p, mkProcess d (p_open p);
  driver_set := λ d p, eq_refl
|}.

(** Sockets can be created, connections are refused. *)
Definition network (op : Operation) : M Process (option Z) := λ p,
  match op with
  | Osocket _ _ _ =>
      let fd := Z.abs (fresh (p_open p ∪ set_map Z.opp (p_open p))) in
      Ret (Some fd, mkProcess (p_driver p) ({[ fd ]} ∪ p_open p))
  | Oconnect _ _ _ => Ret (Some (-111), p)
  | _ => Ret (Some 0, p)
  end.

#[export] Instance net_engine : EngineImpl Process := {|
  has_work := λ _, false;
  work := λ _, mret (Ok tt);
  prepare_wake := mret (Ok tt);
  wake := λ _, mret (Ok tt);
  start_work := λ work _, work;; mret 0;
  cancel_work := λ _, mret tt;
  cancel := λ _, mret (Ok tt);
  start := λ op _, network op;
  kind := λ _ _, Async
|}.

Definition await (f : ReqPtr → M Process (Progress Z)) : M Process Z :=
  p ← f 1; match p with Done v => mret v | Pending _ => panic end.

Definition drop (fd : Z) : M Process unit :=
  modify (λ p, mkProcess (p_driver p) (p_open p ∖ {[ fd ]})).

Definition process : Process := mkProcess (mkDriver [] false []) {[ 0; 1; 2 ]}.

Lemma fresh_abs (X : gset Z) : Z.abs (fresh (X ∪ set_map Z.opp X)) ∉ X.
Proof.
  pose proof (is_fresh (X ∪ set_map Z.opp X)) as Hf.
  set (n := fresh _) in *. intros Hin. apply Hf, elem_of_union.
  destruct (Z.abs_spec n) as [[_ E]|[_ E]]; rewrite E in Hin; [by left|].
  right. apply elem_of_map. exists (- n). split; [lia|done].
Qed.

Lemma net_socket d t pr p :
  wp False (raw_op await (mret (Ok tt)) sample_syscall_result false (Osocket d t pr)) p (λ r p',
    match r with
    | Ok fd => (fd ∉ p_open p) ∧ p_open p' = ({[ fd ]} ∪ p_open p)
    | Err _ => p_open p' = p_open p
    end).
Proof.
  unfold raw_op, wp, bind_ok, check_exiting, gets_driver, gets, mbind, M_bind. simpl.
  destruct (exiting (p_driver p)); simpl; [done|].
  unfold result_for, sample_syscall_result. destruct (Z.ltb_spec (Z.abs (fresh
    (p_open p ∪ set_map Z.opp (p_open p)))) 0); [lia|]. simpl. split; [apply fresh_abs|done].
Qed.

Lemma net_other op p :
  match op with Oconnect _ _ _ | Obind _ _ _ | Olisten _ _ => True | _ => False end →
  wp False (raw_op await (mret (Ok tt)) sample_syscall_result false op) p (λ _ p',
    p_open p' = p_open p).
Proof.
  unfold raw_op, wp, bind_ok, check_exiting, gets_driver, gets, mbind, M_bind. simpl.
  destruct (exiting (p_driver p)); simpl; [done|]. by destruct op.
Qed.
End SimNet.

#[local] Existing Instances SimNet.net_driver SimNet.net_engine.

Lemma connections_leak_nothing_witness :
  wp False (Tcp_connect SimNet.await (mret (Ok tt)) sample_syscall_result SimNet.drop
    (Ok [V4 (mkRef 4 16); V6 (mkRef 2 28)])) SimNet.process (no_leak SimNet.p_open SimNet.process) ∧
  wp False (Tcp_bind SimNet.await (mret (Ok tt)) sample_syscall_result SimNet.drop
    (λ _ _, mret (Ok tt)) 4096 (Ok [V4 (mkRef 4 16); V6 (mkRef 2 28)])) SimNet.process
    (no_leak SimNet.p_open SimNet.process).
Proof.
  apply (connections_leak_nothing False SimNet.await (mret (Ok tt)) sample_syscall_result
    SimNet.drop (λ _ _, mret (Ok tt)) 4096 SimNet.p_open).
  - apply SimNet.net_socket.
  - apply SimNet.net_other.
  - reflexivity.
  - reflexivity.
  - intros l E. injection E as <-. repeat constructor.
Defined.
