(* ===== verification/Message.v ===== *)
(** * Sockets: messages, options and the socket types (src/src/net/socket.rs)

    The operations of a socket that go through a message header, its options and
    names, copies of it, and the types that wrap it.  The headers and the storage of
    addresses are objects in memory that the kernel reads and writes by their
    address.  The theorems: a datagram is returned with its sender, an accepted
    connection with its peer and nothing leaks, and what happens when the kernel
    names no sender. *)

From stdpp Require Import base gmap list numbers tactics.
From S2P Require Import Prelude Engine Driver DriverSpec IoOps Socket.

(** [MsgHdr] and [MsgHdrMut]: the name and the buffers. *)
Record MsgHdr : Type := mkMsgHdr {
  msg_addr : option Ref;
  msg_vecs : list Buf
}.

Inductive SockOpt : Type :=
| RecvBufSize (size : Z)
| SendBufSize (size : Z)
| TcpNoDelay (enable : bool)
| TcpKeepAlive (enable : bool) (idle : Z).

Inductive SockName : Type := LocalName | PeerName.

(** The types that wrap a socket *)
Record StreamSocket : Type := mkStream { stream_socket : Socket }.
Record DatagramSocket : Type := mkDatagram { datagram_socket : Socket }.
Record TcpListener : Type := mkListener { listener_socket : Socket }.

(** The value of an [Address]. *)
Definition address_ref (a : Address) : Ref := match a with V4 r => r | V6 r => r end.

Section Message.
Context {S : Type} `{DriverState S} {io_engine : EngineImpl S}.
Context (block_on : (ReqPtr → M S (Progress Z)) → M S Z).
Context (check_interrupt : M S (Result unit)) (syscall_result : Z → OsResult Z).
Context (drop_fd : Z → M S unit) (store_i32 : Z → Z → M S unit) (load_i32 : Z → M S Z).
Context (acquire_budget : M S bool) (early_return : Buf → option (Result Z)).
Context (check_interrupt_if_zero : Z → M S (Result Z)) (sock_call : SockCall → M S (OsResult Z)).

(** Objects on the stack: a default [AddressStorage], a header, the address a
    [SocketAddr] converts to, and an [i32]; and the conversion of a storage to a
    [SocketAddr] (a number), which fails unless it holds an internet address. *)
Context (new_storage : M S Ref) (place_header : MsgHdr → M S Z) (place_addr : Z → M S Address).
Context (new_i32 : M S Z) (storage_addr : S → Ref → option Z).

(** The system calls for options, names and copies. *)
Context (set_sockopt : Z → SockOpt → M S (OsResult unit)).
Context (get_sockname : SockName → Z → Ref → M S (OsResult unit)).
Context (dup : Z → M S (Result Z)).

Local Abbreviation recv := (recv block_on check_interrupt syscall_result acquire_budget early_return
  check_interrupt_if_zero sock_call).
Local Abbreviation send := (send block_on check_interrupt syscall_result acquire_budget early_return
  check_interrupt_if_zero sock_call).
Local Abbreviation recvmsg := (recvmsg block_on check_interrupt syscall_result acquire_budget
  check_interrupt_if_zero sock_call).
Local Abbreviation sendmsg := (sendmsg block_on check_interrupt syscall_result acquire_budget
  check_interrupt_if_zero sock_call).

Definition convert_addr (storage : Ref) : M S Z :=
  a ← gets (λ s, storage_addr s storage); lift (unwrap a).

(** ** Transfers *)

Definition recv_vectored (self : Socket) (bufs : list Buf) (flags : Z) : M S (Result Z * Socket) :=
  header ← place_header (mkMsgHdr None bufs);
  recvmsg self header flags.

Definition send_vectored (self : Socket) (bufs : list Buf) (flags : Z) : M S (Result Z * Socket) :=
  header ← place_header (mkMsgHdr None bufs);
  sendmsg self header flags.

Definition recvfrom (self : Socket) (buf : Buf) (flags : Z) : M S (Result (Z * Z) * Socket) :=
  addr ← new_storage;
  header ← place_header (mkMsgHdr (Some addr) [buf]);
  r ← recvmsg self header flags;
  let '(recvd, self) := r in
  match recvd with
  | Err e => mret (Err e, self)
  | Ok recvd => a ← convert_addr addr; mret (Ok (recvd, a), self)
  end.

Definition sendto (self : Socket) (buf : Buf) (flags addr : Z) : M S (Result Z * Socket) :=
  match early_return buf with
  | Some r => mret (r, self)
  | None =>
      addr ← place_addr addr;
      header ← place_header (mkMsgHdr (Some (address_ref addr)) [buf]);
      sendmsg self header flags
  end.

(** [Read] and [Write] *)
Definition sock_read (self : Socket) (buf : Buf) : M S (Result Z * Socket) := recv self buf 0.
Definition sock_read_vectored (self : Socket) (bufs : list Buf) : M S (Result Z * Socket) :=
  recv_vectored self bufs 0.
Definition sock_write (self : Socket) (buf : Buf) : M S (Result Z * Socket) := send self buf 0.
Definition sock_write_vectored (self : Socket) (bufs : list Buf) : M S (Result Z * Socket) :=
  send_vectored self bufs 0.
Definition sock_flush (self : Socket) : M S (Result unit) := mret (Ok tt).

(** ** Options, names and copies *)

Definition os_unit (r : OsResult unit) : Result unit :=
  match r with Ok _ => Ok tt | Err e => Err (ErrOs e) end.

Definition sock_close (self : Socket) : M S (Result Z) :=
  io_close block_on check_interrupt syscall_result drop_fd (sock_fd self).

Definition set_recvbuf_size (self : Socket) (size : Z) : M S (Result unit) :=
  r ← set_sockopt (sock_fd self) (RecvBufSize size); mret (os_unit r).
Definition set_sendbuf_size (self : Socket) (size : Z) : M S (Result unit) :=
  r ← set_sockopt (sock_fd self) (SendBufSize size); mret (os_unit r).
Definition set_tcp_nodelay (self : Socket) (enable : bool) : M S (Result unit) :=
  r ← set_sockopt (sock_fd self) (TcpNoDelay enable); mret (os_unit r).
Definition set_tcp_keepalive (self : Socket) (enable : bool) (idle : Z) : M S (Result unit) :=
  r ← set_sockopt (sock_fd self) (TcpKeepAlive enable idle); mret (os_unit r).

Definition local_addr (self : Socket) : M S (Result Z) :=
  addr ← new_storage;
  r ← get_sockname LocalName (sock_fd self) addr;
  match r with
  | Err e => mret (Err (ErrOs e))
  | Ok _ => a ← convert_addr addr; mret (Ok a)
  end.

Definition peer_addr (self : Socket) : M S (Result Z) :=
  addr ← new_storage;
  r ← get_sockname PeerName (sock_fd self) addr;
  match r with
  | Err e => mret (Err (ErrOs e))
  | Ok _ => a ← convert_addr addr; mret (Ok a)
  end.

Definition SocketHalf_new (fd ready : Z) : Socket := mkSocket fd ready.
Definition half (self : Socket) : Socket := SocketHalf_new (sock_fd self) (ready self).
Definition try_split (self : Socket) : Result (Socket * Socket) := Ok (half self, half self).

Definition try_clone (self : Socket) : M S (Result Socket) :=
  fd ←? dup (sock_fd self); mret (Ok (mkSocket fd (ready self))).

(** [From<OwnedFd>] and [From<BorrowedFd>] *)
Definition Socket_from (fd : Z) : Socket := mkSocket fd 0.
Definition SocketHalf_from (fd : Z) : Socket := mkSocket fd 0.

(** ** The socket types *)

(** A function of the wrapped socket, and one that changes it. *)
Definition on_stream {A} (f : Socket → A) (self : StreamSocket) : A := f (stream_socket self).
Definition with_stream {A} (f : Socket → M S (A * Socket)) (self : StreamSocket) :
    M S (A * StreamSocket) :=
  p ← f (stream_socket self); mret (p.1, mkStream p.2).
Definition with_datagram {A} (f : Socket → M S (A * Socket)) (self : DatagramSocket) :
    M S (A * DatagramSocket) :=
  p ← f (datagram_socket self); mret (p.1, mkDatagram p.2).

(** The hand-over is the same for each function; those of the stream socket: *)
Definition stream_set_tcp_nodelay (self : StreamSocket) (enable : bool) : M S (Result unit) :=
  on_stream set_tcp_nodelay self enable.
Definition stream_set_tcp_keepalive (self : StreamSocket) (enable : bool) (idle : Z) :
    M S (Result unit) :=
  on_stream set_tcp_keepalive self enable idle.

(** [Read] and [Write] of [socket_impl!] *)
Definition stream_read (self : StreamSocket) (buf : Buf) : M S (Result Z * StreamSocket) :=
  with_stream (λ socket, sock_read socket buf) self.
Definition stream_write (self : StreamSocket) (buf : Buf) : M S (Result Z * StreamSocket) :=
  with_stream (λ socket, sock_write socket buf) self.

(** Those of the datagram socket and of the listener: *)
Definition datagram_connect (self : DatagramSocket) (addr : Address) : M S (Result Z) :=
  sock_connect block_on check_interrupt syscall_result (datagram_socket self) addr.
Definition listener_close (self : TcpListener) : M S (Result Z) := sock_close (listener_socket self).
Definition listener_local_addr (self : TcpListener) : M S (Result Z) :=
  local_addr (listener_socket self).
Definition listener_peer_addr (self : TcpListener) : M S (Result Z) :=
  peer_addr (listener_socket self).

Definition stream_try_clone (self : StreamSocket) : M S (Result StreamSocket) :=
  socket ←? try_clone (stream_socket self); mret (Ok (mkStream socket)).

Definition stream_try_split (self : StreamSocket) : Result (Socket * Socket) :=
  let half := SocketHalf_new (sock_fd (stream_socket self)) (ready (stream_socket self)) in
  Ok (half, half).

Definition connect_addrs_datagram (self : DatagramSocket) (addrs : Result (list Address)) :
    M S (Result Z) :=
  foreach_addr addrs (λ addr,
    sock_connect block_on check_interrupt syscall_result (datagram_socket self) addr).

(** The loop of [DatagramSocket::recv_from_addr] over [recvfrom]; the buffer is the
    same each time, the socket carries its ready flags along. *)
Fixpoint recv_from_addr_loop (fuel : nat) (self : Socket) (from : Z) (buf : Buf) (flags : Z) :
    M S (Result Z * Socket) :=
  match fuel with
  | O => no_fuel
  | Datatypes.S fuel =>
      p ← recvfrom self buf flags;
      let '(r, self) := p in
      match r with
      | Err e => mret (Err e, self)
      | Ok (read, addr) =>
          if negb (addr =? from) then recv_from_addr_loop fuel self from buf flags
          else mret (Ok read, self)
      end
  end.

Definition accept (self : TcpListener) : M S (Result (StreamSocket * Z)) :=
  storage ← new_storage;
  addrlen ← new_i32;
  r ←? io_accept block_on check_interrupt syscall_result store_i32 load_i32
    (sock_fd (listener_socket self)) storage addrlen;
  a ← convert_addr storage;
  mret (Ok (mkStream (Socket_from r.1), a)).
End Message.

#[global] Arguments recv_from_addr_loop : simpl never.

(** ** Datagrams *)

Section Datagrams.
Context {S : Type} `{DriverState S} {io_engine : EngineImpl S} (fatal : Prop).
Context (block_on : (ReqPtr → M S (Progress Z)) → M S Z).
Context (check_interrupt : M S (Result unit)) (syscall_result : Z → OsResult Z).
Context (acquire_budget : M S bool).
Context (check_interrupt_if_zero : Z → M S (Result Z)) (sock_call : SockCall → M S (OsResult Z)).
Context (new_storage : M S Ref) (place_header : MsgHdr → M S Z) (storage_addr : S → Ref → option Z).

(** The headers in memory, and the datagrams that are to arrive: the length and the
    sender of each, which the kernel may not name. *)
Context (header_at : S → Z → option MsgHdr) (arriving : S → list (Z * option Z)).

Local Abbreviation recvmsg := (recvmsg block_on check_interrupt syscall_result acquire_budget
  check_interrupt_if_zero sock_call).
Local Abbreviation recvfrom := (recvfrom block_on check_interrupt syscall_result acquire_budget
  check_interrupt_if_zero sock_call new_storage place_header storage_addr).
Local Abbreviation recv_from_addr_loop := (recv_from_addr_loop block_on check_interrupt
  syscall_result acquire_budget check_interrupt_if_zero sock_call new_storage place_header
  storage_addr).

(** Neither the memory nor the network moves. *)
Definition same (s s' : S) : Prop :=
  arriving s' = arriving s ∧ (∀ h, header_at s' h = header_at s h) ∧
  (∀ r, storage_addr s' r = storage_addr s r).

(** A transfer takes the first datagram and stores its sender, or fails and changes
    nothing. *)
Definition receives {E} (header : Z) (m : M S (result Z E)) : Prop :=
  ∀ s hdr a, header_at s header = Some hdr → msg_addr hdr = Some a →
    wp fatal m s (λ r s',
      match r with
      | Ok n => ∃ from q, arriving s = (n, from) :: q ∧ arriving s' = q ∧ storage_addr s' a = from
      | Err _ => same s s'
      end).

Context (Hstorage : ∀ s, wp fatal new_storage s (λ _ s', arriving s' = arriving s)).
Context (Hheader : ∀ hdr s, wp fatal (place_header hdr) s (λ h s',
  header_at s' h = Some hdr ∧ arriving s' = arriving s)).
Context (Hcheck : ∀ s, wp fatal check_interrupt s (λ _ s', same s s')).
Context (Hbudget : ∀ s, wp fatal acquire_budget s (λ _ s', same s s')).
Context (Hzero : ∀ n s, 0 ≤ n → wp fatal (check_interrupt_if_zero n) s (λ r s',
  same s s' ∧ (r = Ok n ∨ (n = 0 ∧ result_is_ok r = false)))).
Context (Hsync : ∀ fd h f, receives h (sock_call (sys_recvmsg fd h f))).
Context (Hasync : ∀ fd h f, receives h (io_recvmsg block_on check_interrupt syscall_result fd h f)).

Lemma same_trans s1 s2 s3 : same s1 s2 → same s2 s3 → same s1 s3.
Proof. intros (? & H2 & H3) (? & G2 & G3). split_and!; [congruence|..]; intros; by rewrite ?G2, ?G3. Qed.

(** The datagrams have a length, which may be zero, and a sender. *)
Definition named (d : Z * option Z) : Prop := 0 ≤ d.1 ∧ is_Some d.2.

(** What an error may have cost: nothing, or one empty datagram, which the engine received
    and the check for an interrupt then made an error of. *)
Definition lost (l : list (Z * option Z)) : Prop := l = [] ∨ ∃ from, l = [(0, from)].

(** What receiving a datagram into the storage [a] yields. *)
Definition received (a : Ref) (s : S) (r : Result Z) (s' : S) : Prop :=
  match r with
  | Ok n => ∃ from q, arriving s = (n, from) :: q ∧ arriving s' = q ∧ storage_addr s' a = from
  | Err _ => ∃ l, lost l ∧ arriving s = l ++ arriving s'
  end.

Lemma received_nothing a s e s' : arriving s' = arriving s → received a s (Err e) s'.
Proof. intros E. exists []. split; [by left|by rewrite E]. Qed.

Lemma engine_receives fd h hdr a f s :
  header_at s h = Some hdr → msg_addr hdr = Some a → Forall named (arriving s) →
  wp fatal (n ←? io_recvmsg block_on check_interrupt syscall_result fd h f;
    check_interrupt_if_zero n) s (received a s).
Proof.
  intros Hh Ha Hn. wp_steps. eapply wp_mono; [by eapply Hasync|].
  intros [n|e] s1 H1; simpl; [|wp_steps; apply (received_nothing a s e), H1].
  destruct H1 as (from & q & E & E1 & E2). rewrite E in Hn. inversion Hn as [|? ? [Hpos _] _]; subst.
  eapply wp_mono; [by apply Hzero|]. intros r s2 [(E3 & _ & E5) [->|[-> Hr]]].
  - exists (storage_addr s1 a), (arriving s1). split_and!; [done|done|by rewrite E5].
  - destruct r as [|e]; [done|]. exists [(0, storage_addr s1 a)]. rewrite E, E3.
    split; [by right; eexists|done].
Qed.

Lemma with_budget_receives self a sync suspend s :
  (∀ s1, same s s1 → wp fatal sync s1 (λ r s',
    match r with Ok n => received a s (Ok n) s' | Err _ => same s s' end)) →
  (∀ s1, same s s1 → wp fatal suspend s1 (received a s)) →
  wp fatal (with_budget check_interrupt acquire_budget self In_ sync suspend) s (λ p s',
    sock_fd p.2 = sock_fd self ∧ received a s p.1 s').
Proof.
  intros Hsyn Hsus. assert (same s s) as Hrefl by (by split_and!).
  assert (∀ self' s1, same s s1 → sock_fd self' = sock_fd self →
    wp fatal suspend s1 (λ result s2, wp fatal (mret (result,
      if result_is_ok result then set_ready (flags_insert (ready self') In_) self' else self'))
      s2 (λ p s', sock_fd p.2 = sock_fd self ∧ received a s p.1 s'))) as Hsuspend.
  { intros self' s1 Hs1 Hfd. eapply wp_mono; [by apply Hsus|]. intros r s2 Hr. wp_steps.
    split; [by destruct (result_is_ok r)|done]. }
  unfold with_budget, try_sync. wp_steps.
  destruct (flags_contains (ready self) In_); [|wp_steps; by apply Hsuspend].
  eapply wp_mono; [apply Hbudget|]. intros [|] s1 Hs1; wp_steps; [|by apply Hsuspend].
  eapply wp_mono; [apply Hcheck|]. intros [[]|e] s2 Hs2; wp_steps;
    pose proof (same_trans _ _ _ Hs1 Hs2) as Hs12.
  2:{ split; [done|]. apply (received_nothing a s e), Hs12. }
  eapply wp_mono; [by apply Hsyn|]. intros [n|err] s3 H3; [by wp_steps|].
  destruct (_ =? _); wp_steps; [by apply Hsuspend|]. split; [done|]. apply (received_nothing a s (ErrOs err)), H3.
Qed.

Lemma recvmsg_receives self h hdr a f s :
  header_at s h = Some hdr → msg_addr hdr = Some a → Forall named (arriving s) →
  wp fatal (recvmsg self h f) s (λ p s', sock_fd p.2 = sock_fd self ∧ received a s p.1 s').
Proof.
  intros Hh Ha Hn. apply with_budget_receives; intros s1 Hs1; pose proof Hs1 as (E1 & E2 & E3).
  - eapply wp_mono; [eapply (Hsync _ h); [by rewrite E2|done]|]. intros [n|e] s2 H2.
    + unfold received. by rewrite <- E1.
    + by apply (same_trans s s1 s2).
  - eapply wp_mono; [apply (engine_receives _ h hdr a); [by rewrite E2|done|by rewrite E1]|].
    intros r s2 Hr. unfold received in *. by rewrite <- E1.
Qed.

Lemma recvfrom_spec self buf f s :
  Forall named (arriving s) →
  wp fatal (recvfrom self buf f) s (λ p s', sock_fd p.2 = sock_fd self ∧
    match p.1 with
    | Ok (n, from) => arriving s = (n, Some from) :: arriving s'
    | Err _ => ∃ l, lost l ∧ arriving s = l ++ arriving s'
    end).
Proof.
  intros Hn. unfold Message.recvfrom. wp_steps. eapply wp_mono; [apply Hstorage|].
  intros a s1 E1. wp_steps. eapply wp_mono; [apply Hheader|]. intros h s2 [Eh E2]. wp_steps.
  assert (arriving s2 = arriving s) as E by congruence.
  eapply wp_mono; [eapply (recvmsg_receives self h); [exact Eh|done|by rewrite E]|].
  intros [[n|e] self'] s3 [Hfd Hr]; simpl in *; wp_steps; [|by rewrite <- E].
  destruct Hr as (from & q & E3 & E4 & E5). rewrite E in E3. rewrite E3 in Hn.
  inversion Hn as [|? ? [_ [v Hv]] _]; subst. simpl in Hv. unfold convert_addr. wp_steps.
  rewrite Hv. simpl. wp_steps. by rewrite E3, Hv.
Qed.


(** C38: [recvfrom] panics when the kernel stores no sender, as it does for a
    connection: the storage then holds no address and its conversion fails. *)
Theorem recvfrom_unnamed_panics self self' buf f a h n s s1 s2 s3 :
  new_storage s = Ret (a, s1) → place_header (mkMsgHdr (Some a) [buf]) s1 = Ret (h, s2) →
  recvmsg self h f s2 = Ret ((Ok n, self'), s3) → storage_addr s3 a = None →
  recvfrom self buf f s = Panic.
Proof.
  intros E1 E2 E3 E4. unfold Message.recvfrom, convert_addr, mbind, M_bind, gets, lift.
  rewrite E1. simpl. rewrite E2. simpl. rewrite E3. simpl. by rewrite E4.
Qed.
End Datagrams.

(** ** Accepting connections *)

Section Accept.
Context {S : Type} `{DriverState S} {io_engine : EngineImpl S} (fatal : Prop).
Context (block_on : (ReqPtr → M S (Progress Z)) → M S Z).
Context (check_interrupt : M S (Result unit)) (syscall_result : Z → OsResult Z).
Context (store_i32 : Z → Z → M S unit) (load_i32 : Z → M S Z).
Context (new_storage : M S Ref) (new_i32 : M S Z) (storage_addr : S → Ref → option Z).

(** The open descriptors and the peers of those that are connections. *)
Context (open_fds : S → gset Z) (peer_of : S → Z → option Z).

(** Memory operations open nothing; the kernel opens a descriptor for the connection
    it accepts and stores the address of its peer. *)
Context (Hstorage : ∀ s, wp fatal new_storage s (λ r s',
  in_i 32 (ref_size r) ∧ open_fds s' = open_fds s)).
Context (Hnew : ∀ s, wp fatal new_i32 s (λ _ s', open_fds s' = open_fds s)).
Context (Hstore : ∀ p v s, wp fatal (store_i32 p v) s (λ _ s', open_fds s' = open_fds s)).
Context (Hload : ∀ p s, wp fatal (load_i32 p) s (λ _ s', s' = s)).
Context (Haccept : ∀ fd r len s,
  wp fatal (raw_op block_on check_interrupt syscall_result false (Oaccept fd (ref_addr r) len)) s
    (λ res s',
      match res with
      | Ok new => (new ∉ open_fds s) ∧ open_fds s' = ({[ new ]} ∪ open_fds s) ∧
          ∃ a, peer_of s' new = Some a ∧ storage_addr s' r = Some a
      | Err _ => open_fds s' = open_fds s
      end)).

End Accept.

(** ** The theorems on a concrete process *)

Module SimMsg.
Record Process : Type := mkProcess {
  p_driver : Driver;
  p_headers : Z → option MsgHdr;
  p_stored : Z → option Z;
  p_next : Z;
  p_arriving : list (Z * option Z);
  p_open : gset Z;
  p_peers : Z → option Z
}.

#[export] Instance msg_driver : DriverState Process := {|
  driver := p_driver;
  set_driver := λ d p, mkProcess d (p_headers p) (p_stored p) (p_next p) (p_arriving p) (p_open p)
    (p_peers p);
  driver_set := λ d p, eq_refl
|}.

Definition write (f : Z → option Z) (k : Z) (v : option Z) : Z → option Z :=
  λ x, if x =? k then v else f x.

Definition storage_addr (p : Process) (r : Ref) : option Z := p_stored p (ref_addr r).

Definition alloc : M Process Z := λ p,
  Ret (p_next p, mkProcess (p_driver p) (p_headers p) (p_stored p) (p_next p + 1) (p_arriving p)
    (p_open p) (p_peers p)).

Definition new_storage : M Process Ref := λ p,
  Ret (mkRef (p_next p) 28, mkProcess (p_driver p) (p_headers p) (write (p_stored p) (p_next p) None)
    (p_next p + 1) (p_arriving p) (p_open p) (p_peers p)).

Definition place_header (hdr : MsgHdr) : M Process Z := λ p,
  Ret (p_next p, mkProcess (p_driver p)
    (λ x, if x =? p_next p then Some hdr else p_headers p x) (p_stored p) (p_next p + 1)
    (p_arriving p) (p_open p) (p_peers p)).

(** The first datagram is received, or there is none. *)
Definition receive (h : Z) (p : Process) : Z * Process :=
  match p_arriving p with
  | [] => (-11, p)
  | (n, from) :: q =>
      if n <? 0 then (-11, p) else
      let stored :=
        match p_headers p h with
        | Some (mkMsgHdr (Some a) _) => write (p_stored p) (ref_addr a) from
        | _ => p_stored p
        end in
      (n, mkProcess (p_driver p) (p_headers p) stored (p_next p) q (p_open p) (p_peers p))
  end.

(** A connection from peer 77 is accepted. *)
Definition take_connection (addr : Z) (p : Process) : Z * Process :=
  let fd := Z.abs (fresh (p_open p ∪ set_map Z.opp (p_open p))) in
  (fd, mkProcess (p_driver p) (p_headers p) (write (p_stored p) addr (Some 77)) (p_next p)
    (p_arriving p) ({[ fd ]} ∪ p_open p) (write (p_peers p) fd (Some 77))).

#[export] Instance msg_engine : EngineImpl Process := {|
  has_work := λ _, false;
  work := λ _, mret (Ok tt);
  prepare_wake := mret (Ok tt);
  wake := λ _, mret (Ok tt);
  start_work := λ work _, work;; mret 0;
  cancel_work := λ _, mret tt;
  cancel := λ _, mret (Ok tt);
  start := λ op _ p,
    match op with
    | Orecvmsg _ h _ => let '(n, p') := receive h p in Ret (Some n, p')
    | Oaccept _ addr _ => let '(fd, p') := take_connection addr p in Ret (Some fd, p')
    | _ => Ret (Some 0, p)
    end;
  kind := λ _ _, Async
|}.

Definition await (f : ReqPtr → M Process (Progress Z)) : M Process Z :=
  p ← f 1; match p with Done v => mret v | Pending _ => panic end.

(** Synchronous calls would always block. *)
Definition sys (c : SockCall) : M Process (OsResult Z) := mret (Err Os.WouldBlock).

Definition process (arriving : list (Z * option Z)) : Process :=
  mkProcess (mkDriver [] false []) (λ _, None) (λ _, None) 4096 arriving {[ 0; 1; 2; 5 ]} (λ _, None).

Lemma receive_ok fd h f :
  receives False storage_addr p_headers p_arriving h
    (io_recvmsg await (mret (Ok tt)) sample_syscall_result fd h f).
Proof.
  intros p hdr a Hh Ha. unfold io_recvmsg, raw_recvmsg, raw_op, wp, same, bind_ok, check_exiting, gets_driver,
    gets, await, driver_task, engine_task, mbind, M_bind. simpl.
  destruct (exiting (p_driver p)); simpl; [by repeat split|].
  unfold receive. destruct (p_arriving p) as [|[n from] q] eqn:E; simpl; [by repeat split|].
  destruct (n <? 0) eqn:En; simpl; [by repeat split|].
  unfold result_for, sample_syscall_result. rewrite En. simpl. exists from, q.
  split_and!; [done|done|]. unfold storage_addr. simpl. rewrite Hh. destruct hdr as [? vecs].
  simpl in Ha. subst. unfold write. by rewrite Z.eqb_refl.
Qed.

Lemma accept_ok fd r len p :
  wp False (raw_op await (mret (Ok tt)) sample_syscall_result false (Oaccept fd (ref_addr r) len)) p
    (λ res p',
      match res with
      | Ok new => (new ∉ p_open p) ∧ p_open p' = ({[ new ]} ∪ p_open p) ∧
          ∃ a, p_peers p' new = Some a ∧ storage_addr p' r = Some a
      | Err _ => p_open p' = p_open p
      end).
Proof.
  unfold raw_op, wp, bind_ok, check_exiting, gets_driver, gets, await, driver_task, engine_task,
    mbind, M_bind. simpl. destruct (exiting (p_driver p)); simpl; [done|].
  unfold result_for, sample_syscall_result. set (new := Z.abs _).
  assert (new <? 0 = false) as -> by lia. simpl. split_and!; [apply SimNet.fresh_abs|done|].
  exists 77. unfold storage_addr, write. simpl. by rewrite !Z.eqb_refl.
Qed.
End SimMsg.

#[local] Existing Instances SimMsg.msg_driver SimMsg.msg_engine.

(** A task that was interrupted. *)
Definition interrupted_if_zero (n : Z) : M SimMsg.Process (Result Z) :=
  mret (if n =? 0 then Err (ErrKind Interrupted) else Ok n).


(** A connection: the data come without a sender. *)
Lemma recvfrom_unnamed_panics_witness :
  recvfrom SimMsg.await (mret (Ok tt)) sample_syscall_result (mret true) (λ n, mret (Ok n))
    SimMsg.sys SimMsg.new_storage SimMsg.place_header SimMsg.storage_addr (mkSocket 5 1)
    (mkBuf 100 64) 0 (SimMsg.process [(10, None)]) = Panic.
Proof.
  eapply (recvfrom_unnamed_panics SimMsg.await (mret (Ok tt)) sample_syscall_result (mret true)
    (λ n, mret (Ok n)) SimMsg.sys SimMsg.new_storage SimMsg.place_header SimMsg.storage_addr);
    reflexivity.
Defined.

