(* ===== verification/Blocking.v ===== *)
(** * Blocking operations (src/src/ops/blocking.rs)

    A blocking operation runs on the thread pool of the engine while its task waits.
    The pool and the wait are xx-core's and parameters, with what they document as
    hypotheses: the work runs at most once, before the wait returns, and the wait
    tells whether it did.  The closure leaves its value in an uninitialised place of
    the frame of [run_blocking], which is a cell of the process here: taking the value
    out of a cell that was not written is undefined. *)

From stdpp Require Import base list numbers relations tactics.
From S2P Require Import Prelude Engine Driver.

Section Blocking.
Context {S A : Type} (check_interrupt : M S (Result unit)).

(** The driver's [run_work], awaited: whether the pool ran the closure, and what it
    left in the output.  A panic of the closure is caught there and resumed by [join],
    so it is one of the awaiting task. *)
Context (run_work : M S A → M S (bool * option A)).

Definition run_blocking (func : M S A) : M S (Result A) :=
  _ ←? check_interrupt;
  work ← run_work func;
  let '(ran, output) := work in
  if ran : bool then
    output ← lift (match output with Some a => Ret a | None => Undefined end);
    mret (Ok output)
  else mret (Err (ErrKind Interrupted)).
End Blocking.

Section Await.
Context {S A : Type} {io_engine : EngineImpl S}.
(** xx-core's [block_on_thread_safe], and the cell of the output. *)
Context (block_on_thread_safe : (ReqPtr → M S (Progress bool)) → M S bool).
Context (output : S → option A) (set_output : option A → S → S).

(** [FnCallOnce] around the closure *)
Definition output_work (func : M S A) : Work S :=
  a ← func; modify (set_output (Some a)).

Definition await_work (func : M S A) : M S (bool * option A) :=
  modify (set_output None);;
  ran ← block_on_thread_safe (driver_run_work (output_work func));
  output ← gets output;
  mret (ran, output).
End Await.

(** ** What is promised *)

Section Promises.
Context {S A : Type} {io_engine : EngineImpl S} (fatal : Prop).
Context (check_interrupt : M S (Result unit)).
Context (block_on_thread_safe : (ReqPtr → M S (Progress bool)) → M S bool).
Context (output : S → option A) (set_output : option A → S → S).

(** What other tasks and threads do meanwhile; they do not know the cell. *)
Context (others : relation S) `{!PreOrder others}.
Context (Hset : ∀ o s, output (set_output o s) = o).
Context (Hkeep : ∀ s s', others s s' → output s' = output s).
Context (Hcheck : ∀ s, wp fatal check_interrupt s (λ _ s', others s s')).

(** The pool runs the work at most once, at some time before the wait returns. *)
Context (Hpool : ∀ work s (P : S → Prop),
  (∀ s0, others s s0 → wp fatal work s0 (λ _ s1, P s1)) →
  wp fatal (block_on_thread_safe (driver_run_work work)) s (λ ran s',
    if ran : bool then ∃ s1, P s1 ∧ others s1 s' else others s s')).

Local Abbreviation await_work := (await_work block_on_thread_safe output set_output).

Lemma await_work_spec (func : M S A) s (P : A → S → Prop) :
  (∀ s0, others (set_output None s) s0 → wp fatal func s0 P) →
  wp fatal (await_work func) s (λ p s',
    (∃ a s1, p = (true, Some a) ∧ P a s1 ∧ others (set_output (Some a) s1) s') ∨
    (p.1 = false ∧ others (set_output None s) s')).
Proof.
  intros Hf. unfold Blocking.await_work. wp_steps.
  eapply wp_mono; [apply (Hpool _ _ (λ s1, ∃ a s0, P a s0 ∧ s1 = set_output (Some a) s0))|].
  { intros s0 Hs0. unfold output_work. wp_steps. eapply wp_mono; [by apply Hf|].
    intros a s1 HP. wp_steps. eauto. }
  intros [] s' Hran; wp_steps; [left|by right].
  destruct Hran as (s1 & (a & s0 & HP & ->) & Ho). exists a, s0. split_and!; [|done|done].
  by rewrite (Hkeep _ _ Ho), Hset.
Qed.

(** C24: a blocking operation runs its closure at most once: when it returns a value the
    closure ran exactly once meanwhile and returned that value, and when it returns
    an error the closure did not run.  The place of the output is never read before it
    is written. *)
Theorem blocking_runs_once (func : M S A) s :
  (∀ s0, wp fatal func s0 (λ _ _, True)) →
  wp fatal (run_blocking check_interrupt await_work func) s (λ r s',
    ∃ s0, others s s0 ∧
    match r with
    | Ok a => ∃ s1 s2, others (set_output None s0) s1 ∧ func s1 = Ret (a, s2) ∧
        others (set_output (Some a) s2) s'
    | Err _ => s' = s0 ∨ others (set_output None s0) s'
    end).
Proof.
  intros Hf. unfold run_blocking. wp_steps. eapply wp_mono; [apply Hcheck|].
  intros [[]|e] s0 H0; simpl; wp_steps; [|by exists s0; auto].
  eapply wp_mono; [apply (await_work_spec func s0 (λ a s2, ∃ s1,
    others (set_output None s0) s1 ∧ func s1 = Ret (a, s2)))|].
  { intros s1 Hs1. pose proof (Hf s1) as H1. unfold wp in *.
    destruct (func s1) as [[a s2]| | | |] eqn:E; simpl in *; eauto. }
  intros [ran o] s' [(a & s2 & [= -> ->] & (s1 & Hs1 & E) & Ho)|[Hran Ho]]; simpl in *.
  - wp_steps. exists s0. split; [done|]. simpl. eauto 10.
  - rewrite Hran. wp_steps. exists s0. simpl. auto.
Qed.
End Promises.

(** ** A pool on which the theorem applies *)

Module SimPool.
(** The pool has free threads; each runs one work. *)
Record Process : Type := mkProcess { p_output : option Z; p_threads : nat; p_runs : list Z }.

Definition submit (work : Work Process) (request : ReqPtr) : M Process CancelWork :=
  work;; mret request.

#[export] Instance pool_engine : EngineImpl Process := {|
  has_work := λ _, false;
  work := λ _, mret (Ok tt);
  prepare_wake := mret (Ok tt);
  wake := λ _, mret (Ok tt);
  start_work := submit;
  cancel_work := λ _, mret tt;
  cancel := λ _, mret (Ok tt);
  start := λ _ _, panic;
  kind := λ _ _, Async
|}.

(** Without a free thread the wait is interrupted. *)
Definition wait (f : ReqPtr → M Process (Progress bool)) : M Process bool := λ p,
  match p_threads p with
  | O => Ret (false, p)
  | Datatypes.S n =>
      (_ ← f 1; modify (λ p, mkProcess (p_output p) n (p_runs p));; mret true) p
  end.

Definition set_output (o : option Z) (p : Process) : Process :=
  mkProcess o (p_threads p) (p_runs p).

(** Others use threads and cannot be seen otherwise. *)
Definition others (p p' : Process) : Prop :=
  p_output p' = p_output p ∧ p_runs p' = p_runs p.

#[export] Instance others_order : PreOrder others.
Proof.
  split; [by intros p|]. intros p1 p2 p3 [? ?] [? ?]. split; congruence.
Qed.

(** The closure adds up. *)
Definition sum (x y : Z) : M Process Z :=
  modify (λ p, mkProcess (p_output p) (p_threads p) (p_runs p ++ [x + y]));; mret (x + y).
End SimPool.

#[local] Existing Instances SimPool.pool_engine SimPool.others_order.

Lemma blocking_runs_once_witness :
  let s := SimPool.mkProcess None 1 [] in
  wp False (run_blocking (mret (Ok tt)) (await_work SimPool.wait SimPool.p_output SimPool.set_output)
      (SimPool.sum 2 3)) s (λ r s',
    ∃ s0, SimPool.others s s0 ∧
    match r with
    | Ok a => ∃ s1 s2, SimPool.others (SimPool.set_output None s0) s1 ∧
        SimPool.sum 2 3 s1 = Ret (a, s2) ∧ SimPool.others (SimPool.set_output (Some a) s2) s'
    | Err _ => s' = s0 ∨ SimPool.others (SimPool.set_output None s0) s'
    end).
Proof.
  apply (blocking_runs_once False (mret (Ok tt)) SimPool.wait SimPool.p_output SimPool.set_output
    SimPool.others).
  - done.
  - by intros s s' [H _].
  - done.
  - intros work s P Hw. unfold wp, SimPool.wait. destruct (SimPool.p_threads s); [done|].
    change (wp False (_ ← driver_run_work work 1;
      modify (λ p, SimPool.mkProcess (SimPool.p_output p) n (SimPool.p_runs p));; mret true) s
      (λ ran s', if ran : bool then ∃ s1, P s1 ∧ SimPool.others s1 s' else SimPool.others s s')).
    unfold driver_run_work, engine_run_work, start_work, SimPool.pool_engine, SimPool.submit.
    wp_steps. eapply wp_mono; [by apply Hw|]. intros u s1 HP. wp_steps. by exists s1.
  - done.
Defined.
