(* ===== verification/ReadDir.v ===== *)
(** * Directories (src/src/fs/readdir.rs) and blocking work (src/src/ops/blocking.rs)

    [ReadDir] walks over the entries of a directory: xx-core's [DirEnts] caches a
    block of entries at a time and is refilled on the thread pool, since there is
    no asynchronous operation for it.  [DirEnts], the pool and the interrupt check
    are parameters.  The theorems: whatever calls fail or are cancelled in between,
    the entries come out exactly once and in order, without the two entries for
    the directory and its parent, and opening a directory leaks no descriptor. *)

From stdpp Require Import base list numbers gmap strings tactics.
From S2P Require Import Prelude Engine Driver DriverSpec IoOps Fs Socket Blocking.

(** ** Data *)

(** [DirentDef]: names are their bytes. *)
Record Dirent : Type := mkDirent {
  ino : Z;
  off : Z;
  reclen : Z;
  ty : Z;
  name : list Z
}.

Record Dir : Type := mkDir { dir_path : Z; dir_fd : Z }.

Record DirEntry : Type := mkDirEntry { entry_dir : Dir; ent : Dirent }.

Record ReadDir (D : Type) : Type := mkReadDir { read_dir_dir : Dir; entries : D }.

Arguments mkReadDir {D} read_dir_dir entries.
Arguments read_dir_dir {D} r : rename.
Arguments entries {D} r : rename.

Definition set_entries {D} (d : D) (r : ReadDir D) : ReadDir D := mkReadDir (read_dir_dir r) d.

Definition file_name (self : DirEntry) : list Z := name (ent self).

(** [path], with [PathBuf::join] *)
Definition entry_path (join : Z → list Z → Z) (self : DirEntry) : Z :=
  join (dir_path (entry_dir self)) (file_name self).

Definition entry_ino (self : DirEntry) : Z := ino (ent self).

(** [file_type], with xx-core's [DirentDef::file_type] *)
Definition entry_file_type (dirent_type : Dirent → option DirentType) (self : DirEntry) :
    outcome FileType :=
  t ← unwrap (dirent_type (ent self)); Ret (mkFileType t).

(** The [Debug] instances: the fields that are shown, with what is shown of each. *)
Inductive DebugValue : Type :=
| ShowPath (path : Z)
| ShowNumber (n : Z)
| ShowType (t : DirentType).

Definition DirEntry_debug (join : Z → list Z → Z) (dirent_type : Dirent → option DirentType)
    (self : DirEntry) : list (string * DebugValue) :=
  [("path"%string, ShowPath (entry_path join self)); ("inode"%string, ShowNumber (ino (ent self)));
   ("offset"%string, ShowNumber (off (ent self)));
   ("type"%string,
     match dirent_type (ent self) with Some ty => ShowType ty | None => ShowNumber (ty (ent self)) end)].

Definition ReadDir_debug {D} (self : ReadDir D) : list (string * DebugValue) :=
  [("fd"%string, ShowNumber (dir_fd (read_dir_dir self)));
   ("path"%string, ShowPath (dir_path (read_dir_dir self)))].

(** [c"."] and [c".."] *)
Definition dot : list Z := [46].
Definition dot_dot : list Z := [46; 46].

(** [OpenFlag::{Directory | LargeFile | CloseOnExec | NonBlock}] *)
Definition ReadDirFlags : Z := 65536 + 32768 + 524288 + 2048.

(** The fields of [Statx] that are used, over the type [T] of file types. *)
Record DirStat (T : Type) : Type := mkDirStat { stat_type : option T; stat_block_size : Z }.

Arguments mkDirStat {T} stat_type stat_block_size.
Arguments stat_type {T} d : rename.
Arguments stat_block_size {T} d : rename.

(** ** Iteration *)

Section Iteration.
Context {S D : Type} (check_interrupt : M S (Result unit)).
(** [Blocking.await_work] *)
Context (run_work : M S (OsResult unit * D) → M S (bool * option (OsResult unit * D))).

(** xx-core's [DirEnts]; [TaskContext::cancelled]. *)
Context (is_eof has_next_cached : D → bool) (next_entry : D → option Dirent * D).
Context (read_from_fd : Z → D → M S (OsResult unit * D)) (cancelled : M S bool).

(** The closure that refills the cache: interrupted calls are repeated. *)
Fixpoint refill (fuel : nat) (fd : Z) (d : D) : M S (OsResult unit * D) :=
  match fuel with
  | O => no_fuel
  | Datatypes.S fuel =>
      result ← read_from_fd fd d;
      match result with
      | (Err e, d) =>
          stop ← (if e =? Os.Intr then cancelled else mret true);
          if stop : bool then mret (Err e, d) else refill fuel fd d
      | _ => mret result
      end
  end.

(** [ReadDir::next]: [fuel] bounds the rounds, [retries] those of [refill]. *)
Fixpoint ReadDir_next (fuel retries : nat) (self : ReadDir D) :
    M S (Result (option DirEntry) * ReadDir D) :=
  if is_eof (entries self) then mret (Ok None, self)
  else
    match fuel with
    | O => no_fuel
    | Datatypes.S fuel =>
        if negb (has_next_cached (entries self)) then
          r ← run_blocking check_interrupt run_work
                (refill retries (dir_fd (read_dir_dir self)) (entries self));
          match r with
          | Err e => mret (Err e, self)
          | Ok (Err e, d) => mret (Err (ErrOs e), set_entries d self)
          | Ok (Ok _, d) => ReadDir_next fuel retries (set_entries d self)
          end
        else
          let '(entry, d) := next_entry (entries self) in
          let self := set_entries d self in
          entry ← lift (unwrap entry);
          if bool_decide (name entry = dot) || bool_decide (name entry = dot_dot) then
            ReadDir_next fuel retries self
          else
            mret (Ok (Some (mkDirEntry (read_dir_dir self) entry)), self)
    end.

(** [AsyncIterator::next]: [Result<Option<T>>::transpose]. *)
Definition iter_next (fuel retries : nat) (self : ReadDir D) :
    M S (option (Result DirEntry) * ReadDir D) :=
  r ← ReadDir_next fuel retries self;
  mret (match r.1 with
        | Ok (Some e) => Some (Ok e)
        | Ok None => None
        | Err e => Some (Err e)
        end, r.2).

(** A number of calls, their results in order. *)
Fixpoint iterate (calls fuel retries : nat) (self : ReadDir D) :
    M S (list (option (Result DirEntry)) * ReadDir D) :=
  match calls with
  | O => mret ([], self)
  | Datatypes.S calls =>
      r ← iter_next fuel retries self;
      rs ← iterate calls fuel retries r.2;
      mret (r.1 :: rs.1, rs.2)
  end.
End Iteration.

(** ** Opening *)

Section Opening.
Context {S D T : Type} `{DriverState S} {io_engine : EngineImpl S} `{!EqDecision T}.
Context (block_on : (ReqPtr → M S (Progress Z)) → M S Z).
Context (check_interrupt : M S (Result unit)) (syscall_result : Z → OsResult Z).
Context (drop_fd : Z → M S unit) (path_as_cstr : Z → Result Z) (EMPTY_PATH : Z).
Context (into_raw_dirfd : option Z → Z).

(** The [Statx] on the stack, [dirent::FileType::Directory] and
    [DirEnts::new_from_block_size]. *)
Context (statx_ptr : Z) (load_statx : M S (DirStat T)) (Directory : T).
Context (new_from_block_size : Z → D).

(** The descriptor is dropped on every return but the last. *)
Definition read_dir (path : Z) : M S (Result (ReadDir D)) :=
  fd ←? io_open block_on check_interrupt syscall_result path_as_cstr path ReadDirFlags 0;
  r ← io_statx_fd block_on check_interrupt syscall_result EMPTY_PATH fd 0 0 statx_ptr;
  match r with
  | Err e => drop_fd fd;; mret (Err e)
  | Ok _ =>
      statx ← load_statx;
      if negb (bool_decide (stat_type statx = Some Directory)) then
        drop_fd fd;;
        mret (Err (ErrOs Os.NotDir))
      else
        let entries := new_from_block_size (stat_block_size statx) in
        mret (Ok (mkReadDir (mkDir path fd) entries))
  end.

(** [name] is the address of the entry's name. *)
Definition entry_metadata (self : DirEntry) (name : Z) : M S (Result (DirStat T)) :=
  _ ←? io_statx block_on check_interrupt syscall_result path_as_cstr into_raw_dirfd
         (Some (dir_fd (entry_dir self))) name 0 0 statx_ptr;
  statx ← load_statx;
  mret (Ok statx).
End Opening.

(** ** What the iteration delivers *)

(** The entries that are not the directory itself or its parent. *)
Definition hidden (e : Dirent) : Prop := name e = dot ∨ name e = dot_dot.
#[global] Arguments hidden : simpl never.

#[export] Instance hidden_dec e : Decision (hidden e).
Proof. unfold hidden. apply _. Defined.

Definition visible (l : list Dirent) : list Dirent := filter (λ e, ¬ hidden e) l.

(** The entries that a sequence of calls returned. *)
Definition returned (rs : list (option (Result DirEntry))) : list DirEntry :=
  omap (λ r, match r with Some (Ok e) => Some e | _ => None end) rs.

Lemma hidden_bool e :
  bool_decide (name e = dot) || bool_decide (name e = dot_dot) = bool_decide (hidden e).
Proof.
  unfold hidden. rewrite <- bool_decide_or. done.
Qed.

Section Delivery.
Context {S D : Type} (fatal : Prop) (check_interrupt : M S (Result unit)).
(** [Blocking.await_work] *)
Context (run_work : M S (OsResult unit * D) → M S (bool * option (OsResult unit * D))).
Context (is_eof has_next_cached : D → bool) (next_entry : D → option Dirent * D).
Context (read_from_fd : Z → D → M S (OsResult unit * D)) (cancelled : M S bool).

(** The entries a descriptor has not delivered yet, a bound on the calls that
    signals may still interrupt, and the entries in the cache. *)
Context (unread : Z → S → list Dirent) (signals : S → nat) (cached : D → list Dirent).

(** What happens while the task waits: nobody else reads the descriptor. *)
Definition waits (s s' : S) : Prop :=
  (∀ fd, unread fd s' = unread fd s) ∧ (signals s' ≤ signals s)%nat.

Context (Hcheck : ∀ s, wp fatal check_interrupt s (λ _ s', waits s s')).
Context (Hcancelled : ∀ s, wp fatal cancelled s (λ _ s', waits s s')).

(** The pool runs the closure once, or not at all. *)
Context (Hwork : ∀ m s (P : OsResult unit * D → S → Prop),
  (∀ s0, waits s s0 → wp fatal m s0 P) →
  wp fatal (run_work m) s (λ p s',
    (∃ a s1, p = (true, Some a) ∧ P a s1 ∧ waits s1 s') ∨ (p.1 = false ∧ waits s s'))).

(** [DirEnts] is a queue of entries; a read refills it with the next entries, if
    any, and otherwise sets the end mark; a failed read changes nothing. *)
Context (Hhas : ∀ d, has_next_cached d = negb (bool_decide (cached d = []))).
Context (Hnext : ∀ d e l, cached d = e :: l →
  ∃ d', next_entry d = (Some e, d') ∧ cached d' = l ∧ is_eof d' = is_eof d).
Context (Hread : ∀ fd d s, cached d = [] → is_eof d = false →
  wp fatal (read_from_fd fd d) s (λ p s',
    (signals s' ≤ signals s)%nat ∧ (p.1 = Err Os.Intr → (signals s' < signals s)%nat) ∧
    match p.1 with
    | Ok _ => unread fd s = cached p.2 ++ unread fd s' ∧
        is_eof p.2 = bool_decide (cached p.2 = []) ∧ (cached p.2 = [] → unread fd s' = [])
    | Err _ => cached p.2 = [] ∧ is_eof p.2 = false ∧ unread fd s' = unread fd s
    end)).

Local Abbreviation refill := (refill read_from_fd cancelled).
Local Abbreviation next := (ReadDir_next check_interrupt run_work is_eof has_next_cached
  next_entry read_from_fd cancelled).
Local Abbreviation iterate := (iterate check_interrupt run_work is_eof has_next_cached
  next_entry read_from_fd cancelled).

Lemma waits_trans s1 s2 s3 : waits s1 s2 → waits s2 s3 → waits s1 s3.
Proof. intros [U1 G1] [U2 G2]. split; [intros; by rewrite U2, U1|lia]. Qed.

(** What a refill does, whether it succeeds or not. *)
Definition refilled (fd : Z) (s : S) (p : OsResult unit * D) (s' : S) : Prop :=
  (signals s' ≤ signals s)%nat ∧ unread fd s = cached p.2 ++ unread fd s' ∧
  match p.1 with
  | Ok _ => is_eof p.2 = bool_decide (cached p.2 = []) ∧ (cached p.2 = [] → unread fd s' = [])
  | Err _ => cached p.2 = [] ∧ is_eof p.2 = false
  end.

Lemma refill_spec fuel fd d s :
  cached d = [] → is_eof d = false → (signals s < fuel)%nat →
  wp fatal (refill fuel fd d) s (refilled fd s).
Proof.
  revert d s. induction fuel as [|fuel IH]; intros d s Hd He Hf; [lia|].
  cbn [ReadDir.refill]. wp_steps. eapply wp_mono; [by apply Hread|].
  intros [[[]|e] d1] s1 (Hs1 & Hi & Hr); simpl in *.
  { destruct Hr as (? & ? & ?). by wp_steps. }
  destruct Hr as (Hc1 & He1 & Hu1).
  assert (refilled fd s (Err e, d1) s1) as Hstop by (unfold refilled; simpl; by rewrite Hc1, Hu1).
  destruct (Z.eqb_spec e Os.Intr) as [->|_]; wp_steps; [|done].
  specialize (Hi eq_refl). eapply wp_mono; [apply Hcancelled|]. intros stop s2 [Hu2 Hs2].
  destruct stop; wp_steps.
  - unfold refilled. simpl. rewrite Hc1, Hu2, Hu1. split_and!; (done || lia).
  - eapply wp_mono; [apply IH; [done..|lia]|]. intros p s3 (Hs3 & Hu3 & Hp3).
    split_and!; [lia| |done]. by rewrite <- Hu1, <- Hu2.
Qed.

(** The descriptor of the reader, and the entries it has still to deliver. *)
Local Abbreviation fd_of rd := (dir_fd (read_dir_dir rd)).
Definition left (rd : ReadDir D) (s : S) : list Dirent :=
  cached (entries rd) ++ unread (fd_of rd) s.

(** The end mark is only set at the end. *)
Definition reader_ok (rd : ReadDir D) (s : S) : Prop :=
  is_eof (entries rd) = true → left rd s = [].

(** The rounds of [next] that are left. *)
Definition rounds (rd : ReadDir D) (s : S) : nat :=
  (length (cached (entries rd)) + 2 * length (unread (fd_of rd) s) + 1)%nat.

(** The state after a call. *)
Definition advanced (yield : list Dirent) (rd : ReadDir D) (s : S) (rd' : ReadDir D) (s' : S) :
    Prop :=
  reader_ok rd' s' ∧ read_dir_dir rd' = read_dir_dir rd ∧ (signals s' ≤ signals s)%nat ∧
  (rounds rd' s' ≤ rounds rd s)%nat ∧ visible (left rd s) = yield ++ visible (left rd' s').

Lemma advanced_trans l1 l2 rd1 s1 rd2 s2 rd3 s3 :
  advanced l1 rd1 s1 rd2 s2 → advanced l2 rd2 s2 rd3 s3 → advanced (l1 ++ l2) rd1 s1 rd3 s3.
Proof.
  intros (_ & Hd1 & Hs1 & Hr1 & Hv1) (Hok & Hd2 & Hs2 & Hr2 & Hv2).
  split_and!; [done|congruence|lia|lia|]. by rewrite Hv1, Hv2, app_assoc.
Qed.

Definition next_post (rd : ReadDir D) (s : S) (p : Result (option DirEntry) * ReadDir D) (s' : S) :
    Prop :=
  match p.1 with
  | Ok (Some e) => entry_dir e = read_dir_dir rd ∧ advanced [ent e] rd s p.2 s'
  | Ok None => left p.2 s' = [] ∧ advanced [] rd s p.2 s'
  | Err _ => advanced [] rd s p.2 s'
  end.

Lemma next_post_after rd s rd1 s1 p s' :
  advanced [] rd s rd1 s1 → next_post rd1 s1 p s' → next_post rd s p s'.
Proof.
  intros Ha. pose proof Ha as (_ & Hd & _). unfold next_post.
  destruct p as [[[e|]|e] rd']; simpl; [intros [He H2]|intros [He H2]|intros H2];
    rewrite ?Hd in *; try (split; [congruence|]); by apply (advanced_trans [] _ _ _ _ _ _ _ Ha).
Qed.

Lemma waits_advanced rd s s' : reader_ok rd s → waits s s' → advanced [] rd s rd s'.
Proof.
  intros Hok [Hu Hs]. unfold advanced, reader_ok, rounds, left in *. rewrite !Hu.
  split_and!; (done || lia).
Qed.

Lemma refilled_advanced rd p s s' :
  cached (entries rd) = [] → refilled (fd_of rd) s p s' →
  advanced [] rd s (set_entries p.2 rd) s' ∧
  (p.1 = Ok tt → is_eof p.2 = true ∨ (rounds (set_entries p.2 rd) s' < rounds rd s)%nat).
Proof.
  destruct p as [r d]. intros Hc (Hs & Hu & Hp). simpl in *.
  unfold advanced, reader_ok, rounds, left. simpl. rewrite Hc, Hu, length_app. simpl. split.
  - split_and!; try (done || lia). destruct r as [[]|e].
    + destruct Hp as [-> He]. intros Hb%bool_decide_eq_true_1. by rewrite Hb, (He Hb).
    + destruct Hp as [_ ->]. done.
  - intros ->. destruct Hp as [-> _]. case_bool_decide as Hb; [by left|right].
    destruct (cached d); [done|]. simpl. lia.
Qed.

(** Refilling an empty cache on the pool: the directory is where it was, or closer to
    its end. *)
Lemma blocking_refill_spec retries rd s :
  reader_ok rd s → (signals s < retries)%nat → is_eof (entries rd) = false →
  cached (entries rd) = [] →
  wp fatal (run_blocking check_interrupt run_work (refill retries (fd_of rd) (entries rd))) s (λ r s',
    match r with
    | Err _ => advanced [] rd s rd s'
    | Ok p => advanced [] rd s (set_entries p.2 rd) s' ∧
        (p.1 = Ok tt → is_eof p.2 = true ∨ (rounds (set_entries p.2 rd) s' < rounds rd s)%nat)
    end).
Proof.
  intros Hok Hs He Hc. unfold run_blocking. wp_steps.
  eapply wp_mono; [apply Hcheck|]. intros [[]|e] s1 Hw1; wp_steps; [|by apply waits_advanced].
  eapply wp_mono; [apply (Hwork _ _ (refilled (fd_of rd) s))|].
  { intros s0 Hw0. destruct (waits_trans _ _ _ Hw1 Hw0) as [Hu0 Hs0].
    eapply wp_mono; [apply refill_spec; [done..|lia]|]. intros p s2 (G1 & G2 & G3).
    split_and!; [lia|by rewrite <- Hu0|done]. }
  intros [ran output] s2 [(p & s3 & E & Hr & Hw3)|[E Hw2]]; simplify_eq/=; wp_steps.
  2:{ apply waits_advanced; [done|]. by eapply waits_trans. }
  simpl. wp_steps. destruct (refilled_advanced rd p s s3 Hc Hr) as [Ha Hdec].
  pose proof (waits_advanced _ _ _ (proj1 Ha) Hw3) as Ha3. simpl. split.
  - by apply (advanced_trans _ _ _ _ _ _ _ _ Ha Ha3).
  - intros Hp. destruct (Hdec Hp) as [?|Hlt]; [by left|right].
    destruct Ha3 as (_ & _ & _ & ? & _). lia.
Qed.

(** Taking the next entry out of the cache. *)
Lemma take_advanced rd e l d s :
  is_eof (entries rd) = false → cached (entries rd) = e :: l → cached d = l →
  is_eof d = is_eof (entries rd) →
  advanced (visible [e]) rd s (set_entries d rd) s ∧
  rounds rd s = (1 + rounds (set_entries d rd) s)%nat.
Proof.
  intros He Hc Hcd Hed.
  assert (left rd s = e :: left (set_entries d rd) s) as Hl
    by (unfold left; simpl; by rewrite Hc, Hcd).
  assert (rounds rd s = 1 + rounds (set_entries d rd) s)%nat as Hrd
    by (unfold rounds; simpl; by rewrite Hc, Hcd).
  split; [|done]. split_and!; try done; [|lia|].
  - unfold reader_ok. simpl. by rewrite Hed, He.
  - rewrite Hl. unfold visible. by rewrite <- list.filter_app.
Qed.

Lemma next_spec fuel retries rd s :
  reader_ok rd s → (signals s < retries)%nat →
  is_eof (entries rd) = true ∨ (rounds rd s ≤ fuel)%nat →
  wp fatal (next fuel retries rd) s (next_post rd s).
Proof.
  revert rd s. induction fuel as [|fuel IH]; intros rd s Hok Hs Hf;
    unfold ReadDir_next; fold next; destruct (is_eof (entries rd)) eqn:He.
  1, 3: wp_steps; unfold next_post; simpl; split; [by apply Hok|];
    apply waits_advanced; [done|by split].
  { destruct Hf as [|Hf]; [done|]. unfold rounds in Hf. lia. }
  destruct Hf as [|Hf]; [done|]. rewrite Hhas, negb_involutive.
  destruct (cached (entries rd)) as [|e l] eqn:Hc; simpl.
  - wp_steps. eapply wp_mono; [by apply blocking_refill_spec|].
    intros [[[[]|e] d]|e] s2; simpl; [intros [Ha Hdec]|intros [Ha _]|intros Ha]; wp_steps; try done.
    eapply wp_mono; [apply IH|].
    + apply Ha.
    + destruct Ha as (_ & _ & ? & _). lia.
    + destruct (Hdec eq_refl); [by left|right; lia].
    + intros r s' Hr'. by eapply next_post_after.
  - destruct (Hnext _ _ _ Hc) as (d & -> & Hcd & Hed). wp_steps. simpl. wp_steps.
    rewrite hidden_bool. destruct (take_advanced rd e l d s He Hc Hcd Hed) as [Ha Hrd].
    unfold visible in Ha. case_bool_decide as Hh; wp_steps.
    + rewrite filter_cons_False in Ha by tauto.
      eapply wp_mono; [apply IH; [apply Ha|done|right; lia]|].
      intros r s' Hr'. by eapply next_post_after.
    + unfold next_post. simpl. split; [done|]. by rewrite filter_cons_True in Ha by done.
Qed.

Lemma iterate_spec calls fuel retries rd s :
  reader_ok rd s → (signals s < retries)%nat → (rounds rd s ≤ fuel)%nat →
  wp fatal (iterate calls fuel retries rd) s (λ p s',
    advanced (ent <$> returned p.1) rd s p.2 s' ∧
    Forall (λ e, entry_dir e = read_dir_dir rd) (returned p.1) ∧
    (None ∈ p.1 → visible (left rd s) = ent <$> returned p.1)).
Proof.
  revert rd s. induction calls as [|calls IH]; intros rd s Hok Hs Hf; cbn [ReadDir.iterate].
  { wp_steps. simpl. split_and!; [|constructor|by intros ?%elem_of_nil].
    apply waits_advanced; [done|by split]. }
  unfold iter_next. wp_steps. eapply wp_mono; [apply next_spec; [done|done|by right]|].
  intros [r rd1] s1 Hr. wp_steps. cbn [fst snd] in *.
  set (x := match r with Ok (Some e) => Some (Ok e) | Ok None => None | Err e => Some (Err e) end).
  assert (advanced (ent <$> returned [x]) rd s rd1 s1 ∧
    Forall (λ e, entry_dir e = read_dir_dir rd) (returned [x]) ∧
    (x = None → left rd1 s1 = [])) as (Ha & Hd & Hn).
  { unfold next_post, x in *. destruct r as [[e|]|e]; simpl in *; naive_solver. }
  clearbody x. clear Hr r. pose proof Ha as (Hok1 & Hdir & Hs1 & Hr1 & Hv1).
  eapply wp_mono; [apply IH; [done|lia|lia]|]. intros [rs rd2] s2 (Ha2 & Hd2 & Hn2). wp_steps.
  cbn [fst snd] in *. assert (returned (x :: rs) = returned [x] ++ returned rs) as ->
    by (unfold returned; by rewrite <- omap_app).
  rewrite fmap_app. split_and!.
  - by eapply advanced_trans.
  - apply Forall_app. split; [done|]. by rewrite <- Hdir.
  - rewrite Hv1. intros [<-|Hin]%elem_of_cons; f_equal; [|by apply Hn2].
    destruct Ha2 as (_ & _ & _ & _ & Hv2). rewrite (Hn eq_refl) in *. simpl in *.
    symmetry in Hv2. by apply app_nil in Hv2 as [-> _].
Qed.

(** C19: any number of calls of the iterator, of which any may fail or be
    interrupted, return, and return entries of the directory exactly once, in
    order, without the entries [.] and [..]; none is lost by a call that fails, and
    the end is only reported once every entry was returned. *)
Theorem read_dir_yields_all calls fuel retries rd s :
  reader_ok rd s → (signals s < retries)%nat → (rounds rd s ≤ fuel)%nat →
  wp fatal (iterate calls fuel retries rd) s (λ p s',
    visible (left rd s) = (ent <$> returned p.1) ++ visible (left p.2 s') ∧
    Forall (λ e, entry_dir e = read_dir_dir rd) (returned p.1) ∧
    (None ∈ p.1 → visible (left rd s) = ent <$> returned p.1)).
Proof.
  intros Hok Hs Hf. eapply wp_mono; [by apply iterate_spec|].
  intros p s' ((_ & _ & _ & _ & Hv) & Hd & Hn). done.
Qed.
End Delivery.

#[global] Arguments ReadDir_next : simpl never.

(** ** Descriptors *)

Lemma opened_dropped (fd : Z) (X Y : gset Z) :
  fd ∉ X → Y = {[ fd ]} ∪ X → Y ∖ {[ fd ]} = X.
Proof. set_solver. Qed.

Section Descriptors.
Context {S D T : Type} `{DriverState S} {io_engine : EngineImpl S} `{!EqDecision T} (fatal : Prop).
Context (block_on : (ReqPtr → M S (Progress Z)) → M S Z).
Context (check_interrupt : M S (Result unit)) (syscall_result : Z → OsResult Z).
Context (drop_fd : Z → M S unit) (path_as_cstr : Z → Result Z) (EMPTY_PATH : Z).
Context (statx_ptr : Z) (load_statx : M S (DirStat T)) (Directory : T).
Context (new_from_block_size : Z → D).

(** The descriptors that are open, the type of the file behind one and what the
    last call stored in the [Statx]. *)
Context (open_fds : S → gset Z) (type_of : Z → option T) (stored : S → DirStat T).

Local Abbreviation raw_op := (raw_op block_on check_interrupt syscall_result).

(** [openat(2)] opens one descriptor, [statx(2)] and [close(2)]. *)
Context (Hopen : ∀ path flags mode s, wp fatal (raw_op false (Oopen path flags mode)) s (λ r s',
  match r with
  | Ok fd => (fd ∉ open_fds s) ∧ open_fds s' = ({[ fd ]} ∪ open_fds s)
  | Err _ => open_fds s' = open_fds s
  end)).
Context (Hstatx : ∀ fd path flags mask s,
  wp fatal (raw_op false (Ostatx fd path flags mask statx_ptr)) s (λ r s',
    open_fds s' = open_fds s ∧
    match r with Ok _ => stat_type (stored s') = type_of fd | Err _ => True end)).
Context (Hload : ∀ s, load_statx s = Ret (stored s, s)).
Context (Hdrop : ∀ fd s, wp fatal (drop_fd fd) s (λ _ s', open_fds s' = open_fds s ∖ {[ fd ]})).

(** C31: opening a directory either returns a reader of it whose descriptor is the
    only one that was opened, or leaves no descriptor open, wherever it failed;
    what is not a directory is refused. *)
Theorem read_dir_leaks_nothing path s :
  wp fatal (read_dir block_on check_interrupt syscall_result drop_fd path_as_cstr EMPTY_PATH
      statx_ptr load_statx Directory new_from_block_size path) s (λ r s',
    match r with
    | Ok rd => let fd := dir_fd (read_dir_dir rd) in
        (fd ∉ open_fds s) ∧ open_fds s' = ({[ fd ]} ∪ open_fds s) ∧
        type_of fd = Some Directory
    | Err _ => open_fds s' = open_fds s
    end).
Proof.
  unfold read_dir, io_open, with_path_as_cstr. wp_step. destruct (path_as_cstr path); [|by wp_steps].
  eapply wp_mono; [apply Hopen|]. intros [fd|e] s1 Hs1; [|done]. destruct Hs1 as [Hn Ho].
  unfold io_statx_fd. wp_steps. eapply wp_mono; [apply Hstatx|]. intros [v|e] s2 [Ho2 Ht]; wp_steps.
  - assert (wp fatal load_statx s2 (λ v s', v = stored s2 ∧ s' = s2)) as Hl
      by (unfold wp; by rewrite Hload).
    eapply wp_mono; [exact Hl|]. intros st s3 [-> ->].
    case_bool_decide as Hd; simpl; wp_steps;
      [split_and!; simpl; congruence|].
    eapply wp_mono; [apply Hdrop|]. intros ? s3 Ho3. wp_steps.
    rewrite Ho3. apply opened_dropped; congruence.
  - eapply wp_mono; [apply Hdrop|]. intros ? s3 Ho3. wp_steps.
    rewrite Ho3. apply opened_dropped; congruence.
Qed.
End Descriptors.

(** ** A directory on which the theorems apply *)

Module SimDir.
Record Process : Type := mkProcess {
  p_driver : Driver;
  p_open : gset Z;
  p_unread : list Dirent;
  p_signals : nat
}.

#[export] Instance dir_driver : DriverState Process := {|
  driver := p_driver;
  set_driver := λ d p, mkProcess d (p_open p) (p_unread p) (p_signals p);
  driver_set := λ d p, eq_refl
|}.

(** Descriptors 0 to 2 are open, the next one is 3; only that is a directory. *)
Definition filesystem (op : Operation) : M Process (option Z) := λ p,
  match op with
  | Oopen _ _ _ =>
      if bool_decide (3 ∈ p_open p) then Ret (Some (-24), p)
      else Ret (Some 3, mkProcess (p_driver p) ({[ 3 ]} ∪ p_open p) (p_unread p) (p_signals p))
  | _ => Ret (Some 0, p)
  end.

#[export] Instance dir_engine : EngineImpl Process := {|
  has_work := λ _, false;
  work := λ _, mret (Ok tt);
  prepare_wake := mret (Ok tt);
  wake := λ _, mret (Ok tt);
  start_work := λ work _, work;; mret 0;
  cancel_work := λ _, mret tt;
  cancel := λ _, mret (Ok tt);
  start := λ op _, filesystem op;
  kind := λ _ _, Async
|}.

Definition await (f : ReqPtr → M Process (Progress Z)) : M Process Z :=
  p ← f 1; match p with Done v => mret v | Pending _ => panic end.

Definition drop (fd : Z) : M Process unit :=
  modify (λ p, mkProcess (p_driver p) (p_open p ∖ {[ fd ]}) (p_unread p) (p_signals p)).

(** The cache and the end mark; a read delivers at most two entries, unless a
    signal interrupts it. *)
Definition Cache : Type := list Dirent * bool.

Definition next_entry (d : Cache) : option Dirent * Cache :=
  match d with (e :: l, b) => (Some e, (l, b)) | ([], b) => (None, ([], b)) end.

Definition read_from_fd (fd : Z) (d : Cache) : M Process (OsResult unit * Cache) := λ p,
  match p_signals p with
  | Datatypes.S n => Ret ((Err Os.Intr, d), mkProcess (p_driver p) (p_open p) (p_unread p) n)
  | O =>
      let l := take 2 (p_unread p) in
      Ret ((Ok tt, (l, bool_decide (l = []))),
        mkProcess (p_driver p) (p_open p) (list.drop 2 (p_unread p)) O)
  end.

Definition run_work {A : Type} (m : M Process A) : M Process (bool * option A) :=
  a ← m; mret (true, Some a).

Definition entry (i : Z) (name : list Z) : Dirent := mkDirent i 0 24 8 name.

Definition process : Process :=
  mkProcess (mkDriver [] false []) {[ 0; 1; 2 ]}
    [entry 1 dot; entry 2 dot_dot; entry 3 [97]; entry 4 [46; 98]; entry 5 [99]] 1.

Definition reader : ReadDir Cache := mkReadDir (mkDir 4096 3) ([], false).

Lemma pool_runs {A} (m : M Process A) s (P : A → Process → Prop) :
  (∀ s0, waits (λ _, p_unread) p_signals s s0 → wp False m s0 P) →
  wp False (run_work m) s (λ p s',
    (∃ a s1, p = (true, Some a) ∧ P a s1 ∧ waits (λ _, p_unread) p_signals s1 s') ∨
    (p.1 = false ∧ waits (λ _, p_unread) p_signals s s')).
Proof.
  intros Hm. unfold run_work. wp_steps. eapply wp_mono; [apply Hm; by split|].
  intros a s1 HP. wp_steps. left. exists a, s1. by split_and!.
Qed.

Lemma reads fd (d : Cache) s :
  d.1 = [] → d.2 = false →
  wp False (read_from_fd fd d) s (λ p s',
    (p_signals s' ≤ p_signals s)%nat ∧
    (p.1 = Err Os.Intr → (p_signals s' < p_signals s)%nat) ∧
    match p.1 with
    | Ok _ => p_unread s = p.2.1 ++ p_unread s' ∧
        p.2.2 = bool_decide (p.2.1 = []) ∧ (p.2.1 = [] → p_unread s' = [])
    | Err _ => p.2.1 = [] ∧ p.2.2 = false ∧ p_unread s' = p_unread s
    end).
Proof.
  intros Hd He. unfold read_from_fd, wp. destruct s as [dr o [|a [|b l]] [|n]]; simpl;
    split_and!; (done || lia).
Qed.

Lemma opens path flags mode p :
  wp False (raw_op await (mret (Ok tt)) sample_syscall_result false (Oopen path flags mode)) p
    (λ r p', match r with
     | Ok fd => (fd ∉ p_open p) ∧ p_open p' = ({[ fd ]} ∪ p_open p)
     | Err _ => p_open p' = p_open p
     end).
Proof.
  assert (wp False (filesystem (Oopen path flags mode)) p (λ r p',
    (r = Some (-24) ∧ p' = p) ∨
    (r = Some 3 ∧ (3 ∉ p_open p) ∧ p_open p' = ({[ 3 ]} ∪ p_open p)))) as Hfs.
  { unfold wp, filesystem. case_bool_decide; [by left|by right]. }
  unfold raw_op, check_exiting, gets_driver. cbn [negb]. wp_steps.
  destruct (exiting (driver p)); wp_steps; [done|].
  unfold await, driver_task, engine_task. cbn [negb]. wp_steps. eapply wp_mono; [exact Hfs|].
  intros r p' [[-> ->]|(-> & Hn & Ho)]; by wp_steps.
Qed.

Lemma stats fd path flags mask p :
  wp False (raw_op await (mret (Ok tt)) sample_syscall_result false
      (Ostatx fd path flags mask 8192)) p
    (λ r p', p_open p' = p_open p ∧ match r with Ok _ => Some 4 = Some 4 | Err _ => True end).
Proof.
  unfold raw_op, wp, bind_ok, check_exiting, gets_driver, gets, mbind, M_bind. simpl.
  by destruct (exiting (p_driver p)).
Qed.
End SimDir.

#[local] Existing Instances SimDir.dir_driver SimDir.dir_engine.

Lemma read_dir_yields_all_witness :
  wp False (iterate (mret (Ok tt)) SimDir.run_work snd (λ d, negb (bool_decide (d.1 = [])))
      SimDir.next_entry SimDir.read_from_fd (mret false) 4 20 2 SimDir.reader) SimDir.process
    (λ p s', visible (SimDir.p_unread SimDir.process) =
        (ent <$> returned p.1) ++ visible (left (λ _, SimDir.p_unread) fst p.2 s') ∧
      Forall (λ e, entry_dir e = mkDir 4096 3) (returned p.1) ∧
      (None ∈ p.1 → visible (SimDir.p_unread SimDir.process) = ent <$> returned p.1)).
Proof.
  apply (read_dir_yields_all False (mret (Ok tt)) SimDir.run_work snd
    (λ d, negb (bool_decide (d.1 = []))) SimDir.next_entry SimDir.read_from_fd (mret false)
    (λ _, SimDir.p_unread) SimDir.p_signals fst) with (rd := SimDir.reader).
  - intros s. by split.
  - intros s. by split.
  - apply SimDir.pool_runs.
  - intros d. reflexivity.
  - intros [l b] e l' E. simpl in E. subst l. eexists. split; [reflexivity|]. by split.
  - apply SimDir.reads.
  - discriminate.
  - simpl. lia.
  - vm_compute. lia.
Defined.

Lemma read_dir_leaks_nothing_witness :
  wp False (read_dir (D := SimDir.Cache) SimDir.await (mret (Ok tt)) sample_syscall_result
      SimDir.drop (λ path, Ok path) 0 8192 (mret (mkDirStat (Some 4) 4096)) 4 (λ _, ([], false)) 512)
    SimDir.process (λ r s',
    match r with
    | Ok rd => let fd := dir_fd (read_dir_dir rd) in
        (fd ∉ (SimDir.p_open SimDir.process)) ∧
        SimDir.p_open s' = ({[ fd ]} ∪ (SimDir.p_open SimDir.process)) ∧ Some 4 = Some 4
    | Err _ => SimDir.p_open s' = (SimDir.p_open SimDir.process)
    end).
Proof.
  apply (read_dir_leaks_nothing False SimDir.await (mret (Ok tt)) sample_syscall_result
    SimDir.drop (λ path, Ok path) 0 8192 (mret (mkDirStat (Some 4) 4096)) 4 (λ _, ([], false))
    SimDir.p_open (λ _, Some 4) (λ _, mkDirStat (Some 4) 4096)).
  - apply SimDir.opens.
  - apply SimDir.stats.
  - reflexivity.
  - reflexivity.
Defined.
