(* ===== verification/Runtime.v ===== *)
(** * The runtime (src/src/runtime.rs, src/src/ops/branch.rs): workers and shutdown

    Spawned tasks are linked into the runtime's list of workers by a node on
    their own stack, and unlink themselves when they end, from whichever list
    they are in.  Dropping the runtime moves the workers to a second list,
    interrupts each of them and runs the driver to its end, until no worker is
    left.  The tasks are parameters: interrupting one, or running the driver, may
    end workers and spawn new ones at any time. *)

From stdpp Require Import base list numbers relations tactics.
From S2P Require Import Prelude.

(** A worker is known by the address of its node. *)
Abbreviation Worker := Z.

(** The runtime's list, the local list of [drop], and a log of what happened to
    the workers. *)
Record Runtime : Type := mkRuntime {
  workers : list Worker;
  moved_list : list Worker;
  spawned : list Worker;
  interrupted : list Worker;
  ended : list Worker
}.

(** [PulseWorker::new] and [append] of [spawn_entry]: the task starts. *)
Definition spawn_entry (w : Worker) (r : Runtime) : Runtime :=
  mkRuntime (workers r ++ [w]) (moved_list r) (spawned r ++ [w]) (interrupted r) (ended r).

(** [PulseWorker::drop]: the node is unlinked from the list it is in. *)
Definition worker_drop (w : Worker) (r : Runtime) : Runtime :=
  mkRuntime (filter (λ x, x ≠ w) (workers r)) (filter (λ x, x ≠ w) (moved_list r)) (spawned r)
    (interrupted r) (ended r ++ [w]).

(** [LinkedList::move_elements] to the new list *)
Definition move_elements (r : Runtime) : Runtime :=
  mkRuntime [] (moved_list r ++ workers r) (spawned r) (interrupted r) (ended r).

(** [pop_front] of the new list and [append] to the runtime's *)
Definition relink (w : Worker) (rest : list Worker) (r : Runtime) : Runtime :=
  mkRuntime (workers r ++ [w]) rest (spawned r) (interrupted r) (ended r).

Definition log_interrupt (w : Worker) (r : Runtime) : Runtime :=
  mkRuntime (workers r) (moved_list r) (spawned r) (interrupted r ++ [w]) (ended r).

Section Runtime.
Context {U : Type}.
Local Abbreviation S := (Runtime * U)%type.

(** xx-core's [Context::interrupt]; the shutdown of the driver. *)
Context (context_interrupt : Worker → M S (Result unit)) (driver_exit : M S unit).

Definition on_runtime (f : Runtime → Runtime) : M S unit := modify (λ s, (f s.1, s.2)).

(** [while let Some(node) = list.pop_front()] *)
Fixpoint interrupt_workers (fuel : nat) : M S unit :=
  list ← gets (λ s, moved_list s.1);
  match list with
  | [] => mret tt
  | node :: rest =>
      match fuel with
      | O => no_fuel
      | Datatypes.S fuel =>
          on_runtime (relink node rest);;
          on_runtime (log_interrupt node);;
          _ ← context_interrupt node;
          interrupt_workers fuel
      end
  end.

(** [Runtime::drop] *)
Fixpoint runtime_drop (fuel : nat) : M S unit :=
  match fuel with
  | O => no_fuel
  | Datatypes.S fuel =>
      on_runtime move_elements;;
      list ← gets (λ s, moved_list s.1);
      if bool_decide (list = []) then mret tt
      else
        interrupt_workers (length list);;
        driver_exit;;
        runtime_drop fuel
  end.
End Runtime.

#[global] Arguments interrupt_workers : simpl never.
#[global] Arguments runtime_drop : simpl never.

(** ** What tasks do to the lists *)

(** The workers that are linked. *)
Definition linked (r : Runtime) : list Worker := workers r ++ moved_list r.

Inductive worker_step : relation Runtime :=
| step_spawn w r : w ∉ linked r → worker_step r (spawn_entry w r)
| step_end w r : w ∈ linked r → worker_step r (worker_drop w r).

(** A node is linked once, and every worker is linked or has ended. *)
Record runtime_ok (r : Runtime) : Prop := {
  rt_nodup : NoDup (linked r);
  rt_conserved : linked r ++ ended r ≡ₚ spawned r
}.

Lemma filter_remove_perm (w : Z) (l : list Z) :
  NoDup l → w ∈ l → l ≡ₚ w :: filter (λ x, x ≠ w) l.
Proof.
  intros Hn Hw. apply NoDup_Permutation; [done| |].
  - constructor; [rewrite list_elem_of_filter; naive_solver|by apply list.NoDup_filter].
  - intros x. rewrite elem_of_cons, list_elem_of_filter. destruct (decide (x = w)); naive_solver.
Qed.

Lemma linked_drop w r : linked (worker_drop w r) = filter (λ x, x ≠ w) (linked r).
Proof. unfold linked. simpl. by rewrite list.filter_app. Qed.

Lemma worker_step_ok r r' :
  runtime_ok r → worker_step r r' →
  runtime_ok r' ∧ moved_list r' `sublist_of` moved_list r ∧ interrupted r' = interrupted r ∧
  (∀ w, w ∈ ended r → w ∈ ended r') ∧
  (∀ w, w ∈ moved_list r → w ∈ moved_list r' ∨ w ∈ ended r').
Proof.
  intros Hok Hs. revert Hok. destruct Hs as [w r0 Hw|w r0 Hw]; intros [Hn Hc]; simpl.
  - split; [|split_and!; auto]. assert (linked (spawn_entry w r0) ≡ₚ w :: linked r0) as Hp.
    { unfold linked. simpl. rewrite <- app_assoc. by rewrite Permutation_middle. }
    constructor; [rewrite Hp; by constructor|]. rewrite Hp. simpl. rewrite Hc.
    by rewrite Permutation_app_comm.
  - split; [|split_and!].
    + constructor; rewrite linked_drop; [by apply list.NoDup_filter|]. simpl.
      transitivity ((w :: filter (λ x, x ≠ w) (linked r0)) ++ ended r0).
      * by rewrite app_assoc, (Permutation_app_comm _ [w]).
      * by rewrite <- filter_remove_perm.
    + apply sublist_filter.
    + done.
    + intros x Hx. apply elem_of_app. by left.
    + intros x Hx. destruct (decide (x = w)) as [->|Hne].
      * right. apply elem_of_app. right. by apply list_elem_of_singleton.
      * left. by apply list_elem_of_filter.
Qed.

Lemma worker_steps_ok r r' :
  rtc worker_step r r' → runtime_ok r →
  runtime_ok r' ∧ moved_list r' `sublist_of` moved_list r ∧ interrupted r' = interrupted r ∧
  (∀ w, w ∈ ended r → w ∈ ended r') ∧
  (∀ w, w ∈ moved_list r → w ∈ moved_list r' ∨ w ∈ ended r').
Proof.
  induction 1 as [r|r1 r2 r3 Hs _ IH]; intros Hok; [split_and!; auto|].
  destruct (worker_step_ok _ _ Hok Hs) as (Hok2 & Hm2 & Hi2 & He2 & Hd2).
  destruct (IH Hok2) as (Hok3 & Hm3 & Hi3 & He3 & Hd3).
  split_and!; [done|by transitivity (moved_list r2)|congruence|auto|].
  intros w Hw. destruct (Hd2 w Hw) as [Hw2|Hw2]; [by apply Hd3|right; auto].
Qed.

Section Shutdown.
Context {U : Type} (fatal : Prop).
Local Abbreviation S := (Runtime * U)%type.
Context (context_interrupt : Worker → M S (Result unit)).

(** A measure of how long tasks can still resist being interrupted. *)
Context (patience : S → nat).

(** Interrupting a task may run it and others; it does not make them last
    longer. *)
Context (Hinterrupt : ∀ w s, wp fatal (context_interrupt w) s (λ _ s',
  rtc worker_step s.1 s'.1 ∧ (patience s' ≤ patience s)%nat)).

Context (Hpatience : ∀ f s, patience (f s.1, s.2) = patience s).

(** One round of interrupting ends, also when interrupted tasks keep spawning
    new ones: every worker that was there is interrupted or has ended by itself
    when its turn came, and those that did not end are linked to the runtime
    again. *)
Lemma interrupt_workers_spec fuel s :
  runtime_ok s.1 → (length (moved_list s.1) ≤ fuel)%nat →
  wp fatal (interrupt_workers context_interrupt fuel) s (λ _ s',
    runtime_ok s'.1 ∧ moved_list s'.1 = [] ∧ (patience s' ≤ patience s)%nat ∧
    (∀ w, w ∈ interrupted s.1 → w ∈ interrupted s'.1) ∧
    (∀ w, w ∈ ended s.1 → w ∈ ended s'.1) ∧
    (∀ w, w ∈ moved_list s.1 → w ∈ interrupted s'.1 ∨ w ∈ ended s'.1)).
Proof.
  revert s. induction fuel as [|fuel IH]; intros s Hok Hf;
    unfold interrupt_workers; try fold (interrupt_workers context_interrupt); wp_steps;
    destruct (moved_list s.1) as [|node rest] eqn:Em; simpl in Hf; try lia;
    try (wp_steps; split_and!; auto; set_solver).
  unfold on_runtime. wp_steps. cbn [fst snd].
  set (s1 := (log_interrupt node (relink node rest s.1), s.2)).
  assert (linked s1.1 ≡ₚ linked s.1) as Hl.
  { unfold linked. simpl. rewrite Em, <- app_assoc. done. }
  assert (runtime_ok s1.1) as Hok1.
  { destruct Hok as [Hn Hc]. constructor; [by rewrite Hl|]. by rewrite Hl. }
  eapply wp_mono; [apply Hinterrupt|]. intros ? s2 [Hs Hp].
  destruct (worker_steps_ok _ _ Hs Hok1) as (Hok2 & Hm2 & Hi2 & He2 & Hd2).
  assert (patience s1 = patience s) as Hp1.
  { exact (Hpatience (λ r, log_interrupt node (relink node rest r)) s). }
  eapply wp_mono; [apply IH; [done|]|].
  { apply sublist_length in Hm2. simpl in Hm2. lia. }
  intros _ s3 (Hok3 & Hm3 & Hp3 & Hi3 & He3 & Hd3). split_and!; auto; [lia| |].
  - intros w Hw. apply Hi3. rewrite Hi2. simpl. set_solver.
  - intros w [->|Hw]%elem_of_cons.
    + left. apply Hi3. rewrite Hi2. simpl. set_solver.
    + destruct (Hd2 w Hw); auto.
Qed.

(** One round of interrupting ends, also when interrupted tasks keep spawning
    new ones: every worker that was there is interrupted, or has ended before its
    turn came, and the list that is worked on is empty afterwards. *)
Theorem interrupt_round_reaches_all fuel s :
  runtime_ok s.1 → (length (moved_list s.1) ≤ fuel)%nat →
  wp fatal (interrupt_workers context_interrupt fuel) s (λ _ s',
    runtime_ok s'.1 ∧ moved_list s'.1 = [] ∧
    ∀ w, w ∈ moved_list s.1 → w ∈ interrupted s'.1 ∨ w ∈ ended s'.1).
Proof.
  intros Hok Hf. eapply wp_mono; [by apply interrupt_workers_spec|].
  intros _ s' (? & ? & _ & _ & _ & ?). done.
Qed.

Context (driver_exit : M S unit).

(** Once every task has been told to end, running the driver to its end gets
    them closer to it. *)
Context (Hexit : ∀ s, wp fatal driver_exit s (λ _ s',
  rtc worker_step s.1 s'.1 ∧ (linked s'.1 = [] ∨ (patience s' < patience s)%nat))).

Lemma runtime_drop_spec fuel s :
  runtime_ok s.1 → moved_list s.1 = [] →
  (linked s.1 = [] ∧ (0 < fuel)%nat) ∨ (patience s + 1 < fuel)%nat →
  wp fatal (runtime_drop context_interrupt driver_exit fuel) s (λ _ s',
    linked s'.1 = [] ∧ ended s'.1 ≡ₚ spawned s'.1).
Proof.
  revert s. induction fuel as [|fuel IH]; intros s Hok Hm Hf; [lia|].
  unfold runtime_drop; fold (runtime_drop context_interrupt driver_exit).
  unfold on_runtime. wp_steps. cbn [fst snd].
  set (s1 := (move_elements s.1, s.2)).
  assert (linked s1.1 ≡ₚ linked s.1) as Hl.
  { unfold linked. simpl. rewrite Hm. simpl. by rewrite app_nil_r. }
  assert (runtime_ok s1.1) as Hok1.
  { destruct Hok as [Hn Hc]. constructor; [by rewrite Hl|]. by rewrite Hl. }
  assert (patience s1 = patience s) as Hp1 by exact (Hpatience move_elements s).
  case_bool_decide as Hb.
  { wp_steps. assert (linked s1.1 = []) as Hnil by exact Hb.
    destruct Hok1 as [_ Hc]. rewrite Hnil in Hc. done. }
  wp_steps. eapply wp_mono; [by apply interrupt_workers_spec|].
  intros _ s2 (Hok2 & Hm2 & Hp2 & _ & _ & _). wp_steps.
  eapply wp_mono; [apply Hexit|]. intros ? s3 [Hs Hd].
  destruct (worker_steps_ok _ _ Hs Hok2) as (Hok3 & Hm3 & _).
  apply IH; [done| |].
  - rewrite Hm2 in Hm3. by apply sublist_nil_r in Hm3.
  - destruct Hf as [[Hnil _]|Hf].
    + exfalso. apply Hb. apply Permutation_nil_r. rewrite <- Hnil, <- Hl. unfold linked. done.
    + destruct Hd as [Hnil|Hlt]; [left; split; [done|lia]|right; lia].
Qed.

(** C15: dropping the runtime returns, and only after every worker that was ever
    spawned has ended exactly once and none is linked any more: no task outlives
    the runtime it refers to. *)
Theorem drop_waits_for_all fuel s :
  runtime_ok s.1 → moved_list s.1 = [] → (patience s + 1 < fuel)%nat →
  wp fatal (runtime_drop context_interrupt driver_exit fuel) s (λ _ s',
    linked s'.1 = [] ∧ ended s'.1 ≡ₚ spawned s'.1).
Proof. intros Hok Hm Hf. apply runtime_drop_spec; [done..|by right]. Qed.
End Shutdown.

(** ** A runtime on which the theorems apply

    An interrupted worker spawns another one; the tasks resist for some rounds
    of the driver's shutdown and then all end. *)

Module SimTasks.
Definition rstate : Type := (Runtime * nat)%type.

Definition stubborn (w : Worker) : M rstate (Result unit) := λ s,
  let w' := 1000 + w in
  if bool_decide (w' ∈ linked s.1) then Ret (Ok tt, s)
  else Ret (Ok tt, (spawn_entry w' s.1, s.2)).

Fixpoint end_all (fuel : nat) (r : Runtime) : Runtime :=
  match fuel, linked r with
  | S fuel, w :: _ => end_all fuel (worker_drop w r)
  | _, _ => r
  end.

Definition resist : M rstate unit := λ s,
  match s.2 with
  | S n => Ret (tt, (s.1, n))
  | O => Ret (tt, (end_all (length (linked s.1)) s.1, 0%nat))
  end.

Definition tasks : rstate := (mkRuntime [1; 2] [] [1; 2] [] [], 2%nat).

Lemma end_all_ends fuel r :
  (length (linked r) ≤ fuel)%nat →
  rtc worker_step r (end_all fuel r) ∧ linked (end_all fuel r) = [].
Proof.
  revert r. induction fuel as [|fuel IH]; intros r Hf; simpl.
  { split; [apply rtc_refl|]. by apply nil_length_inv; lia. }
  destruct (linked r) as [|w l] eqn:El; [split; [apply rtc_refl|done]|].
  destruct (IH (worker_drop w r)) as [Hs Hl].
  { rewrite linked_drop, El, filter_cons_False by naive_solver.
    pose proof (length_filter (λ x, x ≠ w) l). simpl in Hf. lia. }
  split; [|done]. eapply rtc_l; [apply (step_end w)|done]. rewrite El. by left.
Qed.

Lemma stubborn_ok w s :
  wp False (stubborn w) s (λ _ s', rtc worker_step s.1 s'.1 ∧ (s'.2 ≤ s.2)%nat).
Proof.
  unfold stubborn, wp. case_bool_decide; simpl; (split; [|lia]); [apply rtc_refl|].
  by apply rtc_once, step_spawn.
Qed.

Lemma resist_ok s :
  wp False resist s (λ _ s',
    rtc worker_step s.1 s'.1 ∧ (linked s'.1 = [] ∨ (s'.2 < s.2)%nat)).
Proof.
  unfold resist, wp. destruct s as [r [|n]]; simpl.
  - destruct (end_all_ends (length (linked r)) r); [lia|]. split; [done|by left].
  - split; [apply rtc_refl|right; lia].
Qed.

Lemma tasks_ok : runtime_ok tasks.1.
Proof. constructor; [|done]. repeat constructor; set_solver. Qed.
End SimTasks.

Lemma interrupt_round_reaches_all_witness :
  wp False (interrupt_workers SimTasks.stubborn 2)
    (mkRuntime [] [1; 2] [1; 2] [] [], 2%nat) (λ _ s',
    runtime_ok s'.1 ∧ moved_list s'.1 = [] ∧
    ∀ w, w ∈ [1; 2] → w ∈ interrupted s'.1 ∨ w ∈ ended s'.1).
Proof.
  apply (interrupt_round_reaches_all False SimTasks.stubborn snd) with
    (s := (mkRuntime [] [1; 2] [1; 2] [] [], 2%nat)).
  - apply SimTasks.stubborn_ok.
  - reflexivity.
  - constructor; [repeat constructor; set_solver|done].
  - reflexivity.
Defined.

Lemma drop_waits_for_all_witness :
  wp False (runtime_drop SimTasks.stubborn SimTasks.resist 4) SimTasks.tasks (λ _ s',
    linked s'.1 = [] ∧ ended s'.1 ≡ₚ spawned s'.1).
Proof.
  apply (drop_waits_for_all False SimTasks.stubborn snd).
  - apply SimTasks.stubborn_ok.
  - reflexivity.
  - apply SimTasks.resist_ok.
  - apply SimTasks.tasks_ok.
  - reflexivity.
  - simpl. lia.
Defined.
