(* ===== verification/Start.v ===== *)
(** * Starting a runtime (src/src/runtime.rs, src/src/driver.rs, src/src/engine)

    [Runtime::new] creates an engine and a driver around it, puts the runtime in a
    pinned box and tells its parts their addresses.  The theorem: what it yields is in
    the state the theorems about the engine, the driver and the runtime start from, and
    what fails leaves nothing behind. *)

From stdpp Require Import base gmap list numbers tactics.
From S2P Require Import Prelude Queue Engine Uring UringSpec UringWork Setup Driver Runtime.

(** The fields of [Runtime] but the executor, and where the executor finds its pool. *)
Record PulseRuntime (P : Type) : Type := mkPulseRuntime {
  rt_driver : Driver;
  rt_engine : Created P;
  rt_workers : Runtime;
  executor_pool : option Z
}.

Arguments mkPulseRuntime {P} _ _ _ _.
Arguments rt_driver {P} _.
Arguments rt_engine {P} _.
Arguments rt_workers {P} _.
Arguments executor_pool {P} _.

(** The list that holds no worker yet. *)
Definition no_workers : Runtime := mkRuntime [] [] [] [] [].

(** [Pin] for [Engine] and [Driver] *)
Definition Engine_pin {P} (address : Z) (inner : Created P) : Created P := IoUring_pin address inner.
Definition Driver_pin {P} (address : Z) (io_engine : Created P) : Created P :=
  Engine_pin address io_engine.

(** [Pin for Runtime], with the addresses of the fields [pool] and [driver] *)
Definition Runtime_pin {P} (pool engine : Z) (self : PulseRuntime P) : PulseRuntime P :=
  mkPulseRuntime (rt_driver self) (Driver_pin engine (rt_engine self)) (rt_workers self)
    (Some pool).

Section Start.
Context {S P : Type} (engine_new : M S (Result (Created P))).
(** The box: the addresses of the pool and of the engine in it. *)
Context (new_box : M S (Z * Z)).

(** [Engine::new]; the only engine is io_uring. *)
Definition Engine_new : M S (Result (Created P)) :=
  inner ←? engine_new;
  mret (Ok inner).

Definition Driver_new : M S (Result (Driver * Created P)) :=
  io_engine ←? Engine_new;
  mret (Ok (new_driver, io_engine)).

Definition Runtime_new : M S (Result (PulseRuntime P)) :=
  driver ←? Driver_new;
  let runtime := mkPulseRuntime driver.1 driver.2 no_workers None in
  box ← new_box;
  mret (Ok (Runtime_pin box.1 box.2 runtime)).
End Start.

Section Ready.
Context {S P : Type} (fatal : Prop).
Context (io_uring_detect_features : M S (Result (option IoRingFeatures))).
Context (log : Message → M S unit).
Context (io_uring_setup : SetupParameters → M S (OsResult (Z * Parameters))).
Context (thread_pool_new : M S (Result P)) (drop_pool : P → M S unit).
Context (drop_fd : Z → M S unit) (eventfd_new : M S (Result Z)).
Context (overflow_checks : bool) (szc szs : Z).
Context (mmap : Z → MmapOffsets → Z → OsResult Map) (ring_memory : S → Rings → RingMemory).
Context (new_box : M S (Z * Z)) (open_fds : S → gset Z) (pools : S → nat).
Context (laws : setup_laws fatal io_uring_detect_features log io_uring_setup thread_pool_new
  drop_pool drop_fd eventfd_new szc szs ring_memory open_fds pools).
Context (Hbox : ∀ s, wp fatal new_box s (λ _ s', owns open_fds pools (open_fds s) (pools s) s')).

Local Abbreviation IoUring_new := (IoUring_new io_uring_detect_features log io_uring_setup
  thread_pool_new drop_pool drop_fd eventfd_new overflow_checks szc szs mmap ring_memory).

(** C20: [Runtime::new] yields a runtime all of whose parts are ready: an engine in the
    state from which its operations are proved correct, which owns its ring, its event
    descriptor and its thread pool and whose event request knows it before it can be
    delivered, a driver with no timer that is not exiting, and no worker.  If anything on
    the way fails (detecting the features, setting up or mapping the rings, the event
    descriptor, the pool), every descriptor and thread it got is given back. *)
Theorem new_runtime_ready s :
  wp fatal (Runtime_new IoUring_new new_box) s (λ r s',
    match r with
    | Ok rt => let c := rt_engine rt in
        (ring_fd c ∉ open_fds s) ∧ (event_fd_raw c ∉ open_fds s) ∧ ring_fd c ≠ event_fd_raw c ∧
        owns open_fds pools ({[ ring_fd c; event_fd_raw c ]} ∪ open_fds s)
          (Datatypes.S (pools s)) s' ∧
        (∀ K U (view : KernelView K) event_request (k : K) (u : U), taken k = [] → posted k = [] →
          engine_ok event_request
            (bool_decide (SubmitAll ∈ req_flags (setup_params (features (created_engine c)))))
            (mkWorld (created_engine c) k u [] [])) ∧
        is_Some (event_arg c) ∧ is_Some (executor_pool rt) ∧
        timers (rt_driver rt) = [] ∧ exiting (rt_driver rt) = false ∧
        runtime_ok (rt_workers rt) ∧ linked (rt_workers rt) = []
    | Err _ => owns open_fds pools (open_fds s) (pools s) s'
    end).
Proof.
  unfold Runtime_new, Driver_new, Engine_new. wp_steps.
  eapply wp_mono; [apply (IoUring_new_spec fatal), laws|].
  intros [c|e] s1 H1; simpl; wp_steps; [|done].
  eapply wp_mono; [apply Hbox|]. intros [pool addr] s2 [E1 E2]. wp_steps. simpl in *.
  destruct H1 as (? & ? & ? & [E3 E4] & Hok). split_and!; try done.
  - split; congruence.
  - by split; [constructor|].
Qed.
End Ready.

Lemma new_runtime_ready_witness :
  let new := IoUring_new SimSetup.detect SimSetup.note SimSetup.setup SimSetup.pool_new
    (λ _, SimSetup.set_pools pred) SimSetup.close_fd SimSetup.event_new true 16 64
    (λ _, sample_mmap) (λ _ _, sample_memory) in
  wp False (Runtime_new new (mret (4096, 8192))) SimSetup.process (λ r s',
    match r with
    | Ok rt => let c := rt_engine rt in
        (ring_fd c ∉ SimSetup.p_open SimSetup.process) ∧
        (event_fd_raw c ∉ SimSetup.p_open SimSetup.process) ∧ ring_fd c ≠ event_fd_raw c ∧
        owns SimSetup.p_open SimSetup.p_pools
          ({[ ring_fd c; event_fd_raw c ]} ∪ SimSetup.p_open SimSetup.process) 1 s' ∧
        (∀ K U (view : KernelView K) event_request (k : K) (u : U), taken k = [] → posted k = [] →
          engine_ok event_request
            (bool_decide (SubmitAll ∈ req_flags (setup_params (features (created_engine c)))))
            (mkWorld (created_engine c) k u [] [])) ∧
        is_Some (event_arg c) ∧ is_Some (executor_pool rt) ∧
        timers (rt_driver rt) = [] ∧ exiting (rt_driver rt) = false ∧
        runtime_ok (rt_workers rt) ∧ linked (rt_workers rt) = []
    | Err _ => owns SimSetup.p_open SimSetup.p_pools (SimSetup.p_open SimSetup.process) 0 s'
    end).
Proof.
  apply (new_runtime_ready False SimSetup.detect SimSetup.note SimSetup.setup SimSetup.pool_new
    (λ _, SimSetup.set_pools pred) SimSetup.close_fd SimSetup.event_new true 16 64
    (λ _, sample_mmap) (λ _ _, sample_memory) (mret (4096, 8192)) SimSetup.p_open
    SimSetup.p_pools).
  - apply sim_setup_laws.
  - intros s. split; reflexivity.
Defined.
