(* ===== verification/MainMacro.v ===== *)
(** * The main attribute (src/macros/src/lib.rs)

    [#[main]] turns an asynchronous function into one that starts a runtime at the
    first statement that awaits.  Rust's syntax is a tree in which the constructs the
    visitor [HasAwait] treats in its own way are told apart; the parts of a macro call
    are those [visit_macro_body] of xx-macros recognises.  The theorems: the statements
    of the expanded function await nothing, so that it is a function, and running it
    does and returns what the statements of the original do, from the first one that
    awaits on in a runtime that it starts, or panics if the runtime cannot be started. *)

From Stdlib Require Import String.
From stdpp Require Import base list strings tactics.
From S2P Require Import Prelude.
Local Open Scope string_scope.
Local Open Scope list_scope.

(** Expressions, statements and what they are made of; [Tree] is every other construct. *)
Inductive node : Type :=
| Token (text : string)
| Tree (parts : list node)
| Await (base : node)
| AsyncBlock (stmts : list node)
| Closure (body : node)
| Item (parts : list node)
| MacroCall (name : string) (body : list node).

(** [HasAwait]: the flag is set by an await; what belongs to items, [async] blocks and
    closures is not visited. *)
Fixpoint visit (n : node) (self : bool) : bool :=
  match n with
  | Token _ => self
  | Tree parts => fold_left (λ self p, visit p self) parts self
  | Await _ => true
  | AsyncBlock _ => self
  | Closure _ => self
  | Item _ => self
  | MacroCall _ body => fold_left (λ self p, visit p self) body self
  end.

Definition has_await (stmt : node) : bool := visit stmt false.

(** [ItemFn]: the attributes, whether it is [async], the rest of its signature, and the
    statements of its block. *)
Record ItemFn : Type := mkItemFn {
  fn_attrs : list string;
  fn_asyncness : bool;
  fn_sig : list node;
  fn_stmts : list node
}.

(** [Iterator::position] *)
Fixpoint position {A} (f : A → bool) (l : list A) : option nat :=
  match l with
  | [] => None
  | x :: l => if f x then Some O else Datatypes.S <$> position f l
  end.

Definition asynchronous_sync : string := "#[::xx_pulse::asynchronous(sync)]".

(** The expression of the quoted block *)
Definition runtime_call (block : list node) : node :=
  Tree [Token "::xx_pulse::Runtime::new()"; Token ".expect(Failed to start runtime)";
        Token ".block_on"; AsyncBlock block].

(** The quoted block: [sync], then the call. *)
Definition expand (func : ItemFn) : ItemFn :=
  let attrs := fn_attrs func ++ [asynchronous_sync] in
  let stmts :=
    match position has_await (fn_stmts func) with
    | Some pos => take pos (fn_stmts func) ++ [runtime_call (drop pos (fn_stmts func))]
    | None => fn_stmts func
    end in
  mkItemFn attrs false (fn_sig func) stmts.

(** [parse2] of syn and [require_empty] of xx-macros are parameters. *)
Definition main_attribute {T E} (parse2 : T → result ItemFn E) (require_empty : T → result unit E)
    (attr item : T) : result ItemFn E :=
  match parse2 item with
  | Err e => Err e
  | Ok func =>
      match require_empty attr with
      | Err e => Err e
      | Ok _ => Ok (expand func)
      end
  end.

(** ** Awaits *)

(** An await that belongs to the code itself. *)
Inductive awaits : node → Prop :=
| awaits_here base : awaits (Await base)
| awaits_tree p parts : p ∈ parts → awaits p → awaits (Tree parts)
| awaits_macro p name body : p ∈ body → awaits p → awaits (MacroCall name body).

Section NodeInd.
Context (P : node → Prop).
Context (Htoken : ∀ t, P (Token t)) (Htree : ∀ ps, Forall P ps → P (Tree ps)).
Context (Hawait : ∀ b, P (Await b)) (Hasync : ∀ ps, P (AsyncBlock ps)).
Context (Hclosure : ∀ b, P (Closure b)) (Hitem : ∀ ps, P (Item ps)).
Context (Hmacro : ∀ m ps, Forall P ps → P (MacroCall m ps)).

(** Induction into the parts that are visited. *)
Fixpoint node_visited_ind (n : node) : P n :=
  let all := fix all ps : Forall P ps :=
    match ps with
    | [] => Forall_nil_2 P
    | p :: ps => Forall_cons_2 P p ps (node_visited_ind p) (all ps)
    end in
  match n with
  | Token t => Htoken t
  | Tree ps => Htree ps (all ps)
  | Await b => Hawait b
  | AsyncBlock ps => Hasync ps
  | Closure b => Hclosure b
  | Item ps => Hitem ps
  | MacroCall m ps => Hmacro m ps (all ps)
  end.
End NodeInd.

Lemma visit_parts (parts : list node) :
  Forall (λ p, ∀ self, visit p self = true ↔ self = true ∨ awaits p) parts →
  ∀ self, fold_left (λ self p, visit p self) parts self = true ↔
    self = true ∨ ∃ p, p ∈ parts ∧ awaits p.
Proof.
  induction 1 as [|p parts Hp _ IH]; intros self; simpl.
  - split; [auto|]. intros [H|(p & Hp & _)]; [done|]. by apply elem_of_nil in Hp.
  - rewrite IH, Hp. setoid_rewrite elem_of_cons. naive_solver.
Qed.

Lemma visit_spec n self : visit n self = true ↔ self = true ∨ awaits n.
Proof.
  revert self. induction n as [t|ps IH|b|ps|b|ps|m ps IH] using node_visited_ind; intros self; simpl.
  all: try (rewrite visit_parts by done).
  all: split; [intros H; try destruct H as [H|(p & Hp & Ha)]; eauto using awaits|].
  all: intros [H|H]; [auto; done|inversion H; subst; eauto].
Qed.

Lemma has_await_spec stmt : has_await stmt = true ↔ awaits stmt.
Proof. unfold has_await. rewrite visit_spec. naive_solver. Qed.

Lemma position_split {A} (f : A → bool) (l : list A) pos :
  position f l = Some pos →
  Forall (λ x, f x = false) (take pos l) ∧ ∃ x, l !! pos = Some x ∧ f x = true.
Proof.
  revert pos. induction l as [|x l IH]; intros pos; simpl; [done|].
  destruct (f x) eqn:E; [intros [= <-]; split; [constructor|eauto]|].
  destruct (position f l) as [p|]; simpl; [|done]. intros [= <-]. simpl.
  destruct (IH p eq_refl) as [? ?]. split; [by constructor|done].
Qed.

Lemma position_none {A} (f : A → bool) (l : list A) :
  position f l = None → Forall (λ x, f x = false) l.
Proof.
  induction l as [|x l IH]; simpl; [constructor|]. destruct (f x) eqn:E; [done|].
  destruct (position f l); [done|]. intros _. constructor; auto.
Qed.

(** The expanded function is no longer asynchronous and awaits nothing itself: all
    awaits are in the block that its runtime runs, which starts at the first statement
    that awaits and keeps the statements and their order. *)
Theorem expansion_awaits_nothing func :
  fn_asyncness (expand func) = false ∧
  Forall (λ stmt, ¬ awaits stmt) (fn_stmts (expand func)) ∧
  (Forall (λ stmt, ¬ awaits stmt) (fn_stmts func) ∧ fn_stmts (expand func) = fn_stmts func ∨
   ∃ sync stmt rest, fn_stmts func = sync ++ stmt :: rest ∧ awaits stmt ∧
     fn_stmts (expand func) = sync ++ [runtime_call (stmt :: rest)]).
Proof.
  split; [done|]. unfold expand. simpl.
  assert (∀ l, Forall (λ x, has_await x = false) l → Forall (λ stmt, ¬ awaits stmt) l) as Hno.
  { intros l. apply Forall_impl. intros x. rewrite <- has_await_spec. by intros ->. }
  destruct (position _ _) as [pos|] eqn:E.
  - destruct (position_split _ _ _ E) as (Hs & stmt & Hl & Ha). split.
    + apply Forall_app. split; [by apply Hno|]. repeat constructor. intros H.
      by apply has_await_spec in H.
    + right. exists (take pos (fn_stmts func)), stmt, (drop (Datatypes.S pos) (fn_stmts func)).
      rewrite (drop_S _ _ _ Hl), <- has_await_spec. split_and!; [|done|done].
      by rewrite <- (drop_S _ _ _ Hl), take_drop.
  - apply position_none, Hno in E. auto.
Qed.

(** ** Running it *)

Section Running.
Context {S V : Type} (unit_value : V).

(** How a statement ends: with the next one, as the value of the block, or by returning. *)
Inductive Flow : Type := Next | Value (v : V) | Return (v : V).

(** What a statement does, in asynchronous code ([true]) or in a plain function. *)
Context (run_stmt : bool → node → M S Flow).

Fixpoint run_block (async : bool) (stmts : list node) : M S Flow :=
  match stmts with
  | [] => mret Next
  | stmt :: stmts =>
      flow ← run_stmt async stmt;
      match flow with
      | Next => run_block async stmts
      | _ => mret flow
      end
  end.

(** The value of a function or of an [async] block *)
Definition flow_value (flow : Flow) : V :=
  match flow with Next => unit_value | Value v => v | Return v => v end.

(** A function runs in asynchronous code if it is [async]. *)
Definition run_fn (func : ItemFn) : M S V :=
  flow ← run_block (fn_asyncness func) (fn_stmts func); mret (flow_value flow).

(** [Runtime::new] and the drop of the runtime (Start.v, Runtime.v). *)
Context (runtime_new : M S (Result unit)) (runtime_drop : M S unit).

(** What the quoted call does: it starts a runtime, or panics if that fails; the runtime runs
    the block to its end, hands over its value and is dropped. *)
Definition run_runtime (block : list node) : M S Flow :=
  r ← runtime_new;
  match r with
  | Err _ => panic
  | Ok _ =>
      flow ← run_block true block;
      runtime_drop;;
      mret (Value (flow_value flow))
  end.

Context (Hcall : ∀ block s, run_stmt false (runtime_call block) s = run_runtime block s).

(** A statement that awaits nothing does the same in either kind of code; of one that does,
    nothing is known in a plain function, where it does not compile. *)
Context (Hsync : ∀ stmt s, ¬ awaits stmt → run_stmt false stmt s = run_stmt true stmt s).

Lemma run_block_app async l1 l2 s :
  run_block async (l1 ++ l2) s =
  (flow ← run_block async l1; match flow with Next => run_block async l2 | _ => mret flow end) s.
Proof.
  revert s. induction l1 as [|x l1 IH]; intros s; [done|]. simpl. unfold mbind, M_bind in *.
  by destruct (run_stmt async x s) as [[[] s1]| | | |].
Qed.

Lemma run_block_sync l s :
  Forall (λ stmt, ¬ awaits stmt) l → run_block false l s = run_block true l s.
Proof.
  intros Hl. revert s. induction Hl as [|x l Hx _ IH]; intros s; [done|]. simpl.
  unfold mbind, M_bind. rewrite (Hsync x s Hx). by destruct (run_stmt true x s) as [[[] s1]| | | |].
Qed.

(** What the expanded function does, when [sync] are the statements before the first one
    that awaits and [rest] the others. *)
Definition run_split (sync rest : list node) : M S V :=
  flow ← run_block true sync;
  match flow with
  | Next =>
      match rest with
      | [] => mret unit_value
      | _ => flow ← run_runtime rest; mret (flow_value flow)
      end
  | _ => mret (flow_value flow)
  end.

(** The statements are split at the first one that awaits. *)
Definition split_at_await (stmts sync rest : list node) : Prop :=
  stmts = sync ++ rest ∧ Forall (λ stmt, ¬ awaits stmt) sync ∧
  match rest with [] => True | stmt :: _ => awaits stmt end.

Lemma expansion_splits func s :
  ∃ sync rest, split_at_await (fn_stmts func) sync rest ∧
    run_fn (expand func) s = run_split sync rest s.
Proof.
  destruct (expansion_awaits_nothing func)
    as (Ha & Hno & [[Hall E]|(sync & stmt & rest & E & Hst & E')]).
  - exists (fn_stmts func), []. split; [split_and!; [by rewrite app_nil_r|done|done]|].
    unfold run_fn, run_split. rewrite Ha, E. unfold mbind, M_bind. rewrite run_block_sync by done.
    by destruct (run_block true (fn_stmts func) s) as [[[] s1]| | | |].
  - rewrite E' in Hno. apply Forall_app in Hno as [Hno _].
    exists sync, (stmt :: rest). split; [done|].
    unfold run_fn, run_split. rewrite Ha, E'. unfold mbind, M_bind. rewrite run_block_app.
    unfold mbind, M_bind. rewrite run_block_sync by done.
    destruct (run_block true sync s) as [[[] s1]| | | |]; try done. simpl.
    unfold mbind, M_bind. rewrite Hcall. by destruct (run_runtime (stmt :: rest) s1) as [[[] s2]| | | |].
Qed.

(** With a runtime that starts, and leaves no trace, that is what the [async] function does. *)
Lemma run_split_async func sync rest s :
  fn_asyncness func = true → fn_stmts func = sync ++ rest →
  (∀ s, runtime_new s = Ret (Ok tt, s)) → (∀ s, runtime_drop s = Ret (tt, s)) →
  run_split sync rest s = run_fn func s.
Proof.
  intros Ha E Hnew Hdrop. unfold run_fn, run_split, run_runtime. rewrite Ha, E.
  unfold mbind, M_bind. rewrite run_block_app. unfold mbind, M_bind.
  destruct (run_block true sync s) as [[[] s1]| | | |]; try done.
  destruct rest as [|stmt rest]; [done|]. rewrite Hnew.
  destruct (run_block true (stmt :: rest) s1) as [[[] s2]| | | |]; try done; by rewrite Hdrop.
Qed.

(** C35: the function that [main] makes of an [async] function is a plain one.  It runs the
    statements up to the first one that awaits, also through macros but not inside of
    closures, items and [async] blocks; then it starts a runtime, or panics if that fails,
    and the runtime runs the rest, so that no statement awaits outside of a runtime.  It
    does what the statements of the original do, in their order, and returns the same
    value, also when a statement returns early. *)
Theorem expansion_runs_same func s :
  fn_asyncness func = true →
  fn_asyncness (expand func) = false ∧
  (∃ sync rest, split_at_await (fn_stmts func) sync rest ∧
    run_fn (expand func) s = run_split sync rest s) ∧
  ((∀ s, runtime_new s = Ret (Ok tt, s)) → (∀ s, runtime_drop s = Ret (tt, s)) →
    run_fn (expand func) s = run_fn func s).
Proof.
  intros Ha. destruct (expansion_splits func s) as (sync & rest & Hs & E).
  split_and!; [done|by exists sync, rest|]. intros Hnew Hdrop. rewrite E.
  by apply run_split_async; [|apply Hs|..].
Qed.
End Running.

(** ** A function on which the theorem applies *)

Module SimMain.
(** A statement that logs a number, and awaits or returns. *)
Definition log (t : string) : node := Tree [Token t; Token ";"].
Definition log_await (t : string) : node := Tree [Await (Token t); Token ";"].
Definition return_ (t : string) : node := Tree [Token "return"; Token t].

(** The statements of a function with an await in a closure, then one of its own. *)
Definition sample : ItemFn :=
  mkItemFn [] true []
    [log "one"; Tree [Closure (log_await "not yet"); Token ";"]; log_await "two"; return_ "three";
     log "four"].

(** Awaiting in a plain function is an error. *)
Fixpoint run (async : bool) (stmt : node) : M (list string) (Flow (V := string)) :=
  match stmt with
  | Tree [Token _; Token _; Token _; AsyncBlock block] =>
      flow ← run_block run true block; mret (Value (flow_value "unit" flow))
  | Tree [Await (Token t); Token _] =>
      if async then (modify (λ l, l ++ [t]);; mret Next) else panic
  | Tree [Token t; Token v] =>
      if bool_decide (t = "return") then mret (Return v)
      else modify (λ l, l ++ [t]);; mret Next
  | _ => mret Next
  end.

Lemma run_sync stmt s : ¬ awaits stmt → run false stmt s = run true stmt s.
Proof.
  intros Ha. destruct stmt as [|parts| | | | |]; try done.
  destruct parts as [|[] [|[] [|[] [|[] []]]]]; try done. all: try (destruct base; done).
  all: exfalso; apply Ha; eapply awaits_tree; [left|constructor].
Qed.
End SimMain.

Lemma expansion_runs_same_witness :
  run_fn "unit" SimMain.run (expand SimMain.sample) [] = Ret ("three", ["one"; "two"]) ∧
  run_fn "unit" SimMain.run (expand SimMain.sample) [] = run_fn "unit" SimMain.run SimMain.sample [].
Proof.
  split; [vm_compute; reflexivity|].
  by apply (expansion_runs_same "unit" SimMain.run (mret (Ok tt)) (mret tt) ltac:(done)
    SimMain.run_sync SimMain.sample []).
Defined.
